(** * BST: a static-site asset builder (build.ts, src/index.ts)

    A shallow embedding of the build pipeline: path arithmetic, the
    document tree and its rewrites, the style and script transforms, the
    output map and the orchestrating loop of [build.ts], followed by the
    properties of the pipeline.

    External collaborators (HTML parser and serializer, minifiers, the
    Sass engine, the bundler, the TypeScript printer, glob matching, JSON
    parsing) are taken as parameters, bundled in the record [Tools].
    The runtime's [node:path] functions are modelled in [Module Path]
    after the POSIX implementation the runtime ships. *)

From Stdlib Require Import String Ascii List Bool Arith Lia.
Import ListNotations.
Open Scope string_scope.
Open Scope list_scope.

Set Implicit Arguments.

(** String concatenation, JavaScript's [+] on strings. *)
Infix "+++" := String.append (right associativity, at level 60).

(* ===================================================================== *)
(** ** JavaScript string primitives used by the sources                   *)
(* ===================================================================== *)

Module JS.

(** [s.split(sep)] for a one-character separator: never empty,
    [''.split(' ')] is [['']]. *)
Fixpoint split (sep : ascii) (s : string) : list string :=
  match s with
  | EmptyString => [EmptyString]
  | String c r =>
      if Ascii.eqb c sep then EmptyString :: split sep r
      else match split sep r with
           | h :: t => String c h :: t
           | [] => [String c EmptyString]
           end
  end.

(** [arr.join(sep)]. *)
Fixpoint join (sep : string) (l : list string) : string :=
  match l with
  | [] => EmptyString
  | [x] => x
  | x :: r => x +++ sep +++ join sep r
  end.

(** [s.startsWith(p)]. *)
Fixpoint startsWith (p s : string) : bool :=
  match p, s with
  | EmptyString, _ => true
  | String _ _, EmptyString => false
  | String a p', String b s' => Ascii.eqb a b && startsWith p' s'
  end.

Definition rev_string (s : string) : string :=
  string_of_list_ascii (rev (list_ascii_of_string s)).

(** [s.endsWith(p)]. *)
Definition endsWith (p s : string) : bool :=
  startsWith (rev_string p) (rev_string s).

(** [s.slice(0, s.length - n)]. *)
Definition dropEnd (n : nat) (s : string) : string :=
  String.substring 0 (String.length s - n) s.

(** Membership in a list of strings, by string equality. *)
Definition mem (x : string) (l : list string) : bool :=
  existsb (String.eqb x) l.

End JS.

(* ===================================================================== *)
(** ** node:path, POSIX flavour                                           *)
(* ===================================================================== *)

Module Path.

Definition slash : ascii := "/"%char.
Definition dot : ascii := "."%char.

(** One step of [normalizeString]: the segments kept so far are held
    most recent first. An empty segment or [.] is dropped; [..] removes
    the previous segment unless there is none or it is itself [..], in
    which case it is kept only when the path may climb above its root. *)
Definition normStep (allowAboveRoot : bool) (stack : list string)
    (seg : string) : list string :=
  if (seg =? EmptyString) || (seg =? ".") then stack
  else if seg =? ".." then
    match stack with
    | top :: rest =>
        if top =? ".." then (if allowAboveRoot then seg :: stack else stack)
        else rest
    | [] => if allowAboveRoot then [seg] else []
    end
  else seg :: stack.

Definition normSegs (allowAboveRoot : bool) (segs : list string)
    : list string :=
  rev (fold_left (normStep allowAboveRoot) segs []).

Definition normalizeString (path : string) (allowAboveRoot : bool)
    : string :=
  JS.join "/" (normSegs allowAboveRoot (JS.split slash path)).

Definition isAbsolute (path : string) : bool := JS.startsWith "/" path.

(** [path.normalize]. *)
Definition normalize (path : string) : string :=
  if path =? EmptyString then "."
  else
    let trailingSeparator := JS.endsWith "/" path in
    let p := normalizeString path (negb (isAbsolute path)) in
    if p =? EmptyString then
      if isAbsolute path then "/"
      else if trailingSeparator then "./" else "."
    else
      let p' := if trailingSeparator then p +++ "/" else p in
      if isAbsolute path then "/" +++ p' else p'.

(** [path.join(...args)]: the non-empty arguments joined by [/], then
    normalized. *)
Definition join (args : list string) : string :=
  match filter (fun a => negb (a =? EmptyString)) args with
  | [] => "."
  | nonEmpty => normalize (JS.join "/" nonEmpty)
  end.

(** The segments of [path.resolve(p)] below the root, for the working
    directory [cwd] (an absolute path). *)
Definition resolveSegs (cwd p : string) : list string :=
  let full :=
    if p =? EmptyString then cwd
    else if isAbsolute p then p
    else cwd +++ "/" +++ p in
  normSegs false (JS.split slash full).

(** [path.resolve(p)]. *)
Definition resolve (cwd p : string) : string :=
  "/" +++ JS.join "/" (resolveSegs cwd p).

(** Length of the longest common prefix of two segment lists. *)
Fixpoint common (a b : list string) : nat :=
  match a, b with
  | x :: a', y :: b' => if x =? y then S (common a' b') else 0
  | _, _ => 0
  end.

(** [path.relative(from, to)]: one [..] for each segment of [from]
    below the common ancestor, then the rest of [to]. *)
Definition relative (cwd from to : string) : string :=
  if from =? to then EmptyString
  else
    let f := resolveSegs cwd from in
    let t := resolveSegs cwd to in
    let k := common f t in
    JS.join "/" (repeat ".." (List.length f - k) ++ skipn k t).

(** Characters of [path] in reverse, without the trailing slashes. *)
Fixpoint dropSlashes (l : list ascii) : list ascii :=
  match l with
  | c :: r => if Ascii.eqb c slash then dropSlashes r else l
  | [] => []
  end.

(** Split a reversed path at its last slash: the last component
    (reversed) and what precedes it (reversed, starting at that slash). *)
Fixpoint spanName (l : list ascii) : list ascii * list ascii :=
  match l with
  | c :: r =>
      if Ascii.eqb c slash then ([], l)
      else let (n, rest) := spanName r in (c :: n, rest)
  | [] => ([], [])
  end.

(** [path.dirname]. *)
Definition dirname (path : string) : string :=
  if path =? EmptyString then "."
  else
    let hasRoot := isAbsolute path in
    let (_, rest) := spanName (dropSlashes (rev (list_ascii_of_string path))) in
    match rest with
    | [] => if hasRoot then "/" else "."
    | _ :: before =>
        match before with
        | [] => "/"
        | [_] => if hasRoot then "//" else string_of_list_ascii (rev before)
        | _ => string_of_list_ascii (rev before)
        end
    end.

(** [path.basename(path)], without a suffix argument. *)
Definition basename (path : string) : string :=
  let (name, _) := spanName (dropSlashes (rev (list_ascii_of_string path))) in
  string_of_list_ascii (rev name).

(** The reversed extension of a reversed name: the characters after the
    last dot, with that dot, and what is left of the dot. *)
Fixpoint spanExt (l : list ascii) : option (list ascii * list ascii) :=
  match l with
  | c :: r =>
      if Ascii.eqb c dot then Some ([c], r)
      else match spanExt r with
           | Some (e, pre) => Some (c :: e, pre)
           | None => None
           end
  | [] => None
  end.

(** [path.extname]: from the last dot of the last component to its end;
    empty when there is no dot, when the only dot opens the component,
    and for the component [..]. *)
Definition extname (path : string) : string :=
  let (name, _) := spanName (dropSlashes (rev (list_ascii_of_string path))) in
  match spanExt name with
  | None => EmptyString
  | Some (e, pre) =>
      match pre with
      | [] => EmptyString
      | _ =>
          if (string_of_list_ascii (rev name) =? "..") then EmptyString
          else string_of_list_ascii (rev e)
      end
  end.

End Path.

(* ===================================================================== *)
(** ** Output paths: the extension substitutions of build.ts              *)
(* ===================================================================== *)

(** [cssPath.replace(/\.(s[ac]|c)ss$/, '.css')]: the pattern is anchored
    at the end, so it matches exactly a final [.sass], [.scss] or [.css]. *)
Definition cssBuiltPath (cssPath : string) : string :=
  if JS.endsWith ".sass" cssPath || JS.endsWith ".scss" cssPath
  then JS.dropEnd 5 cssPath +++ ".css"
  else if JS.endsWith ".css" cssPath
  then JS.dropEnd 4 cssPath +++ ".css"
  else cssPath.

(** [jsPath.replace(/\.tsx?$/, '.js')]. *)
Definition jsBuiltPath (jsPath : string) : string :=
  if JS.endsWith ".ts" jsPath then JS.dropEnd 3 jsPath +++ ".js"
  else if JS.endsWith ".tsx" jsPath then JS.dropEnd 4 jsPath +++ ".js"
  else jsPath.

(** [path.extname(file).match(/\.(html|s[ac]ss|tsx?)$/)], as a boolean. *)
Definition isBuildSource (file : string) : bool :=
  let ext := Path.extname file in
  JS.endsWith ".html" ext || JS.endsWith ".sass" ext || JS.endsWith ".scss" ext
  || JS.endsWith ".ts" ext || JS.endsWith ".tsx" ext.

(** [importMapper] of build.ts. *)
Definition importMapper (base src : string) : string :=
  if JS.startsWith "/" src then src else Path.join [base; src].

(** [importDemapper] of build.ts; [path.relative] resolves both paths
    against the working directory [cwd] of the process. *)
Definition importDemapper (cwd base src : string) : string :=
  Path.relative cwd base src.

(* ===================================================================== *)
(** ** Documents (domhandler) and the DomUtils operations used            *)
(* ===================================================================== *)

(** A JavaScript object with string values: its own keys in insertion
    order. A key whose value is [undefined] reads the same as an absent
    key and is carried as an absent key. *)
Definition Obj := list (string * string).

(** An element's [attribs]. *)
Definition Attribs := Obj.

(** [o[k]]. *)
Fixpoint getProp (k : string) (a : Obj) : option string :=
  match a with
  | [] => None
  | (k', v) :: r => if k' =? k then Some v else getProp k r
  end.

(** [o[k] = v]: overwrite in place, or add the key at the end. *)
Fixpoint setProp (k v : string) (a : Obj) : Obj :=
  match a with
  | [] => [(k, v)]
  | (k', v') :: r => if k' =? k then (k', v) :: r else (k', v') :: setProp k v r
  end.

(** A node of the parsed tree. Elements are objects with an identity,
    here a number [nid]; text, comments and directives are [Other]. *)
Unset Elimination Schemes.
Inductive Node : Type :=
| Other (data : string)
| Element (nid : nat) (name : string) (attribs : Attribs)
          (children : list Node).
Set Elimination Schemes.

(** Induction over a node with the hypothesis for all its children. *)
Fixpoint Node_induction (P : Node -> Prop)
    (HOther : forall d, P (Other d))
    (HElement : forall i nm a ch, Forall P ch -> P (Element i nm a ch))
    (n : Node) : P n :=
  match n with
  | Other d => HOther d
  | Element i nm a ch =>
      HElement i nm a ch
        ((fix all (l : list Node) : Forall P l :=
            match l with
            | [] => Forall_nil P
            | x :: r => Forall_cons x (Node_induction HOther HElement x) (all r)
            end) ch)
  end.

(** A document: its top-level nodes, and the next unused identity, from
    which [new Element(...)] draws. *)
Record Document : Type := mkDocument {
  docChildren : list Node;
  nextId : nat
}.

Definition nodeAttr (k : string) (n : Node) : option string :=
  match n with
  | Other _ => None
  | Element _ _ a _ => getProp k a
  end.

Definition nodeName (n : Node) : option string :=
  match n with
  | Other _ => None
  | Element _ nm _ _ => Some nm
  end.

Definition optEq (o : option string) (s : string) : bool :=
  match o with
  | Some x => x =? s
  | None => false
  end.

(** [DomUtils.hasAttrib(node, k)]. *)
Definition hasAttrib (k : string) (n : Node) : bool :=
  match nodeAttr k n with
  | Some _ => true
  | None => false
  end.

(** [DomUtils.findAll(test, nodes)]: the elements that pass [test], in
    document order, searching below every element. *)
Fixpoint findAllNode (test : Node -> bool) (n : Node) : list Node :=
  match n with
  | Other _ => []
  | Element _ _ _ ch =>
      (if test n then [n] else []) ++ flat_map (findAllNode test) ch
  end.

Definition findAll (test : Node -> bool) (nodes : list Node) : list Node :=
  flat_map (findAllNode test) nodes.

(** A loop [for (const node of findAll(test, ...)) node.attribs = f(...)]
    that only assigns attributes of the node it visits: every element of
    the tree is visited once and the tree keeps its shape. *)
Fixpoint updateNode (f : Node -> Attribs -> Attribs) (n : Node) : Node :=
  match n with
  | Other d => Other d
  | Element i nm a ch => Element i nm (f n a) (map (updateNode f) ch)
  end.

Definition updateAll (f : Node -> Attribs -> Attribs) (d : Document)
    : Document :=
  mkDocument (map (updateNode f) (docChildren d)) (nextId d).

(** [DomUtils.append(elem, next)]: [next] becomes the sibling right after
    [elem]. [elem] is found by identity; an element that is no longer in
    the tree has no parent and the tree is unchanged. *)
Fixpoint appendNode (elem : nat) (next : Node) (n : Node) : list Node :=
  match n with
  | Other d => [Other d]
  | Element i nm a ch =>
      let n' := Element i nm a (flat_map (appendNode elem next) ch) in
      if Nat.eqb i elem then [n'; next] else [n']
  end.

Definition append (elem : nat) (next : Node) (nodes : list Node)
    : list Node :=
  flat_map (appendNode elem next) nodes.

(** [DomUtils.removeElement(elem)]. *)
Fixpoint removeNode (elem : nat) (n : Node) : list Node :=
  match n with
  | Other d => [Other d]
  | Element i nm a ch =>
      if Nat.eqb i elem then []
      else [Element i nm a (flat_map (removeNode elem) ch)]
  end.

Definition removeElement (elem : nat) (nodes : list Node) : list Node :=
  flat_map (removeNode elem) nodes.

(** [uniq]: [Array.from(new Set(arr))], the first occurrences in order. *)
Fixpoint uniqFrom (seen : list string) (arr : list string) : list string :=
  match arr with
  | [] => []
  | x :: r =>
      if JS.mem x seen then uniqFrom seen r else x :: uniqFrom (x :: seen) r
  end.

Definition uniq (arr : list string) : list string := uniqFrom [] arr.

(** The class value written back by [getHTML]:
    [uniq(node.attribs.class.split(' ')).join(' ')]. *)
Definition normalizeClass (cls : string) : string :=
  JS.join " " (uniq (JS.split " "%char cls)).

(** The body of the normalization loop of [getHTML], for an element
    that has a class attribute. *)
Definition dedupClass (n : Node) (a : Attribs) : Attribs :=
  match getProp "class" a with
  | Some cls => setProp "class" (normalizeClass cls) a
  | None => a
  end.

(** The normalization loop of [getHTML]. *)
Definition normalizeClasses (d : Document) : Document :=
  updateAll dedupClass d.

(** [getCSSElements]. *)
Definition isCSSElement (n : Node) : bool :=
  optEq (nodeName n) "link" && optEq (nodeAttr "rel" n) "stylesheet".

Definition getCSSElements (d : Document) : list Node :=
  findAll isCSSElement (docChildren d).

(** [getJSElements]. *)
Definition isJSElement (n : Node) : bool :=
  optEq (nodeName n) "script" && hasAttrib "src" n.

Definition getJSElements (d : Document) : list Node :=
  findAll isJSElement (docChildren d).

(** [path.normalize] throws a [TypeError] on [undefined]; a list of
    references is produced only when every element has the attribute. *)
Fixpoint normalizeAll (refs : list (option string)) : option (list string) :=
  match refs with
  | [] => Some []
  | Some r :: rest =>
      match normalizeAll rest with
      | Some l => Some (Path.normalize r :: l)
      | None => None
      end
  | None :: _ => None
  end.

(** [getCSSImports]; [None] stands for the thrown [TypeError]. *)
Definition getCSSImports (d : Document) : option (list string) :=
  normalizeAll (map (nodeAttr "href") (getCSSElements d)).

(** [getJSImports]. *)
Definition getJSImports (d : Document) : option (list string) :=
  normalizeAll (map (nodeAttr "src") (getJSElements d)).

(** The body of the loop of [replaceCSSImports]; the loop runs over the
    stylesheet links only. *)
Definition rewriteHref (original replaced : string) (n : Node) (a : Attribs)
    : Attribs :=
  if isCSSElement n && optEq (getProp "href" a) original
  then setProp "href" replaced a else a.

(** [replaceCSSImports]. *)
Definition replaceCSSImports (d : Document) (original replaced : string)
    : Document :=
  updateAll (rewriteHref original replaced) d.

(** The body of the loop of [replaceJSImports]. *)
Definition rewriteSrc (original replaced : string) (n : Node) (a : Attribs)
    : Attribs :=
  if isJSElement n && optEq (getProp "src" a) original
  then setProp "src" replaced a else a.

(** [replaceJSImports]. *)
Definition replaceJSImports (d : Document) (original replaced : string)
    : Document :=
  updateAll (rewriteSrc original replaced) d.

(** Attributes of a [new Element(name, {...})] literal: keys whose value
    is [undefined] are left out. *)
Fixpoint attribsOf (l : list (string * option string)) : Attribs :=
  match l with
  | [] => []
  | (k, Some v) :: r => (k, v) :: attribsOf r
  | (_, None) :: r => attribsOf r
  end.

Definition onloadSwap : string := "this.onload=null;this.rel=`stylesheet`".

Definition preloadElement (i : nat) (href : option string) : Node :=
  Element i "link"
    (attribsOf [("rel", Some "preload"); ("href", href);
                ("as", Some "style"); ("onload", Some onloadSwap)]) [].

Definition noscriptElement (i j : nat) (href : option string) : Node :=
  Element i "noscript" []
    [Element j "link"
       (attribsOf [("rel", Some "stylesheet"); ("href", href)]) []].

(** One round of the loop of [convertCSSToNonBlocking] for [element]. *)
Definition convertOne (d : Document) (element : Node) : Document :=
  match element with
  | Other _ => d
  | Element i _ a _ =>
      let href := getProp "href" a in
      let preload := preloadElement (nextId d) href in
      let noscript := noscriptElement (nextId d + 2) (nextId d + 1) href in
      mkDocument
        (removeElement i (append i noscript (append i preload (docChildren d))))
        (nextId d + 3)
  end.

(** [convertCSSToNonBlocking]. *)
Definition convertCSSToNonBlocking (d : Document) : Document :=
  fold_left convertOne (getCSSElements d) d.

(* ===================================================================== *)
(** ** The file system: a tree of directories and files                   *)
(* ===================================================================== *)

Unset Elimination Schemes.
Inductive Entry : Type :=
| File (content : string)
| Dir (entries : list (string * Entry)).
Set Elimination Schemes.

(** The entries of the root directory, in listing order. *)
Definition FS := list (string * Entry).

Fixpoint lookupEntry (name : string) (es : list (string * Entry))
    : option Entry :=
  match es with
  | [] => None
  | (n, e) :: r => if n =? name then Some e else lookupEntry name r
  end.

Fixpoint setEntry (name : string) (e : Entry) (es : list (string * Entry))
    : list (string * Entry) :=
  match es with
  | [] => [(name, e)]
  | (n, e') :: r =>
      if n =? name then (n, e) :: r else (n, e') :: setEntry name e r
  end.

Fixpoint removeEntry (name : string) (es : list (string * Entry))
    : list (string * Entry) :=
  match es with
  | [] => []
  | (n, e') :: r => if n =? name then r else (n, e') :: removeEntry name r
  end.

(** What is at a path, given as its segments below the root. *)
Fixpoint statSegs (segs : list string) (es : FS) : option Entry :=
  match segs with
  | [] => Some (Dir es)
  | name :: rest =>
      match lookupEntry name es with
      | Some (Dir sub) => statSegs rest sub
      | Some (File c) => match rest with [] => Some (File c) | _ => None end
      | None => None
      end
  end.

(** Write a file; its directory must exist and the path must not name a
    directory. *)
Fixpoint writeSegs (segs : list string) (content : string) (es : FS)
    : option FS :=
  match segs with
  | [] => None
  | name :: rest =>
      match rest with
      | [] =>
          match lookupEntry name es with
          | Some (Dir _) => None
          | _ => Some (setEntry name (File content) es)
          end
      | _ =>
          match lookupEntry name es with
          | Some (Dir sub) =>
              match writeSegs rest content sub with
              | Some sub' => Some (setEntry name (Dir sub') es)
              | None => None
              end
          | _ => None
          end
      end
  end.

(** [mkdir(path, {recursive: true})]: fails only on a file in the way. *)
Fixpoint mkdirSegs (segs : list string) (es : FS) : option FS :=
  match segs with
  | [] => Some es
  | name :: rest =>
      match lookupEntry name es with
      | Some (File _) => None
      | Some (Dir sub) =>
          match mkdirSegs rest sub with
          | Some sub' => Some (setEntry name (Dir sub') es)
          | None => None
          end
      | None =>
          match mkdirSegs rest [] with
          | Some sub' => Some (setEntry name (Dir sub') es)
          | None => None
          end
      end
  end.

(** [unlink(path)]: removes a file. *)
Fixpoint unlinkSegs (segs : list string) (es : FS) : option FS :=
  match segs with
  | [] => None
  | name :: rest =>
      match rest with
      | [] =>
          match lookupEntry name es with
          | Some (File _) => Some (removeEntry name es)
          | _ => None
          end
      | _ =>
          match lookupEntry name es with
          | Some (Dir sub) =>
              match unlinkSegs rest sub with
              | Some sub' => Some (setEntry name (Dir sub') es)
              | None => None
              end
          | _ => None
          end
      end
  end.

(** The files below an entry reached as [entryPath], as the recursion of
    [getFilesRecursively] lists them. *)
Fixpoint filesBelow (entryPath : string) (e : Entry) : list string :=
  match e with
  | File _ => [entryPath]
  | Dir es =>
      flat_map (fun ne => filesBelow (Path.join [entryPath; fst ne]) (snd ne))
               es
  end.

(** Results of operations that can throw. *)
Inductive Result (A : Type) : Type :=
| Ok (a : A)
| Throw (message : string).
Arguments Ok {A} a.
Arguments Throw {A} message.

Section FileSystem.

(** The working directory of the process, against which relative paths
    are resolved. *)
Variable cwd : string.

Definition stat (fs : FS) (path : string) : option Entry :=
  statSegs (Path.resolveSegs cwd path) fs.

(** [Bun.file(path).exists()]: a file is there. *)
Definition fileExists (fs : FS) (path : string) : bool :=
  match stat fs path with
  | Some (File _) => true
  | _ => false
  end.

(** [exists(path)] of node:fs: anything is there. *)
Definition pathExists (fs : FS) (path : string) : bool :=
  match stat fs path with
  | Some _ => true
  | None => false
  end.

(** [isDir]. *)
Definition isDir (fs : FS) (pathname : string) : bool :=
  match stat fs pathname with
  | Some (Dir _) => true
  | _ => false
  end.

(** [Bun.file(path).text()]. *)
Definition readText (fs : FS) (path : string) : Result string :=
  match stat fs path with
  | Some (File c) => Ok c
  | _ => Throw ("ENOENT: " +++ path)
  end.

Definition ioResult (path : string) (r : option FS) : Result FS :=
  match r with
  | Some fs' => Ok fs'
  | None => Throw ("EIO: " +++ path)
  end.

(** [Bun.write(Bun.file(path), content)]. *)
Definition writeFile (fs : FS) (path content : string) : Result FS :=
  ioResult path (writeSegs (Path.resolveSegs cwd path) content fs).

Definition mkdir (fs : FS) (path : string) : Result FS :=
  ioResult path (mkdirSegs (Path.resolveSegs cwd path) fs).

Definition unlink (fs : FS) (path : string) : Result FS :=
  ioResult path (unlinkSegs (Path.resolveSegs cwd path) fs).

(** [copyFile(src, dest)]. *)
Definition copyFile (fs : FS) (src dest : string) : Result FS :=
  match readText fs src with
  | Ok c => writeFile fs dest c
  | Throw e => Throw e
  end.

(** [getFilesRecursively]. *)
Definition getFilesRecursively (fs : FS) (dir : string)
    : Result (list string) :=
  match stat fs dir with
  | Some (Dir es) => Ok (filesBelow dir (Dir es))
  | _ => Throw ("ENOTDIR: " +++ dir)
  end.

(** [pickFirstExisting]. *)
Fixpoint pickFirstExisting (fs : FS) (files : list string)
    : option string :=
  match files with
  | [] => None
  | file :: rest =>
      if fileExists fs file then Some file else pickFirstExisting fs rest
  end.

(** The two candidates handed to [pickFirstExisting] by the importer's
    [load], in order. *)
Definition loadCandidates (fs : FS) (canonPath : string) : list string :=
  [ canonPath;
    if isDir fs canonPath
    then Path.join [canonPath; "_index.scss"]
    else Path.join [Path.dirname canonPath; "_" +++ Path.basename canonPath] ].

(** The importer's [load], for the path of the canonical URL. *)
Definition load (fs : FS) (canonPath : string) : Result string :=
  match pickFirstExisting fs (loadCandidates fs canonPath) with
  | None => Throw (canonPath +++ " not found")
  | Some file => readText fs file
  end.

End FileSystem.

(* ===================================================================== *)
(** ** Configuration and collaborators                                    *)
(* ===================================================================== *)

(** [BSTConfig]. *)
Record BSTConfig : Type := mkConfig {
  source : string;
  destination : string;
  clean : bool;
  css_minify : bool;
  html_minify : bool;
  html_minifyClasses : bool;
  html_reduceBlocking : bool;
  js_minify : bool
}.

(** [PartialRecursive<BSTConfig>] as read from bst.json; [None] is a
    missing ([undefined] or [null]) field. *)
Record PartialConfig : Type := mkPartial {
  p_source : option string;
  p_destination : option string;
  p_clean : option bool;
  p_css_minify : option bool;
  p_html_minify : option bool;
  p_html_minifyClasses : option bool;
  p_html_reduceBlocking : option bool;
  p_js_minify : option bool
}.

(** [x ?? d]. *)
Definition orDefault {A : Type} (x : option A) (d : A) : A :=
  match x with
  | Some v => v
  | None => d
  end.

(** What [Bun.build] returns. *)
Inductive ArtifactKind : Type :=
| EntryPoint | Chunk | Asset | Sourcemap | Bytecode.

Definition kindName (k : ArtifactKind) : string :=
  match k with
  | EntryPoint => "entry-point"
  | Chunk => "chunk"
  | Asset => "asset"
  | Sourcemap => "sourcemap"
  | Bytecode => "bytecode"
  end.

Record Artifact : Type := mkArtifact {
  kind : ArtifactKind;
  artifactText : string
}.

(** An entry of [output.logs]: its level and its message. *)
Inductive LogLevel : Type :=
| LogError | LogWarning | LogInfo | LogDebug | LogVerbose.

Record BuildMessage : Type := mkBuildMessage {
  level : LogLevel;
  message : string
}.

Record BuildOutput : Type := mkBuildOutput {
  success : bool;
  logs : list BuildMessage;
  outputs : list Artifact
}.

(** [log.level === 'error']. *)
Definition isErrorLog (log : BuildMessage) : bool :=
  match level log with
  | LogError => true
  | _ => false
  end.

(** What a call leaves behind that prints before it returns or throws:
    the lines it printed with [console.error], in order, and its
    outcome. *)
Record Logged (A : Type) : Type := mkLogged {
  errorLines : list string;
  outcome : Result A
}.
Arguments mkLogged {A} errorLines outcome.
Arguments errorLines {A} l.
Arguments outcome {A} l.

(** The external collaborators, as functions. *)
Record Tools : Type := mkTools {
  (** [file.json()] for bst.json *)
  parseConfig : string -> Result PartialConfig;
  (** [micromatch.match(files, glob)] *)
  micromatch : list string -> string -> list string;
  (** htmlparser2's [parseDocument] *)
  parseDocument : string -> Document;
  (** dom-serializer's [render(doc, {encodeEntities: true})] *)
  serializeHTML : Document -> string;
  (** html-minifier's [minify] with the options of build.ts *)
  minifyHTML : string -> string;
  (** sass: [compileStringAsync(source, {importer, style})], for the file
      [pathname] the importer resolves against, the importer's [load] and
      the [compressed] style flag; the result is its [.css] *)
  compileString :
    string -> string -> (string -> Result string) -> bool -> Result string;
  (** [Bun.build] for one entry point, a root and the minify flag *)
  bunBuild : FS -> string -> string -> bool -> BuildOutput;
  (** [removeExportsFromJS]: the TypeScript compiler API parses the text,
      drops the export declarations and prints it back *)
  removeExportsFromJS : string -> bool -> string;
  (** uglify-js: [minify(text, {...}).code] *)
  minifyJS : string -> string
}.

(** [number.toString()] for the one message that prints a number. *)
Fixpoint digits (fuel n : nat) (acc : string) : string :=
  match fuel with
  | 0 => acc
  | S fuel' =>
      let d := String (ascii_of_nat (48 + n mod 10)) acc in
      if n / 10 =? 0 then d else digits fuel' (n / 10) d
  end%nat.

Definition showNat (n : nat) : string := digits (S n) n EmptyString.

Section Transforms.

Variable cwd : string.
Variable T : Tools.

(** [getConfig]. *)
Definition getConfig (fs : FS) : Result BSTConfig :=
  if negb (fileExists cwd fs "bst.json") then Throw "bst.json not found"
  else
    match readText cwd fs "bst.json" with
    | Throw e => Throw e
    | Ok text =>
        match parseConfig T text with
        | Throw e => Throw e
        | Ok imported =>
            match p_source imported, p_destination imported with
            | Some src, Some dst =>
                if (src =? EmptyString) || (dst =? EmptyString)
                then Throw "bst.json must have source and destination fields"
                else Ok {|
                  source := src;
                  destination := dst;
                  clean := orDefault (p_clean imported) false;
                  css_minify := orDefault (p_css_minify imported) true;
                  html_minify := orDefault (p_html_minify imported) true;
                  html_minifyClasses :=
                    orDefault (p_html_minifyClasses imported) true;
                  html_reduceBlocking :=
                    orDefault (p_html_reduceBlocking imported) true;
                  js_minify := orDefault (p_js_minify imported) true
                |}
            | _, _ =>
                Throw "bst.json must have source and destination fields"
            end
        end
    end.

(** [getFilesMatching]. *)
Definition getFilesMatching (fs : FS) (pathname glob : string)
    : Result (list string) :=
  match getFilesRecursively cwd fs pathname with
  | Throw e => Throw e
  | Ok all =>
      Ok (map (fun file =>
                 Path.join [pathname; Path.relative cwd pathname file])
              (micromatch T all glob))
  end.

(** [getHTML]. *)
Definition getHTML (fs : FS) (pathname : string) : Result Document :=
  if negb (fileExists cwd fs pathname) then Throw (pathname +++ " not found")
  else
    match readText cwd fs pathname with
    | Throw e => Throw e
    | Ok html => Ok (normalizeClasses (parseDocument T html))
    end.

(** [transpileCache]: consulted by [transpileCSS], never written. *)
Definition transpileCache : Obj := [].

(** [transpileCSS]. *)
Definition transpileCSS (fs : FS) (pathname : string) (minify : bool)
    : Result string :=
  match getProp pathname transpileCache with
  | Some cached => Ok cached
  | None =>
      if negb (fileExists cwd fs pathname)
      then Throw (pathname +++ " not found")
      else
        match readText cwd fs pathname with
        | Throw e => Throw e
        | Ok sass => compileString T pathname sass (load cwd fs) minify
        end
  end.

(** [transpileJS]. When the build fails, every log of level [error] is
    printed with [console.error] before the function throws; the other
    logs go to [console.log], which is not followed here. *)
Definition transpileJS (fs : FS) (pathname root : string) (minify : bool)
    : Logged string :=
  if negb (fileExists cwd fs pathname)
  then mkLogged [] (Throw (pathname +++ " not found"))
  else
    let output := bunBuild T fs pathname root minify in
    if negb (success output)
    then mkLogged (map message (filter isErrorLog (logs output)))
                  (Throw ("Failed to transpile: " +++ pathname))
    else
      mkLogged []
        match outputs output with
        | [artifact] =>
            match kind artifact with
            | EntryPoint =>
                let transformed :=
                  removeExportsFromJS T (artifactText artifact) minify in
                Ok (if minify then minifyJS T transformed else transformed)
            | k =>
                Throw ("Expected output to be an entry-point, got "
                       +++ kindName k)
            end
        | outs =>
            Throw ("Expected one output while transpiling, got "
                   +++ showNat (List.length outs))
        end.

End Transforms.

(* ===================================================================== *)
(** ** build.ts                                                           *)
(* ===================================================================== *)

(** An invocation of a transform, recorded when the call is made. *)
Inductive Call : Type :=
| TranspileCSS (pathname : string) (minify : bool)
| TranspileJS (pathname root : string) (minify : bool).

(** The state of a run: the file system, the module-level variables
    [builtFiles] and [currentCompile] of build.ts, what was printed with
    [console.error], and the transforms invoked so far, oldest first. *)
Record BuildState : Type := mkState {
  fs : FS;
  builtFiles : Obj;
  currentCompile : option string;
  stderr : list string;
  calls : list Call
}.

(** How a run stops early: [process.exit(1)] from [errorHandler], or an
    exception outside every [catch]. *)
Inductive Halt : Type := Exit1 | Uncaught.

Inductive Step (A : Type) : Type :=
| Next (a : A) (s : BuildState)
| Stop (h : Halt) (s : BuildState).
Arguments Next {A} a s.
Arguments Stop {A} h s.

(** Computations of build.ts. *)
Definition M (A : Type) : Type := BuildState -> Step A.

Definition ret {A : Type} (a : A) : M A := fun s => Next a s.

Definition bind {A B : Type} (m : M A) (k : A -> M B) : M B :=
  fun s =>
    match m s with
    | Next a s' => k a s'
    | Stop h s' => Stop h s'
    end.

Notation "x <- m ;; k" := (bind m (fun x => k))
  (at level 61, m at next level, right associativity).
Notation "m ;;; k" := (bind m (fun _ => k))
  (at level 61, right associativity).

Definition get : M BuildState := fun s => Next s s.

Definition setFS (f : FS) : M unit :=
  fun s => Next tt (mkState f (builtFiles s) (currentCompile s) (stderr s)
                            (calls s)).

(** [builtFiles[k] = v]. *)
Definition setBuilt (k v : string) : M unit :=
  fun s => Next tt (mkState (fs s) (setProp k v (builtFiles s))
                            (currentCompile s) (stderr s) (calls s)).

(** [currentCompile = p]. *)
Definition setCurrent (p : string) : M unit :=
  fun s => Next tt (mkState (fs s) (builtFiles s) (Some p) (stderr s)
                            (calls s)).

Definition record (c : Call) : M unit :=
  fun s => Next tt (mkState (fs s) (builtFiles s) (currentCompile s)
                            (stderr s) (calls s ++ [c])).

(** [errorHandler], for a thrown [Error] with the given message. *)
Definition errorHandler {A : Type} (message : string) : M A :=
  fun s =>
    let context :=
      match currentCompile s with
      | Some p => ["Error while compiling " +++ p]
      | None => []
      end in
    Stop Exit1 (mkState (fs s) (builtFiles s) (currentCompile s)
                        (stderr s ++ context ++ [message]) (calls s)).

(** [await promise.catch(errorHandler)]. *)
Definition orExit {A : Type} (r : Result A) : M A :=
  match r with
  | Ok a => ret a
  | Throw e => errorHandler e
  end.

(** [console.error(line)] for each of the lines. *)
Definition printErrors (lines : list string) : M unit :=
  fun s => Next tt (mkState (fs s) (builtFiles s) (currentCompile s)
                            (stderr s ++ lines) (calls s)).

(** An exception with no handler. *)
Definition uncaught {A : Type} : M A := fun s => Stop Uncaught s.

Fixpoint forM {A : Type} (f : A -> M unit) (l : list A) : M unit :=
  match l with
  | [] => ret tt
  | x :: r => f x ;;; forM f r
  end.

Fixpoint foldM {A B : Type} (f : B -> A -> M B) (l : list A) (b : B) : M B :=
  match l with
  | [] => ret b
  | x :: r => b' <- f b x ;; foldM f r b'
  end.

(** The property names every object inherits from [Object.prototype];
    [k in o] holds for them as well as for the own keys. *)
Definition objectPrototypeKeys : list string :=
  ["constructor"; "__defineGetter__"; "__defineSetter__"; "hasOwnProperty";
   "__lookupGetter__"; "__lookupSetter__"; "isPrototypeOf";
   "propertyIsEnumerable"; "toString"; "valueOf"; "__proto__";
   "toLocaleString"].

Definition hasOwn (k : string) (o : Obj) : bool :=
  match getProp k o with
  | Some _ => true
  | None => false
  end.

(** [k in o]. *)
Definition inObj (k : string) (o : Obj) : bool :=
  hasOwn k o || JS.mem k objectPrototypeKeys.

Section Build.

Variable cwd : string.
Variable T : Tools.
Variable config : BSTConfig.

(** The body of [for (const cssPath of cssImports)]; the document is
    mutated in place by the source and threaded here. *)
Definition compileCSS (basePath : string) (html : Document)
    (cssPath : string) : M Document :=
  setCurrent cssPath ;;;
  let builtPath := cssBuiltPath cssPath in
  s <- get ;;
  (if negb (inObj builtPath (builtFiles s)) then
     record (TranspileCSS cssPath (css_minify config)) ;;;
     content <- orExit (transpileCSS cwd T (fs s) cssPath (css_minify config)) ;;
     setBuilt builtPath content
   else ret tt) ;;;
  ret (replaceCSSImports html (importDemapper cwd basePath cssPath)
                              (importDemapper cwd basePath builtPath)).

(** The body of [for (const jsPath of jsImports)]. What [transpileJS]
    prints comes out before [errorHandler] sees what it threw. *)
Definition compileJS (basePath : string) (html : Document)
    (jsPath : string) : M Document :=
  setCurrent jsPath ;;;
  let builtPath := jsBuiltPath jsPath in
  s <- get ;;
  (if negb (inObj builtPath (builtFiles s)) then
     record (TranspileJS jsPath (source config) (css_minify config)) ;;;
     let call := transpileJS cwd T (fs s) jsPath (source config)
                             (css_minify config) in
     printErrors (errorLines call) ;;;
     content <- orExit (outcome call) ;;
     setBuilt builtPath content
   else ret tt) ;;;
  ret (replaceJSImports html (importDemapper cwd basePath jsPath)
                             (importDemapper cwd basePath builtPath)).

(** [xs.map(src => importMapper(basePath, src))] over a list of
    references that may have thrown while being collected. *)
Definition mapped (basePath : string) (refs : option (list string))
    : M (list string) :=
  match refs with
  | Some l => ret (map (importMapper basePath) l)
  | None => uncaught
  end.

(** The first half of the body of [for (const htmlPath of htmlFiles)]:
    load the document and compile what it references. *)
Definition compileAssets (htmlPath : string) : M Document :=
  setCurrent htmlPath ;;;
  let basePath := Path.dirname htmlPath in
  s <- get ;;
  html <- orExit (getHTML cwd T (fs s) htmlPath) ;;
  cssImports <- mapped basePath (getCSSImports html) ;;
  jsImports <- mapped basePath (getJSImports html) ;;
  html <- foldM (compileCSS basePath) cssImports html ;;
  foldM (compileJS basePath) jsImports html.

(** The second half: convert, serialize and minify the document into
    [builtFiles[htmlPath]]. *)
Definition emitDocument (htmlPath : string) (html : Document) : M unit :=
  setCurrent htmlPath ;;;
  let html :=
    if html_reduceBlocking config then convertCSSToNonBlocking html
    else html in
  setBuilt htmlPath (serializeHTML T html) ;;;
  (if html_minify config then
     s <- get ;;
     match getProp htmlPath (builtFiles s) with
     | Some text => setBuilt htmlPath (minifyHTML T text)
     | None => uncaught
     end
   else ret tt).

(** The body of [for (const htmlPath of htmlFiles)]. *)
Definition compileDocument (htmlPath : string) : M unit :=
  html <- compileAssets htmlPath ;;
  emitDocument htmlPath html.

(** [if (config.clean) ...]. *)
Definition cleanDestination : M unit :=
  if clean config then
    s <- get ;;
    if pathExists cwd (fs s) (destination config) then
      files <- orExit (getFilesRecursively cwd (fs s) (destination config)) ;;
      forM (fun file =>
              s <- get ;;
              f <- orExit (unlink cwd (fs s) file) ;;
              setFS f) files
    else
      f <- orExit (mkdir cwd (fs s) (destination config)) ;;
      setFS f
  else ret tt.

(** Where a source-tree path goes in the destination tree. *)
Definition destinationOf (p : string) : string :=
  Path.join [destination config; Path.relative cwd (source config) p].

(** The body of [for (const [builtPath, content] of
    Object.entries(builtFiles))]. *)
Definition writeBuilt (entry : string * string) : M unit :=
  let dest := destinationOf (fst entry) in
  s <- get ;;
  f <- orExit (mkdir cwd (fs s) (Path.dirname dest)) ;;
  f' <- orExit (writeFile cwd f dest (snd entry)) ;;
  setFS f'.

(** The body of the last loop: copy what is not a build source. *)
Definition copyThrough (file : string) : M unit :=
  if negb (isBuildSource file) then
    let dest := destinationOf file in
    s <- get ;;
    f <- orExit (mkdir cwd (fs s) (Path.dirname dest)) ;;
    f' <- orExit (copyFile cwd f file dest) ;;
    setFS f'
  else ret tt.

(** The document loop. *)
Definition compileAll (htmlFiles : list string) : M unit :=
  forM compileDocument htmlFiles.

(** After the document loop: clean, then write the output map.
    [Object.entries] lists the keys in insertion order (keys that spell
    an array index, which no path with a directory or an extension does,
    would come first). *)
Definition writeOutputs : M unit :=
  cleanDestination ;;;
  s <- get ;;
  forM writeBuilt (builtFiles s).

(** The last loop: copy the other files of the source tree. *)
Definition copyRest : M unit :=
  s <- get ;;
  match getFilesRecursively cwd (fs s) (source config) with
  | Throw _ => uncaught
  | Ok files => forM copyThrough files
  end.

End Build.

(** The state build.ts starts in. *)
Definition initialState (f : FS) : BuildState := mkState f [] None [] [].

(** build.ts, from top to bottom. *)
Definition build (cwd : string) (T : Tools) : M unit :=
  s <- get ;;
  config <- orExit (getConfig cwd T (fs s)) ;;
  htmlFiles <- orExit (getFilesMatching cwd T (fs s) (source config)
                                        "**/*.html") ;;
  compileAll cwd T config htmlFiles ;;;
  writeOutputs cwd config ;;;
  copyRest cwd config.

(* ===================================================================== *)
(** ** Observations used to state the properties                         *)
(* ===================================================================== *)

(** The class tokens of the elements that carry a class attribute, in
    document order, as [split(' ')] cuts them. *)
Definition classTokens (n : Node) : list string :=
  match nodeAttr "class" n with
  | Some cls => JS.split " "%char cls
  | None => []
  end.

Definition classLists (d : Document) : list (list string) :=
  map classTokens (findAll (hasAttrib "class") (docChildren d)).

(** ASCII whitespace, as HTML separates class tokens: tab, line feed,
    form feed, carriage return and space. *)
Definition isWhitespace (c : ascii) : bool :=
  let n := nat_of_ascii c in
  Nat.eqb n 9 || Nat.eqb n 10 || Nat.eqb n 12 || Nat.eqb n 13 || Nat.eqb n 32.

(** The whitespace-separated tokens of a string; [cur] is the token
    being read, reversed. *)
Fixpoint tokensFrom (cur : list ascii) (s : string) : list string :=
  let flush := match cur with
               | [] => []
               | _ => [string_of_list_ascii (rev cur)]
               end in
  match s with
  | EmptyString => flush
  | String c r =>
      if isWhitespace c then flush ++ tokensFrom [] r
      else tokensFrom (c :: cur) r
  end.

Definition whitespaceTokens (s : string) : list string := tokensFrom [] s.

(** A tab character. *)
Definition tab : string := String (ascii_of_nat 9) EmptyString.

(** A string without the separator [sep]. *)
Fixpoint noSep (sep : ascii) (s : string) : Prop :=
  match s with
  | EmptyString => True
  | String c r => Ascii.eqb c sep = false /\ noSep sep r
  end.

(** The filter that drops the occurrences of [x]. *)
Definition isNot (x y : string) : bool := negb (y =? x).

(** What a rewrite from [original] to [replaced] does to one reference. *)
Definition rewritten (original replaced : string) (ref : option string)
    : option string :=
  if optEq ref original then Some replaced else ref.

(** The references of the stylesheet links and of the scripts of a
    document, as written in the attribute. *)
Definition cssRefs (d : Document) : list (option string) :=
  map (nodeAttr "href") (getCSSElements d).

Definition jsRefs (d : Document) : list (option string) :=
  map (nodeAttr "src") (getJSElements d).

(** A paragraph whose class repeats a token after a tab. *)
Definition tabbedDocument : Document :=
  mkDocument [Element 0 "p" [("class", "foo" +++ tab +++ "foo")] []] 1.

(** A stylesheet link written with a leading [./]. *)
Definition dotSlashDocument : Document :=
  mkDocument
    [Element 0 "link" [("rel", "stylesheet"); ("href", "./s.scss")] []] 1.

(** The identity of an element. *)
Definition nid (n : Node) : nat :=
  match n with
  | Other _ => 0
  | Element i _ _ _ => i
  end.

(** Every element of a forest, in document order. *)
Definition allElements (nodes : list Node) : list Node :=
  findAll (fun _ => true) nodes.

(** A well-formed document: no two elements share an identity, and the
    identities in use are below the next unused one. *)
Definition wfDocument (d : Document) : Prop :=
  NoDup (map nid (allElements (docChildren d)))
  /\ Forall (fun n => nid n < nextId d) (allElements (docChildren d)).

(** A tree without its identities. *)
Fixpoint strip (n : Node) : Node :=
  match n with
  | Other d => Other d
  | Element _ nm a ch => Element 0 nm a (map strip ch)
  end.

(** The tree in which every stylesheet link has given way to the nodes
    [pair] makes from its href. *)
Fixpoint replaceLinks (pair : option string -> list Node) (n : Node)
    : list Node :=
  match n with
  | Other d => [Other d]
  | Element i nm a ch =>
      if isCSSElement n then pair (getProp "href" a)
      else [Element i nm a (flat_map (replaceLinks pair) ch)]
  end.

(** The conversion in the spec's words: the preload link, then the
    no-script fallback. *)
Definition preloadThenFallback (href : option string) : list Node :=
  [preloadElement 0 href; noscriptElement 0 0 href].

(** The order the two [append] calls leave: each puts its node right
    after the original link, so the second one lands first. *)
Definition fallbackThenPreload (href : option string) : list Node :=
  [noscriptElement 0 0 href; preloadElement 0 href].

(** A head with one stylesheet link between two other nodes. *)
Definition singleLinkDocument : Document :=
  mkDocument
    [Element 0 "head" []
       [Element 1 "meta" [("charset", "utf-8")] [];
        Element 2 "link" [("rel", "stylesheet"); ("href", "s.css")] [];
        Element 3 "title" [] [Other "t"]]] 4.

(** A test that an attribute update does not flip. *)
Definition stableUnder (test : Node -> bool)
    (f : Node -> Attribs -> Attribs) : Prop :=
  forall i nm a ch ch',
    test (Element i nm (f (Element i nm a ch) a) ch')
    = test (Element i nm a ch).

(** An identity that names no element of a subtree. *)
Fixpoint absent (i : nat) (n : Node) : Prop :=
  match n with
  | Other _ => True
  | Element j _ _ ch =>
      j <> i /\ (fix all (l : list Node) : Prop :=
                   match l with
                   | [] => True
                   | c :: r => absent i c /\ all r
                   end) ch
  end.

(** The forest in which the element with identity [i] has given way to
    the nodes [repl]. *)
Fixpoint replaceNode (i : nat) (repl : list Node) (n : Node) : list Node :=
  match n with
  | Other d => [Other d]
  | Element j nm a ch =>
      if Nat.eqb j i then repl
      else [Element j nm a (flat_map (replaceNode i repl) ch)]
  end.

(** The href the loop will use for the element with identity [j]: that
    of the first element of the list with this identity. *)
Fixpoint targetHref (j : nat) (els : list Node) : option (option string) :=
  match els with
  | [] => None
  | Other _ :: r => targetHref j r
  | Element i _ a _ :: r =>
      if Nat.eqb i j then Some (getProp "href" a) else targetHref j r
  end.

(** The tree in which the listed elements have given way to their pair. *)
Fixpoint expandNode (els : list Node) (n : Node) : list Node :=
  match n with
  | Other d => [Other d]
  | Element j nm a ch =>
      match targetHref j els with
      | Some href => fallbackThenPreload href
      | None => [Element j nm a (flat_map (expandNode els) ch)]
      end
  end.


(** What [transpileJS] returns for the single entry-point artifact. *)
Definition finished (T : Tools) (minify : bool) (artifact : Artifact)
    : string :=
  let transformed := removeExportsFromJS T (artifactText artifact) minify in
  if minify then minifyJS T transformed else transformed.

(** A project whose style directory holds both [x.scss] and the partial
    [_x.scss]. *)
Definition bothFilesFS : FS :=
  [("w", Dir [("d", Dir [("x.scss", File "X"); ("_x.scss", File "PX")])])].

(** A string without [/], as a boolean. *)
Fixpoint noSlash (s : string) : bool :=
  match s with
  | EmptyString => true
  | String c r => negb (Ascii.eqb c Path.slash) && noSlash r
  end.

(** A file or directory name: not empty, not [.] or [..], without [/]. *)
Definition isName (s : string) : bool :=
  negb (s =? EmptyString) && negb (s =? ".") && negb (s =? "..") && noSlash s.

(** A relative path written as names joined by [/]. *)
Definition pathOf (names : list string) : string := JS.join "/" names.

(** A segment that [normalizeString] lets through: not empty and without
    [/]; it is a name or [..] or [.]. *)
Definition solid (s : string) : Prop :=
  s <> EmptyString /\ noSep Path.slash s.

(** A reference whose normal form starts with [..]: it leaves the
    directory it is written in. *)
Definition climbs (ref : string) : bool :=
  JS.mem ".." (Path.normSegs true (JS.split Path.slash ref)).

(* ===================================================================== *)
(** ** Stand-ins for the collaborators, to run the build on examples      *)
(* ===================================================================== *)

Module Toy.

(** A stand-in markup: tokens separated by spaces, where [L:href] is a
    stylesheet link, [S:src] a script with a source, and anything else
    is text. *)
Definition node (i : nat) (tok : string) : Node :=
  let rest := String.substring 2 (String.length tok - 2) tok in
  if JS.startsWith "L:" tok
  then Element i "link" [("rel", "stylesheet"); ("href", rest)] []
  else if JS.startsWith "S:" tok
  then Element i "script" [("src", rest)] []
  else Other tok.

Fixpoint nodes (i : nat) (toks : list string) : list Node :=
  match toks with
  | [] => []
  | tok :: r => node i tok :: nodes (S i) r
  end.

Definition parse (text : string) : Document :=
  let toks := JS.split " "%char text in
  mkDocument (nodes 0 toks) (List.length toks).

Fixpoint attrs (a : Attribs) : string :=
  match a with
  | [] => EmptyString
  | (k, v) :: r => " " +++ k +++ "=" +++ v +++ attrs r
  end.

Fixpoint render (n : Node) : string :=
  match n with
  | Other d => d
  | Element _ nm a ch =>
      "<" +++ nm +++ attrs a +++ ">" +++ JS.join EmptyString (map render ch)
  end.

Definition serialize (d : Document) : string :=
  JS.join " " (map render (docChildren d)).

(** A stand-in style engine: a source that starts with [!] does not
    compile. *)
Definition compile (pathname source : string)
    (load : string -> Result string) (compressed : bool) : Result string :=
  if JS.startsWith "!" source then Throw ("cannot compile " +++ pathname)
  else Ok ((if compressed then "cssmin(" else "css(") +++ source +++ ")").

(** A stand-in bundler: one entry point, flagged when minified. *)
Definition bundle (f : FS) (pathname root : string) (minify : bool)
    : BuildOutput :=
  mkBuildOutput true []
    [mkArtifact EntryPoint
       ((if minify then "bundlemin(" else "bundle(") +++ pathname +++ ")")].

Definition tools (imported : PartialConfig) : Tools :=
  {| parseConfig := fun _ => Ok imported;
     micromatch := fun files _ => filter (JS.endsWith ".html") files;
     parseDocument := parse;
     serializeHTML := serialize;
     minifyHTML := fun text => "min(" +++ text +++ ")";
     compileString := compile;
     bunBuild := bundle;
     removeExportsFromJS := fun text _ => text;
     minifyJS := fun text => "ugly(" +++ text +++ ")" |}.

(** bst.json with only the two required fields. *)
Definition defaults : PartialConfig :=
  mkPartial (Some "src") (Some "dist") None None None None None None.

(** bst.json asking for minified styles and unminified scripts. *)
Definition scriptsUnminified : PartialConfig :=
  mkPartial (Some "src") (Some "dist") None (Some true) (Some false) None
            (Some false) (Some false).

(** bst.json without any minification or conversion. *)
Definition plain : PartialConfig :=
  mkPartial (Some "src") (Some "dist") None (Some false) (Some false) None
            (Some false) (Some false).

Definition site (files : list (string * Entry)) : FS :=
  [("w", Dir [("bst.json", File "{}"); ("src", Dir files)])].

(** Three documents; the second references a style file that is not
    there. *)
Definition brokenSite : FS :=
  site [("a.html", File "L:a.scss"); ("b.html", File "L:missing.scss");
        ("c.html", File "L:c.scss");
        ("a.scss", File "A"); ("c.scss", File "C")].

(** One document with a script. *)
Definition scriptSite : FS :=
  site [("index.html", File "S:app.ts"); ("app.ts", File "code")].

(** A document whose stylesheet link names another document. *)
Definition collidingSite : FS :=
  site [("a.html", File "L:b.html"); ("b.html", File "hello")].

(** Two documents; the first references [x.scss], the second [x.css],
    and both files exist. *)
Definition twinSite : FS :=
  site [("a.html", File "L:x.scss"); ("b.html", File "L:x.css");
        ("x.scss", File "SCSS"); ("x.css", File "RAW")].

(** One document referencing a plain [.css] file. *)
Definition cssSite : FS :=
  site [("index.html", File "L:style.css"); ("style.css", File "RAW");
        ("logo.png", File "PNG")].

End Toy.

(** The state a run ends in. *)
Definition finalState {A : Type} (r : Step A) : BuildState :=
  match r with
  | Next _ s => s
  | Stop _ s => s
  end.

(** The output path of a recorded call. *)
Definition outPath (c : Call) : string :=
  match c with
  | TranspileCSS p _ => cssBuiltPath p
  | TranspileJS p _ _ => jsBuiltPath p
  end.

(** The configuration read from a bst.json with only the required
    fields, and the states the build of [Toy.cssSite] goes through. *)
Definition defaultConfig : BSTConfig :=
  mkConfig "src" "dist" false true true true true true.

Definition cssSiteCompiled : BuildState :=
  finalState (compileAll "/w" (Toy.tools Toy.defaults) defaultConfig
                ["src/index.html"] (initialState Toy.cssSite)).

Definition cssSiteWritten : BuildState :=
  finalState (writeOutputs "/w" defaultConfig cssSiteCompiled).

Definition cssSiteCopied : BuildState :=
  finalState (copyRest "/w" defaultConfig cssSiteWritten).

(** The configuration without minification or conversion, and the end
    of the build of [Toy.twinSite]. *)
Definition plainConfig : BSTConfig :=
  mkConfig "src" "dist" false false false true false false.

Definition twinSiteBuilt : BuildState :=
  finalState (build "/w" (Toy.tools Toy.plain) (initialState Toy.twinSite)).

(** One document whose stylesheet link is written with a leading [./]. *)
Definition dotSlashSite : FS :=
  Toy.site [("index.html", File "L:./s.scss"); ("s.scss", File "body")].

(** The same site with the link written [s.scss]. *)
Definition plainLinkSite : FS :=
  Toy.site [("index.html", File "L:s.scss"); ("s.scss", File "body")].

(** A recorded call has the arguments build.ts takes from the
    configuration: the style option for both transforms. *)
Definition fromConfig (config : BSTConfig) (c : Call) : Prop :=
  match c with
  | TranspileCSS _ m => m = css_minify config
  | TranspileJS _ root m => root = source config /\ m = css_minify config
  end.

(** Every entry of [o] is in [o'] with the same content. *)
Definition extends (o o' : Obj) : Prop :=
  forall k v, getProp k o = Some v -> getProp k o' = Some v.

(** No own key of [o] is missing from [o']. *)
Definition keeps (o o' : Obj) : Prop :=
  forall k, hasOwn k o = true -> hasOwn k o' = true.

(** What a stretch of the asset loops may do to the state: the file
    system is not touched, entries are only added, and the calls made
    take their arguments from the configuration. *)
Definition grows (config : BSTConfig) (s s' : BuildState) : Prop :=
  fs s' = fs s
  /\ extends (builtFiles s) (builtFiles s')
  /\ exists new, calls s' = calls s ++ new /\ Forall (fromConfig config) new.

(** The same for the whole document loop, where a document's own entry
    may be overwritten. *)
Definition advances (config : BSTConfig) (s s' : BuildState) : Prop :=
  fs s' = fs s
  /\ keeps (builtFiles s) (builtFiles s')
  /\ exists new, calls s' = calls s ++ new /\ Forall (fromConfig config) new.

(** What the phases after the document loop leave alone. *)
Definition sameOutputs (s s' : BuildState) : Prop :=
  builtFiles s' = builtFiles s /\ calls s' = calls s.

(** No two recorded calls have the same output path, and the output of
    every recorded call is in the output map. *)
Definition oncePerOutput (s : BuildState) : Prop :=
  NoDup (map outPath (calls s)).

Definition callsStored (s : BuildState) : Prop :=
  forall c, In c (calls s) -> hasOwn (outPath c) (builtFiles s) = true.

(** A computation ends, from every state, in a state related to the one
    it started in. *)
Definition always {A : Type} (R : BuildState -> BuildState -> Prop)
    (m : M A) : Prop :=
  forall s, R s (finalState (m s)).

(** A state predicate carried through a computation: [Q] on normal
    termination, [E] when the run stops. *)
Definition hoare {A : Type} (P : BuildState -> Prop) (m : M A)
    (Q : A -> BuildState -> Prop) (E : BuildState -> Prop) : Prop :=
  forall s, P s ->
    match m s with
    | Next a s' => Q a s'
    | Stop _ s' => E s'
    end.

(** The state with another [currentCompile]. *)
Definition withCurrent (p : string) (s : BuildState) : BuildState :=
  mkState (fs s) (builtFiles s) (Some p) (stderr s) (calls s).

(** The state [errorHandler] exits in, for a thrown message. *)
Definition exited (message : string) (s : BuildState) : BuildState :=
  mkState (fs s) (builtFiles s) (currentCompile s)
    (stderr s ++ match currentCompile s with
                 | Some p => ["Error while compiling " +++ p]
                 | None => []
                 end ++ [message])
    (calls s).

(** The state after a transform was called for [key] and returned. *)
Definition stored (c : Call) (key content : string) (s : BuildState)
    : BuildState :=
  mkState (fs s) (setProp key content (builtFiles s)) (currentCompile s)
    (stderr s) (calls s ++ [c]).

(** The state after a transform was called. *)
Definition called (c : Call) (s : BuildState) : BuildState :=
  mkState (fs s) (builtFiles s) (currentCompile s) (stderr s) (calls s ++ [c]).

(** The state after the lines were printed with [console.error]. *)
Definition printed (lines : list string) (s : BuildState) : BuildState :=
  mkState (fs s) (builtFiles s) (currentCompile s) (stderr s ++ lines)
    (calls s).

(** The state [errorHandler] exits in after a transform was called for
    [c] and printed [lines] before it threw. *)
Definition failed (c : Call) (lines : list string) (message : string)
    (s : BuildState) : BuildState :=
  exited message (printed lines (called c s)).

(** The state after [builtFiles[key] = content]. *)
Definition emitted (key content : string) (s : BuildState) : BuildState :=
  mkState (fs s) (setProp key content (builtFiles s)) (currentCompile s)
    (stderr s) (calls s).

(** An invariant [I] of the asset loops, with [E] for the states a run
    can stop in: it survives every change of state these loops make. *)
Record Closed (config : BSTConfig) (I E : BuildState -> Prop) : Prop := {
  cl_current : forall s p, I s -> I (withCurrent p s);
  cl_stored :
    forall s c content,
      I s -> fromConfig config c ->
      inObj (outPath c) (builtFiles s) = false ->
      I (stored c (outPath c) content s);
  cl_failed :
    forall s c lines message,
      I s -> fromConfig config c ->
      inObj (outPath c) (builtFiles s) = false ->
      E (failed c lines message s);
  cl_exited : forall s message, I s -> E (exited message s);
  cl_stop : forall s, I s -> E s
}.

(** An invariant of the whole document loop: it also survives the
    assignment of a document's own entry. *)
Record ClosedDoc (config : BSTConfig) (I E : BuildState -> Prop) : Prop := {
  cd_closed : Closed config I E;
  cd_emitted : forall s key content, I s -> I (emitted key content s)
}.

(** The style references of document [d], read from the file system [f],
    all have their output path in the output map. *)
Definition stylesStored (cwd : string) (T : Tools) (f : FS) (d : string)
    (s : BuildState) : Prop :=
  forall html imports ref,
    getHTML cwd T f d = Ok html ->
    getCSSImports html = Some imports ->
    In ref imports ->
    inObj (cssBuiltPath (importMapper (Path.dirname d) ref)) (builtFiles s)
    = true.

(** A predicate that only looks at the output map and the calls. *)
Definition outputsOnly (I : BuildState -> Prop) : Prop :=
  forall s s', sameOutputs s s' -> I s -> I s'.

(** A predicate on the output map that adding or assigning entries does
    not break. *)
Definition monotone (K : BuildState -> Prop) : Prop :=
  forall s s', K s -> keeps (builtFiles s) (builtFiles s') -> K s'.

(** The file at [path] holds [content]. *)
Definition holds (cwd : string) (f : FS) (path content : string) : Prop :=
  stat cwd f path = Some (File content).

(* ===================================================================== *)
(** ** The class-name helpers of index.ts                                 *)
(* ===================================================================== *)

(** [arr.indexOf(x)]; [None] stands for [-1]. *)
Fixpoint indexOf (x : string) (l : list string) : option nat :=
  match l with
  | [] => None
  | y :: r => if y =? x then Some 0 else option_map S (indexOf x r)
  end.

(** [arr[i] = v]. Past the end the array grows, and the holes left
    before [i] read as the empty string when the array is joined. *)
Fixpoint setAt (i : nat) (v : string) (l : list string) : list string :=
  match i, l with
  | 0, [] => [v]
  | 0, _ :: r => v :: r
  | S i', [] => EmptyString :: setAt i' v []
  | S i', y :: r => y :: setAt i' v r
  end.

(** The body of the loop of [replaceClassName], for an element that has
    a class attribute. *)
Definition renameClass (original replaced : string) (n : Node) (a : Attribs)
    : Attribs :=
  match getProp "class" a with
  | Some cls =>
      let classNames := JS.split " "%char cls in
      match indexOf original classNames with
      | Some index =>
          setProp "class" (JS.join " " (setAt index replaced classNames)) a
      | None => a
      end
  | None => a
  end.

(** [replaceClassName]. *)
Definition replaceClassName (d : Document) (original replaced : string)
    : Document :=
  updateAll (renameClass original replaced) d.

(** [getAllClassNames]. *)
Definition getAllClassNames (d : Document) : list string :=
  map Path.normalize
    (concat (map classTokens (findAll (hasAttrib "class") (docChildren d)))).

(** The list in which the first occurrence of [x] has given way to [y]. *)
Fixpoint replaceFirst (x y : string) (l : list string) : list string :=
  match l with
  | [] => []
  | z :: r => if z =? x then y :: r else z :: replaceFirst x y r
  end.

(** A document whose stylesheet links have no stylesheet link below
    them; [link] is a void element, so a parsed document is one. *)
Definition voidLinks (d : Document) : Prop :=
  forall n, In n (allElements (docChildren d)) -> isCSSElement n = true ->
    match n with
    | Other _ => True
    | Element _ _ _ ch => findAll isCSSElement ch = []
    end.

(** A document with the class attribute of a paragraph repeating a
    token. *)
Definition repeatedClassDocument : Document :=
  mkDocument
    [Element 0 "div" [("class", "a b")]
       [Element 1 "p" [("class", "b a b")] [Other "t"]]] 2.

(** Collaborators whose parser finds a stylesheet link without an
    [href], whatever the text. *)
Definition bareLinkTools : Tools :=
  {| parseConfig := parseConfig (Toy.tools Toy.defaults);
     micromatch := micromatch (Toy.tools Toy.defaults);
     parseDocument :=
       fun _ => mkDocument [Element 0 "link" [("rel", "stylesheet")] []] 1;
     serializeHTML := serializeHTML (Toy.tools Toy.defaults);
     minifyHTML := minifyHTML (Toy.tools Toy.defaults);
     compileString := compileString (Toy.tools Toy.defaults);
     bunBuild := bunBuild (Toy.tools Toy.defaults);
     removeExportsFromJS := removeExportsFromJS (Toy.tools Toy.defaults);
     minifyJS := minifyJS (Toy.tools Toy.defaults) |}.

(* ===================================================================== *)
(** ** Well-formed file systems                                           *)
(* ===================================================================== *)

(** Induction over an entry with the hypothesis for all it contains. *)
Fixpoint Entry_induction (P : Entry -> Prop)
    (HFile : forall c, P (File c))
    (HDir : forall es, Forall (fun ne => P (snd ne)) es -> P (Dir es))
    (e : Entry) : P e :=
  match e with
  | File c => HFile c
  | Dir es =>
      HDir es
        ((fix all (l : list (string * Entry))
            : Forall (fun ne => P (snd ne)) l :=
            match l with
            | [] => Forall_nil _
            | ne :: r =>
                Forall_cons ne (@Entry_induction P HFile HDir (snd ne)) (all r)
            end) es)
  end.

(** A directory as a file system keeps it: its entries have different
    names, every name is a name, and so below. *)
Fixpoint validEntry (e : Entry) : Prop :=
  match e with
  | File _ => True
  | Dir es =>
      NoDup (map fst es)
      /\ (fix all (l : list (string * Entry)) : Prop :=
            match l with
            | [] => True
            | ne :: r =>
                isName (fst ne) = true /\ validEntry (snd ne) /\ all r
            end) es
  end.

(** What is at a path below an entry. *)
Definition statEntry (segs : list string) (e : Entry) : option Entry :=
  match e with
  | Dir es => statSegs segs es
  | File c => match segs with [] => Some (File c) | _ => None end
  end.

(** A source tree with a document in a directory. *)
Definition nestedSite : FS :=
  Toy.site [("index.html", File "L:css/main.scss");
            ("css", Dir [("main.scss", File "M")]);
            ("img", Dir [("logo.png", File "PNG")])].

(* ===================================================================== *)
(** ** What a run prints                                                  *)
(* ===================================================================== *)

(** The line [errorHandler] prints before the message when a path is
    being compiled. *)
Definition contextLine (s : BuildState) : list string :=
  match currentCompile s with
  | Some p => ["Error while compiling " +++ p]
  | None => []
  end.


(** No line is printed ahead of [errorHandler]. *)
Definition noLogs (lines : list string) (thrown : string) (s : BuildState)
    : Prop :=
  False.

(** What was printed when a run that started with [e] printed stops: on
    [process.exit(1)] the lines a failing call printed itself, as [L]
    allows them, then the context line and one message; nothing more on
    an uncaught exception. *)
Definition reported (L : list string -> string -> BuildState -> Prop)
    (e : list string) (h : Halt) (s : BuildState) : Prop :=
  match h with
  | Exit1 =>
      exists lines thrown,
        stderr s = e ++ lines ++ contextLine s ++ [thrown]
        /\ (lines = [] \/ L lines thrown s)
  | Uncaught => stderr s = e
  end.

(** A computation that prints nothing unless it exits, and then what
    [reported] says. *)
Definition tidy {A : Type} (L : list string -> string -> BuildState -> Prop)
    (e : list string) (m : M A) : Prop :=
  forall s, stderr s = e ->
    match m s with
    | Next _ s' => stderr s' = e
    | Stop h s' => reported L e h s'
    end.

(** A bundler that fails, with two logs of level [error] around a
    warning. *)
Definition failingBundle (f : FS) (pathname root : string) (minify : bool)
    : BuildOutput :=
  mkBuildOutput false
    [mkBuildMessage LogError "unexpected token";
     mkBuildMessage LogWarning "unused import";
     mkBuildMessage LogError ("could not resolve " +++ pathname)]
    [].

Definition failingBundlerTools : Tools :=
  {| parseConfig := parseConfig (Toy.tools Toy.defaults);
     micromatch := micromatch (Toy.tools Toy.defaults);
     parseDocument := parseDocument (Toy.tools Toy.defaults);
     serializeHTML := serializeHTML (Toy.tools Toy.defaults);
     minifyHTML := minifyHTML (Toy.tools Toy.defaults);
     compileString := compileString (Toy.tools Toy.defaults);
     bunBuild := failingBundle;
     removeExportsFromJS := removeExportsFromJS (Toy.tools Toy.defaults);
     minifyJS := minifyJS (Toy.tools Toy.defaults) |}.

(** A predicate that does not look at the file system. *)
Definition ignoresFS (I : BuildState -> Prop) : Prop :=
  forall s f,
    I s -> I (mkState f (builtFiles s) (currentCompile s) (stderr s) (calls s)).

(* ===================================================================== *)
(** ** What a run does to the files                                       *)
(* ===================================================================== *)

(** Every file of [f] is still a file in [f'], with whatever content. *)
Definition survive (f f' : FS) : Prop :=
  forall segs c,
    statSegs segs f = Some (File c) ->
    exists c', statSegs segs f' = Some (File c').

(** A project whose destination is a file. *)
Definition blockedSite : FS :=
  [("w", Dir [("bst.json", File "{}");
              ("src", Dir [("index.html", File "hello")]);
              ("dist", File "in the way")])].

Definition blockedSiteCompiled : BuildState :=
  finalState (compileAll "/w" (Toy.tools Toy.defaults) defaultConfig
                ["src/index.html"] (initialState blockedSite)).

Definition blockedSiteStopped : BuildState :=
  finalState ((writeOutputs "/w" defaultConfig ;;; copyRest "/w" defaultConfig)
                blockedSiteCompiled).

(** The script references of document [d], read from the file system
    [f], all have their output path in the output map. *)
Definition scriptsStored (cwd : string) (T : Tools) (f : FS) (d : string)
    (s : BuildState) : Prop :=
  forall html imports ref,
    getHTML cwd T f d = Ok html ->
    getJSImports html = Some imports ->
    In ref imports ->
    inObj (jsBuiltPath (importMapper (Path.dirname d) ref)) (builtFiles s)
    = true.

(** One document with a script that is already JavaScript. *)
Definition jsSite : FS :=
  Toy.site [("index.html", File "S:app.js"); ("app.js", File "code")].

Definition jsSiteCompiled : BuildState :=
  finalState (compileAll "/w" (Toy.tools Toy.defaults) defaultConfig
                ["src/index.html"] (initialState jsSite)).

Definition jsSiteWritten : BuildState :=
  finalState (writeOutputs "/w" defaultConfig jsSiteCompiled).

Definition jsSiteCopied : BuildState :=
  finalState (copyRest "/w" defaultConfig jsSiteWritten).

(** One document that references [x.ts] before [x.js]; both files
    exist. *)
Definition tsFirstSite : FS :=
  Toy.site [("index.html", File "S:x.ts S:x.js"); ("x.ts", File "typed");
            ("x.js", File "plain")].

Definition tsFirstSiteBuilt : BuildState :=
  finalState (build "/w" (Toy.tools Toy.defaults) (initialState tsFirstSite)).

(** A project with files left in the destination by an earlier build. *)
Definition staleSite : FS :=
  [("w", Dir [("bst.json", File "{}");
              ("src", Dir [("index.html", File "hello")]);
              ("dist", Dir [("old.html", File "old");
                            ("css", Dir [("old.css", File "stale")])])])].

(** The configuration with [clean] on. *)
Definition cleanConfig : BSTConfig :=
  mkConfig "src" "dist" true true true true true true.

(* ===================================================================== *)
(** * Properties                                                          *)
(* ===================================================================== *)

Unset Implicit Arguments.

(** ** Strings and lists of strings *)

Lemma mem_In (x : string) (l : list string) : JS.mem x l = true <-> In x l.
Proof.
  unfold JS.mem. rewrite existsb_exists. split.
  - intros [y [Hy Heq]]. apply String.eqb_eq in Heq. now subst.
  - intros H. exists x. split; [assumption | apply String.eqb_refl].
Qed.

Lemma mem_false (x : string) (l : list string) :
  JS.mem x l = false <-> ~ In x l.
Proof.
  rewrite <- mem_In. destruct (JS.mem x l); split; congruence.
Qed.

Lemma mem_cons (x y : string) (l : list string) :
  JS.mem x (y :: l) = (x =? y) || JS.mem x l.
Proof. reflexivity. Qed.

Arguments JS.mem : simpl never.

Lemma split_not_nil (sep : ascii) (s : string) : JS.split sep s <> [].
Proof.
  destruct s as [|c r]; simpl; [discriminate|].
  destruct (Ascii.eqb c sep); [discriminate|].
  destruct (JS.split sep r); discriminate.
Qed.

Lemma split_noSep (sep : ascii) (s : string) :
  Forall (noSep sep) (JS.split sep s).
Proof.
  induction s as [|c r IH]; simpl.
  - repeat constructor.
  - destruct (Ascii.eqb c sep) eqn:E.
    + constructor; [exact I | exact IH].
    + destruct (JS.split sep r) as [|h t].
      * repeat constructor. exact E.
      * inversion IH; subst. constructor; [split; assumption | assumption].
Qed.

Lemma split_noSep_id (sep : ascii) (s : string) :
  noSep sep s -> JS.split sep s = [s].
Proof.
  induction s as [|c r IH]; simpl; [reflexivity|].
  intros [E H]. rewrite E, (IH H). reflexivity.
Qed.

Lemma split_append (sep : ascii) (a b : string) :
  noSep sep a ->
  JS.split sep (a +++ String sep b) = a :: JS.split sep b.
Proof.
  induction a as [|c r IH]; simpl.
  - intros _. now rewrite Ascii.eqb_refl.
  - intros [E H]. rewrite E, (IH H). reflexivity.
Qed.

(** Splitting what was joined gives the pieces back. *)
Lemma split_join (sep : ascii) (l : list string) :
  l <> [] -> Forall (noSep sep) l ->
  JS.split sep (JS.join (String sep EmptyString) l) = l.
Proof.
  induction l as [|x r IH]; [congruence|].
  intros _ HF. inversion HF as [|? ? Hx Hr]; subst.
  destruct r as [|y r'].
  - simpl. now apply split_noSep_id.
  - change (JS.join (String sep EmptyString) (x :: y :: r'))
      with (x +++ String sep (JS.join (String sep EmptyString) (y :: r'))).
    rewrite split_append by assumption.
    rewrite IH; [reflexivity | discriminate | assumption].
Qed.

(** ** [uniq] *)

Lemma uniqFrom_In (seen l : list string) (x : string) :
  In x (uniqFrom seen l) <-> In x l /\ ~ In x seen.
Proof.
  revert seen. induction l as [|y r IH]; intros seen; simpl.
  - tauto.
  - destruct (JS.mem y seen) eqn:E.
    + apply mem_In in E. rewrite IH. split.
      * tauto.
      * intros [[->|H] Hn]; [contradiction | tauto].
    + apply mem_false in E. simpl. rewrite IH. simpl. split.
      * intros [->|[H Hn]]; [tauto|]. split; [tauto|]. tauto.
      * intros [[->|H] Hn]; [tauto|].
        destruct (string_dec y x) as [->|Hne]; [tauto|]. right. tauto.
Qed.

Lemma uniqFrom_NoDup (seen l : list string) : NoDup (uniqFrom seen l).
Proof.
  revert seen. induction l as [|y r IH]; intros seen; simpl.
  - constructor.
  - destruct (JS.mem y seen); [apply IH|].
    constructor; [|apply IH].
    rewrite uniqFrom_In. simpl. tauto.
Qed.

Lemma uniqFrom_id (seen l : list string) :
  NoDup l -> (forall x, In x l -> ~ In x seen) -> uniqFrom seen l = l.
Proof.
  revert seen. induction l as [|y r IH]; intros seen Hnd Hdis; simpl.
  - reflexivity.
  - inversion Hnd as [|? ? Hy Hr]; subst.
    assert (E : JS.mem y seen = false)
      by (apply mem_false, Hdis; now left).
    rewrite E. f_equal. apply IH; [assumption|].
    intros x Hx [->|Hs]; [contradiction|].
    apply (Hdis x); [now right | assumption].
Qed.

Lemma uniqFrom_ext (s1 s2 l : list string) :
  (forall z, In z s1 <-> In z s2) -> uniqFrom s1 l = uniqFrom s2 l.
Proof.
  revert s1 s2. induction l as [|y r IH]; intros s1 s2 H; simpl.
  - reflexivity.
  - assert (E : JS.mem y s1 = JS.mem y s2).
    { destruct (JS.mem y s1) eqn:E1; symmetry.
      - apply mem_In. apply H. now apply mem_In.
      - apply mem_false. rewrite <- H. now apply mem_false. }
    rewrite E. destruct (JS.mem y s2).
    + now apply IH.
    + f_equal. apply IH. intros z. simpl. rewrite H. tauto.
Qed.

Lemma filter_isNot_id (x : string) (l : list string) :
  ~ In x l -> filter (isNot x) l = l.
Proof.
  induction l as [|y r IH]; simpl; [reflexivity|].
  intros H. unfold isNot at 1.
  destruct (String.eqb_spec y x) as [->|Hne]; simpl.
  - exfalso. apply H. now left.
  - f_equal. apply IH. tauto.
Qed.

Lemma uniqFrom_cons (x : string) (seen l : list string) :
  uniqFrom (x :: seen) l = filter (isNot x) (uniqFrom seen l).
Proof.
  revert seen. induction l as [|y r IH]; intros seen; simpl; [reflexivity|].
  rewrite mem_cons.
  destruct (JS.mem y seen) eqn:E.
  - rewrite orb_true_r. apply IH.
  - rewrite orb_false_r. simpl. unfold isNot at 1.
    destruct (String.eqb_spec y x) as [->|Hne]; simpl.
    + symmetry. apply filter_isNot_id. rewrite uniqFrom_In. simpl. tauto.
    + f_equal. rewrite <- IH. apply uniqFrom_ext.
      intros z. simpl. tauto.
Qed.

(** [uniq] keeps the first occurrence of each token and drops the later
    ones, leaving the order of what it keeps. *)
Lemma uniq_cons (x : string) (l : list string) :
  uniq (x :: l) = x :: filter (isNot x) (uniq l).
Proof. unfold uniq. simpl. now rewrite uniqFrom_cons. Qed.

Lemma uniq_NoDup (l : list string) : NoDup (uniq l).
Proof. apply uniqFrom_NoDup. Qed.

Lemma uniq_In (l : list string) (x : string) : In x (uniq l) <-> In x l.
Proof. unfold uniq. rewrite uniqFrom_In. simpl. tauto. Qed.

Lemma uniq_idempotent (l : list string) : uniq (uniq l) = uniq l.
Proof.
  unfold uniq at 1. apply uniqFrom_id; [apply uniq_NoDup | auto].
Qed.

Lemma uniq_not_nil (l : list string) : l <> [] -> uniq l <> [].
Proof. destruct l; [congruence | discriminate]. Qed.

(** The space-separated tokens of a normalized class value. *)
Lemma split_normalizeClass (cls : string) :
  JS.split " "%char (normalizeClass cls) = uniq (JS.split " "%char cls).
Proof.
  unfold normalizeClass.
  apply (split_join " "%char).
  - apply uniq_not_nil, split_not_nil.
  - apply Forall_forall. intros x Hx. apply (proj1 (uniq_In _ _)) in Hx.
    exact (proj1 (Forall_forall _ _) (split_noSep " "%char cls) x Hx).
Qed.

Lemma normalizeClass_idempotent (cls : string) :
  normalizeClass (normalizeClass cls) = normalizeClass cls.
Proof.
  unfold normalizeClass at 1.
  now rewrite split_normalizeClass, uniq_idempotent.
Qed.

(** ** Objects *)

Lemma getProp_setProp_eq (k v : string) (a : Obj) :
  getProp k (setProp k v a) = Some v.
Proof.
  induction a as [|[k' v'] r IH]; simpl.
  - now rewrite String.eqb_refl.
  - destruct (k' =? k) eqn:E; simpl; rewrite E; [reflexivity | exact IH].
Qed.

Lemma getProp_setProp_ne (k k' v : string) (a : Obj) :
  k' <> k -> getProp k' (setProp k v a) = getProp k' a.
Proof.
  intros Hne. induction a as [|[k0 v0] r IH]; simpl.
  - destruct (String.eqb_spec k k'); [congruence | reflexivity].
  - destruct (String.eqb_spec k0 k) as [->|H0]; simpl.
    + destruct (String.eqb_spec k k'); [congruence | reflexivity].
    + now rewrite IH.
Qed.

Lemma setProp_setProp (k v v' : string) (a : Obj) :
  setProp k v (setProp k v' a) = setProp k v a.
Proof.
  induction a as [|[k0 v0] r IH]; simpl.
  - now rewrite String.eqb_refl.
  - destruct (k0 =? k) eqn:E; simpl; rewrite E; [reflexivity | now rewrite IH].
Qed.

Lemma optEq_true (o : option string) (s : string) :
  optEq o s = true <-> o = Some s.
Proof.
  destruct o as [x|]; simpl.
  - rewrite String.eqb_eq. split; congruence.
  - split; discriminate.
Qed.

(** ** Attribute loops over the tree *)

Lemma flat_map_map {A B C : Type} (f : A -> B) (g : B -> list C)
    (l : list A) :
  flat_map g (map f l) = flat_map (fun x => g (f x)) l.
Proof. induction l; simpl; [reflexivity | now rewrite IHl]. Qed.

Lemma flat_map_ext_Forall {A B : Type} (f g : A -> list B) (l : list A) :
  Forall (fun x => f x = g x) l -> flat_map f l = flat_map g l.
Proof. induction 1; simpl; [reflexivity | congruence]. Qed.

Lemma map_ext_Forall {A B : Type} (f g : A -> B) (l : list A) :
  Forall (fun x => f x = g x) l -> map f l = map g l.
Proof. induction 1; simpl; [reflexivity | congruence]. Qed.

Lemma map_flat_map {A B C : Type} (f : B -> C) (g : A -> list B)
    (l : list A) :
  map f (flat_map g l) = flat_map (fun x => map f (g x)) l.
Proof.
  induction l; simpl; [reflexivity | now rewrite map_app, IHl].
Qed.

(** The elements found after the loop are those found before it, each
    with its update. *)
Lemma findAllNode_update (test : Node -> bool)
    (f : Node -> Attribs -> Attribs) :
  stableUnder test f ->
  forall n,
    findAllNode test (updateNode f n) = map (updateNode f) (findAllNode test n).
Proof.
  intros Hs. induction n as [d | i nm a ch IH] using Node_induction; [reflexivity|].
  simpl. rewrite map_app, Hs.
  f_equal.
  - destruct (test (Element i nm a ch)); reflexivity.
  - rewrite flat_map_map, map_flat_map. now apply flat_map_ext_Forall.
Qed.

Lemma findAll_update (test : Node -> bool)
    (f : Node -> Attribs -> Attribs) (nodes : list Node) :
  stableUnder test f ->
  findAll test (map (updateNode f) nodes)
  = map (updateNode f) (findAll test nodes).
Proof.
  intros Hs. unfold findAll. rewrite flat_map_map, map_flat_map.
  apply flat_map_ext_Forall, Forall_forall.
  intros n _. now apply findAllNode_update.
Qed.

Lemma findAllNode_test (test : Node -> bool) (n x : Node) :
  In x (findAllNode test n) -> test x = true.
Proof.
  induction n as [d | i nm a ch IH] using Node_induction; simpl; [tauto|].
  rewrite in_app_iff. intros [H|H].
  - destruct (test (Element i nm a ch)) eqn:E; simpl in H; [|tauto].
    destruct H as [<-|[]]. exact E.
  - apply in_flat_map in H. destruct H as [c [Hc Hx]].
    exact (proj1 (Forall_forall _ _) IH c Hc Hx).
Qed.

Lemma findAll_test (test : Node -> bool) (nodes : list Node) (x : Node) :
  In x (findAll test nodes) -> test x = true.
Proof.
  unfold findAll. intros H. apply in_flat_map in H.
  destruct H as [n [_ H]]. now apply findAllNode_test in H.
Qed.

(** An update that leaves the attributes of every element alone leaves
    the document alone. *)
Lemma updateNode_id (f : Node -> Attribs -> Attribs) (n : Node) :
  (forall i nm a ch, f (Element i nm a ch) a = a) -> updateNode f n = n.
Proof.
  intros Hf. induction n as [d | i nm a ch IH] using Node_induction; simpl; [reflexivity|].
  rewrite Hf. f_equal.
  rewrite <- (map_id ch) at 2. now apply map_ext_Forall.
Qed.

(** ** Class normalization *)

Lemma hasClass_stable : stableUnder (hasAttrib "class") dedupClass.
Proof.
  intros i nm a ch ch'. unfold hasAttrib, dedupClass. simpl.
  destruct (getProp "class" a) eqn:E.
  - now rewrite getProp_setProp_eq.
  - now rewrite E.
Qed.

Lemma classTokens_dedup (n : Node) :
  classTokens (updateNode dedupClass n) = uniq (classTokens n).
Proof.
  destruct n as [d | i nm a ch]; [reflexivity|].
  unfold classTokens, dedupClass. simpl.
  destruct (getProp "class" a) eqn:E.
  - rewrite getProp_setProp_eq. apply split_normalizeClass.
  - now rewrite E.
Qed.

Lemma dedupClass_idempotent (n : Node) :
  updateNode dedupClass (updateNode dedupClass n) = updateNode dedupClass n.
Proof.
  induction n as [d | i nm a ch IH] using Node_induction; simpl; [reflexivity|].
  f_equal.
  - unfold dedupClass. destruct (getProp "class" a) eqn:E.
    + rewrite getProp_setProp_eq, setProp_setProp.
      now rewrite normalizeClass_idempotent.
    + now rewrite E.
  - rewrite map_map. now apply map_ext_Forall.
Qed.

(** C7 (as amended): for every element that carries a class attribute,
    normalization replaces the tokens that single spaces separate by
    their first occurrences, in order; the result has no repeated token
    and the same tokens; normalizing twice is normalizing once; and
    ["foo bar foo baz"] becomes ["foo bar baz"]. *)
Theorem class_normalization_dedups_space_separated_tokens :
  forall d : Document,
    classLists (normalizeClasses d) = map uniq (classLists d)
    /\ (forall l, NoDup (uniq l) /\ forall x, In x (uniq l) <-> In x l)
    /\ (forall x l, uniq (x :: l) = x :: filter (isNot x) (uniq l))
    /\ normalizeClasses (normalizeClasses d) = normalizeClasses d
    /\ normalizeClass "foo bar foo baz" = "foo bar baz".
Proof.
  intros d. refine (conj _ (conj _ (conj _ (conj _ _)))).
  - unfold classLists, normalizeClasses, updateAll. simpl.
    rewrite (findAll_update _ _ _ hasClass_stable), !map_map.
    apply map_ext. intros n. apply classTokens_dedup.
  - intros l. split; [apply uniq_NoDup | apply uniq_In].
  - apply uniq_cons.
  - unfold normalizeClasses, updateAll. simpl. f_equal.
    rewrite map_map. apply map_ext. intros n. apply dedupClass_idempotent.
  - reflexivity.
Qed.

(** C7 (as stated) fails: tokens that a tab separates are whitespace
    separated, and the repeated one is kept. *)
Lemma class_normalization_keeps_tab_separated_duplicate :
  normalizeClasses tabbedDocument = tabbedDocument
  /\ map whitespaceTokens (map (JS.join " ") (classLists tabbedDocument))
     = [["foo"; "foo"]].
Proof. split; reflexivity. Qed.

(** ** Reference rewriting *)

Lemma isCSS_stable (o r : string) : stableUnder isCSSElement (rewriteHref o r).
Proof.
  intros i nm a ch ch'. unfold rewriteHref.
  destruct (isCSSElement (Element i nm a ch) && _); [|reflexivity].
  unfold isCSSElement. simpl. now rewrite getProp_setProp_ne by discriminate.
Qed.

Lemma isJS_stable (o r : string) : stableUnder isJSElement (rewriteSrc o r).
Proof.
  intros i nm a ch ch'. unfold rewriteSrc.
  destruct (isJSElement (Element i nm a ch) && _) eqn:E; [|reflexivity].
  apply andb_prop in E. destruct E as [E _].
  unfold isJSElement, hasAttrib, nodeName, nodeAttr in *.
  rewrite getProp_setProp_eq.
  destruct (optEq (Some nm) "script"); [|discriminate E].
  destruct (getProp "src" a); [reflexivity | discriminate E].
Qed.

Lemma href_rewritten (o r : string) (n : Node) :
  isCSSElement n = true ->
  nodeAttr "href" (updateNode (rewriteHref o r) n)
  = rewritten o r (nodeAttr "href" n).
Proof.
  destruct n as [d | i nm a ch]; [discriminate|].
  intros Hn. unfold rewritten, rewriteHref. simpl. rewrite Hn. simpl.
  destruct (optEq (getProp "href" a) o).
  - apply getProp_setProp_eq.
  - reflexivity.
Qed.

Lemma src_rewritten (o r : string) (n : Node) :
  isJSElement n = true ->
  nodeAttr "src" (updateNode (rewriteSrc o r) n)
  = rewritten o r (nodeAttr "src" n).
Proof.
  destruct n as [d | i nm a ch]; [discriminate|].
  intros Hn. unfold rewritten, rewriteSrc. simpl. rewrite Hn. simpl.
  destruct (optEq (getProp "src" a) o).
  - apply getProp_setProp_eq.
  - reflexivity.
Qed.

Lemma map_ext_In_test {A B : Type} (f g : A -> B) (l : list A) :
  (forall x, In x l -> f x = g x) -> map f l = map g l.
Proof. intros H. apply map_ext_in. exact H. Qed.

Lemma cssRefs_replace (d : Document) (o r : string) :
  cssRefs (replaceCSSImports d o r) = map (rewritten o r) (cssRefs d).
Proof.
  unfold cssRefs, getCSSElements, replaceCSSImports, updateAll. simpl.
  rewrite (findAll_update _ _ _ (isCSS_stable o r)), !map_map.
  apply map_ext_in. intros n Hn. apply href_rewritten.
  now apply findAll_test in Hn.
Qed.

Lemma jsRefs_replace (d : Document) (o r : string) :
  jsRefs (replaceJSImports d o r) = map (rewritten o r) (jsRefs d).
Proof.
  unfold jsRefs, getJSElements, replaceJSImports, updateAll. simpl.
  rewrite (findAll_update _ _ _ (isJS_stable o r)), !map_map.
  apply map_ext_in. intros n Hn. apply src_rewritten.
  now apply findAll_test in Hn.
Qed.

Lemma findAllNode_incl_children (test : Node -> bool) (i : nat) (nm : string)
    (a : Attribs) (ch : list Node) (c x : Node) :
  In c ch -> In x (findAllNode test c) ->
  In x (findAllNode test (Element i nm a ch)).
Proof.
  intros Hc Hx. simpl. apply in_or_app. right.
  apply in_flat_map. now exists c.
Qed.

Lemma rewriteHref_noop (o r : string) (n : Node) :
  (forall x, In x (findAllNode isCSSElement n) -> nodeAttr "href" x <> Some o) ->
  updateNode (rewriteHref o r) n = n.
Proof.
  induction n as [d | i nm a ch IH] using Node_induction; intros H;
    [reflexivity|]. simpl. f_equal.
  - unfold rewriteHref.
    destruct (isCSSElement (Element i nm a ch)) eqn:E; [|reflexivity]. simpl.
    destruct (optEq (getProp "href" a) o) eqn:Eo; [|reflexivity].
    exfalso. apply (H (Element i nm a ch)).
    + simpl. rewrite E. now left.
    + now apply optEq_true.
  - rewrite <- (map_id ch) at 2. apply map_ext_in. intros c Hc.
    apply (proj1 (Forall_forall _ _) IH c Hc).
    intros x Hx. apply H. now apply findAllNode_incl_children with c.
Qed.

Lemma rewriteSrc_noop (o r : string) (n : Node) :
  (forall x, In x (findAllNode isJSElement n) -> nodeAttr "src" x <> Some o) ->
  updateNode (rewriteSrc o r) n = n.
Proof.
  induction n as [d | i nm a ch IH] using Node_induction; intros H;
    [reflexivity|]. simpl. f_equal.
  - unfold rewriteSrc.
    destruct (isJSElement (Element i nm a ch)) eqn:E; [|reflexivity]. simpl.
    destruct (optEq (getProp "src" a) o) eqn:Eo; [|reflexivity].
    exfalso. apply (H (Element i nm a ch)).
    + simpl. rewrite E. now left.
    + now apply optEq_true.
  - rewrite <- (map_id ch) at 2. apply map_ext_in. intros c Hc.
    apply (proj1 (Forall_forall _ _) IH c Hc).
    intros x Hx. apply H. now apply findAllNode_incl_children with c.
Qed.

Lemma replaceCSSImports_noop (d : Document) (o r : string) :
  ~ In (Some o) (cssRefs d) -> replaceCSSImports d o r = d.
Proof.
  intros H. destruct d as [ch next].
  unfold replaceCSSImports, updateAll. simpl. f_equal.
  rewrite <- (map_id ch) at 2. apply map_ext_in. intros c Hc.
  apply rewriteHref_noop. intros x Hx Heq. apply H.
  unfold cssRefs, getCSSElements, findAll. simpl.
  rewrite <- Heq. apply in_map. apply in_flat_map. now exists c.
Qed.

Lemma replaceJSImports_noop (d : Document) (o r : string) :
  ~ In (Some o) (jsRefs d) -> replaceJSImports d o r = d.
Proof.
  intros H. destruct d as [ch next].
  unfold replaceJSImports, updateAll. simpl. f_equal.
  rewrite <- (map_id ch) at 2. apply map_ext_in. intros c Hc.
  apply rewriteSrc_noop. intros x Hx Heq. apply H.
  unfold jsRefs, getJSElements, findAll. simpl.
  rewrite <- Heq. apply in_map. apply in_flat_map. now exists c.
Qed.

(** Rewriting sets the path attribute of exactly the elements of the
    kind whose attribute, as written in the document, is the same string
    as the original path; the other references stay, and when no
    attribute is that string the document is unchanged. *)
Lemma rewriting_compares_the_attribute_as_written :
  forall (d : Document) (original replaced : string),
    cssRefs (replaceCSSImports d original replaced)
      = map (rewritten original replaced) (cssRefs d)
    /\ jsRefs (replaceJSImports d original replaced)
      = map (rewritten original replaced) (jsRefs d)
    /\ (~ In (Some original) (cssRefs d) ->
        replaceCSSImports d original replaced = d)
    /\ (~ In (Some original) (jsRefs d) ->
        replaceJSImports d original replaced = d).
Proof.
  intros d o r. refine (conj _ (conj _ (conj _ _))).
  - apply cssRefs_replace.
  - apply jsRefs_replace.
  - apply replaceCSSImports_noop.
  - apply replaceJSImports_noop.
Qed.

(** C4 - The comparison is not made after normalization, and the build
    goes wrong for it: [replaceCSSImports] compares the attribute as
    written, while the original path build.ts hands it has been
    normalized by [getCSSImports] and has gone through [importMapper]
    and [importDemapper]. For a document in [src] whose link is written
    [./s.scss] the reference is collected as [s.scss], the stylesheet
    is compiled and stored as [src/s.css], the rewriting from [s.scss]
    to [s.css] finds no attribute and says nothing, and the build
    completes with [dist/s.css] beside a document that still points at
    [./s.scss], which is not in the destination. With the link written
    [s.scss] the document points at [s.css]. *)
Theorem unnormalized_reference_is_left_dangling :
  getHTML "/w" (Toy.tools Toy.plain) dotSlashSite "src/index.html"
  = Ok dotSlashDocument
  /\ cssRefs dotSlashDocument = [Some "./s.scss"]
  /\ getCSSImports dotSlashDocument = Some ["s.scss"]
  /\ importMapper "src" "s.scss" = "src/s.scss"
  /\ importDemapper "/w" "src" "src/s.scss" = "s.scss"
  /\ importDemapper "/w" "src" (cssBuiltPath "src/s.scss") = "s.css"
  /\ replaceCSSImports dotSlashDocument "s.scss" "s.css" = dotSlashDocument
  /\ (exists s,
        build "/w" (Toy.tools Toy.plain) (initialState dotSlashSite)
        = Next tt s
        /\ calls s = [TranspileCSS "src/s.scss" false]
        /\ builtFiles s
           = [("src/s.css", "css(body)");
              ("src/index.html", "<link rel=stylesheet href=./s.scss>")]
        /\ stderr s = []
        /\ readText "/w" (fs s) "dist/s.css" = Ok "css(body)"
        /\ readText "/w" (fs s) "dist/index.html"
           = Ok "<link rel=stylesheet href=./s.scss>"
        /\ pathExists "/w" (fs s) "dist/s.scss" = false)
  /\ (exists s,
        build "/w" (Toy.tools Toy.plain) (initialState plainLinkSite)
        = Next tt s
        /\ readText "/w" (fs s) "dist/index.html"
           = Ok "<link rel=stylesheet href=s.css>").
Proof.
  refine (conj _ (conj _ (conj _ (conj _ (conj _ (conj _ (conj _
            (conj _ _)))))))); try (vm_compute; reflexivity).
  - eexists. split; [vm_compute; reflexivity|].
    refine (conj _ (conj _ (conj _ (conj _ (conj _ _)))));
      vm_compute; reflexivity.
  - eexists. split; vm_compute; reflexivity.
Qed.

(** ** Non-blocking conversion *)

Lemma flat_map_flat_map {A B C : Type} (f : A -> list B) (g : B -> list C)
    (l : list A) :
  flat_map g (flat_map f l) = flat_map (fun x => flat_map g (f x)) l.
Proof.
  induction l; simpl; [reflexivity | now rewrite flat_map_app, IHl].
Qed.

Lemma flat_map_singleton {A : Type} (f : A -> list A) (l : list A) :
  Forall (fun x => f x = [x]) l -> flat_map f l = l.
Proof. induction 1; simpl; [reflexivity | now rewrite H, IHForall]. Qed.

Lemma absent_children (i j : nat) (nm : string) (a : Attribs)
    (ch : list Node) :
  absent i (Element j nm a ch) -> Forall (absent i) ch.
Proof.
  simpl. intros [_ H]. induction ch as [|c r IH]; constructor; tauto.
Qed.

Lemma appendNode_absent (i : nat) (x n : Node) :
  absent i n -> appendNode i x n = [n].
Proof.
  induction n as [d | j nm a ch IH] using Node_induction; intros H;
    [reflexivity|].
  pose proof (absent_children _ _ _ _ _ H) as Hch.
  destruct H as [Hj _]. simpl.
  apply Nat.eqb_neq in Hj. rewrite Hj. do 2 f_equal.
  apply flat_map_singleton.
  rewrite Forall_forall in *. intros c Hc. apply IH; auto.
Qed.

Lemma removeNode_absent (i : nat) (n : Node) :
  absent i n -> removeNode i n = [n].
Proof.
  induction n as [d | j nm a ch IH] using Node_induction; intros H;
    [reflexivity|].
  pose proof (absent_children _ _ _ _ _ H) as Hch.
  destruct H as [Hj _]. simpl.
  apply Nat.eqb_neq in Hj. rewrite Hj. do 2 f_equal.
  apply flat_map_singleton.
  rewrite Forall_forall in *. intros c Hc. apply IH; auto.
Qed.

(** Two appends after an element and its removal put the second node,
    then the first, in its place. *)
Lemma append_append_remove (i : nat) (first second : Node) (n : Node) :
  absent i first -> absent i second ->
  flat_map (removeNode i)
    (flat_map (appendNode i second) (appendNode i first n))
  = replaceNode i [second; first] n.
Proof.
  intros Hf Hs.
  induction n as [d | j nm a ch IH] using Node_induction; [reflexivity|].
  simpl. destruct (Nat.eqb j i) eqn:E.
  - simpl. rewrite E. simpl. rewrite E. simpl.
    rewrite (appendNode_absent _ _ _ Hf). simpl.
    rewrite (removeNode_absent _ _ Hs), (removeNode_absent _ _ Hf).
    reflexivity.
  - simpl. rewrite E. simpl. rewrite E. simpl. do 2 f_equal.
    rewrite !flat_map_flat_map. apply flat_map_ext_Forall.
    eapply Forall_impl; [|exact IH]. intros c Hc. simpl.
    rewrite <- Hc. now rewrite flat_map_flat_map.
Qed.

Lemma convert_step (i : nat) (first second : Node) (nodes : list Node) :
  absent i first -> absent i second ->
  removeElement i (append i second (append i first nodes))
  = flat_map (replaceNode i [second; first]) nodes.
Proof.
  intros Hf Hs. unfold removeElement, append.
  rewrite !flat_map_flat_map. apply flat_map_ext_Forall, Forall_forall.
  intros n _. rewrite <- (append_append_remove i first second n Hf Hs).
  now rewrite flat_map_flat_map.
Qed.

Lemma preload_absent (i k : nat) (href : option string) :
  i < k -> absent i (preloadElement k href).
Proof. intros H. simpl. split; [lia | exact I]. Qed.

Lemma noscript_absent (i k m : nat) (href : option string) :
  i < k -> i < m -> absent i (noscriptElement k m href).
Proof. intros H1 H2. simpl. repeat split; lia. Qed.

Lemma targetHref_none (j : nat) (els : list Node) :
  (forall e, In e els -> nid e <> j \/ exists d, e = Other d) ->
  targetHref j els = None.
Proof.
  induction els as [|e r IH]; intros H; [reflexivity|].
  destruct e as [d | i nm a ch]; simpl.
  - apply IH. intros e He. apply H. now right.
  - destruct (H (Element i nm a ch) (or_introl eq_refl)) as [Hn | [d Hd]];
      [|discriminate].
    simpl in Hn. apply Nat.eqb_neq in Hn. rewrite Hn.
    apply IH. intros e He. apply H. now right.
Qed.

Lemma strip_preload (k : nat) (href : option string) :
  strip (preloadElement k href) = preloadElement 0 href.
Proof. reflexivity. Qed.

Lemma strip_noscript (k m : nat) (href : option string) :
  strip (noscriptElement k m href) = noscriptElement 0 0 href.
Proof. reflexivity. Qed.

(** Replacing one more element first, with nodes of fresh identity, is
    the same up to identities as listing it first. *)
Lemma expand_replace (els : list Node) (i k : nat) (nm0 : string)
    (a0 : Attribs) (ch0 : list Node) (n : Node) :
  (forall e, In e els -> nid e < k) ->
  map strip
    (flat_map (expandNode els)
       (replaceNode i [noscriptElement (k + 2) (k + 1) (getProp "href" a0);
                       preloadElement k (getProp "href" a0)] n))
  = map strip (expandNode (Element i nm0 a0 ch0 :: els) n).
Proof.
  intros Hk.
  assert (Hnone : forall j, k <= j -> targetHref j els = None).
  { intros j Hj. apply targetHref_none. intros e He. left.
    specialize (Hk e He). lia. }
  induction n as [d | j nm a ch IH] using Node_induction; [reflexivity|].
  simpl. destruct (Nat.eqb_spec j i) as [->|Hne].
  - rewrite Nat.eqb_refl. simpl.
    rewrite !Hnone by lia. reflexivity.
  - destruct (Nat.eqb_spec i j) as [->|_]; [congruence|]. simpl.
    destruct (targetHref j els); [reflexivity|]. simpl. do 2 f_equal.
    rewrite flat_map_flat_map, !map_flat_map.
    now apply flat_map_ext_Forall.
Qed.

Lemma expandNode_skip (d : string) (els : list Node) (n : Node) :
  expandNode (Other d :: els) n = expandNode els n.
Proof.
  induction n as [d' | j nm a ch IH] using Node_induction; [reflexivity|].
  simpl. destruct (targetHref j els); [reflexivity|].
  do 2 f_equal. now apply flat_map_ext_Forall.
Qed.

Lemma fold_convert (els : list Node) :
  forall (nodes : list Node) (k : nat),
    (forall e, In e els -> nid e < k) ->
    map strip (docChildren (fold_left convertOne els (mkDocument nodes k)))
    = map strip (flat_map (expandNode els) nodes).
Proof.
  induction els as [|e r IH]; intros nodes k Hk.
  - simpl. f_equal. symmetry. apply flat_map_singleton, Forall_forall.
    intros n _. induction n as [d | j nm a ch IHn] using Node_induction;
      [reflexivity|].
    simpl. do 2 f_equal. now apply flat_map_singleton.
  - destruct e as [d | i nm a ch].
    + simpl. rewrite IH by (intros e He; apply Hk; now right).
      f_equal. apply flat_map_ext_Forall, Forall_forall.
      intros n _. symmetry. apply expandNode_skip.
    + assert (Hi : i < k) by (apply (Hk (Element i nm a ch)); now left).
      simpl. rewrite convert_step.
      * rewrite IH.
        -- rewrite flat_map_flat_map, !map_flat_map.
           apply flat_map_ext_Forall, Forall_forall. intros n _.
           apply expand_replace. intros e He. apply Hk. now right.
        -- intros e He. assert (nid e < k) by (apply Hk; now right). lia.
      * apply preload_absent. exact Hi.
      * apply noscript_absent; lia.
Qed.

Lemma findAllNode_split (test : Node -> bool) (n x : Node) :
  In x (findAllNode test n)
  <-> In x (findAllNode (fun _ => true) n) /\ test x = true.
Proof.
  induction n as [d | j nm a ch IH] using Node_induction; simpl; [tauto|].
  rewrite in_app_iff, !in_flat_map.
  assert (Hch : (exists c, In c ch /\ In x (findAllNode test c))
                <-> (exists c, In c ch /\ In x (findAllNode (fun _ => true) c))
                    /\ test x = true).
  { rewrite Forall_forall in IH. split.
    - intros [c [Hc Hx]]. apply IH in Hx; [|exact Hc].
      split; [exists c|]; tauto.
    - intros [[c [Hc Hx]] Ht]. exists c. split; [exact Hc|].
      apply IH; tauto. }
  rewrite Hch. destruct (test (Element j nm a ch)) eqn:E; simpl; split.
  - intros [[<-|[]]|H]; tauto.
  - intros [[<-|H] Ht]; tauto.
  - intros [[]|H]; tauto.
  - intros [[<-|H] Ht]; [congruence | tauto].
Qed.

Lemma findAll_split (test : Node -> bool) (nodes : list Node) (x : Node) :
  In x (findAll test nodes) <-> In x (allElements nodes) /\ test x = true.
Proof.
  unfold allElements, findAll. rewrite !in_flat_map. split.
  - intros [n [Hn Hx]]. apply findAllNode_split in Hx.
    split; [exists n|]; tauto.
  - intros [[n [Hn Hx]] Ht]. exists n. split; [exact Hn|].
    apply findAllNode_split. tauto.
Qed.

Lemma findAllNode_element (test : Node -> bool) (n x : Node) :
  In x (findAllNode test n) -> exists i nm a ch, x = Element i nm a ch.
Proof.
  induction n as [d | j nm a ch IH] using Node_induction; simpl; [tauto|].
  rewrite in_app_iff, in_flat_map. intros [H|[c [Hc Hx]]].
  - destruct (test (Element j nm a ch)); simpl in H; [|tauto].
    destruct H as [<-|[]]. now exists j, nm, a, ch.
  - rewrite Forall_forall in IH. now apply (IH c).
Qed.

Lemma NoDup_map_eq {A B : Type} (f : A -> B) (l : list A) (x y : A) :
  NoDup (map f l) -> In x l -> In y l -> f x = f y -> x = y.
Proof.
  induction l as [|z r IH]; simpl; [tauto|].
  intros Hnd Hx Hy Hf. inversion Hnd as [|? ? Hz Hr]; subst.
  destruct Hx as [->|Hx], Hy as [->|Hy]; auto.
  - exfalso. apply Hz. rewrite Hf. now apply in_map.
  - exfalso. apply Hz. rewrite <- Hf. now apply in_map.
Qed.

Lemma targetHref_some (j : nat) (els : list Node) (h : option string) :
  targetHref j els = Some h ->
  exists e, In e els /\ nid e = j /\ nodeAttr "href" e = h
            /\ exists i nm a ch, e = Element i nm a ch.
Proof.
  induction els as [|e r IH]; simpl; [discriminate|].
  destruct e as [d | i nm a ch].
  - intros H. destruct (IH H) as [e [He Hrest]]. exists e. tauto.
  - destruct (Nat.eqb_spec i j) as [->|Hne].
    + intros [= <-]. exists (Element j nm a ch).
      repeat split; [now left|]. now exists j, nm, a, ch.
    + intros H. destruct (IH H) as [e [He Hrest]]. exists e. tauto.
Qed.

Lemma targetHref_element (i : nat) (nm : string) (a : Attribs)
    (ch : list Node) (els : list Node) :
  In (Element i nm a ch) els -> targetHref i els <> None.
Proof.
  induction els as [|e r IH]; simpl; [tauto|].
  intros [->|H].
  - now rewrite Nat.eqb_refl.
  - destruct e as [d | j nm' a' ch']; [now apply IH|].
    destruct (Nat.eqb j i); [discriminate | now apply IH].
Qed.

(** In a document without shared identities the loop's list of
    stylesheet links assigns each element its own href, or nothing. *)
Lemma targetHref_css (nodes : list Node) (x : Node) :
  NoDup (map nid (allElements nodes)) ->
  In x (allElements nodes) ->
  targetHref (nid x) (findAll isCSSElement nodes)
  = if isCSSElement x then Some (nodeAttr "href" x) else None.
Proof.
  intros Hnd Hx.
  destruct (targetHref (nid x) (findAll isCSSElement nodes)) as [h|] eqn:E.
  - destruct (targetHref_some _ _ _ E) as [e [He [Hid [Hh _]]]].
    apply findAll_split in He. destruct He as [He Ht].
    assert (e = x) by (eapply NoDup_map_eq; eauto). subst e.
    now rewrite Ht, Hh.
  - destruct (isCSSElement x) eqn:Ht; [|reflexivity].
    exfalso.
    destruct (findAllNode_element (fun _ => true) (Element 0 "x" [] nodes) x)
      as [i [nm [a [ch ->]]]].
    { simpl. now right. }
    apply (targetHref_element i nm a ch (findAll isCSSElement nodes)).
    + apply findAll_split. now split.
    + exact E.
Qed.

Lemma isCSSElement_strip (n : Node) :
  isCSSElement (strip n) = isCSSElement n.
Proof. destruct n; reflexivity. Qed.

Lemma expand_replaceLinks (els : list Node) (n : Node) :
  (forall x, In x (findAllNode (fun _ => true) n) ->
             targetHref (nid x) els
             = if isCSSElement x then Some (nodeAttr "href" x) else None) ->
  map strip (expandNode els n) = replaceLinks fallbackThenPreload (strip n).
Proof.
  induction n as [d | j nm a ch IH] using Node_induction; intros H;
    [reflexivity|].
  pose proof (H (Element j nm a ch) (or_introl eq_refl)) as Hn.
  change (strip (Element j nm a ch)) with (Element 0 nm a (map strip ch)).
  cbn [expandNode replaceLinks].
  change (isCSSElement (Element 0 nm a (map strip ch)))
    with (isCSSElement (Element j nm a ch)).
  cbn [nid] in Hn. rewrite Hn.
  destruct (isCSSElement (Element j nm a ch)); [reflexivity|].
  cbn [map strip]. do 2 f_equal.
  rewrite map_flat_map, flat_map_map.
  apply flat_map_ext_Forall. rewrite Forall_forall in *.
  intros c Hc. apply IH; [exact Hc|].
  intros x Hx. apply H. simpl. right. apply in_flat_map. now exists c.
Qed.

(** C3 (as amended): in a well-formed document the conversion puts, in
    place of every stylesheet link, exactly two nodes that carry its
    href: the no-script element wrapping a stylesheet link, then the
    preload link with the onload handler. The preload link is appended
    first and the no-script element second, each right after the original
    link, and the original link is removed. *)
Theorem conversion_puts_fallback_then_preload :
  forall d : Document,
    wfDocument d ->
    map strip (docChildren (convertCSSToNonBlocking d))
    = flat_map (replaceLinks fallbackThenPreload) (map strip (docChildren d)).
Proof.
  intros [nodes k] [Hnd Hlt]. simpl in *.
  unfold convertCSSToNonBlocking, getCSSElements. simpl.
  rewrite fold_convert.
  - rewrite map_flat_map, flat_map_map.
    apply flat_map_ext_Forall, Forall_forall. intros n Hn.
    apply expand_replaceLinks. intros x Hx.
    apply targetHref_css; [exact Hnd|].
    unfold allElements, findAll. apply in_flat_map. now exists n.
  - intros e He. apply findAll_split in He. destruct He as [He _].
    rewrite Forall_forall in Hlt. now apply Hlt.
Qed.

Lemma singleLinkDocument_wf : wfDocument singleLinkDocument.
Proof.
  split; simpl.
  - repeat constructor; simpl; intuition discriminate.
  - repeat constructor.
Qed.

Lemma conversion_puts_fallback_then_preload_witness :
  map strip (docChildren (convertCSSToNonBlocking singleLinkDocument))
  = flat_map (replaceLinks fallbackThenPreload)
      (map strip (docChildren singleLinkDocument)).
Proof.
  apply (conversion_puts_fallback_then_preload singleLinkDocument).
  exact singleLinkDocument_wf.
Defined.

(** C3 (as stated) fails: after the conversion the no-script fallback
    comes before the preload link, not after it. *)
Lemma fallback_lands_before_preload :
  map strip (docChildren (convertCSSToNonBlocking singleLinkDocument))
  = [Element 0 "head" []
       [Element 0 "meta" [("charset", "utf-8")] [];
        noscriptElement 0 0 (Some "s.css");
        preloadElement 0 (Some "s.css");
        Element 0 "title" [] [Other "t"]]]
  /\ flat_map (replaceLinks preloadThenFallback)
       (map strip (docChildren singleLinkDocument))
  = [Element 0 "head" []
       [Element 0 "meta" [("charset", "utf-8")] [];
        preloadElement 0 (Some "s.css");
        noscriptElement 0 0 (Some "s.css");
        Element 0 "title" [] [Other "t"]]].
Proof. split; reflexivity. Qed.

(** ** Style import resolution *)

(** C5 (as amended): the importer tries the resolved path as it is
    first, and it wins whenever it is a file; otherwise, when the
    resolved path is a directory, only [_index.scss] inside it is tried,
    and when it is not, only the sibling whose basename has [_] put in
    front. No extension is added to the path: with [x.scss] and
    [_x.scss] side by side, importing [x.scss] loads [x.scss] and never
    the partial. *)
Theorem style_import_precedence :
  forall (cwd : string) (fs : FS) (canonPath : string),
    pickFirstExisting cwd fs (loadCandidates cwd fs canonPath)
    = (if fileExists cwd fs canonPath then Some canonPath
       else if isDir cwd fs canonPath then
         (if fileExists cwd fs (Path.join [canonPath; "_index.scss"])
          then Some (Path.join [canonPath; "_index.scss"]) else None)
       else
         (if fileExists cwd fs
               (Path.join [Path.dirname canonPath;
                           "_" +++ Path.basename canonPath])
          then Some (Path.join [Path.dirname canonPath;
                                "_" +++ Path.basename canonPath])
          else None))
    /\ (fileExists cwd fs canonPath = true ->
        load cwd fs canonPath = readText cwd fs canonPath)
    /\ (pickFirstExisting cwd fs (loadCandidates cwd fs canonPath) = None ->
        load cwd fs canonPath = Throw (canonPath +++ " not found"))
    /\ loadCandidates "/w" bothFilesFS "d/x.scss" = ["d/x.scss"; "d/_x.scss"]
    /\ load "/w" bothFilesFS "d/x.scss" = Ok "X".
Proof.
  intros cwd fs p. refine (conj _ (conj _ (conj _ (conj _ _)))).
  - unfold loadCandidates. simpl.
    destruct (fileExists cwd fs p); [reflexivity|].
    destruct (isDir cwd fs p);
      match goal with |- context [fileExists cwd fs ?q] =>
        destruct (fileExists cwd fs q); reflexivity end.
  - intros H. unfold load, loadCandidates. simpl. now rewrite H.
  - intros H. unfold load. now rewrite H.
  - reflexivity.
  - reflexivity.
Qed.

(** C5 (as stated) fails: with [x.scss] and [_x.scss] in the directory,
    importing [x] tries [d/x] and [d/_x], finds neither, and throws. *)
Lemma bare_import_finds_neither_file :
  fileExists "/w" bothFilesFS "d/x.scss" = true
  /\ fileExists "/w" bothFilesFS "d/_x.scss" = true
  /\ loadCandidates "/w" bothFilesFS "d/x" = ["d/x"; "d/_x"]
  /\ pickFirstExisting "/w" bothFilesFS (loadCandidates "/w" bothFilesFS "d/x")
     = None
  /\ load "/w" bothFilesFS "d/x" = Throw "d/x not found".
Proof. repeat split. Qed.

(** ** The script transform *)

(** C8: [transpileJS] returns only when the bundler produced exactly one
    artifact and that artifact is an entry point, and then it returns
    that artifact's text, export-stripped and minified when asked; any
    other number of artifacts, and a single artifact of another kind,
    make it throw. *)
Theorem script_transform_needs_one_entry_point :
  forall (cwd : string) (T : Tools) (fs : FS) (pathname root : string)
         (minify : bool),
    (forall text,
        outcome (transpileJS cwd T fs pathname root minify) = Ok text ->
        exists artifact,
          outputs (bunBuild T fs pathname root minify) = [artifact]
          /\ kind artifact = EntryPoint
          /\ text = finished T minify artifact)
    /\ (List.length (outputs (bunBuild T fs pathname root minify)) <> 1 ->
        exists message,
          outcome (transpileJS cwd T fs pathname root minify)
          = Throw message)
    /\ (forall artifact,
          outputs (bunBuild T fs pathname root minify) = [artifact] ->
          kind artifact <> EntryPoint ->
          exists message,
            outcome (transpileJS cwd T fs pathname root minify)
            = Throw message)
    /\ (forall artifact,
          fileExists cwd fs pathname = true ->
          success (bunBuild T fs pathname root minify) = true ->
          outputs (bunBuild T fs pathname root minify) = [artifact] ->
          kind artifact = EntryPoint ->
          transpileJS cwd T fs pathname root minify
          = mkLogged [] (Ok (finished T minify artifact))).
Proof.
  intros cwd T fs pathname root minify. unfold transpileJS.
  destruct (fileExists cwd fs pathname); simpl.
  2:{ repeat split; intros; try discriminate; eauto. }
  destruct (success (bunBuild T fs pathname root minify)); simpl.
  2:{ repeat split; intros; try discriminate; eauto. }
  destruct (outputs (bunBuild T fs pathname root minify)) as [|a [|b rest]].
  - repeat split; intros; try discriminate; eauto.
  - destruct (kind a) eqn:K; repeat split; intros; try discriminate;
      try (simpl in *; congruence); eauto;
      try match goal with
          | H : Ok _ = Ok _ |- _ => injection H as <-; exists a; auto
          | H : [_] = [_] |- _ =>
              injection H as <-; try congruence; eauto;
              try (rewrite K; reflexivity)
          end.
  - repeat split; intros; try discriminate; eauto.
Qed.

(** ** Path arithmetic *)

Lemma noSlash_noSep (s : string) : noSlash s = true -> noSep Path.slash s.
Proof.
  induction s as [|c r IH]; simpl; [trivial|].
  intros H. apply andb_prop in H. destruct H as [Hc Hr].
  split; [now apply negb_true_iff in Hc | auto].
Qed.

Lemma isName_inv (s : string) :
  isName s = true ->
  s <> EmptyString /\ s <> "." /\ s <> ".." /\ noSlash s = true.
Proof.
  unfold isName. intros H.
  repeat (apply andb_prop in H; destruct H as [H ?]).
  repeat split; try assumption;
    match goal with
    | Hn : negb (s =? ?t) = true |- s <> ?t =>
        apply negb_true_iff in Hn; now apply String.eqb_neq in Hn
    end.
Qed.

Lemma names_noSep (l : list string) :
  Forall (fun s => isName s = true) l -> Forall (noSep Path.slash) l.
Proof.
  intros H. eapply Forall_impl; [|exact H].
  intros s Hs. apply noSlash_noSep. now apply isName_inv in Hs.
Qed.

Lemma split_pathOf (l : list string) :
  l <> [] -> Forall (fun s => isName s = true) l ->
  JS.split Path.slash (pathOf l) = l.
Proof.
  intros Hl H. apply (split_join Path.slash); [exact Hl | now apply names_noSep].
Qed.

Lemma split_app (sep : ascii) (a b : string) :
  JS.split sep (a +++ String sep b) = JS.split sep a ++ JS.split sep b.
Proof.
  induction a as [|c r IH]; simpl.
  - now rewrite Ascii.eqb_refl.
  - destruct (Ascii.eqb c sep); [now rewrite IH|].
    rewrite IH. pose proof (split_not_nil sep r) as Hn.
    destruct (JS.split sep r); [congruence | reflexivity].
Qed.

Lemma normStep_name (allow : bool) (stack : list string) (s : string) :
  isName s = true -> Path.normStep allow stack s = s :: stack.
Proof.
  intros H. apply isName_inv in H. destruct H as [H1 [H2 [H3 _]]].
  unfold Path.normStep.
  apply String.eqb_neq in H1, H2, H3. now rewrite H1, H2, H3.
Qed.

Lemma fold_normStep_names (allow : bool) (l stack : list string) :
  Forall (fun s => isName s = true) l ->
  fold_left (Path.normStep allow) l stack = rev l ++ stack.
Proof.
  intros H. revert stack. induction H as [|s r Hs Hr IH]; intros stack.
  - reflexivity.
  - simpl. rewrite normStep_name by assumption.
    rewrite IH, <- app_assoc. reflexivity.
Qed.

Lemma normSegs_app_names (allow : bool) (pre l : list string) :
  Forall (fun s => isName s = true) l ->
  Path.normSegs allow (pre ++ l) = Path.normSegs allow pre ++ l.
Proof.
  intros H. unfold Path.normSegs.
  rewrite fold_left_app, fold_normStep_names by assumption.
  now rewrite rev_app_distr, rev_involutive.
Qed.

Lemma normSegs_names (allow : bool) (l : list string) :
  Forall (fun s => isName s = true) l -> Path.normSegs allow l = l.
Proof. intros H. now apply (normSegs_app_names allow []). Qed.

Lemma pathOf_cons (x y : string) (r : list string) :
  pathOf (x :: y :: r) = x +++ String Path.slash (pathOf (y :: r)).
Proof. reflexivity. Qed.

Lemma append_assoc (a b c : string) : (a +++ b) +++ c = a +++ b +++ c.
Proof. induction a; simpl; congruence. Qed.

Lemma pathOf_app (a b : list string) :
  a <> [] -> b <> [] ->
  pathOf (a ++ b) = pathOf a +++ String Path.slash (pathOf b).
Proof.
  intros Ha Hb. induction a as [|x r IH]; [congruence|].
  destruct r as [|y r'].
  - destruct b; [congruence | reflexivity].
  - change ((x :: y :: r') ++ b) with (x :: y :: (r' ++ b)).
    rewrite !pathOf_cons. change (y :: r' ++ b) with ((y :: r') ++ b).
    rewrite IH by discriminate. now rewrite append_assoc.
Qed.

Lemma pathOf_nonempty (l : list string) :
  l <> [] -> Forall (fun s => isName s = true) l ->
  exists c r, pathOf l = String c r /\ c <> Path.slash.
Proof.
  intros Hl H. destruct l as [|x l']; [congruence|].
  inversion H as [|? ? Hx _]; subst. apply isName_inv in Hx.
  destruct Hx as [Hne [_ [_ Hs]]].
  destruct x as [|c x']; [congruence|].
  simpl in Hs. apply andb_prop in Hs. destruct Hs as [Hc _].
  apply negb_true_iff, Ascii.eqb_neq in Hc.
  destruct l'; simpl; eexists _, _; (split; [reflexivity | exact Hc]).
Qed.

(** Whether a string ends with [/] is decided by any non-empty suffix. *)
Lemma list_ascii_app (a b : string) :
  list_ascii_of_string (a +++ b)
  = list_ascii_of_string a ++ list_ascii_of_string b.
Proof. induction a; simpl; congruence. Qed.

Lemma endsWith_slash_suffix (a : string) (c : ascii) (b : string) :
  JS.endsWith "/" (a +++ String c b) = JS.endsWith "/" (String c b).
Proof.
  unfold JS.endsWith, JS.rev_string. rewrite list_ascii_app, rev_app_distr.
  simpl (list_ascii_of_string (String c b)).
  destruct (rev (c :: list_ascii_of_string b)) as [|h t] eqn:E.
  - apply (f_equal (@List.length ascii)) in E.
    rewrite length_rev in E. discriminate.
  - reflexivity.
Qed.

Lemma endsWith_slash_name (s : string) :
  s <> EmptyString -> noSlash s = true -> JS.endsWith "/" s = false.
Proof.
  induction s as [|c r IH]; [congruence|]. intros _ H.
  simpl in H. apply andb_prop in H. destruct H as [Hc Hr].
  destruct r as [|c' r'].
  - apply negb_true_iff in Hc. rewrite Ascii.eqb_sym in Hc.
    change (JS.endsWith "/" (String c EmptyString))
      with (Ascii.eqb Path.slash c && true).
    now rewrite Hc.
  - change (String c (String c' r')) with (String c EmptyString +++ String c' r').
    rewrite endsWith_slash_suffix. apply IH; [discriminate | exact Hr].
Qed.

Lemma endsWith_slash_pathOf (l : list string) :
  l <> [] -> Forall (fun s => isName s = true) l ->
  JS.endsWith "/" (pathOf l) = false.
Proof.
  intros Hl H. induction l as [|x r IH]; [congruence|].
  inversion H as [|? ? Hx Hr]; subst.
  destruct r as [|y r'].
  - apply isName_inv in Hx. simpl. now apply endsWith_slash_name.
  - rewrite pathOf_cons.
    destruct (pathOf_nonempty (y :: r')) as [c [t [E _]]];
      [discriminate | assumption |].
    rewrite E.
    change (x +++ String Path.slash (String c t))
      with (x +++ String Path.slash EmptyString +++ String c t).
    rewrite <- append_assoc, endsWith_slash_suffix, <- E.
    apply IH; [discriminate | assumption].
Qed.

Lemma isAbsolute_pathOf (l : list string) :
  l <> [] -> Forall (fun s => isName s = true) l ->
  Path.isAbsolute (pathOf l) = false.
Proof.
  intros Hl H. destruct (pathOf_nonempty l Hl H) as [c [r [E Hc]]].
  rewrite E.
  change (Path.isAbsolute (String c r)) with (Ascii.eqb Path.slash c && true).
  destruct (Ascii.eqb_spec Path.slash c) as [<-|]; [|reflexivity].
  exfalso. now apply Hc.
Qed.

(** A path made of names is already normal. *)
Lemma normalize_pathOf (l : list string) :
  l <> [] -> Forall (fun s => isName s = true) l ->
  Path.normalize (pathOf l) = pathOf l.
Proof.
  intros Hl H. unfold Path.normalize.
  destruct (pathOf_nonempty l Hl H) as [c [r [E _]]].
  assert (Hne : (pathOf l =? EmptyString) = false)
    by (rewrite E; reflexivity).
  rewrite Hne, isAbsolute_pathOf, endsWith_slash_pathOf by assumption.
  simpl. unfold Path.normalizeString.
  rewrite split_pathOf, normSegs_names by assumption.
  fold (pathOf l). now rewrite Hne.
Qed.

Lemma join_pathOf (b r : list string) :
  b <> [] -> r <> [] ->
  Forall (fun s => isName s = true) b ->
  Forall (fun s => isName s = true) r ->
  Path.join [pathOf b; pathOf r] = pathOf (b ++ r).
Proof.
  intros Hb Hr Fb Fr. unfold Path.join.
  destruct (pathOf_nonempty b Hb Fb) as [c1 [t1 [E1 _]]].
  destruct (pathOf_nonempty r Hr Fr) as [c2 [t2 [E2 _]]].
  assert (H1 : (pathOf b =? EmptyString) = false) by (rewrite E1; reflexivity).
  assert (H2 : (pathOf r =? EmptyString) = false) by (rewrite E2; reflexivity).
  cbn [filter]. rewrite H1, H2. cbn [negb JS.join].
  change (pathOf b +++ "/" +++ pathOf r)
    with (pathOf b +++ String Path.slash (pathOf r)).
  rewrite <- pathOf_app by assumption.
  apply normalize_pathOf.
  - destruct b; [congruence | discriminate].
  - now apply Forall_app.
Qed.

Lemma resolveSegs_pathOf (cwd : string) (l : list string) :
  l <> [] -> Forall (fun s => isName s = true) l ->
  Path.resolveSegs cwd (pathOf l)
  = Path.normSegs false (JS.split Path.slash cwd) ++ l.
Proof.
  intros Hl H. unfold Path.resolveSegs.
  destruct (pathOf_nonempty l Hl H) as [c [r [E _]]].
  assert (Hne : (pathOf l =? EmptyString) = false)
    by (rewrite E; reflexivity).
  rewrite Hne, isAbsolute_pathOf by assumption.
  change (cwd +++ "/" +++ pathOf l) with (cwd +++ String Path.slash (pathOf l)).
  rewrite split_app, split_pathOf by assumption.
  now apply normSegs_app_names.
Qed.

Lemma common_app (l r : list string) : Path.common l (l ++ r) = List.length l.
Proof.
  induction l as [|x l' IH]; simpl; [now destruct r|].
  now rewrite String.eqb_refl, IH.
Qed.

Lemma pathOf_injective (a b : list string) :
  a <> [] -> b <> [] ->
  Forall (fun s => isName s = true) a ->
  Forall (fun s => isName s = true) b ->
  pathOf a = pathOf b -> a = b.
Proof.
  intros Ha Hb Fa Fb E.
  rewrite <- (split_pathOf a Ha Fa), <- (split_pathOf b Hb Fb).
  now rewrite E.
Qed.

(** A reference made of names is mapped to the owning directory's names
    followed by its own, already normal; demapping a path below the
    owning directory gives back exactly the part below it. *)
Lemma names_round_trip (cwd : string) (b r : list string) :
  b <> [] -> r <> [] ->
  Forall (fun s => isName s = true) b ->
  Forall (fun s => isName s = true) r ->
  importMapper (pathOf b) (pathOf r) = pathOf (b ++ r)
  /\ importDemapper cwd (pathOf b) (pathOf (b ++ r)) = pathOf r
  /\ importDemapper cwd (pathOf b) (importMapper (pathOf b) (pathOf r))
     = pathOf r.
Proof.
  intros Hb Hr Fb Fr.
  assert (Hbr : b ++ r <> []) by (destruct b; [congruence | discriminate]).
  assert (Fbr : Forall (fun s => isName s = true) (b ++ r))
    by now apply Forall_app.
  assert (Hmap : importMapper (pathOf b) (pathOf r) = pathOf (b ++ r)).
  { unfold importMapper.
    fold (Path.isAbsolute (pathOf r)). rewrite isAbsolute_pathOf by assumption.
    now apply join_pathOf. }
  assert (Hdemap : importDemapper cwd (pathOf b) (pathOf (b ++ r)) = pathOf r).
  { unfold importDemapper, Path.relative.
    destruct (String.eqb_spec (pathOf b) (pathOf (b ++ r))) as [E|_].
    - apply pathOf_injective in E; try assumption.
      exfalso. apply Hr. apply (app_inv_head b). now rewrite app_nil_r.
    - rewrite !resolveSegs_pathOf by assumption.
      rewrite app_assoc, common_app.
      rewrite Nat.sub_diag, skipn_app, skipn_all, Nat.sub_diag. reflexivity. }
  refine (conj Hmap (conj Hdemap _)). now rewrite Hmap.
Qed.

(** The round trip through the extension substitution: the
    reference [b.scss] of a document in [a] is mapped to [a/b.scss],
    built as [a/b.css], and written back as [b.css]. *)
Example rewrite_scss_reference :
  importMapper "a" "b.scss" = "a/b.scss"
  /\ cssBuiltPath (importMapper "a" "b.scss") = "a/b.css"
  /\ importDemapper "/home/site" "a" (cssBuiltPath (importMapper "a" "b.scss"))
     = "b.css".
Proof. repeat split. Qed.

(** ** The asset steps, case by case *)

Section Steps.

Variable cwd : string.
Variable T : Tools.
Variable config : BSTConfig.

(** A reference whose output path is in the map is not compiled again:
    nothing is called and the map is left as it is. *)
Lemma compileCSS_cached (basePath : string) (html : Document)
    (cssPath : string) (s : BuildState) :
  inObj (cssBuiltPath cssPath) (builtFiles s) = true ->
  compileCSS cwd T config basePath html cssPath s
  = Next (replaceCSSImports html (importDemapper cwd basePath cssPath)
            (importDemapper cwd basePath (cssBuiltPath cssPath)))
         (withCurrent cssPath s).
Proof.
  intros H. unfold compileCSS, bind, setCurrent, get, ret. simpl.
  now rewrite H.
Qed.

(** A reference whose output path is new is compiled from its own
    source, with the style option, and stored under the output path. *)
Lemma compileCSS_fresh (basePath : string) (html : Document)
    (cssPath content : string) (s : BuildState) :
  inObj (cssBuiltPath cssPath) (builtFiles s) = false ->
  transpileCSS cwd T (fs s) cssPath (css_minify config) = Ok content ->
  compileCSS cwd T config basePath html cssPath s
  = Next (replaceCSSImports html (importDemapper cwd basePath cssPath)
            (importDemapper cwd basePath (cssBuiltPath cssPath)))
         (stored (TranspileCSS cssPath (css_minify config))
                 (cssBuiltPath cssPath) content (withCurrent cssPath s)).
Proof.
  intros H Ht.
  unfold compileCSS, bind, setCurrent, get, ret, record, orExit, setBuilt.
  simpl. rewrite H. simpl. now rewrite Ht.
Qed.

Lemma compileCSS_failed (basePath : string) (html : Document)
    (cssPath message : string) (s : BuildState) :
  inObj (cssBuiltPath cssPath) (builtFiles s) = false ->
  transpileCSS cwd T (fs s) cssPath (css_minify config) = Throw message ->
  compileCSS cwd T config basePath html cssPath s
  = Stop Exit1
      (exited message
         (called (TranspileCSS cssPath (css_minify config))
                 (withCurrent cssPath s))).
Proof.
  intros H Ht.
  unfold compileCSS, bind, setCurrent, get, ret, record, orExit, setBuilt.
  simpl. rewrite H. simpl. now rewrite Ht.
Qed.

Lemma compileJS_cached (basePath : string) (html : Document)
    (jsPath : string) (s : BuildState) :
  inObj (jsBuiltPath jsPath) (builtFiles s) = true ->
  compileJS cwd T config basePath html jsPath s
  = Next (replaceJSImports html (importDemapper cwd basePath jsPath)
            (importDemapper cwd basePath (jsBuiltPath jsPath)))
         (withCurrent jsPath s).
Proof.
  intros H. unfold compileJS, bind, setCurrent, get, ret. simpl.
  now rewrite H.
Qed.

(** A script transform that returns has printed nothing. *)
Lemma transpileJS_quiet (f : FS) (pathname root content : string)
    (minify : bool) :
  outcome (transpileJS cwd T f pathname root minify) = Ok content ->
  errorLines (transpileJS cwd T f pathname root minify) = [].
Proof.
  unfold transpileJS.
  destruct (negb (fileExists cwd f pathname)); [discriminate|].
  destruct (negb (success (bunBuild T f pathname root minify)));
    [discriminate | reflexivity].
Qed.

Lemma failed_nil (c : Call) (message : string) (s : BuildState) :
  failed c [] message s = exited message (called c s).
Proof. unfold failed, exited, printed. simpl. now rewrite app_nil_r. Qed.

(** The script transform is called with the style option. *)
Lemma compileJS_fresh (basePath : string) (html : Document)
    (jsPath content : string) (s : BuildState) :
  inObj (jsBuiltPath jsPath) (builtFiles s) = false ->
  outcome (transpileJS cwd T (fs s) jsPath (source config)
             (css_minify config))
  = Ok content ->
  compileJS cwd T config basePath html jsPath s
  = Next (replaceJSImports html (importDemapper cwd basePath jsPath)
            (importDemapper cwd basePath (jsBuiltPath jsPath)))
         (stored (TranspileJS jsPath (source config) (css_minify config))
                 (jsBuiltPath jsPath) content (withCurrent jsPath s)).
Proof.
  intros H Ht.
  unfold compileJS, bind, setCurrent, get, ret, record, printErrors, orExit,
         setBuilt.
  simpl. rewrite H. simpl.
  rewrite (transpileJS_quiet _ _ _ _ _ Ht), Ht. simpl.
  unfold stored, withCurrent. simpl. now rewrite app_nil_r.
Qed.

(** A script transform that throws has printed the error logs of the
    failed build before [errorHandler] prints its own lines. *)
Lemma compileJS_failed (basePath : string) (html : Document)
    (jsPath message : string) (s : BuildState) :
  inObj (jsBuiltPath jsPath) (builtFiles s) = false ->
  outcome (transpileJS cwd T (fs s) jsPath (source config)
             (css_minify config))
  = Throw message ->
  compileJS cwd T config basePath html jsPath s
  = Stop Exit1
      (failed (TranspileJS jsPath (source config) (css_minify config))
              (errorLines (transpileJS cwd T (fs s) jsPath (source config)
                             (css_minify config)))
              message (withCurrent jsPath s)).
Proof.
  intros H Ht.
  unfold compileJS, bind, setCurrent, get, ret, record, printErrors, orExit,
         setBuilt.
  simpl. rewrite H. simpl. now rewrite Ht.
Qed.

End Steps.

(** ** Reasoning about runs *)

Lemma hoare_ret {A : Type} (P : BuildState -> Prop) (a : A)
    (Q : A -> BuildState -> Prop) (E : BuildState -> Prop) :
  (forall s, P s -> Q a s) -> hoare P (ret a) Q E.
Proof. intros H s Hs. now apply H. Qed.

Lemma hoare_bind {A B : Type} (P : BuildState -> Prop) (m : M A)
    (k : A -> M B) (Q1 : A -> BuildState -> Prop)
    (Q : B -> BuildState -> Prop) (E : BuildState -> Prop) :
  hoare P m Q1 E -> (forall a, hoare (Q1 a) (k a) Q E) ->
  hoare P (bind m k) Q E.
Proof.
  intros Hm Hk s Hs. unfold bind. specialize (Hm s Hs).
  destruct (m s) as [a s'|h s']; [now apply Hk | exact Hm].
Qed.

Lemma hoare_weaken {A : Type} (P P' : BuildState -> Prop) (m : M A)
    (Q Q' : A -> BuildState -> Prop) (E E' : BuildState -> Prop) :
  hoare P' m Q' E' ->
  (forall s, P s -> P' s) -> (forall a s, Q' a s -> Q a s) ->
  (forall s, E' s -> E s) -> hoare P m Q E.
Proof.
  intros H HP HQ HE s Hs. specialize (H s (HP s Hs)).
  destruct (m s); auto.
Qed.

Lemma hoare_conj {A : Type} (P1 P2 : BuildState -> Prop) (m : M A)
    (Q1 Q2 : A -> BuildState -> Prop) (E1 E2 : BuildState -> Prop) :
  hoare P1 m Q1 E1 -> hoare P2 m Q2 E2 ->
  hoare (fun s => P1 s /\ P2 s) m (fun a s => Q1 a s /\ Q2 a s)
        (fun s => E1 s /\ E2 s).
Proof.
  intros H1 H2 s [Hs1 Hs2]. specialize (H1 s Hs1). specialize (H2 s Hs2).
  destruct (m s); auto.
Qed.

Lemma hoare_get (P : BuildState -> Prop)
    (Q : BuildState -> BuildState -> Prop) (E : BuildState -> Prop) :
  (forall s, P s -> Q s s) -> hoare P get Q E.
Proof. intros H s Hs. now apply H. Qed.

Lemma hoare_setCurrent (P : BuildState -> Prop) (p : string)
    (Q : unit -> BuildState -> Prop) (E : BuildState -> Prop) :
  (forall s, P s -> Q tt (withCurrent p s)) -> hoare P (setCurrent p) Q E.
Proof. intros H s Hs. now apply H. Qed.

Lemma hoare_setBuilt (P : BuildState -> Prop) (k v : string)
    (Q : unit -> BuildState -> Prop) (E : BuildState -> Prop) :
  (forall s, P s -> Q tt (emitted k v s)) -> hoare P (setBuilt k v) Q E.
Proof. intros H s Hs. now apply H. Qed.

Lemma hoare_orExit {A : Type} (P : BuildState -> Prop) (r : Result A)
    (Q : A -> BuildState -> Prop) (E : BuildState -> Prop) :
  (forall a s, r = Ok a -> P s -> Q a s) ->
  (forall e s, r = Throw e -> P s -> E (exited e s)) ->
  hoare P (orExit r) Q E.
Proof.
  intros HQ HE s Hs. destruct r as [a|e]; simpl.
  - now apply HQ.
  - now apply HE.
Qed.

Lemma hoare_uncaught {A : Type} (P : BuildState -> Prop)
    (Q : A -> BuildState -> Prop) (E : BuildState -> Prop) :
  (forall s, P s -> E s) -> hoare P uncaught Q E.
Proof. intros H s Hs. now apply H. Qed.

Lemma hoare_foldM {A B : Type} (I : BuildState -> Prop)
    (E : BuildState -> Prop) (f : B -> A -> M B) (l : list A) :
  (forall b x, In x l -> hoare I (f b x) (fun _ => I) E) ->
  forall b, hoare I (foldM f l b) (fun _ => I) E.
Proof.
  induction l as [|x r IH]; intros H b.
  - now apply hoare_ret.
  - simpl. eapply hoare_bind.
    + apply H. now left.
    + intros b'. apply IH. intros b0 y Hy. apply H. now right.
Qed.

Lemma hoare_forM {A : Type} (I : BuildState -> Prop)
    (E : BuildState -> Prop) (f : A -> M unit) (l : list A) :
  (forall x, In x l -> hoare I (f x) (fun _ => I) E) ->
  hoare I (forM f l) (fun _ => I) E.
Proof.
  induction l as [|x r IH]; intros H.
  - now apply hoare_ret.
  - simpl. eapply hoare_bind.
    + apply H. now left.
    + intros u. apply IH. intros y Hy. apply H. now right.
Qed.

(** Loops whose invariant speaks of the items handled so far. *)
Lemma hoare_foldM_prefix {A B : Type} (J : list A -> BuildState -> Prop)
    (E : BuildState -> Prop) (f : B -> A -> M B) (l : list A) :
  (forall pre x b, hoare (J pre) (f b x) (fun _ => J (pre ++ [x])) E) ->
  forall pre b, hoare (J pre) (foldM f l b) (fun _ => J (pre ++ l)) E.
Proof.
  intros H. induction l as [|x r IH]; intros pre b.
  - simpl. apply hoare_ret. intros s Hs. now rewrite app_nil_r.
  - simpl. eapply hoare_bind; [apply H|].
    intros b'. eapply hoare_weaken; [apply (IH (pre ++ [x]) b') | | |]; auto.
    intros b0 s Hs. now rewrite <- app_assoc in Hs.
Qed.

Lemma hoare_forM_prefix {A : Type} (J : list A -> BuildState -> Prop)
    (E : BuildState -> Prop) (f : A -> M unit) (l : list A) :
  (forall pre x, In x l -> hoare (J pre) (f x) (fun _ => J (pre ++ [x])) E) ->
  forall pre, hoare (J pre) (forM f l) (fun _ => J (pre ++ l)) E.
Proof.
  induction l as [|x r IH]; intros H pre.
  - simpl. apply hoare_ret. intros s Hs. now rewrite app_nil_r.
  - simpl. eapply hoare_bind; [apply H; now left|].
    intros u. eapply hoare_weaken; [apply (IH (fun pre0 y Hy => H pre0 y (or_intror Hy)) (pre ++ [x])) | | |]; auto.
    intros b0 s Hs. now rewrite <- app_assoc in Hs.
Qed.

Lemma hoare_next {A : Type} (P : BuildState -> Prop) (m : M A)
    (Q : A -> BuildState -> Prop) (E : BuildState -> Prop)
    (s s' : BuildState) (a : A) :
  hoare P m Q E -> P s -> m s = Next a s' -> Q a s'.
Proof. intros H Hs Hm. specialize (H s Hs). now rewrite Hm in H. Qed.

(** A loop that stops, stops in one item; the items before it ran to
    their end and the items after it were never started. *)
Lemma forM_stops {A : Type} (f : A -> M unit) (l : list A)
    (s s' : BuildState) (h : Halt) :
  forM f l s = Stop h s' ->
  exists pre x post s1,
    l = pre ++ x :: post
    /\ forM f pre s = Next tt s1
    /\ f x s1 = Stop h s'.
Proof.
  revert s. induction l as [|x r IH]; intros s H; [discriminate|].
  simpl in H. unfold bind in H.
  destruct (f x s) as [[] s1|h1 s1] eqn:Ex.
  - destruct (IH s1 H) as [pre [y [post [s2 [-> [Hpre Hy]]]]]].
    exists (x :: pre), y, post, s2. repeat split; [|exact Hy].
    simpl. unfold bind. now rewrite Ex.
  - injection H as Eh Es. subst h1 s1. exists [], x, r, s. now repeat split.
Qed.

Lemma forM_app_stop {A : Type} (f : A -> M unit) (pre post : list A) (x : A)
    (s s1 s' : BuildState) (h : Halt) :
  forM f pre s = Next tt s1 -> f x s1 = Stop h s' ->
  forM f (pre ++ x :: post) s = Stop h s'.
Proof.
  revert s. induction pre as [|y r IH]; intros s Hpre Hx; simpl in *.
  - injection Hpre as ->. unfold bind. now rewrite Hx.
  - unfold bind in *. destruct (f y s) as [[] s2|]; [|discriminate].
    now apply IH.
Qed.

(** ** Output maps *)

Lemma hasOwn_setProp_same (k v : string) (o : Obj) :
  hasOwn k (setProp k v o) = true.
Proof. unfold hasOwn. now rewrite getProp_setProp_eq. Qed.

Lemma hasOwn_setProp (k k' v : string) (o : Obj) :
  hasOwn k' o = true -> hasOwn k' (setProp k v o) = true.
Proof.
  unfold hasOwn. destruct (String.eqb_spec k' k) as [->|Hne].
  - now rewrite getProp_setProp_eq.
  - now rewrite getProp_setProp_ne.
Qed.

Lemma inObj_setProp (k k' v : string) (o : Obj) :
  inObj k' o = true -> inObj k' (setProp k v o) = true.
Proof.
  unfold inObj. intros H. apply orb_prop in H. destruct H as [H|H].
  - now rewrite hasOwn_setProp.
  - rewrite H. apply orb_true_r.
Qed.

Lemma inObj_setProp_same (k v : string) (o : Obj) :
  inObj k (setProp k v o) = true.
Proof. unfold inObj. now rewrite hasOwn_setProp_same. Qed.

Lemma inObj_false_hasOwn (k : string) (o : Obj) :
  inObj k o = false -> getProp k o = None.
Proof.
  unfold inObj, hasOwn. intros H. apply orb_false_elim in H.
  destruct H as [H _]. destruct (getProp k o); [discriminate | reflexivity].
Qed.

Lemma extends_refl (o : Obj) : extends o o.
Proof. intros k v H. exact H. Qed.

Lemma extends_trans (o1 o2 o3 : Obj) :
  extends o1 o2 -> extends o2 o3 -> extends o1 o3.
Proof. intros H1 H2 k v H. auto. Qed.

Lemma extends_setProp_new (k v : string) (o : Obj) :
  getProp k o = None -> extends o (setProp k v o).
Proof.
  intros Hk k' v' H. destruct (String.eqb_spec k' k) as [->|Hne].
  - congruence.
  - now rewrite getProp_setProp_ne.
Qed.

Lemma keeps_refl (o : Obj) : keeps o o.
Proof. intros k H. exact H. Qed.

Lemma keeps_trans (o1 o2 o3 : Obj) :
  keeps o1 o2 -> keeps o2 o3 -> keeps o1 o3.
Proof. intros H1 H2 k H. auto. Qed.

Lemma keeps_setProp (k v : string) (o : Obj) : keeps o (setProp k v o).
Proof. intros k' H. now apply hasOwn_setProp. Qed.

Lemma extends_keeps (o o' : Obj) : extends o o' -> keeps o o'.
Proof.
  intros H k Hk. unfold hasOwn in *.
  destruct (getProp k o) as [v|] eqn:E; [|discriminate].
  now rewrite (H k v E).
Qed.

Lemma keeps_inObj (o o' : Obj) (k : string) :
  keeps o o' -> inObj k o = true -> inObj k o' = true.
Proof.
  unfold inObj. intros Hk H. apply orb_prop in H. destruct H as [H|H].
  - now rewrite (Hk k H).
  - rewrite H. apply orb_true_r.
Qed.

(** ** Invariants of the document loop *)

Section Invariants.

Variable cwd : string.
Variable T : Tools.
Variable config : BSTConfig.

Lemma hoare_mapped (P : BuildState -> Prop) (basePath : string)
    (refs : option (list string)) (Q : list string -> BuildState -> Prop)
    (E : BuildState -> Prop) :
  (forall s, P s -> E s) ->
  (forall l s, refs = Some l -> P s -> Q (map (importMapper basePath) l) s) ->
  hoare P (mapped basePath refs) Q E.
Proof.
  intros HE HQ. destruct refs as [l|]; simpl.
  - apply hoare_ret. intros s Hs. now apply HQ.
  - now apply hoare_uncaught.
Qed.

Lemma compileCSS_closed (I E : BuildState -> Prop) (basePath : string)
    (html : Document) (cssPath : string) :
  Closed config I E ->
  hoare I (compileCSS cwd T config basePath html cssPath)
    (fun _ s => I s /\ inObj (cssBuiltPath cssPath) (builtFiles s) = true) E.
Proof.
  intros C s Hs.
  destruct (inObj (cssBuiltPath cssPath) (builtFiles s)) eqn:Hin.
  - rewrite compileCSS_cached by exact Hin.
    split; [now apply (cl_current C) | exact Hin].
  - destruct (transpileCSS cwd T (fs s) cssPath (css_minify config))
      as [content|message] eqn:Ht.
    + rewrite (compileCSS_fresh _ _ _ _ _ _ _ _ Hin Ht). split.
      * apply (cl_stored C _ (TranspileCSS cssPath (css_minify config)));
          [now apply (cl_current C) | reflexivity | exact Hin].
      * apply inObj_setProp_same.
    + rewrite (compileCSS_failed _ _ _ _ _ _ _ _ Hin Ht), <- failed_nil.
      apply (cl_failed C _ (TranspileCSS cssPath (css_minify config)));
        [now apply (cl_current C) | reflexivity | exact Hin].
Qed.

Lemma compileJS_closed (I E : BuildState -> Prop) (basePath : string)
    (html : Document) (jsPath : string) :
  Closed config I E ->
  hoare I (compileJS cwd T config basePath html jsPath)
    (fun _ s => I s /\ inObj (jsBuiltPath jsPath) (builtFiles s) = true) E.
Proof.
  intros C s Hs.
  destruct (inObj (jsBuiltPath jsPath) (builtFiles s)) eqn:Hin.
  - rewrite compileJS_cached by exact Hin.
    split; [now apply (cl_current C) | exact Hin].
  - destruct (outcome (transpileJS cwd T (fs s) jsPath (source config)
                         (css_minify config))) as [content|message] eqn:Ht.
    + rewrite (compileJS_fresh _ _ _ _ _ _ _ _ Hin Ht). split.
      * apply (cl_stored C _
                 (TranspileJS jsPath (source config) (css_minify config)));
          [now apply (cl_current C) | split; reflexivity | exact Hin].
      * apply inObj_setProp_same.
    + rewrite (compileJS_failed _ _ _ _ _ _ _ _ Hin Ht).
      apply (cl_failed C _
               (TranspileJS jsPath (source config) (css_minify config)));
        [now apply (cl_current C) | split; reflexivity | exact Hin].
Qed.

Lemma cssLoop_closed (I E : BuildState -> Prop) (basePath : string)
    (l : list string) (html : Document) :
  Closed config I E ->
  hoare I (foldM (compileCSS cwd T config basePath) l html) (fun _ => I) E.
Proof.
  intros C. apply hoare_foldM. intros b x _.
  eapply hoare_weaken; [apply (compileCSS_closed I E) | | |]; auto.
  now intros _ s [H _].
Qed.

Lemma jsLoop_closed (I E : BuildState -> Prop) (basePath : string)
    (l : list string) (html : Document) :
  Closed config I E ->
  hoare I (foldM (compileJS cwd T config basePath) l html) (fun _ => I) E.
Proof.
  intros C. apply hoare_foldM. intros b x _.
  eapply hoare_weaken; [apply (compileJS_closed I E) | | |]; auto.
  now intros _ s [H _].
Qed.

(** The asset half of a document keeps every closed invariant. *)
Lemma compileAssets_closed (I E : BuildState -> Prop) (htmlPath : string) :
  Closed config I E ->
  hoare I (compileAssets cwd T config htmlPath) (fun _ => I) E.
Proof.
  intros C. unfold compileAssets.
  eapply hoare_bind with (Q1 := fun _ => I).
  { apply hoare_setCurrent. intros s Hs. now apply (cl_current C). }
  intros _. eapply hoare_bind with (Q1 := fun _ => I).
  { apply hoare_get. auto. }
  intros s0. eapply hoare_bind with (Q1 := fun _ => I).
  { apply hoare_orExit; [auto | intros e s _ Hs; now apply (cl_exited C)]. }
  intros html. eapply hoare_bind with (Q1 := fun _ => I).
  { apply hoare_mapped; [apply (cl_stop C) | auto]. }
  intros cssImports. eapply hoare_bind with (Q1 := fun _ => I).
  { apply hoare_mapped; [apply (cl_stop C) | auto]. }
  intros jsImports. eapply hoare_bind with (Q1 := fun _ => I).
  { now apply cssLoop_closed. }
  intros html'. now apply jsLoop_closed.
Qed.

(** The second half of a document always runs to its end, and leaves
    the document's entry in the output map. *)
Lemma emitDocument_next (htmlPath : string) (html : Document)
    (s : BuildState) :
  exists content,
    emitDocument T config htmlPath html s
    = Next tt (emitted htmlPath content (withCurrent htmlPath s)).
Proof.
  unfold emitDocument, bind, setCurrent, setBuilt, get, ret. simpl.
  destruct (html_minify config).
  - simpl. rewrite getProp_setProp_eq. simpl. unfold emitted. simpl.
    rewrite setProp_setProp. eexists. reflexivity.
  - eexists. reflexivity.
Qed.

Lemma emitDocument_closed (I E : BuildState -> Prop) (htmlPath : string)
    (html : Document) :
  ClosedDoc config I E ->
  hoare I (emitDocument T config htmlPath html)
    (fun _ s => I s /\ hasOwn htmlPath (builtFiles s) = true) E.
Proof.
  intros C s Hs.
  destruct (emitDocument_next htmlPath html s) as [content ->]. split.
  - apply (cd_emitted C). now apply (cl_current (cd_closed C)).
  - apply hasOwn_setProp_same.
Qed.

Lemma compileDocument_closed (I E : BuildState -> Prop) (htmlPath : string) :
  ClosedDoc config I E ->
  hoare I (compileDocument cwd T config htmlPath)
    (fun _ s => I s /\ hasOwn htmlPath (builtFiles s) = true) E.
Proof.
  intros C. unfold compileDocument.
  eapply hoare_bind with (Q1 := fun _ => I).
  - apply compileAssets_closed, (cd_closed C).
  - intros html. now apply emitDocument_closed.
Qed.

(** The document loop keeps every invariant closed under what it does. *)
Lemma compileAll_closed (I E : BuildState -> Prop) (htmlFiles : list string) :
  ClosedDoc config I E ->
  hoare I (compileAll cwd T config htmlFiles) (fun _ => I) E.
Proof.
  intros C. unfold compileAll. apply hoare_forM. intros d _.
  eapply hoare_weaken; [apply (compileDocument_closed I E d C) | | |]; auto.
  now intros _ s [H _].
Qed.

(** A document that stops, stops in its asset half. *)
Lemma compileDocument_stops (htmlPath : string) (s s' : BuildState)
    (h : Halt) :
  compileDocument cwd T config htmlPath s = Stop h s' ->
  compileAssets cwd T config htmlPath s = Stop h s'.
Proof.
  unfold compileDocument, bind.
  destruct (compileAssets cwd T config htmlPath s) as [html s1|h1 s1].
  - destruct (emitDocument_next htmlPath html s1) as [content ->].
    intros H. discriminate H.
  - intros H. injection H as Eh Es. now subst.
Qed.

(** *** The invariants *)

Lemma closed_fs (f : FS) :
  ClosedDoc config (fun s => fs s = f) (fun s => fs s = f).
Proof. repeat split; auto. Qed.

Lemma closed_fromConfig :
  ClosedDoc config (fun s => Forall (fromConfig config) (calls s))
                   (fun s => Forall (fromConfig config) (calls s)).
Proof.
  repeat split; simpl; auto; intros; apply Forall_app; auto.
Qed.

Lemma closed_extends (o : Obj) :
  Closed config (fun s => extends o (builtFiles s))
                (fun s => extends o (builtFiles s)).
Proof.
  split; simpl; auto. intros s c content H _ Hin.
  eapply extends_trans; [exact H|].
  now apply extends_setProp_new, inObj_false_hasOwn.
Qed.

Lemma closed_keeps (o : Obj) :
  ClosedDoc config (fun s => keeps o (builtFiles s))
                   (fun s => keeps o (builtFiles s)).
Proof.
  repeat split; simpl; auto; intros;
    (eapply keeps_trans; [eassumption | apply keeps_setProp]).
Qed.

Lemma callsStored_not_in (s : BuildState) (k : string) :
  callsStored s -> inObj k (builtFiles s) = false ->
  ~ In k (map outPath (calls s)).
Proof.
  intros Hst Hin Hk. apply in_map_iff in Hk. destruct Hk as [c [<- Hc]].
  specialize (Hst c Hc). unfold inObj in Hin. now rewrite Hst in Hin.
Qed.

Lemma NoDup_snoc {A : Type} (l : list A) (x : A) :
  NoDup l -> ~ In x l -> NoDup (l ++ [x]).
Proof.
  intros Hl Hx. induction Hl as [|y r Hy Hr IH]; simpl.
  - repeat constructor. auto.
  - constructor.
    + rewrite in_app_iff. simpl. intros [H|[->|[]]]; [auto|].
      apply Hx. now left.
    + apply IH. intros H. apply Hx. now right.
Qed.

Lemma closed_once :
  ClosedDoc config (fun s => oncePerOutput s /\ callsStored s) oncePerOutput.
Proof.
  repeat split; simpl; try tauto.
  - destruct H as [Hn Hst]. unfold oncePerOutput. simpl.
    rewrite map_app. simpl. apply NoDup_snoc; [exact Hn|].
    now apply callsStored_not_in.
  - destruct H as [_ Hst]. intros c' Hc'. simpl in *.
    apply in_app_or in Hc'. destruct Hc' as [Hc'|[<-|[]]].
    + apply hasOwn_setProp. now apply Hst.
    + apply hasOwn_setProp_same.
  - intros s c lines message [Hn Hst] _ Hin. unfold oncePerOutput. simpl.
    rewrite map_app. simpl. apply NoDup_snoc; [exact Hn|].
    now apply callsStored_not_in.
  - destruct H as [_ Hst]. intros c Hc. simpl in *.
    apply hasOwn_setProp. now apply Hst.
Qed.

End Invariants.

(** ** The phases after the document loop *)

Section Phases.

Variable cwd : string.
Variable config : BSTConfig.

Lemma hoare_setFS (P : BuildState -> Prop) (f : FS)
    (Q : unit -> BuildState -> Prop) (E : BuildState -> Prop) :
  (forall s, P s ->
     Q tt (mkState f (builtFiles s) (currentCompile s) (stderr s) (calls s))) ->
  hoare P (setFS f) Q E.
Proof. intros H s Hs. now apply H. Qed.

Lemma writeBuilt_outputs (I : BuildState -> Prop) (entry : string * string) :
  outputsOnly I -> hoare I (writeBuilt cwd config entry) (fun _ => I) I.
Proof.
  intros HI. unfold writeBuilt.
  eapply hoare_bind with (Q1 := fun _ => I); [now apply hoare_get|].
  intros s0. eapply hoare_bind with (Q1 := fun _ => I).
  { apply hoare_orExit; [auto|]. intros e s _ Hs.
    apply (HI s); [split; reflexivity | exact Hs]. }
  intros f. eapply hoare_bind with (Q1 := fun _ => I).
  { apply hoare_orExit; [auto|]. intros e s _ Hs.
    apply (HI s); [split; reflexivity | exact Hs]. }
  intros f'. apply hoare_setFS. intros s Hs.
  apply (HI s); [split; reflexivity | exact Hs].
Qed.

Lemma copyThrough_outputs (I : BuildState -> Prop) (file : string) :
  outputsOnly I -> hoare I (copyThrough cwd config file) (fun _ => I) I.
Proof.
  intros HI. unfold copyThrough.
  destruct (negb (isBuildSource file)); [|now apply hoare_ret].
  eapply hoare_bind with (Q1 := fun _ => I); [now apply hoare_get|].
  intros s0. eapply hoare_bind with (Q1 := fun _ => I).
  { apply hoare_orExit; [auto|]. intros e s _ Hs.
    apply (HI s); [split; reflexivity | exact Hs]. }
  intros f. eapply hoare_bind with (Q1 := fun _ => I).
  { apply hoare_orExit; [auto|]. intros e s _ Hs.
    apply (HI s); [split; reflexivity | exact Hs]. }
  intros f'. apply hoare_setFS. intros s Hs.
  apply (HI s); [split; reflexivity | exact Hs].
Qed.

Lemma cleanDestination_outputs (I : BuildState -> Prop) :
  outputsOnly I -> hoare I (cleanDestination cwd config) (fun _ => I) I.
Proof.
  intros HI. unfold cleanDestination.
  destruct (clean config); [|now apply hoare_ret].
  eapply hoare_bind with (Q1 := fun _ => I); [now apply hoare_get|].
  intros s0. destruct (pathExists cwd (fs s0) (destination config)).
  - eapply hoare_bind with (Q1 := fun _ => I).
    { apply hoare_orExit; [auto|]. intros e s _ Hs.
      apply (HI s); [split; reflexivity | exact Hs]. }
    intros files. apply hoare_forM. intros file _.
    eapply hoare_bind with (Q1 := fun _ => I); [now apply hoare_get|].
    intros s1. eapply hoare_bind with (Q1 := fun _ => I).
    { apply hoare_orExit; [auto|]. intros e s _ Hs.
      apply (HI s); [split; reflexivity | exact Hs]. }
    intros f. apply hoare_setFS. intros s Hs.
    apply (HI s); [split; reflexivity | exact Hs].
  - eapply hoare_bind with (Q1 := fun _ => I).
    { apply hoare_orExit; [auto|]. intros e s _ Hs.
      apply (HI s); [split; reflexivity | exact Hs]. }
    intros f. apply hoare_setFS. intros s Hs.
    apply (HI s); [split; reflexivity | exact Hs].
Qed.

(** Writing and copying leave the output map and the calls alone. *)
Lemma writeOutputs_outputs (I : BuildState -> Prop) :
  outputsOnly I -> hoare I (writeOutputs cwd config) (fun _ => I) I.
Proof.
  intros HI. unfold writeOutputs.
  eapply hoare_bind with (Q1 := fun _ => I);
    [now apply cleanDestination_outputs|].
  intros u. eapply hoare_bind with (Q1 := fun _ => I); [now apply hoare_get|].
  intros s0. apply hoare_forM. intros entry _. now apply writeBuilt_outputs.
Qed.

Lemma copyRest_outputs (I : BuildState -> Prop) :
  outputsOnly I -> hoare I (copyRest cwd config) (fun _ => I) I.
Proof.
  intros HI. unfold copyRest.
  eapply hoare_bind with (Q1 := fun _ => I); [now apply hoare_get|].
  intros s0.
  destruct (getFilesRecursively cwd (fs s0) (source config)) as [files|e].
  - apply hoare_forM. intros file _. now apply copyThrough_outputs.
  - now apply hoare_uncaught.
Qed.

End Phases.

(** ** The whole build *)

(** What holds of the output map and the calls when the document loop
    ends or stops, holds when the build ends or stops. *)
Lemma build_outputs (cwd : string) (T : Tools) (f : FS)
    (I E : BuildState -> Prop) :
  (forall config, getConfig cwd T f = Ok config -> ClosedDoc config I E) ->
  (forall s e, I s -> E (exited e s)) ->
  outputsOnly I -> outputsOnly E ->
  I (initialState f) ->
  E (finalState (build cwd T (initialState f))).
Proof.
  intros C Hexit HI HE H0.
  unfold build, bind, get. cbn [fs initialState].
  destruct (getConfig cwd T f) as [config|e] eqn:Hc; simpl.
  2:{ exact (Hexit (initialState f) e H0). }
  specialize (C config eq_refl).
  destruct (getFilesMatching cwd T f (source config) "**/*.html")
    as [htmlFiles|e]; simpl.
  2:{ exact (Hexit (initialState f) e H0). }
  pose proof (compileAll_closed cwd T config I E htmlFiles C
                (initialState f) H0) as H1.
  destruct (compileAll cwd T config htmlFiles (initialState f))
    as [u s1|h s1]; [|exact H1].
  assert (H1' : E s1) by now apply (cl_stop (cd_closed C)).
  pose proof (writeOutputs_outputs cwd config E HE s1 H1') as H2.
  destruct (writeOutputs cwd config s1) as [u2 s2|h s2]; [|exact H2].
  pose proof (copyRest_outputs cwd config E HE s2 H2) as H3.
  destruct (copyRest cwd config s2); exact H3.
Qed.

(** ** What the transforms are called with *)

(** Every transform call of a run has the style option as its minify
    flag, the script transform included. *)
Lemma calls_take_style_option (cwd : string) (T : Tools) (f : FS)
    (config : BSTConfig) :
  getConfig cwd T f = Ok config ->
  Forall (fromConfig config)
         (calls (finalState (build cwd T (initialState f)))).
Proof.
  intros Hc.
  apply (build_outputs cwd T f
           (fun s => Forall (fromConfig config) (calls s))
           (fun s => Forall (fromConfig config) (calls s))).
  - intros config' Hc'. rewrite Hc in Hc'. injection Hc' as <-.
    apply closed_fromConfig.
  - auto.
  - intros s s' [_ Hcalls] H. now rewrite Hcalls.
  - intros s s' [_ Hcalls] H. now rewrite Hcalls.
  - constructor.
Qed.

(** C2 (the code departs from the claim): with [css.minify] on and
    [js.minify] off, the one script of the site is compiled with the
    minify flag on, and its output is minified. *)
Theorem script_transform_is_called_with_style_option :
  getConfig "/w" (Toy.tools Toy.scriptsUnminified) Toy.scriptSite
  = Ok (mkConfig "src" "dist" false true false true false false)
  /\ js_minify (mkConfig "src" "dist" false true false true false false)
     = false
  /\ calls (finalState (build "/w" (Toy.tools Toy.scriptsUnminified)
                              (initialState Toy.scriptSite)))
     = [TranspileJS "src/app.ts" "src" true]
  /\ getProp "src/app.js"
       (builtFiles (finalState (build "/w" (Toy.tools Toy.scriptsUnminified)
                                      (initialState Toy.scriptSite))))
     = Some "ugly(bundlemin(src/app.ts))".
Proof. refine (conj _ (conj _ (conj _ _))); vm_compute; reflexivity. Qed.

(** ** Stopping *)

Section Stopping.

Variable cwd : string.
Variable T : Tools.
Variable config : BSTConfig.

(** The documents a loop has handled have their entry in the map. *)
Lemma compileAll_entries (htmlFiles : list string) :
  forall s s',
    compileAll cwd T config htmlFiles s = Next tt s' ->
    keeps (builtFiles s) (builtFiles s')
    /\ forall p, In p htmlFiles -> hasOwn p (builtFiles s') = true.
Proof.
  induction htmlFiles as [|d r IH]; intros s s' H.
  - injection H as <-. split; [apply keeps_refl | intros p []].
  - unfold compileAll in H. simpl in H. unfold bind in H.
    pose proof (compileDocument_closed cwd T config _ _ d
                  (closed_keeps config (builtFiles s)) s
                  (keeps_refl _)) as Hd.
    destruct (compileDocument cwd T config d s) as [u s1|h s1];
      [|discriminate].
    destruct Hd as [Hk Hown].
    destruct (IH s1 s' H) as [Hk' Hall]. split.
    + eapply keeps_trans; eassumption.
    + intros p [<-|Hp]; [now apply Hk' | now apply Hall].
Qed.

(** C1 (as amended): when processing a document or one of its assets
    fails, the build halts in that very state: the documents after it
    are never started, nothing at all is written, the file system is as
    it was; the documents handled before the failure, and everything
    else the output map held, are still in the in-memory output map. *)
Theorem failure_halts_before_any_write :
  forall (f : FS) (htmlFiles : list string) (h : Halt) (s : BuildState),
    getConfig cwd T f = Ok config ->
    getFilesMatching cwd T f (source config) "**/*.html" = Ok htmlFiles ->
    compileAll cwd T config htmlFiles (initialState f) = Stop h s ->
    build cwd T (initialState f) = Stop h s
    /\ fs s = f
    /\ exists pre d post s1,
         htmlFiles = pre ++ d :: post
         /\ compileAll cwd T config pre (initialState f) = Next tt s1
         /\ compileDocument cwd T config d s1 = Stop h s
         /\ (forall post',
               compileAll cwd T config (pre ++ d :: post') (initialState f)
               = Stop h s)
         /\ extends (builtFiles s1) (builtFiles s)
         /\ forall p, In p pre -> hasOwn p (builtFiles s) = true.
Proof.
  intros f htmlFiles h s Hc Hf Hstop. refine (conj _ (conj _ _)).
  - unfold build, bind, get. cbn [fs initialState].
    rewrite Hc. simpl. rewrite Hf. simpl. now rewrite Hstop.
  - pose proof (compileAll_closed cwd T config _ _ htmlFiles
                  (closed_fs config f) (initialState f) eq_refl) as H.
    now rewrite Hstop in H.
  - destruct (forM_stops _ _ _ _ _ Hstop) as [pre [d [post [s1 [-> [Hpre Hd]]]]]].
    exists pre, d, post, s1. refine (conj eq_refl (conj Hpre (conj Hd _))).
    assert (Hext : extends (builtFiles s1) (builtFiles s)).
    { pose proof (compileAssets_closed cwd T config _ _ d
                    (closed_extends config (builtFiles s1)) s1
                    (extends_refl _)) as H.
      now rewrite (compileDocument_stops _ _ _ _ _ _ _ Hd) in H. }
    refine (conj _ (conj Hext _)).
    + intros post'. now apply forM_app_stop with s1.
    + intros p Hp. apply (extends_keeps _ _ Hext).
      now apply (compileAll_entries pre (initialState f) s1 Hpre).
Qed.

End Stopping.

Lemma failure_halts_before_any_write_witness :
  fs (finalState (build "/w" (Toy.tools Toy.defaults)
                        (initialState Toy.brokenSite)))
  = Toy.brokenSite.
Proof.
  destruct (failure_halts_before_any_write "/w" (Toy.tools Toy.defaults)
              (mkConfig "src" "dist" false true true true true true)
              Toy.brokenSite ["src/a.html"; "src/b.html"; "src/c.html"] Exit1
              (finalState (build "/w" (Toy.tools Toy.defaults)
                                 (initialState Toy.brokenSite))))
    as [_ [H _]].
  - vm_compute. reflexivity.
  - vm_compute. reflexivity.
  - vm_compute. reflexivity.
  - exact H.
Defined.

(** C1 (as stated) fails: the second of three documents references a
    style file that is not there; the first document is in the output
    map when the build exits, and nothing of it is in the destination,
    which was never created. *)
Lemma aborted_build_writes_no_document :
  exists s,
    build "/w" (Toy.tools Toy.defaults) (initialState Toy.brokenSite)
    = Stop Exit1 s
    /\ stderr s = ["Error while compiling src/missing.scss";
                   "src/missing.scss not found"]
    /\ hasOwn "src/a.html" (builtFiles s) = true
    /\ hasOwn "src/a.css" (builtFiles s) = true
    /\ fileExists "/w" (fs s) "dist/a.html" = false
    /\ fileExists "/w" (fs s) "dist/a.css" = false
    /\ pathExists "/w" (fs s) "dist" = false.
Proof.
  eexists. refine (conj _ (conj _ (conj _ (conj _ (conj _ (conj _ _))))));
    vm_compute; reflexivity.
Qed.

(** ** At most one compilation per output path *)

(** C6 (as amended): over a whole build no two transform calls have the
    same output path. A reference whose output path is already in the
    output map, whatever its source, is not compiled: no transform is
    called and the map is not touched, so the content stored first is
    the one used; and the asset steps never change an entry that is
    there. (The entry of a document is assigned without this check.) *)
Theorem one_compilation_per_output_path :
  forall (cwd : string) (T : Tools) (f : FS),
    NoDup (map outPath (calls (finalState (build cwd T (initialState f)))))
    /\ (forall config basePath html cssPath s,
          inObj (cssBuiltPath cssPath) (builtFiles s) = true ->
          compileCSS cwd T config basePath html cssPath s
          = Next (replaceCSSImports html (importDemapper cwd basePath cssPath)
                    (importDemapper cwd basePath (cssBuiltPath cssPath)))
                 (withCurrent cssPath s))
    /\ (forall config basePath html jsPath s,
          inObj (jsBuiltPath jsPath) (builtFiles s) = true ->
          compileJS cwd T config basePath html jsPath s
          = Next (replaceJSImports html (importDemapper cwd basePath jsPath)
                    (importDemapper cwd basePath (jsBuiltPath jsPath)))
                 (withCurrent jsPath s))
    /\ (forall config basePath html cssPath s,
          extends (builtFiles s)
            (builtFiles (finalState
               (compileCSS cwd T config basePath html cssPath s))))
    /\ (forall config basePath html jsPath s,
          extends (builtFiles s)
            (builtFiles (finalState
               (compileJS cwd T config basePath html jsPath s)))).
Proof.
  intros cwd T f. refine (conj _ (conj _ (conj _ (conj _ _)))).
  - apply (build_outputs cwd T f
             (fun s => oncePerOutput s /\ callsStored s) oncePerOutput).
    + intros config _. apply closed_once.
    + intros s e [H _]. exact H.
    + intros s s' [Hb Hc] [H1 H2]. unfold oncePerOutput, callsStored.
      rewrite Hb, Hc. now split.
    + intros s s' [Hb Hc] H. unfold oncePerOutput. now rewrite Hc.
    + split; [constructor | intros c []].
  - intros. now apply compileCSS_cached.
  - intros. now apply compileJS_cached.
  - intros config basePath html cssPath s.
    pose proof (compileCSS_closed cwd T config _ _ basePath html cssPath
                  (closed_extends config (builtFiles s)) s (extends_refl _))
      as H.
    destruct (compileCSS cwd T config basePath html cssPath s);
      simpl; tauto.
  - intros config basePath html jsPath s.
    pose proof (compileJS_closed cwd T config _ _ basePath html jsPath
                  (closed_extends config (builtFiles s)) s (extends_refl _))
      as H.
    destruct (compileJS cwd T config basePath html jsPath s);
      simpl; tauto.
Qed.

(** C6 (as stated) fails: a stylesheet link of [a.html] names [b.html];
    its compiled content is in the output map under [src/b.html] after
    the first document, and after the second document the same output
    path holds the document instead. *)
Lemma present_output_path_is_overwritten :
  exists s1 s2,
    compileAll "/w" (Toy.tools Toy.defaults)
      (mkConfig "src" "dist" false true true true true true)
      ["src/a.html"] (initialState Toy.collidingSite) = Next tt s1
    /\ getProp "src/b.html" (builtFiles s1) = Some "cssmin(hello)"
    /\ compileAll "/w" (Toy.tools Toy.defaults)
         (mkConfig "src" "dist" false true true true true true)
         ["src/a.html"; "src/b.html"] (initialState Toy.collidingSite)
       = Next tt s2
    /\ getProp "src/b.html" (builtFiles s2) = Some "min(hello)".
Proof.
  do 2 eexists. refine (conj _ (conj _ (conj _ _))); vm_compute; reflexivity.
Qed.

(** ** The file system *)

Lemma lookup_setEntry_same (name : string) (e : Entry)
    (es : list (string * Entry)) :
  lookupEntry name (setEntry name e es) = Some e.
Proof.
  induction es as [|[n e'] r IH]; simpl.
  - now rewrite String.eqb_refl.
  - destruct (n =? name) eqn:E; simpl; rewrite E; [reflexivity | exact IH].
Qed.

Lemma lookup_setEntry_other (name name' : string) (e : Entry)
    (es : list (string * Entry)) :
  name' <> name ->
  lookupEntry name' (setEntry name e es) = lookupEntry name' es.
Proof.
  intros Hne. induction es as [|[n e'] r IH]; simpl.
  - destruct (String.eqb_spec name name'); [congruence | reflexivity].
  - destruct (String.eqb_spec n name) as [->|Hn]; simpl.
    + destruct (String.eqb_spec name name'); [congruence | reflexivity].
    + now rewrite IH.
Qed.

Lemma lookup_removeEntry_other (name name' : string)
    (es : list (string * Entry)) :
  name' <> name ->
  lookupEntry name' (removeEntry name es) = lookupEntry name' es.
Proof.
  intros Hne. induction es as [|[n e'] r IH]; simpl; [reflexivity|].
  destruct (String.eqb_spec n name) as [->|Hn]; simpl.
  - destruct (String.eqb_spec name name'); [congruence | reflexivity].
  - now rewrite IH.
Qed.

Lemma statSegs_cons (name : string) (rest : list string) (es : FS) :
  statSegs (name :: rest) es
  = match lookupEntry name es with
    | Some (Dir sub) => statSegs rest sub
    | Some (File c) => match rest with [] => Some (File c) | _ => None end
    | None => None
    end.
Proof. reflexivity. Qed.

(** A file that was written is there. *)
Lemma stat_write_same (q : list string) (content : string) :
  forall es es',
    writeSegs q content es = Some es' -> statSegs q es' = Some (File content).
Proof.
  induction q as [|name rest IH]; intros es es' H; [discriminate|].
  simpl in H. destruct rest as [|r1 rest'].
  - destruct (lookupEntry name es) as [[c|sub]|]; try discriminate;
      injection H as <-; rewrite statSegs_cons, lookup_setEntry_same;
      reflexivity.
  - destruct (lookupEntry name es) as [[c|sub]|]; try discriminate.
    destruct (writeSegs (r1 :: rest') content sub) as [sub'|] eqn:E;
      [|discriminate].
    injection H as <-. rewrite statSegs_cons, lookup_setEntry_same.
    now apply IH with sub.
Qed.

(** Writing a file leaves the files at other paths as they are. *)
Lemma stat_write_other (q : list string) (content : string) :
  forall p es es' c,
    writeSegs q content es = Some es' -> p <> q ->
    statSegs p es = Some (File c) -> statSegs p es' = Some (File c).
Proof.
  induction q as [|qn qr IH]; intros p es es' c H Hne Hp; [discriminate|].
  destruct p as [|pn pr]; [discriminate|].
  rewrite statSegs_cons in *.
  destruct (String.eqb_spec pn qn) as [->|Hn].
  - simpl in H. destruct qr as [|q1 qr'].
    + destruct (lookupEntry qn es) as [[c1|sub]|]; try discriminate.
      destruct pr; [congruence | discriminate].
    + destruct (lookupEntry qn es) as [[c1|sub]|]; try discriminate.
      destruct (writeSegs (q1 :: qr') content sub) as [sub'|] eqn:E;
        [|discriminate].
      injection H as <-. rewrite lookup_setEntry_same.
      apply IH with sub; [exact E | congruence | exact Hp].
  - assert (Hl : lookupEntry pn es' = lookupEntry pn es).
    { simpl in H. destruct qr as [|q1 qr'].
      - destruct (lookupEntry qn es) as [[c1|sub]|]; try discriminate;
          injection H as <-; now apply lookup_setEntry_other.
      - destruct (lookupEntry qn es) as [[c1|sub]|]; try discriminate.
        destruct (writeSegs (q1 :: qr') content sub) as [sub'|];
          [|discriminate].
        injection H as <-. now apply lookup_setEntry_other. }
    now rewrite Hl.
Qed.

(** Creating directories leaves every file as it is. *)
Lemma stat_mkdir (q : list string) :
  forall p es es' c,
    mkdirSegs q es = Some es' ->
    statSegs p es = Some (File c) -> statSegs p es' = Some (File c).
Proof.
  induction q as [|qn qr IH]; intros p es es' c H Hp.
  - injection H as <-. exact Hp.
  - destruct p as [|pn pr]; [discriminate|].
    rewrite statSegs_cons in *. simpl in H.
    destruct (String.eqb_spec pn qn) as [->|Hn].
    + destruct (lookupEntry qn es) as [[c1|sub]|]; try discriminate.
      destruct (mkdirSegs qr sub) as [sub'|] eqn:E; [|discriminate].
      injection H as <-. rewrite lookup_setEntry_same.
      now apply IH with sub.
    + assert (Hl : lookupEntry pn es' = lookupEntry pn es).
      { destruct (lookupEntry qn es) as [[c1|sub]|]; try discriminate.
        - destruct (mkdirSegs qr sub) as [sub'|]; [|discriminate].
          injection H as <-. now apply lookup_setEntry_other.
        - destruct (mkdirSegs qr []) as [sub'|]; [|discriminate].
          injection H as <-. now apply lookup_setEntry_other. }
      now rewrite Hl.
Qed.

(** Removing a file leaves the files at other paths as they are. *)
Lemma stat_unlink_other (q : list string) :
  forall p es es' c,
    unlinkSegs q es = Some es' -> p <> q ->
    statSegs p es = Some (File c) -> statSegs p es' = Some (File c).
Proof.
  induction q as [|qn qr IH]; intros p es es' c H Hne Hp; [discriminate|].
  destruct p as [|pn pr]; [discriminate|].
  rewrite statSegs_cons in *.
  destruct (String.eqb_spec pn qn) as [->|Hn].
  - simpl in H. destruct qr as [|q1 qr'].
    + destruct (lookupEntry qn es) as [[c1|sub]|]; try discriminate.
      destruct pr; [congruence | discriminate].
    + destruct (lookupEntry qn es) as [[c1|sub]|]; try discriminate.
      destruct (unlinkSegs (q1 :: qr') sub) as [sub'|] eqn:E;
        [|discriminate].
      injection H as <-. rewrite lookup_setEntry_same.
      apply IH with sub; [exact E | congruence | exact Hp].
  - assert (Hl : lookupEntry pn es' = lookupEntry pn es).
    { simpl in H. destruct qr as [|q1 qr'].
      - destruct (lookupEntry qn es) as [[c1|sub]|]; try discriminate.
        injection H as <-. now apply lookup_removeEntry_other.
      - destruct (lookupEntry qn es) as [[c1|sub]|]; try discriminate.
        destruct (unlinkSegs (q1 :: qr') sub) as [sub'|];
          [|discriminate].
        injection H as <-. now apply lookup_setEntry_other. }
    now rewrite Hl.
Qed.

Section Files.

Variable cwd : string.

Lemma readText_holds (f : FS) (path content : string) :
  readText cwd f path = Ok content <-> holds cwd f path content.
Proof.
  unfold readText, holds. destruct (stat cwd f path) as [[c|sub]|]; split;
    intros H; try discriminate; congruence.
Qed.

Lemma mkdir_holds (f f' : FS) (dir path content : string) :
  mkdir cwd f dir = Ok f' -> holds cwd f path content -> holds cwd f' path content.
Proof.
  unfold mkdir, ioResult, holds, stat.
  destruct (mkdirSegs (Path.resolveSegs cwd dir) f) as [g|] eqn:E;
    [|discriminate].
  intros [= <-] H. eapply stat_mkdir; eassumption.
Qed.

Lemma writeFile_holds_same (f f' : FS) (path content : string) :
  writeFile cwd f path content = Ok f' -> holds cwd f' path content.
Proof.
  unfold writeFile, ioResult, holds, stat.
  destruct (writeSegs (Path.resolveSegs cwd path) content f) as [g|] eqn:E;
    [|discriminate].
  intros [= <-]. eapply stat_write_same; eassumption.
Qed.

Lemma writeFile_holds_other (f f' : FS) (path content other c : string) :
  writeFile cwd f path content = Ok f' ->
  Path.resolveSegs cwd other <> Path.resolveSegs cwd path ->
  holds cwd f other c -> holds cwd f' other c.
Proof.
  unfold writeFile, ioResult, holds, stat.
  destruct (writeSegs (Path.resolveSegs cwd path) content f) as [g|] eqn:E;
    [|discriminate].
  intros [= <-] Hne H. eapply stat_write_other; eassumption.
Qed.

Lemma unlink_holds_other (f f' : FS) (path other c : string) :
  unlink cwd f path = Ok f' ->
  Path.resolveSegs cwd other <> Path.resolveSegs cwd path ->
  holds cwd f other c -> holds cwd f' other c.
Proof.
  unfold unlink, ioResult, holds, stat.
  destruct (unlinkSegs (Path.resolveSegs cwd path) f) as [g|] eqn:E;
    [|discriminate].
  intros [= <-] Hne H. eapply stat_unlink_other; eassumption.
Qed.

End Files.

(** ** Paths that end in [.css] *)

Lemma string_of_list_app (a b : list ascii) :
  string_of_list_ascii (a ++ b)
  = string_of_list_ascii a +++ string_of_list_ascii b.
Proof. induction a; simpl; congruence. Qed.

Lemma startsWith_cons (a : ascii) (p : string) (l : list ascii) :
  JS.startsWith (String a p) (string_of_list_ascii l) = true ->
  exists r, l = a :: r /\ JS.startsWith p (string_of_list_ascii r) = true.
Proof.
  destruct l as [|b r]; simpl; [discriminate|].
  intros H. apply andb_prop in H. destruct H as [Hab Hr].
  apply Ascii.eqb_eq in Hab. subst. now exists r.
Qed.

(** The characters of a path that ends in [.css], last first. *)
Lemma endsWith_css_inv (file : string) :
  JS.endsWith ".css" file = true ->
  exists rest,
    rev (list_ascii_of_string file)
    = "s"%char :: "s"%char :: "c"%char :: "."%char :: rest.
Proof.
  unfold JS.endsWith, JS.rev_string.
  change (string_of_list_ascii (rev (list_ascii_of_string ".css")))
    with "ssc.".
  intros H.
  apply startsWith_cons in H. destruct H as [r1 [E1 H]].
  apply startsWith_cons in H. destruct H as [r2 [E2 H]].
  apply startsWith_cons in H. destruct H as [r3 [E3 H]].
  apply startsWith_cons in H. destruct H as [r4 [E4 _]].
  exists r4. now rewrite E1, E2, E3, E4.
Qed.

Lemma endsWith_of_rev (suffix file : string) (l : list ascii) :
  rev (list_ascii_of_string file) = l ->
  JS.endsWith suffix file
  = JS.startsWith (JS.rev_string suffix) (string_of_list_ascii l).
Proof. intros <-. reflexivity. Qed.

Lemma substring_prefix (a b : string) :
  String.substring 0 (String.length a) (a +++ b) = a.
Proof.
  induction a as [|c r IH]; simpl.
  - now destruct b.
  - now rewrite IH.
Qed.

Lemma length_append (a b : string) :
  String.length (a +++ b) = String.length a + String.length b.
Proof. induction a; simpl; auto. Qed.

Lemma css_split (file : string) :
  JS.endsWith ".css" file = true -> exists pre, file = pre +++ ".css".
Proof.
  intros H. destruct (endsWith_css_inv file H) as [rest E].
  exists (string_of_list_ascii (rev rest)).
  rewrite <- (string_of_list_ascii_of_string file).
  rewrite <- (rev_involutive (list_ascii_of_string file)), E.
  simpl. rewrite <- !app_assoc. simpl. now rewrite string_of_list_app.
Qed.

(** A path that ends in [.css] is its own output path. *)
Lemma cssBuiltPath_css (file : string) :
  JS.endsWith ".css" file = true -> cssBuiltPath file = file.
Proof.
  intros H. destruct (endsWith_css_inv file H) as [rest E].
  unfold cssBuiltPath.
  rewrite (endsWith_of_rev ".sass" file _ E),
          (endsWith_of_rev ".scss" file _ E), H.
  change (JS.startsWith (JS.rev_string ".sass") _) with false.
  change (JS.startsWith (JS.rev_string ".scss") _) with false.
  simpl. destruct (css_split file H) as [pre ->].
  unfold JS.dropEnd. rewrite length_append. simpl.
  replace (String.length pre + 4 - 4) with (String.length pre) by lia.
  now rewrite substring_prefix.
Qed.

Lemma spanName_css (rest : list ascii) :
  Path.spanName ("s"%char :: "s"%char :: "c"%char :: "."%char :: rest)
  = ("s"%char :: "s"%char :: "c"%char :: "."%char
       :: fst (Path.spanName rest),
     snd (Path.spanName rest)).
Proof. simpl. now destruct (Path.spanName rest). Qed.

(** The extension of a path that ends in [.css] is [.css], or nothing
    when the dot opens the last component. *)
Lemma extname_css (file : string) :
  JS.endsWith ".css" file = true ->
  Path.extname file = ".css" \/ Path.extname file = EmptyString.
Proof.
  intros H. destruct (endsWith_css_inv file H) as [rest E].
  unfold Path.extname. rewrite E.
  change (Path.dropSlashes ("s"%char :: "s"%char :: "c"%char :: "."%char
                              :: rest))
    with ("s"%char :: "s"%char :: "c"%char :: "."%char :: rest).
  rewrite spanName_css.
  change (Path.spanExt ("s"%char :: "s"%char :: "c"%char :: "."%char
                          :: fst (Path.spanName rest)))
    with (Some (["s"%char; "s"%char; "c"%char; "."%char],
                fst (Path.spanName rest))).
  cbv beta iota.
  destruct (fst (Path.spanName rest)) as [|c n] eqn:En; [now right|].
  left.
  assert (Hdd : (string_of_list_ascii
                   (rev ("s"%char :: "s"%char :: "c"%char :: "."%char
                           :: c :: n)) =? "..") = false).
  { apply String.eqb_neq. intros Heq.
    apply (f_equal String.length) in Heq.
    simpl in Heq. rewrite !string_of_list_app, !length_append in Heq.
    simpl in Heq. lia. }
  rewrite Hdd. reflexivity.
Qed.

(** The pass-through filter lets a path that ends in [.css] through. *)
Lemma isBuildSource_css (file : string) :
  JS.endsWith ".css" file = true -> isBuildSource file = false.
Proof.
  intros H. unfold isBuildSource.
  destruct (extname_css file H) as [-> | ->]; reflexivity.
Qed.

(** No inherited property name ends in [.css]. *)
Lemma not_inherited_css (file : string) :
  JS.endsWith ".css" file = true -> JS.mem file objectPrototypeKeys = false.
Proof.
  intros H. apply mem_false. intros Hin.
  unfold objectPrototypeKeys in Hin. simpl in Hin.
  repeat (destruct Hin as [<-|Hin]; [discriminate H|]).
  exact Hin.
Qed.

Lemma inObj_css_hasOwn (file : string) (o : Obj) :
  JS.endsWith ".css" file = true -> inObj file o = true ->
  hasOwn file o = true.
Proof.
  intros H. unfold inObj. rewrite (not_inherited_css file H).
  now rewrite orb_false_r.
Qed.

(** ** From a stylesheet reference to the destination *)

Section Styles.

Variable cwd : string.
Variable T : Tools.
Variable config : BSTConfig.

Lemma closed_monotone (K : BuildState -> Prop) :
  monotone K -> ClosedDoc config K (fun _ => True).
Proof.
  intros HK. repeat split; simpl; auto; intros.
  - apply (HK s); [assumption | apply keeps_refl].
  - apply (HK s); [assumption | apply keeps_setProp].
  - apply (HK s); [assumption | apply keeps_setProp].
Qed.

Lemma monotone_paths (paths : list string) :
  monotone (fun s => forall p, In p paths ->
                               inObj (cssBuiltPath p) (builtFiles s) = true).
Proof. intros s s' H Hk p Hp. eapply keeps_inObj; eauto. Qed.

Lemma monotone_stylesStored (f : FS) (d : string) :
  monotone (stylesStored cwd T f d).
Proof.
  intros s s' H Hk html imports ref H1 H2 H3.
  eapply keeps_inObj; eauto.
Qed.

(** After the style loop every path it was given has its output path in
    the output map. *)
Lemma cssLoop_stores (basePath : string) (l : list string) (html : Document) :
  hoare (fun _ => True) (foldM (compileCSS cwd T config basePath) l html)
    (fun _ s => forall p, In p l ->
                          inObj (cssBuiltPath p) (builtFiles s) = true)
    (fun _ => True).
Proof.
  pose (J := fun (pre : list string) (s : BuildState) =>
               forall p, In p pre ->
                         inObj (cssBuiltPath p) (builtFiles s) = true).
  eapply hoare_weaken;
    [apply (hoare_foldM_prefix J (fun _ => True)
              (compileCSS cwd T config basePath) l) with (pre := []) | | |];
    auto.
  - intros pre x b.
    eapply hoare_weaken;
      [apply (compileCSS_closed cwd T config (J pre) (fun _ => True));
       apply (cd_closed (closed_monotone _ (monotone_paths pre))) | | |];
      auto.
    intros _ s [HJ Hx] p Hp. apply in_app_or in Hp.
    destruct Hp as [Hp|[<-|[]]]; [now apply HJ | exact Hx].
  - intros s _ p [].
Qed.

Lemma compileAssets_styles (f : FS) (d : string) :
  hoare (fun s => fs s = f) (compileAssets cwd T config d)
    (fun _ s => stylesStored cwd T f d s) (fun _ => True).
Proof.
  unfold compileAssets.
  eapply hoare_bind with (Q1 := fun _ s => fs s = f).
  { apply hoare_setCurrent. auto. }
  intros u. eapply hoare_bind with (Q1 := fun s0 s => fs s0 = f).
  { apply hoare_get. auto. }
  intros s0.
  eapply hoare_bind
    with (Q1 := fun html _ => getHTML cwd T f d = Ok html).
  { apply hoare_orExit; [|auto]. intros html s Hh Hs. now rewrite <- Hs. }
  intros html.
  eapply hoare_bind
    with (Q1 := fun cssImports _ =>
                  getHTML cwd T f d = Ok html
                  /\ exists imports,
                       getCSSImports html = Some imports
                       /\ cssImports
                          = map (importMapper (Path.dirname d)) imports).
  { apply hoare_mapped; [auto|]. intros l s Hl Hs. split; [exact Hs|].
    now exists l. }
  intros cssImports.
  eapply hoare_bind
    with (Q1 := fun _ _ =>
                  getHTML cwd T f d = Ok html
                  /\ exists imports,
                       getCSSImports html = Some imports
                       /\ cssImports
                          = map (importMapper (Path.dirname d)) imports).
  { apply hoare_mapped; auto. }
  intros jsImports.
  eapply hoare_bind
    with (Q1 := fun _ s => stylesStored cwd T f d s).
  { intros s [Hh [imports [Hi ->]]].
    pose proof (cssLoop_stores (Path.dirname d)
                  (map (importMapper (Path.dirname d)) imports) html s I)
      as H.
    destruct (foldM _ _ html s) as [html' s'|]; [|exact I].
    intros html0 imports0 ref H1 H2 H3.
    rewrite Hh in H1. injection H1 as <-.
    rewrite Hi in H2. injection H2 as <-.
    apply H. now apply in_map. }
  intros html'.
  apply jsLoop_closed,
    (cd_closed (closed_monotone _ (monotone_stylesStored f d))).
Qed.

Lemma closedDoc_conj (I1 I2 E1 E2 : BuildState -> Prop) :
  ClosedDoc config I1 E1 -> ClosedDoc config I2 E2 ->
  ClosedDoc config (fun s => I1 s /\ I2 s) (fun s => E1 s /\ E2 s).
Proof.
  intros [[A1 A2 A3 A4 A5] A6] [[B1 B2 B3 B4 B5] B6].
  split; [split|].
  - intros s p [H1 H2]. split; auto.
  - intros s c content [H1 H2] Hc Hin. split; auto.
  - intros s c lines message [H1 H2] Hc Hin. split; auto.
  - intros s message [H1 H2]. split; auto.
  - intros s [H1 H2]. split; auto.
  - intros s key content [H1 H2]. split; auto.
Qed.

Lemma monotone_all (paths : list string) (f : FS) :
  monotone (fun s => forall d, In d paths -> stylesStored cwd T f d s).
Proof.
  intros s s' H Hk d Hd. apply (monotone_stylesStored f d s s'); auto.
Qed.

(** When the document loop ends, the style references of every document
    have their output path in the output map; the file system is as it
    was. *)
Lemma compileAll_styles (f : FS) (htmlFiles : list string) :
  hoare (fun s => fs s = f) (compileAll cwd T config htmlFiles)
    (fun _ s => fs s = f
                /\ forall d, In d htmlFiles -> stylesStored cwd T f d s)
    (fun _ => True).
Proof.
  pose (J := fun (pre : list string) (s : BuildState) =>
               fs s = f /\ forall d, In d pre -> stylesStored cwd T f d s).
  unfold compileAll.
  eapply hoare_weaken;
    [apply (hoare_forM_prefix J (fun _ => True)
              (compileDocument cwd T config) htmlFiles) with (pre := [])
    | | |]; auto.
  - intros pre d _.
    pose proof (closedDoc_conj _ _ _ _ (closed_fs config f)
                  (closed_monotone _ (monotone_all pre f))) as HJ.
    pose proof (closedDoc_conj _ _ _ _ HJ
                  (closed_monotone _ (monotone_stylesStored f d))) as HJ'.
    unfold compileDocument.
    eapply hoare_bind
      with (Q1 := fun _ s => J pre s /\ stylesStored cwd T f d s).
    + eapply hoare_weaken;
        [apply (hoare_conj _ _ _ _ _ _ _
                  (compileAssets_closed cwd T config _ _ d (cd_closed HJ))
                  (compileAssets_styles f d)) | | |]; auto.
      intros s [Hf Hd]. split; [split|]; assumption.
    + intros html.
      eapply hoare_weaken;
        [apply (emitDocument_closed T config _ _ d html HJ') | | |];
        auto.
      intros u s [[[Hf Hd] Hs] _]. split; [exact Hf|].
      intros d0 Hd0. apply in_app_or in Hd0.
      destruct Hd0 as [Hd0|[<-|[]]]; [now apply Hd | exact Hs].
  - intros s Hs. split; [exact Hs | intros d []].
Qed.

End Styles.

(** ** Writing and copying *)

Section Writing.

Variable cwd : string.
Variable config : BSTConfig.

(** A write of the output map leaves the files at other places alone. *)
Lemma writeBuilt_preserves (entry : string * string) (p c : string) :
  Path.resolveSegs cwd p
  <> Path.resolveSegs cwd (destinationOf cwd config (fst entry)) ->
  hoare (fun s => holds cwd (fs s) p c) (writeBuilt cwd config entry)
        (fun _ s => holds cwd (fs s) p c) (fun _ => True).
Proof.
  intros Hne s Hs. unfold writeBuilt, bind, get, orExit, setFS, ret.
  destruct (mkdir cwd (fs s) _) as [f|e] eqn:Em; simpl; [|exact I].
  destruct (writeFile cwd f _ (snd entry)) as [f'|e] eqn:Ew; simpl;
    [|exact I].
  eapply writeFile_holds_other; [exact Ew | exact Hne |].
  eapply mkdir_holds; eassumption.
Qed.

(** A write of the output map puts the content at the destination. *)
Lemma writeBuilt_writes (entry : string * string) :
  hoare (fun _ => True) (writeBuilt cwd config entry)
        (fun _ s => holds cwd (fs s) (destinationOf cwd config (fst entry))
                          (snd entry))
        (fun _ => True).
Proof.
  intros s _. unfold writeBuilt, bind, get, orExit, setFS, ret.
  destruct (mkdir cwd (fs s) _) as [f|e] eqn:Em; simpl; [|exact I].
  destruct (writeFile cwd f _ (snd entry)) as [f'|e] eqn:Ew; simpl;
    [|exact I].
  eapply writeFile_holds_same; exact Ew.
Qed.

(** A copy leaves the files at other places alone. *)
Lemma copyThrough_preserves (file p c : string) :
  Path.resolveSegs cwd p
  <> Path.resolveSegs cwd (destinationOf cwd config file) ->
  hoare (fun s => holds cwd (fs s) p c) (copyThrough cwd config file)
        (fun _ s => holds cwd (fs s) p c) (fun _ => True).
Proof.
  intros Hne s Hs. unfold copyThrough.
  destruct (negb (isBuildSource file)); [|exact Hs].
  unfold bind, get, orExit, setFS, ret.
  destruct (mkdir cwd (fs s) _) as [f|e] eqn:Em; simpl; [|exact I].
  destruct (copyFile cwd f file _) as [f'|e] eqn:Ew; simpl; [|exact I].
  unfold copyFile in Ew. destruct (readText cwd f file) as [content|e];
    [|discriminate].
  eapply writeFile_holds_other; [exact Ew | exact Hne |].
  eapply mkdir_holds; eassumption.
Qed.

(** A copy of a file that the filter lets through puts its content at
    the destination. *)
Lemma copyThrough_copies (file c : string) :
  isBuildSource file = false ->
  hoare (fun s => holds cwd (fs s) file c) (copyThrough cwd config file)
        (fun _ s => holds cwd (fs s) (destinationOf cwd config file) c)
        (fun _ => True).
Proof.
  intros Hb s Hs. unfold copyThrough. rewrite Hb. simpl.
  unfold bind, get, orExit, setFS, ret.
  destruct (mkdir cwd (fs s) _) as [f|e] eqn:Em; simpl; [|exact I].
  destruct (copyFile cwd f file _) as [f'|e] eqn:Ew; simpl; [|exact I].
  unfold copyFile in Ew.
  assert (Hf : readText cwd f file = Ok c).
  { apply readText_holds. eapply mkdir_holds; eassumption. }
  rewrite Hf in Ew. eapply writeFile_holds_same; exact Ew.
Qed.

(** The copy loop: a file of the list that the filter lets through ends
    up at its destination with its own content, when no destination is
    the file itself and no other file has the same destination. *)
Lemma copyLoop_copies (files : list string) (file raw : string) :
  isBuildSource file = false ->
  (forall g, In g files ->
     Path.resolveSegs cwd file
     <> Path.resolveSegs cwd (destinationOf cwd config g)) ->
  (forall g, In g files -> g <> file ->
     Path.resolveSegs cwd (destinationOf cwd config file)
     <> Path.resolveSegs cwd (destinationOf cwd config g)) ->
  hoare (fun s => holds cwd (fs s) file raw)
        (forM (copyThrough cwd config) files)
        (fun _ s => In file files ->
                    holds cwd (fs s) (destinationOf cwd config file) raw)
        (fun _ => True).
Proof.
  intros Hb Hsrc Hdist.
  pose (J := fun (pre : list string) (s : BuildState) =>
               holds cwd (fs s) file raw
               /\ (In file pre ->
                   holds cwd (fs s) (destinationOf cwd config file) raw)).
  eapply hoare_weaken;
    [apply (hoare_forM_prefix J (fun _ => True) (copyThrough cwd config)
              files) with (pre := []) | | |].
  - intros pre g Hg s [Hs Hpre].
    pose proof (copyThrough_preserves g file raw (Hsrc g Hg) s Hs) as H1.
    destruct (string_dec g file) as [->|Hne].
    + pose proof (copyThrough_copies file raw Hb s Hs) as H2.
      destruct (copyThrough cwd config file s) as [u s'|]; [|exact I].
      split; [exact H1 | intros _; exact H2].
    + destruct (In_dec string_dec file pre) as [Hin|Hout].
      * pose proof (copyThrough_preserves g _ raw (Hdist g Hg Hne) s
                      (Hpre Hin)) as H2.
        destruct (copyThrough cwd config g s) as [u s'|]; [|exact I].
        split; [exact H1 | intros _; exact H2].
      * destruct (copyThrough cwd config g s) as [u s'|]; [|exact I].
        split; [exact H1|]. intros Hin. apply in_app_or in Hin.
        destruct Hin as [Hin|[Heq|[]]]; [contradiction | congruence].
  - intros s Hs. split; [exact Hs | intros []].
  - intros u s [_ H]. exact H.
  - auto.
Qed.

(** The write loop leaves a file alone that is no entry's destination. *)
Lemma writeLoop_preserves (entries : list (string * string))
    (file raw : string) :
  (forall entry, In entry entries ->
     Path.resolveSegs cwd file
     <> Path.resolveSegs cwd (destinationOf cwd config (fst entry))) ->
  hoare (fun s => holds cwd (fs s) file raw)
        (forM (writeBuilt cwd config) entries)
        (fun _ s => holds cwd (fs s) file raw) (fun _ => True).
Proof.
  intros H. apply hoare_forM. intros entry He.
  now apply writeBuilt_preserves, H.
Qed.

(** Cleaning leaves a file alone that is not listed in the destination. *)
Lemma cleanDestination_preserves (f : FS) (file raw : string) :
  (clean config = true ->
   forall gs g,
     getFilesRecursively cwd f (destination config) = Ok gs -> In g gs ->
     Path.resolveSegs cwd file <> Path.resolveSegs cwd g) ->
  hoare (fun s => fs s = f /\ holds cwd f file raw)
        (cleanDestination cwd config)
        (fun _ s => holds cwd (fs s) file raw) (fun _ => True).
Proof.
  intros Hclean s [Hf Hs]. unfold cleanDestination.
  destruct (clean config) eqn:Ec; [|simpl; now rewrite Hf].
  unfold bind at 1, get.
  destruct (pathExists cwd (fs s) (destination config)).
  - unfold bind at 1, orExit.
    destruct (getFilesRecursively cwd (fs s) (destination config))
      as [gs|e] eqn:Eg; simpl; [|exact I].
    rewrite Hf in Eg.
    assert (Hloop :
      hoare (fun s0 => holds cwd (fs s0) file raw)
            (forM (fun file0 : string =>
                     s1 <- get ;;
                     f0 <- orExit (unlink cwd (fs s1) file0) ;; setFS f0) gs)
            (fun _ s0 => holds cwd (fs s0) file raw) (fun _ => True)).
    { apply hoare_forM. intros g Hg s0 Hs0.
      unfold bind, get, orExit, setFS, ret.
      destruct (unlink cwd (fs s0) g) as [f1|e] eqn:Eu; simpl; [|exact I].
      eapply unlink_holds_other; [exact Eu | | exact Hs0].
      now apply (Hclean eq_refl gs g). }
    apply Hloop. now rewrite Hf.
  - unfold bind, orExit, setFS.
    destruct (mkdir cwd (fs s) (destination config)) as [f1|e] eqn:Em;
      simpl; [|exact I].
    eapply mkdir_holds; [exact Em | now rewrite Hf].
Qed.

(** Cleaning and writing the output map leave a file alone that is
    neither listed in a destination to clean nor any entry's
    destination. *)
Lemma writeOutputs_preserves (f : FS) (b : Obj) (file raw : string) :
  (clean config = true ->
   forall gs g,
     getFilesRecursively cwd f (destination config) = Ok gs -> In g gs ->
     Path.resolveSegs cwd file <> Path.resolveSegs cwd g) ->
  (forall entry, In entry b ->
     Path.resolveSegs cwd file
     <> Path.resolveSegs cwd (destinationOf cwd config (fst entry))) ->
  hoare (fun s => fs s = f /\ builtFiles s = b /\ holds cwd f file raw)
        (writeOutputs cwd config)
        (fun _ s => holds cwd (fs s) file raw) (fun _ => True).
Proof.
  intros Hclean Hwrite. unfold writeOutputs.
  assert (Hout : outputsOnly (fun s => builtFiles s = b)).
  { intros s s' [Hb _] H. now rewrite Hb. }
  eapply hoare_bind
    with (Q1 := fun _ s => holds cwd (fs s) file raw /\ builtFiles s = b).
  - eapply hoare_weaken;
      [apply (hoare_conj _ _ _ _ _ _ _
                (cleanDestination_preserves f file raw Hclean)
                (cleanDestination_outputs cwd config
                   (fun s => builtFiles s = b) Hout)) | | |].
    + intros s [Hf [Hb Hs]]. repeat split; assumption.
    + auto.
    + auto.
  - intros u. eapply hoare_bind
      with (Q1 := fun s0 s => holds cwd (fs s) file raw /\ builtFiles s0 = b).
    + apply hoare_get. auto.
    + intros s0 s [Hs Hb]. rewrite Hb.
      now apply (writeLoop_preserves b file raw Hwrite s).
Qed.

End Writing.

Lemma getProp_In (k v : string) (o : Obj) :
  getProp k o = Some v -> In (k, v) o.
Proof.
  induction o as [|[k' v'] r IH]; simpl; [discriminate|].
  destruct (String.eqb_spec k' k) as [->|Hne].
  - intros [= ->]. now left.
  - intros H. right. now apply IH.
Qed.

Section CopyOver.

Variable cwd : string.
Variable T : Tools.
Variable config : BSTConfig.

(** C10 (as amended): a source file whose path ends in [.css] and that
    a document references as a stylesheet is its own output path; the
    style step compiles the file itself into the output map when that
    path is not in the map yet, and otherwise keeps the entry that is
    there. Either way the output map ends with an entry under the file's
    path, which the write loop writes to the file's destination. The
    copy filter lets the file through, and the copy loop, which runs
    after the write loop, copies the file to the same destination: in a
    build that completes, where no destination is the source file itself
    and no other copied file has the same destination, the destination
    ends up holding the raw source content. *)
Theorem referenced_css_is_overwritten_by_its_source :
  forall (f : FS) (htmlFiles : list string) (s1 s2 s3 : BuildState)
         (files : list string) (d : string) (html : Document)
         (imports : list string) (ref file raw : string),
    getConfig cwd T f = Ok config ->
    getFilesMatching cwd T f (source config) "**/*.html" = Ok htmlFiles ->
    compileAll cwd T config htmlFiles (initialState f) = Next tt s1 ->
    writeOutputs cwd config s1 = Next tt s2 ->
    getFilesRecursively cwd (fs s2) (source config) = Ok files ->
    forM (copyThrough cwd config) files s2 = Next tt s3 ->
    In d htmlFiles ->
    getHTML cwd T f d = Ok html ->
    getCSSImports html = Some imports ->
    In ref imports ->
    file = importMapper (Path.dirname d) ref ->
    JS.endsWith ".css" file = true ->
    In file files ->
    readText cwd f file = Ok raw ->
    (clean config = true ->
     forall gs g,
       getFilesRecursively cwd f (destination config) = Ok gs -> In g gs ->
       Path.resolveSegs cwd file <> Path.resolveSegs cwd g) ->
    (forall entry, In entry (builtFiles s1) ->
       Path.resolveSegs cwd file
       <> Path.resolveSegs cwd (destinationOf cwd config (fst entry))) ->
    (forall g, In g files ->
       Path.resolveSegs cwd file
       <> Path.resolveSegs cwd (destinationOf cwd config g)) ->
    (forall g, In g files -> g <> file ->
       Path.resolveSegs cwd (destinationOf cwd config file)
       <> Path.resolveSegs cwd (destinationOf cwd config g)) ->
    build cwd T (initialState f) = Next tt s3
    /\ cssBuiltPath file = file
    /\ isBuildSource file = false
    /\ (forall basePath doc s content,
          inObj file (builtFiles s) = false ->
          transpileCSS cwd T (fs s) file (css_minify config) = Ok content ->
          exists doc',
            compileCSS cwd T config basePath doc file s
            = Next doc' (stored (TranspileCSS file (css_minify config))
                                file content (withCurrent file s)))
    /\ (forall basePath doc s,
          inObj file (builtFiles s) = true ->
          exists doc',
            compileCSS cwd T config basePath doc file s
            = Next doc' (withCurrent file s))
    /\ (exists compiled,
          In (file, compiled) (builtFiles s1)
          /\ forall s s',
               writeBuilt cwd config (file, compiled) s = Next tt s' ->
               readText cwd (fs s') (destinationOf cwd config file)
               = Ok compiled)
    /\ readText cwd (fs s3) (destinationOf cwd config file) = Ok raw.
Proof.
  intros f htmlFiles s1 s2 s3 files d html imports ref file raw
         Hc Hm Hdocs Hwrite Hlist Hcopy Hd Hhtml Himp Href Hfile Hcss
         Hin Hraw Hclean Hentries Hsrc Hdist.
  assert (Hbuilt : cssBuiltPath file = file) by now apply cssBuiltPath_css.
  assert (Hfilter : isBuildSource file = false) by now apply isBuildSource_css.
  pose proof (hoare_next _ _ _ _ (initialState f) s1 tt
                (compileAll_styles cwd T config f htmlFiles) eq_refl Hdocs)
    as [Hfs1 Hstyles].
  refine (conj _ (conj Hbuilt (conj Hfilter (conj _ (conj _ (conj _ _)))))).
  - unfold build, bind, get. cbn [fs initialState].
    rewrite Hc. simpl. rewrite Hm. simpl. rewrite Hdocs, Hwrite.
    unfold copyRest, bind, get. now rewrite Hlist.
  - intros basePath doc s content Hno Ht. eexists.
    rewrite <- Hbuilt in Hno.
    rewrite (compileCSS_fresh cwd T config basePath doc file content s Hno Ht).
    now rewrite Hbuilt.
  - intros basePath doc s Hyes. eexists.
    rewrite <- Hbuilt in Hyes.
    now rewrite (compileCSS_cached cwd T config basePath doc file s Hyes).
  - assert (Hown : hasOwn file (builtFiles s1) = true).
    { apply inObj_css_hasOwn; [exact Hcss|]. rewrite <- Hbuilt, Hfile.
      exact (Hstyles d Hd html imports ref Hhtml Himp Href). }
    unfold hasOwn in Hown.
    destruct (getProp file (builtFiles s1)) as [compiled|] eqn:Eg;
      [|discriminate].
    exists compiled. split; [now apply getProp_In|].
    intros s s' Hw. apply readText_holds.
    exact (hoare_next _ _ _ _ s s' tt
             (writeBuilt_writes cwd config (file, compiled)) I Hw).
  - apply readText_holds.
    assert (H2 : holds cwd (fs s2) file raw).
    { apply (hoare_next _ _ _ _ s1 s2 tt
               (writeOutputs_preserves cwd config f (builtFiles s1) file raw
                  Hclean Hentries)
               (conj Hfs1 (conj eq_refl (proj1 (readText_holds _ _ _ _) Hraw)))
               Hwrite). }
    exact (hoare_next _ _ _ _ s2 s3 tt
             (copyLoop_copies cwd config files file raw Hfilter Hsrc Hdist)
             H2 Hcopy Hin).
Qed.

End CopyOver.

Ltac differ := vm_compute; let H := fresh in intros H; discriminate H.

Lemma referenced_css_is_overwritten_witness :
  readText "/w" (fs cssSiteCopied)
           (destinationOf "/w" defaultConfig "src/style.css")
  = Ok "RAW".
Proof.
  refine (proj2 (proj2 (proj2 (proj2 (proj2 (proj2
    (referenced_css_is_overwritten_by_its_source
       "/w" (Toy.tools Toy.defaults) defaultConfig Toy.cssSite
       ["src/index.html"] cssSiteCompiled cssSiteWritten cssSiteCopied
       ["src/index.html"; "src/style.css"; "src/logo.png"]
       "src/index.html" (normalizeClasses (Toy.parse "L:style.css"))
       ["style.css"] "style.css" "src/style.css" "RAW"
       _ _ _ _ _ _ _ _ _ _ _ _ _ _ _ _ _ _))))))).
  - vm_compute. reflexivity.
  - vm_compute. reflexivity.
  - vm_compute. reflexivity.
  - vm_compute. reflexivity.
  - vm_compute. reflexivity.
  - vm_compute. reflexivity.
  - now left.
  - vm_compute. reflexivity.
  - vm_compute. reflexivity.
  - now left.
  - vm_compute. reflexivity.
  - vm_compute. reflexivity.
  - right. now left.
  - vm_compute. reflexivity.
  - intros H. discriminate H.
  - intros entry Hin. vm_compute in Hin.
    destruct Hin as [<-|[<-|[]]]; differ.
  - intros g Hin. destruct Hin as [<-|[<-|[<-|[]]]]; differ.
  - intros g Hin Hne.
    destruct Hin as [<-|[<-|[<-|[]]]];
      [differ | exfalso; now apply Hne | differ].
Defined.

(** C10 (as stated) fails: [x.css] is a source file that [b.html]
    references as a stylesheet, but [a.html] referenced [x.scss] first;
    the style transform is called once, on [x.scss], never on [x.css],
    and the entry under [src/x.css] is the compiled [x.scss]. The raw
    [x.css] is what the destination ends up holding. *)
Lemma shared_output_path_css_is_not_compiled :
  getCSSImports (normalizeClasses (Toy.parse "L:x.css")) = Some ["x.css"]
  /\ readText "/w" Toy.twinSite "src/b.html" = Ok "L:x.css"
  /\ readText "/w" Toy.twinSite "src/x.css" = Ok "RAW"
  /\ calls twinSiteBuilt = [TranspileCSS "src/x.scss" false]
  /\ getProp "src/x.css" (builtFiles twinSiteBuilt) = Some "css(SCSS)"
  /\ readText "/w" (fs twinSiteBuilt) "dist/x.css" = Ok "RAW".
Proof.
  refine (conj _ (conj _ (conj _ (conj _ (conj _ _)))));
    vm_compute; reflexivity.
Qed.

(* ===================================================================== *)
(** ** Further properties: collecting and rewriting references            *)
(* ===================================================================== *)

Lemma normalizeAll_Some (l : list string) :
  normalizeAll (map Some l) = Some (map Path.normalize l).
Proof. induction l as [|x r IH]; simpl; [reflexivity | now rewrite IH]. Qed.

Lemma normalizeAll_None (refs : list (option string)) :
  normalizeAll refs = None <-> In None refs.
Proof.
  induction refs as [|[r|] rest IH]; simpl.
  - split; [discriminate | tauto].
  - destruct (normalizeAll rest) as [l|].
    + split; [discriminate|]. intros [H|H]; [discriminate|].
      apply IH in H. discriminate.
    + split; [intros _; right; now apply IH | reflexivity].
  - split; [now left | reflexivity].
Qed.

Lemma normalizeAll_ok (refs : list (option string)) (l : list string) :
  normalizeAll refs = Some l ->
  map (option_map Path.normalize) refs = map Some l.
Proof.
  revert l. induction refs as [|[r|] rest IH]; intros l H; simpl in *.
  - now injection H as <-.
  - destruct (normalizeAll rest) as [l'|]; [|discriminate].
    injection H as <-. simpl. now rewrite (IH l').
  - discriminate.
Qed.

Lemma all_Some {A : Type} (l : list (option A)) :
  ~ In None l -> exists l', l = map Some l'.
Proof.
  induction l as [|[x|] r IH]; intros H.
  - now exists [].
  - destruct IH as [l' ->]; [intros Hn; apply H; now right|].
    now exists (x :: l').
  - exfalso. apply H. now left.
Qed.

(** X1 - [getJSImports] never throws: a script is collected only when it
    has a [src], so every collected element yields a reference, and the
    result is the list of these references, normalized, in document
    order. *)
Theorem script_references_are_always_collected :
  forall d : Document,
    exists srcs,
      map (nodeAttr "src") (getJSElements d) = map Some srcs
      /\ getJSImports d = Some (map Path.normalize srcs).
Proof.
  intros d.
  destruct (all_Some (map (nodeAttr "src") (getJSElements d))) as [srcs E].
  - intros H. apply in_map_iff in H. destruct H as [n [Hn Hin]].
    apply findAll_test in Hin. unfold isJSElement in Hin.
    apply andb_prop in Hin. destruct Hin as [_ Hs].
    unfold hasAttrib in Hs. now rewrite Hn in Hs.
  - exists srcs. split; [exact E|].
    unfold getJSImports. rewrite E. apply normalizeAll_Some.
Qed.

(** X2 - [getCSSImports] throws exactly when some stylesheet link has no
    [href] ([path.normalize(undefined)] is a TypeError); otherwise it
    returns the normalized [href] of every stylesheet link, in document
    order. *)
Theorem style_references_need_every_href :
  forall d : Document,
    (getCSSImports d = None
     <-> exists n, In n (getCSSElements d) /\ nodeAttr "href" n = None)
    /\ (forall refs,
          getCSSImports d = Some refs ->
          map (option_map Path.normalize)
              (map (nodeAttr "href") (getCSSElements d))
          = map Some refs).
Proof.
  intros d. unfold getCSSImports. split.
  - rewrite normalizeAll_None, in_map_iff. split.
    + intros [n [Hn Hin]]. now exists n.
    + intros [n [Hin Hn]]. now exists n.
  - intros refs. apply normalizeAll_ok.
Qed.

(** X3 - A document with a stylesheet link that has no [href] stops the
    build with an exception no handler catches: [getCSSImports] is
    called outside every [catch], so [errorHandler] does not run and
    prints neither its context line nor a message, and no transform was
    called for the document. *)
Theorem link_without_href_is_an_uncaught_error :
  forall (cwd : string) (T : Tools) (config : BSTConfig)
         (htmlPath : string) (html : Document) (link : Node)
         (rest : list string) (s : BuildState),
    getHTML cwd T (fs s) htmlPath = Ok html ->
    In link (getCSSElements html) ->
    nodeAttr "href" link = None ->
    compileAll cwd T config (htmlPath :: rest) s
    = Stop Uncaught (withCurrent htmlPath s).
Proof.
  intros cwd T config htmlPath html link rest s Hh Hin Hn.
  assert (Hc : getCSSImports html = None).
  { unfold getCSSImports. apply normalizeAll_None, in_map_iff.
    now exists link. }
  unfold compileAll. simpl.
  unfold compileDocument, compileAssets, bind, setCurrent, get. simpl.
  rewrite Hh. simpl. rewrite Hc. reflexivity.
Qed.

Lemma link_without_href_witness :
  compileAll "/w" bareLinkTools defaultConfig ["src/index.html"]
    (initialState Toy.cssSite)
  = Stop Uncaught (withCurrent "src/index.html" (initialState Toy.cssSite)).
Proof.
  apply (link_without_href_is_an_uncaught_error
           "/w" bareLinkTools defaultConfig "src/index.html"
           (mkDocument [Element 0 "link" [("rel", "stylesheet")] []] 1)
           (Element 0 "link" [("rel", "stylesheet")] []) []
           (initialState Toy.cssSite)).
  - vm_compute. reflexivity.
  - vm_compute. now left.
  - reflexivity.
Defined.

Lemma isCSSElement_attr (i : nat) (nm : string) (a : Attribs)
    (ch : list Node) :
  isCSSElement (Element i nm a ch)
  = (nm =? "link") && optEq (getProp "rel" a) "stylesheet".
Proof. reflexivity. Qed.

Lemma isJSElement_attr (i : nat) (nm : string) (a : Attribs)
    (ch : list Node) :
  isJSElement (Element i nm a ch)
  = (nm =? "script")
    && match getProp "src" a with Some _ => true | None => false end.
Proof. reflexivity. Qed.

Lemma link_is_no_script (nm : string) :
  (nm =? "link") = true -> (nm =? "script") = false.
Proof. intros H. apply String.eqb_eq in H. now subst nm. Qed.

(** What a rewrite of one attribute leaves alone. *)
Lemma rewriteHref_other (o r k : string) (n : Node) (a : Attribs) :
  k <> "href" -> getProp k (rewriteHref o r n a) = getProp k a.
Proof.
  intros Hk. unfold rewriteHref.
  destruct (isCSSElement n && optEq (getProp "href" a) o); [|reflexivity].
  now apply getProp_setProp_ne.
Qed.

Lemma rewriteSrc_other (o r k : string) (n : Node) (a : Attribs) :
  k <> "src" -> getProp k (rewriteSrc o r n a) = getProp k a.
Proof.
  intros Hk. unfold rewriteSrc.
  destruct (isJSElement n && optEq (getProp "src" a) o); [|reflexivity].
  now apply getProp_setProp_ne.
Qed.

Lemma isJS_stable_href (o r : string) :
  stableUnder isJSElement (rewriteHref o r).
Proof.
  intros i nm a ch ch'. rewrite !isJSElement_attr.
  now rewrite rewriteHref_other by discriminate.
Qed.

Lemma isCSS_stable_src (o r : string) :
  stableUnder isCSSElement (rewriteSrc o r).
Proof.
  intros i nm a ch ch'. rewrite !isCSSElement_attr.
  now rewrite rewriteSrc_other by discriminate.
Qed.

Lemma nodeAttr_update (f : Node -> Attribs -> Attribs) (k : string) :
  (forall n a, getProp k (f n a) = getProp k a) ->
  forall n, nodeAttr k (updateNode f n) = nodeAttr k n.
Proof. intros H [d|i nm a ch]; simpl; [reflexivity | apply H]. Qed.

Lemma refs_update (test : Node -> bool) (f : Node -> Attribs -> Attribs)
    (k : string) (d : Document) :
  stableUnder test f ->
  (forall n a, getProp k (f n a) = getProp k a) ->
  map (nodeAttr k) (findAll test (docChildren (updateAll f d)))
  = map (nodeAttr k) (findAll test (docChildren d)).
Proof.
  intros Hs Hk. unfold updateAll. simpl.
  rewrite findAll_update by exact Hs. rewrite map_map.
  apply map_ext. now apply nodeAttr_update.
Qed.

(** The two rewrites act on different elements, so they commute. *)
Lemma rewrites_commute (o r o' r' : string) (n : Node) :
  updateNode (rewriteSrc o' r') (updateNode (rewriteHref o r) n)
  = updateNode (rewriteHref o r) (updateNode (rewriteSrc o' r') n).
Proof.
  induction n as [d|i nm a ch IH] using Node_induction; [reflexivity|].
  simpl. f_equal.
  - unfold rewriteHref, rewriteSrc. rewrite !isCSSElement_attr, !isJSElement_attr.
    destruct (nm =? "link") eqn:El.
    + rewrite (link_is_no_script nm El). simpl.
      destruct (optEq (getProp "rel" a) "stylesheet"
                && optEq (getProp "href" a) o); reflexivity.
    + simpl. destruct ((nm =? "script")
                       && match getProp "src" a with
                          | Some _ => true
                          | None => false
                          end && optEq (getProp "src" a) o'); reflexivity.
  - rewrite !map_map. now apply map_ext_Forall.
Qed.

(** X4 - Rewriting stylesheet references and rewriting script references
    do not interfere: each leaves the references of the other kind as
    they were, and the two rewrites give the same document in either
    order. *)
Theorem style_and_script_rewrites_do_not_interfere :
  forall (d : Document) (o r o' r' : string),
    jsRefs (replaceCSSImports d o r) = jsRefs d
    /\ cssRefs (replaceJSImports d o' r') = cssRefs d
    /\ replaceJSImports (replaceCSSImports d o r) o' r'
       = replaceCSSImports (replaceJSImports d o' r') o r.
Proof.
  intros d o r o' r'. refine (conj _ (conj _ _)).
  - unfold jsRefs, getJSElements, replaceCSSImports.
    apply refs_update; [apply isJS_stable_href|].
    intros n a. now apply rewriteHref_other.
  - unfold cssRefs, getCSSElements, replaceJSImports.
    apply refs_update; [apply isCSS_stable_src|].
    intros n a. now apply rewriteSrc_other.
  - unfold replaceJSImports, replaceCSSImports, updateAll. simpl.
    f_equal. rewrite !map_map. apply map_ext. apply rewrites_commute.
Qed.

Lemma setProp_same (k v : string) (a : Obj) :
  getProp k a = Some v -> setProp k v a = a.
Proof.
  induction a as [|[k' v'] r IH]; simpl; [discriminate|].
  destruct (k' =? k).
  - now intros [= ->].
  - intros H. now rewrite IH.
Qed.

Lemma rewritten_gone (o r : string) (refs : list (option string)) :
  o <> r -> ~ In (Some o) (map (rewritten o r) refs).
Proof.
  intros Hne H. apply in_map_iff in H. destruct H as [ref [E _]].
  unfold rewritten in E. destruct (optEq ref o) eqn:Eo.
  - injection E as E. now apply Hne.
  - subst ref. simpl in Eo. now rewrite String.eqb_refl in Eo.
Qed.

Lemma rewriteHref_same (o : string) (n : Node) (a : Attribs) :
  rewriteHref o o n a = a.
Proof.
  unfold rewriteHref.
  destruct (isCSSElement n); simpl; [|reflexivity].
  destruct (optEq (getProp "href" a) o) eqn:E; [|reflexivity].
  apply optEq_true in E. now apply setProp_same.
Qed.

Lemma rewriteSrc_same (o : string) (n : Node) (a : Attribs) :
  rewriteSrc o o n a = a.
Proof.
  unfold rewriteSrc.
  destruct (isJSElement n); simpl; [|reflexivity].
  destruct (optEq (getProp "src" a) o) eqn:E; [|reflexivity].
  apply optEq_true in E. now apply setProp_same.
Qed.

Lemma updateAll_id (f : Node -> Attribs -> Attribs) (d : Document) :
  (forall n a, f n a = a) -> updateAll f d = d.
Proof.
  intros H. destruct d as [nodes k]. unfold updateAll. simpl. f_equal.
  rewrite <- (map_id nodes) at 2. apply map_ext.
  intros n. apply updateNode_id. intros i nm a ch. apply H.
Qed.

(** X5 - A rewrite is complete and idempotent: after rewriting
    [original] to a different [replaced], no stylesheet link (script)
    refers to [original] any more, and rewriting a second time changes
    nothing. *)
Theorem reference_rewriting_is_complete_and_idempotent :
  forall (d : Document) (original replaced : string),
    (original <> replaced ->
     ~ In (Some original) (cssRefs (replaceCSSImports d original replaced)))
    /\ replaceCSSImports (replaceCSSImports d original replaced)
                         original replaced
       = replaceCSSImports d original replaced
    /\ (original <> replaced ->
        ~ In (Some original) (jsRefs (replaceJSImports d original replaced)))
    /\ replaceJSImports (replaceJSImports d original replaced)
                        original replaced
       = replaceJSImports d original replaced.
Proof.
  intros d o r. refine (conj _ (conj _ (conj _ _))).
  - intros Hne. rewrite cssRefs_replace. now apply rewritten_gone.
  - destruct (String.eqb_spec o r) as [->|Hne].
    + unfold replaceCSSImports.
      now rewrite !(updateAll_id (rewriteHref r r)) by apply rewriteHref_same.
    + apply replaceCSSImports_noop. rewrite cssRefs_replace.
      now apply rewritten_gone.
  - intros Hne. rewrite jsRefs_replace. now apply rewritten_gone.
  - destruct (String.eqb_spec o r) as [->|Hne].
    + unfold replaceJSImports.
      now rewrite !(updateAll_id (rewriteSrc r r)) by apply rewriteSrc_same.
    + apply replaceJSImports_noop. rewrite jsRefs_replace.
      now apply rewritten_gone.
Qed.

(** ** Further properties: the non-blocking conversion *)

Lemma nodeAttr_strip (k : string) (n : Node) :
  nodeAttr k (strip n) = nodeAttr k n.
Proof. now destruct n. Qed.

Lemma findAllNode_strip (n : Node) :
  findAllNode isCSSElement (strip n) = map strip (findAllNode isCSSElement n).
Proof.
  induction n as [d|i nm a ch IH] using Node_induction; [reflexivity|].
  change (strip (Element i nm a ch)) with (Element 0 nm a (map strip ch)).
  cbn [findAllNode]. rewrite !isCSSElement_attr.
  rewrite map_app, flat_map_map, map_flat_map. f_equal.
  - now destruct ((nm =? "link") && optEq (getProp "rel" a) "stylesheet").
  - now apply flat_map_ext_Forall.
Qed.

Lemma hrefs_strip (nodes : list Node) :
  map (nodeAttr "href") (findAll isCSSElement (map strip nodes))
  = map (nodeAttr "href") (findAll isCSSElement nodes).
Proof.
  unfold findAll. rewrite flat_map_map, !map_flat_map.
  apply flat_map_ext_Forall, Forall_forall. intros n _.
  rewrite findAllNode_strip, map_map. apply map_ext.
  apply nodeAttr_strip.
Qed.

Lemma hrefs_pair (href : option string) :
  map (nodeAttr "href") (findAll isCSSElement (fallbackThenPreload href))
  = [href].
Proof. now destruct href. Qed.

(** The pair put in place of a link carries the link's reference, once. *)
Lemma hrefs_replaceLinks (n : Node) :
  (forall x, In x (findAllNode (fun _ => true) n) ->
             isCSSElement x = true ->
             match x with
             | Other _ => True
             | Element _ _ _ ch => findAll isCSSElement ch = []
             end) ->
  map (nodeAttr "href")
      (findAll isCSSElement (replaceLinks fallbackThenPreload (strip n)))
  = map (nodeAttr "href") (findAllNode isCSSElement n).
Proof.
  induction n as [d|i nm a ch IH] using Node_induction; intros Hv;
    [reflexivity|].
  change (strip (Element i nm a ch)) with (Element 0 nm a (map strip ch)).
  cbn [replaceLinks findAllNode]. rewrite !isCSSElement_attr.
  destruct ((nm =? "link") && optEq (getProp "rel" a) "stylesheet") eqn:Ec.
  - rewrite hrefs_pair.
    assert (Hch : findAll isCSSElement ch = []).
    { apply (Hv (Element i nm a ch)); [now left|].
      now rewrite isCSSElement_attr. }
    unfold findAll in Hch. now rewrite Hch.
  - unfold findAll. cbn [flat_map findAllNode].
    rewrite isCSSElement_attr, Ec, app_nil_r. cbn [app].
    rewrite flat_map_map, flat_map_flat_map, !map_flat_map.
    apply flat_map_ext_Forall.
    rewrite Forall_forall in *. intros c Hc. apply (IH c Hc).
    intros x Hx. apply Hv. cbn [findAllNode]. right.
    apply in_flat_map. now exists c.
Qed.

(** X6 - The non-blocking conversion keeps the stylesheet references of
    the document: the fallback link inside each no-script element is the
    only stylesheet link the conversion leaves for the link it removed,
    with the same [href], so [getCSSImports] returns after the conversion
    what it returned before. *)
Theorem conversion_keeps_the_style_references :
  forall d : Document,
    wfDocument d -> voidLinks d ->
    cssRefs (convertCSSToNonBlocking d) = cssRefs d
    /\ getCSSImports (convertCSSToNonBlocking d) = getCSSImports d.
Proof.
  intros d Hwf Hvoid.
  assert (H : cssRefs (convertCSSToNonBlocking d) = cssRefs d).
  { unfold cssRefs, getCSSElements.
    rewrite <- hrefs_strip.
    assert (Hshape :
      map strip (docChildren (convertCSSToNonBlocking d))
      = flat_map (replaceLinks fallbackThenPreload)
                 (map strip (docChildren d))).
    { destruct d as [nodes k]. destruct Hwf as [Hnd Hlt]. simpl in *.
      unfold convertCSSToNonBlocking, getCSSElements. simpl.
      rewrite fold_convert.
      - rewrite map_flat_map, flat_map_map.
        apply flat_map_ext_Forall, Forall_forall. intros n Hn.
        apply expand_replaceLinks. intros x Hx.
        apply targetHref_css; [exact Hnd|].
        unfold allElements, findAll. apply in_flat_map. now exists n.
      - intros e He. apply findAll_split in He. destruct He as [He _].
        rewrite Forall_forall in Hlt. now apply Hlt. }
    rewrite Hshape. unfold findAll at 1.
    rewrite flat_map_flat_map, flat_map_map.
    unfold findAll. rewrite !map_flat_map.
    apply flat_map_ext_Forall, Forall_forall. intros n Hn.
    apply hrefs_replaceLinks. intros x Hx Hc.
    apply Hvoid; [|exact Hc].
    unfold allElements, findAll. apply in_flat_map. now exists n. }
  split; [exact H|].
  unfold getCSSImports. unfold cssRefs in H. now rewrite H.
Qed.

Lemma singleLinkDocument_void : voidLinks singleLinkDocument.
Proof.
  intros n Hn Hc. simpl in Hn.
  destruct Hn as [<-|[<-|[<-|[<-|[]]]]]; try discriminate Hc.
  reflexivity.
Qed.

Lemma conversion_keeps_the_style_references_witness :
  cssRefs (convertCSSToNonBlocking singleLinkDocument)
  = cssRefs singleLinkDocument.
Proof.
  exact (proj1 (conversion_keeps_the_style_references singleLinkDocument
                  singleLinkDocument_wf singleLinkDocument_void)).
Defined.

(** ** Further properties: the class-name helpers *)

Lemma indexOf_setAt (x y : string) (l : list string) (i : nat) :
  indexOf x l = Some i -> setAt i y l = replaceFirst x y l.
Proof.
  revert i. induction l as [|z r IH]; intros i H; simpl in *; [discriminate|].
  destruct (z =? x).
  - now injection H as <-.
  - destruct (indexOf x r) as [j|]; [|discriminate].
    injection H as <-. simpl. now rewrite (IH j).
Qed.

Lemma indexOf_None (x : string) (l : list string) :
  indexOf x l = None <-> ~ In x l.
Proof.
  induction l as [|z r IH]; simpl; [tauto|].
  destruct (String.eqb_spec z x) as [->|Hne].
  - split; [discriminate | intros H; exfalso; apply H; now left].
  - destruct (indexOf x r) as [j|]; simpl.
    + split; [discriminate|]. intros H. exfalso.
      assert (Hn : ~ In x r) by tauto. apply IH in Hn. discriminate.
    + split; [|reflexivity]. intros _ [H|H]; [congruence|].
      now apply (proj1 IH).
Qed.

Lemma replaceFirst_absent (x y : string) (l : list string) :
  ~ In x l -> replaceFirst x y l = l.
Proof.
  induction l as [|z r IH]; simpl; [reflexivity|]. intros H.
  destruct (String.eqb_spec z x) as [->|Hne]; [exfalso; apply H; now left|].
  rewrite IH; [reflexivity | tauto].
Qed.

Lemma replaceFirst_NoDup (x y : string) (l : list string) :
  x <> y -> NoDup l -> ~ In x (replaceFirst x y l).
Proof.
  intros Hne Hnd. induction Hnd as [|z r Hz Hr IH]; simpl; [tauto|].
  destruct (String.eqb_spec z x) as [->|Hzx].
  - intros [H|H]; [now apply Hne | now apply Hz].
  - intros [H|H]; [now apply Hzx | now apply IH].
Qed.

Lemma replaceFirst_not_nil (x y : string) (l : list string) :
  l <> [] -> replaceFirst x y l <> [].
Proof. destruct l as [|z r]; simpl; [congruence|]. now destruct (z =? x). Qed.

Lemma replaceFirst_noSep (sep : ascii) (x y : string) (l : list string) :
  noSep sep y -> Forall (noSep sep) l -> Forall (noSep sep) (replaceFirst x y l).
Proof.
  intros Hy H. induction H as [|z r Hz Hr IH]; simpl; [constructor|].
  destruct (z =? x); constructor; assumption.
Qed.

Lemma hasClass_stable_rename (o r : string) :
  stableUnder (hasAttrib "class") (renameClass o r).
Proof.
  intros i nm a ch ch'. unfold hasAttrib, renameClass. simpl.
  destruct (getProp "class" a) as [cls|] eqn:E.
  - destruct (indexOf o (JS.split " " cls)).
    + now rewrite getProp_setProp_eq.
    + now rewrite E.
  - now rewrite E.
Qed.

Lemma classTokens_rename (o r : string) (n : Node) :
  noSep " " r ->
  classTokens (updateNode (renameClass o r) n)
  = replaceFirst o r (classTokens n).
Proof.
  intros Hr. destruct n as [d|i nm a ch]; [reflexivity|].
  unfold classTokens, renameClass. simpl.
  destruct (getProp "class" a) as [cls|] eqn:E.
  - destruct (indexOf o (JS.split " " cls)) as [j|] eqn:Ei.
    + rewrite getProp_setProp_eq, (indexOf_setAt o r _ j Ei).
      apply (split_join " "%char).
      * apply replaceFirst_not_nil, split_not_nil.
      * apply replaceFirst_noSep; [exact Hr | apply split_noSep].
    + rewrite E. symmetry. apply replaceFirst_absent.
      now apply indexOf_None.
  - now rewrite E.
Qed.

Lemma classLists_update (f : Node -> Attribs -> Attribs)
    (g : list string -> list string) (d : Document) :
  stableUnder (hasAttrib "class") f ->
  (forall n, classTokens (updateNode f n) = g (classTokens n)) ->
  classLists (updateAll f d) = map g (classLists d).
Proof.
  intros Hs Hg. unfold classLists, updateAll. simpl.
  rewrite findAll_update by exact Hs. rewrite !map_map.
  apply map_ext. exact Hg.
Qed.

Lemma renameClass_absent (o r : string) (n : Node) :
  (forall x, In x (findAllNode (hasAttrib "class") n) ->
             ~ In o (classTokens x)) ->
  updateNode (renameClass o r) n = n.
Proof.
  induction n as [d|i nm a ch IH] using Node_induction; intros H;
    [reflexivity|].
  simpl. f_equal.
  - unfold renameClass. destruct (getProp "class" a) as [cls|] eqn:E;
      [|reflexivity].
    assert (Hn : ~ In o (JS.split " " cls)).
    { specialize (H (Element i nm a ch)). unfold classTokens in H.
      simpl in H. rewrite E in H. apply H.
      unfold hasAttrib. simpl. rewrite E. now left. }
    apply indexOf_None in Hn. now rewrite Hn.
  - rewrite <- (map_id ch) at 2. apply map_ext_Forall.
    rewrite Forall_forall in *. intros c Hc. apply (IH c Hc).
    intros x Hx. apply H.
    now apply findAllNode_incl_children with c.
Qed.

(** X7 - [replaceClassName] replaces, in every element with a class
    attribute, the first occurrence of [original] among the tokens that
    single spaces separate, and only that one. On a document as
    [getHTML] returns it, where no element repeats a token, no occurrence
    of [original] is left; a document without the token is returned
    unchanged. [replaced] is a class name: it holds no space. *)
Theorem renaming_a_class_replaces_its_first_occurrence :
  forall (d : Document) (original replaced : string),
    noSep " " replaced ->
    classLists (replaceClassName d original replaced)
    = map (replaceFirst original replaced) (classLists d)
    /\ (original <> replaced ->
        Forall (fun tokens => ~ In original tokens)
          (classLists
             (replaceClassName (normalizeClasses d) original replaced)))
    /\ (Forall (fun tokens => ~ In original tokens) (classLists d) ->
        replaceClassName d original replaced = d).
Proof.
  intros d o r Hr.
  assert (H1 : forall d', classLists (replaceClassName d' o r)
                          = map (replaceFirst o r) (classLists d')).
  { intros d'. apply classLists_update; [apply hasClass_stable_rename|].
    intros n. now apply classTokens_rename. }
  refine (conj (H1 d) (conj _ _)).
  - intros Hne. rewrite H1.
    unfold normalizeClasses.
    rewrite (classLists_update dedupClass uniq d hasClass_stable
               classTokens_dedup).
    rewrite map_map. apply Forall_forall. intros l Hl.
    apply in_map_iff in Hl. destruct Hl as [l0 [<- _]].
    apply replaceFirst_NoDup; [exact Hne | apply uniq_NoDup].
  - intros Hall. destruct d as [nodes k].
    unfold replaceClassName, updateAll. simpl. f_equal.
    rewrite <- (map_id nodes) at 2. apply map_ext_in.
    intros n Hn. apply renameClass_absent. intros x Hx.
    rewrite Forall_forall in Hall. apply Hall.
    unfold classLists. simpl. apply in_map. unfold findAll.
    apply in_flat_map. now exists n.
Qed.

Lemma renaming_a_class_witness :
  classLists (replaceClassName repeatedClassDocument "b" "c")
  = [["a"; "c"]; ["c"; "a"; "b"]].
Proof.
  exact (proj1 (renaming_a_class_replaces_its_first_occurrence
                  repeatedClassDocument "b" "c"
                  (conj eq_refl I))).
Defined.

Lemma normalize_dot_slash (t : string) :
  isName t = true -> Path.normalize ("./" +++ t) = t.
Proof.
  intros Ht. pose proof (isName_inv t Ht) as [Hne [_ [_ Hs]]].
  destruct t as [|c r]; [congruence|].
  assert (E1 : JS.endsWith "/" ("./" +++ String c r) = false).
  { rewrite (endsWith_slash_suffix "./" c r).
    apply endsWith_slash_name; [discriminate | exact Hs]. }
  assert (E2 : Path.normalizeString ("./" +++ String c r) true = String c r).
  { unfold Path.normalizeString.
    change ("./" +++ String c r) with ("." +++ String Path.slash (String c r)).
    rewrite split_append by (split; [reflexivity | exact I]).
    rewrite (split_noSep_id Path.slash (String c r))
      by now apply noSlash_noSep.
    unfold Path.normSegs. simpl fold_left.
    rewrite normStep_name by exact Ht.
    reflexivity. }
  unfold Path.normalize. rewrite E1.
  change (Path.isAbsolute ("./" +++ String c r)) with false.
  change ("./" +++ String c r =? EmptyString) with false.
  cbv beta iota. change (negb false) with true. rewrite E2.
  reflexivity.
Qed.

(** X8 - [getAllClassNames] returns the class tokens of the document in
    document order, each passed through [path.normalize]: a token that
    is a plain name comes back as it is, but a token is not always
    returned as written: an empty token, which two consecutive spaces or
    an empty attribute leave, comes back as a dot, and a name written
    after [./] comes back without it. *)
Theorem class_names_are_the_normalized_tokens :
  forall d : Document,
    ((forall t, In t (concat (classLists d)) -> isName t = true) ->
     getAllClassNames d = concat (classLists d))
    /\ (In EmptyString (concat (classLists d)) ->
        In "." (getAllClassNames d))
    /\ (forall t, isName t = true ->
          In ("./" +++ t) (concat (classLists d)) ->
          In t (getAllClassNames d)).
Proof.
  intros d. unfold getAllClassNames.
  change (map classTokens (findAll (hasAttrib "class") (docChildren d)))
    with (classLists d).
  refine (conj _ (conj _ _)).
  - intros H. rewrite <- (map_id (concat (classLists d))) at 2.
    apply map_ext_in. intros t Ht.
    apply (normalize_pathOf [t]); [discriminate|].
    constructor; [now apply H | constructor].
  - intros H. apply in_map_iff. exists EmptyString. now split.
  - intros t Ht H. apply in_map_iff. exists ("./" +++ t).
    split; [now apply normalize_dot_slash | exact H].
Qed.

(** ** Further properties: listing and locating files *)

(** X9 - [pickFirstExisting] returns the first of the given files that
    exists, and nothing when none of them does. *)
Theorem first_existing_file_is_picked :
  forall (cwd : string) (fs : FS) (files : list string),
    match pickFirstExisting cwd fs files with
    | Some file =>
        exists pre post,
          files = pre ++ file :: post
          /\ Forall (fun g => fileExists cwd fs g = false) pre
          /\ fileExists cwd fs file = true
    | None => Forall (fun g => fileExists cwd fs g = false) files
    end.
Proof.
  intros cwd fs files. induction files as [|g r IH]; simpl; [constructor|].
  destruct (fileExists cwd fs g) eqn:E.
  - exists [], r. now repeat split.
  - destruct (pickFirstExisting cwd fs r) as [file|].
    + destruct IH as [pre [post [-> [Hpre Hfile]]]].
      exists (g :: pre), post. repeat split; [|exact Hfile].
      now constructor.
    + now constructor.
Qed.

Lemma validEntry_Dir (es : list (string * Entry)) :
  validEntry (Dir es)
  <-> NoDup (map fst es)
      /\ Forall (fun ne => isName (fst ne) = true /\ validEntry (snd ne)) es.
Proof.
  simpl. apply and_iff_compat_l.
  induction es as [|ne r IH].
  - split; [constructor | trivial].
  - rewrite IH. split.
    + intros [H1 [H2 H3]]. now constructor.
    + intros H. inversion H as [|? ? [H1 H2] H3]; subst. tauto.
Qed.

Lemma lookupEntry_In (name : string) (e : Entry)
    (es : list (string * Entry)) :
  lookupEntry name es = Some e -> In (name, e) es.
Proof.
  induction es as [|[n e'] r IH]; simpl; [discriminate|].
  destruct (String.eqb_spec n name) as [->|Hne].
  - intros [= ->]. now left.
  - intros H. right. now apply IH.
Qed.

Lemma In_lookupEntry (name : string) (e : Entry)
    (es : list (string * Entry)) :
  NoDup (map fst es) -> In (name, e) es -> lookupEntry name es = Some e.
Proof.
  induction es as [|[n e'] r IH]; simpl; [tauto|].
  intros Hnd [H|H].
  - injection H as -> ->. now rewrite String.eqb_refl.
  - inversion Hnd as [|? ? Hn Hr]; subst.
    destruct (String.eqb_spec n name) as [->|Hne].
    + exfalso. apply Hn. apply in_map_iff. now exists (name, e).
    + now apply IH.
Qed.

Lemma statSegs_lookup (name : string) (rest : list string) (es : FS) :
  statSegs (name :: rest) es
  = match lookupEntry name es with
    | Some e => statEntry rest e
    | None => None
    end.
Proof. rewrite statSegs_cons. now destruct (lookupEntry name es) as [[c|sub]|]. Qed.

Lemma statSegs_app (a b : list string) :
  forall es,
    statSegs (a ++ b) es
    = match statSegs a es with
      | Some e => statEntry b e
      | None => None
      end.
Proof.
  induction a as [|n a' IH]; intros es; [reflexivity|].
  change ((n :: a') ++ b) with (n :: (a' ++ b)).
  rewrite !statSegs_cons.
  destruct (lookupEntry n es) as [[c|sub]|]; [|apply IH|reflexivity].
  destruct a' as [|m a'']; [reflexivity|]. reflexivity.
Qed.

Lemma statSegs_valid (segs : list string) :
  forall es e,
    validEntry (Dir es) -> statSegs segs es = Some e -> validEntry e.
Proof.
  induction segs as [|n rest IH]; intros es e Hv H.
  - injection H as <-. exact Hv.
  - rewrite statSegs_cons in H.
    destruct (lookupEntry n es) as [[c|sub]|] eqn:El; [| |discriminate].
    + destruct rest; [|discriminate]. now injection H as <-.
    + apply (IH sub); [|exact H].
      apply lookupEntry_In in El. apply validEntry_Dir in Hv.
      destruct Hv as [_ Hall]. rewrite Forall_forall in Hall.
      now apply (Hall (n, Dir sub)).
Qed.

Lemma pathOf_single (x : string) : pathOf [x] = x.
Proof. reflexivity. Qed.

Lemma join_name (names : list string) (n : string) :
  names <> [] -> Forall (fun s => isName s = true) names ->
  isName n = true ->
  Path.join [pathOf names; n] = pathOf (names ++ [n]).
Proof.
  intros Hn Fn Hname. rewrite <- (pathOf_single n) at 1.
  apply join_pathOf; [exact Hn | discriminate | exact Fn|].
  now constructor.
Qed.

(** The listing of an entry reached under the names [names]: the files
    at or below it, each under the names that lead to it. *)
Lemma filesBelow_spec (e : Entry) :
  forall names : list string,
    validEntry e -> names <> [] ->
    Forall (fun s => isName s = true) names ->
    forall p,
      In p (filesBelow (pathOf names) e)
      <-> exists rest c,
            Forall (fun s => isName s = true) rest
            /\ p = pathOf (names ++ rest)
            /\ statEntry rest e = Some (File c).
Proof.
  induction e as [c0|es IH] using Entry_induction; intros names Hv Hn Fn p.
  - simpl. split.
    + intros [<-|[]]. exists [], c0. rewrite app_nil_r. now repeat split.
    + intros [rest [c [_ [-> H]]]]. destruct rest; [|discriminate].
      rewrite app_nil_r. now left.
  - apply validEntry_Dir in Hv. destruct Hv as [Hnd Hall].
    cbn [filesBelow]. rewrite in_flat_map. split.
    + intros [[n sub] [Hin Hp]]. cbn [fst snd] in Hp.
      rewrite Forall_forall in IH, Hall.
      destruct (Hall _ Hin) as [Hname Hsub]. cbn [fst snd] in Hname, Hsub.
      rewrite join_name in Hp by assumption.
      apply (IH _ Hin) in Hp; cbn [snd]; try assumption.
      * destruct Hp as [rest [c [Fr [-> Hs]]]].
        exists (n :: rest), c. repeat split.
        -- now constructor.
        -- now rewrite <- app_assoc.
        -- cbn [statEntry]. rewrite statSegs_lookup.
           now rewrite (In_lookupEntry n sub es Hnd Hin).
      * now destruct names.
      * apply Forall_app. split; [exact Fn | now constructor].
    + intros [rest [c [Fr [-> Hs]]]]. cbn [statEntry] in Hs.
      destruct rest as [|n rest]; [discriminate|].
      rewrite statSegs_lookup in Hs.
      destruct (lookupEntry n es) as [sub|] eqn:El; [|discriminate].
      apply lookupEntry_In in El. exists (n, sub). split; [exact El|].
      cbn [fst snd]. rewrite Forall_forall in IH, Hall.
      destruct (Hall _ El) as [Hname Hsub]. cbn [fst snd] in Hname, Hsub.
      rewrite join_name by assumption.
      apply (IH _ El); cbn [snd]; try assumption.
      * now destruct names.
      * apply Forall_app. split; [exact Fn | now constructor].
      * exists rest, c. inversion Fr; subst.
        repeat split; [assumption | now rewrite <- app_assoc | exact Hs].
Qed.

Lemma app_not_nil {A : Type} (a b : list A) : a <> [] -> a ++ b <> [].
Proof. destruct a; [congruence | discriminate]. Qed.

Lemma stat_pathOf (cwd : string) (f : FS) (a b : list string) :
  a <> [] ->
  Forall (fun s => isName s = true) a ->
  Forall (fun s => isName s = true) b ->
  stat cwd f (pathOf (a ++ b))
  = match stat cwd f (pathOf a) with
    | Some e => statEntry b e
    | None => None
    end.
Proof.
  intros Ha Fa Fb. unfold stat.
  rewrite !resolveSegs_pathOf;
    [| exact Ha | exact Fa | now apply app_not_nil | now apply Forall_app].
  rewrite app_assoc. apply statSegs_app.
Qed.

(** X10 - [getFilesRecursively] lists exactly the regular files below
    the directory, each once under the path that leads to it from the
    directory as given: a path is listed if and only if it is the
    directory's path followed by names that lead to a file. *)
Theorem listing_is_exactly_the_files_below :
  forall (cwd : string) (f : FS) (dir : list string) (files : list string),
    validEntry (Dir f) ->
    dir <> [] -> Forall (fun s => isName s = true) dir ->
    getFilesRecursively cwd f (pathOf dir) = Ok files ->
    forall p,
      In p files
      <-> exists rest content,
            rest <> []
            /\ Forall (fun s => isName s = true) rest
            /\ p = pathOf (dir ++ rest)
            /\ readText cwd f p = Ok content.
Proof.
  intros cwd f dir files Hv Hd Fd Hg p.
  unfold getFilesRecursively in Hg.
  destruct (stat cwd f (pathOf dir)) as [[c0|es]|] eqn:Es; try discriminate.
  injection Hg as <-.
  assert (Hve : validEntry (Dir es)).
  { unfold stat in Es. now apply (statSegs_valid _ f (Dir es) Hv Es). }
  rewrite (filesBelow_spec (Dir es) dir Hve Hd Fd). split.
  - intros [rest [c [Fr [-> Hs]]]]. exists rest, c.
    repeat split; try assumption.
    + intros ->. discriminate.
    + apply readText_holds. unfold holds.
      now rewrite stat_pathOf, Es by assumption.
  - intros [rest [c [Hr [Fr [-> Hread]]]]]. exists rest, c.
    repeat split; [assumption|].
    apply readText_holds in Hread. unfold holds in Hread.
    now rewrite stat_pathOf, Es in Hread by assumption.
Qed.

Lemma nestedSite_valid : validEntry (Dir nestedSite).
Proof.
  simpl. repeat split; repeat constructor; simpl; intuition discriminate.
Qed.

Lemma listing_is_exactly_the_files_below_witness :
  In "src/css/main.scss"
     ["src/index.html"; "src/css/main.scss"; "src/img/logo.png"]
  <-> exists rest content,
        rest <> []
        /\ Forall (fun s => isName s = true) rest
        /\ "src/css/main.scss" = pathOf (["src"] ++ rest)
        /\ readText "/w" nestedSite "src/css/main.scss" = Ok content.
Proof.
  apply (listing_is_exactly_the_files_below "/w" nestedSite ["src"]).
  - exact nestedSite_valid.
  - discriminate.
  - repeat constructor.
  - vm_compute. reflexivity.
Defined.

Lemma relative_below (cwd : string) (a rest : list string) :
  a <> [] -> rest <> [] ->
  Forall (fun s => isName s = true) a ->
  Forall (fun s => isName s = true) rest ->
  Path.relative cwd (pathOf a) (pathOf (a ++ rest)) = pathOf rest.
Proof.
  intros Ha Hr Fa Fr. unfold Path.relative.
  assert (Far : Forall (fun s => isName s = true) (a ++ rest))
    by now apply Forall_app.
  destruct (String.eqb_spec (pathOf a) (pathOf (a ++ rest))) as [E|_].
  - apply pathOf_injective in E; try assumption; [|now apply app_not_nil].
    exfalso. apply Hr. apply (app_inv_head a). now rewrite app_nil_r.
  - rewrite !resolveSegs_pathOf; try assumption; [|now apply app_not_nil].
    rewrite app_assoc, common_app.
    rewrite Nat.sub_diag, skipn_app, skipn_all, Nat.sub_diag. reflexivity.
Qed.

(** X11 - [getFilesMatching] returns the files the glob matcher selects
    among the listed ones, spelled as [getFilesRecursively] listed them:
    joining the directory with the path relative to it gives the listed
    path back. The matcher returns some of the paths it is given. *)
Theorem matching_files_keep_their_listed_paths :
  forall (cwd : string) (T : Tools) (f : FS) (dir : list string)
         (glob : string) (files : list string),
    validEntry (Dir f) ->
    dir <> [] -> Forall (fun s => isName s = true) dir ->
    getFilesRecursively cwd f (pathOf dir) = Ok files ->
    incl (micromatch T files glob) files ->
    getFilesMatching cwd T f (pathOf dir) glob
    = Ok (micromatch T files glob).
Proof.
  intros cwd T f dir glob files Hv Hd Fd Hg Hincl.
  unfold getFilesMatching. rewrite Hg. f_equal.
  rewrite <- (map_id (micromatch T files glob)) at 2.
  apply map_ext_in. intros file Hfile. apply Hincl in Hfile.
  unfold getFilesRecursively in Hg.
  destruct (stat cwd f (pathOf dir)) as [[c0|es]|] eqn:Es; try discriminate.
  injection Hg as <-.
  assert (Hve : validEntry (Dir es)).
  { unfold stat in Es. now apply (statSegs_valid _ f (Dir es) Hv Es). }
  apply (filesBelow_spec (Dir es) dir Hve Hd Fd) in Hfile.
  destruct Hfile as [rest [c [Fr [-> Hs]]]].
  assert (Hr : rest <> []) by (intros ->; discriminate).
  rewrite relative_below by assumption.
  now apply join_pathOf.
Qed.

Lemma matching_files_witness :
  getFilesMatching "/w" (Toy.tools Toy.defaults) nestedSite "src" "**/*.html"
  = Ok ["src/index.html"].
Proof.
  apply (matching_files_keep_their_listed_paths
           "/w" (Toy.tools Toy.defaults) nestedSite ["src"] "**/*.html"
           ["src/index.html"; "src/css/main.scss"; "src/img/logo.png"]).
  - exact nestedSite_valid.
  - discriminate.
  - repeat constructor.
  - vm_compute. reflexivity.
  - intros x Hx. vm_compute in Hx. destruct Hx as [<-|[]]. now left.
Defined.

(** X12 - The destination tree mirrors the source tree: a path below the
    source directory goes to the same names below the destination
    directory, whatever the working directory. *)
Theorem destination_mirrors_the_source_tree :
  forall (cwd : string) (config : BSTConfig) (src dst rest : list string),
    source config = pathOf src -> destination config = pathOf dst ->
    src <> [] -> dst <> [] -> rest <> [] ->
    Forall (fun s => isName s = true) src ->
    Forall (fun s => isName s = true) dst ->
    Forall (fun s => isName s = true) rest ->
    destinationOf cwd config (pathOf (src ++ rest)) = pathOf (dst ++ rest).
Proof.
  intros cwd config src dst rest Es Ed Hs Hd Hr Fs Fd Fr.
  unfold destinationOf. rewrite Es, Ed.
  rewrite relative_below by assumption.
  now apply join_pathOf.
Qed.

Lemma destination_mirrors_witness :
  destinationOf "/w" defaultConfig "src/css/main.css" = "dist/css/main.css".
Proof.
  apply (destination_mirrors_the_source_tree
           "/w" defaultConfig ["src"] ["dist"] ["css"; "main.css"]);
    try reflexivity; try discriminate; repeat constructor.
Defined.

(** ** Further properties: configuration errors and what a run prints *)

(** X13 - The configuration is checked before anything else: without a
    bst.json, or with one whose [source] or [destination] is missing or
    empty, the build exits with status 1 having printed one line, read
    no document, called no transform and written nothing; a
    configuration that is returned has both fields non-empty. *)
Theorem configuration_errors_stop_the_build :
  forall (cwd : string) (T : Tools) (f : FS),
    (fileExists cwd f "bst.json" = false ->
     build cwd T (initialState f)
     = Stop Exit1 (mkState f [] None ["bst.json not found"] []))
    /\ (forall text imported,
          readText cwd f "bst.json" = Ok text ->
          parseConfig T text = Ok imported ->
          orDefault (p_source imported) EmptyString = EmptyString
          \/ orDefault (p_destination imported) EmptyString = EmptyString ->
          build cwd T (initialState f)
          = Stop Exit1
              (mkState f [] None
                 ["bst.json must have source and destination fields"] []))
    /\ (forall config,
          getConfig cwd T f = Ok config ->
          source config <> EmptyString /\ destination config <> EmptyString).
Proof.
  intros cwd T f. refine (conj _ (conj _ _)).
  - intros H. unfold build, bind, get, getConfig. simpl. now rewrite H.
  - intros text imported Hr Hp Hempty.
    assert (He : fileExists cwd f "bst.json" = true).
    { unfold fileExists. unfold readText in Hr.
      now destruct (stat cwd f "bst.json") as [[c|sub]|]. }
    assert (Hc : getConfig cwd T f
                 = Throw "bst.json must have source and destination fields").
    { unfold getConfig. rewrite He, Hr, Hp. simpl.
      destruct (p_source imported) as [src|]; [|reflexivity].
      destruct (p_destination imported) as [dst|]; [|reflexivity].
      simpl in Hempty. destruct Hempty as [-> | ->]; simpl;
        [reflexivity | now rewrite orb_true_r]. }
    unfold build, bind, get. simpl. now rewrite Hc.
  - intros config H. unfold getConfig in H.
    destruct (negb (fileExists cwd f "bst.json")); [discriminate|].
    destruct (readText cwd f "bst.json") as [text|e]; [|discriminate].
    destruct (parseConfig T text) as [imported|e]; [|discriminate].
    destruct (p_source imported) as [src|]; [|discriminate].
    destruct (p_destination imported) as [dst|]; [|discriminate].
    destruct (String.eqb_spec src EmptyString) as [Es|Hs]; [discriminate|].
    destruct (String.eqb_spec dst EmptyString) as [Ed|Hd]; [discriminate|].
    simpl in H. injection H as <-. now split.
Qed.

Section Printing.

Variable L : list string -> string -> BuildState -> Prop.
Variable e : list string.

Lemma tidy_ret {A : Type} (a : A) : tidy L e (ret a).
Proof. intros s Hs. exact Hs. Qed.

Lemma tidy_bind {A B : Type} (m : M A) (k : A -> M B) :
  tidy L e m -> (forall a, tidy L e (k a)) -> tidy L e (bind m k).
Proof.
  intros Hm Hk s Hs. unfold bind. specialize (Hm s Hs).
  destruct (m s) as [a s'|h s']; [now apply Hk | exact Hm].
Qed.

Lemma tidy_get : tidy L e get.
Proof. intros s Hs. exact Hs. Qed.

Lemma tidy_setFS (f : FS) : tidy L e (setFS f).
Proof. intros s Hs. exact Hs. Qed.

Lemma tidy_setBuilt (k v : string) : tidy L e (setBuilt k v).
Proof. intros s Hs. exact Hs. Qed.

Lemma tidy_setCurrent (p : string) : tidy L e (setCurrent p).
Proof. intros s Hs. exact Hs. Qed.

Lemma tidy_record (c : Call) : tidy L e (record c).
Proof. intros s Hs. exact Hs. Qed.

Lemma tidy_uncaught {A : Type} : tidy L e (@uncaught A).
Proof. intros s Hs. exact Hs. Qed.

Lemma tidy_orExit {A : Type} (r : Result A) : tidy L e (orExit r).
Proof.
  intros s Hs. destruct r as [a|msg]; simpl; [exact Hs|].
  exists [], msg. split; [|now left].
  unfold contextLine. simpl. now rewrite Hs.
Qed.

Lemma tidy_forM {A : Type} (f : A -> M unit) (l : list A) :
  (forall x, tidy L e (f x)) -> tidy L e (forM f l).
Proof.
  intros H. induction l as [|x r IH]; simpl; [apply tidy_ret|].
  apply tidy_bind; [apply H | intros u; exact IH].
Qed.

Lemma tidy_foldM {A B : Type} (f : B -> A -> M B) (l : list A) :
  (forall b x, tidy L e (f b x)) -> forall b, tidy L e (foldM f l b).
Proof.
  intros H. induction l as [|x r IH]; intros b; simpl; [apply tidy_ret|].
  apply tidy_bind; [apply H | exact IH].
Qed.

End Printing.

Ltac tidy_step :=
  first
    [ apply tidy_ret | apply tidy_get | apply tidy_setFS
    | apply tidy_setBuilt | apply tidy_setCurrent | apply tidy_record
    | apply tidy_uncaught | apply tidy_orExit
    | apply tidy_forM; intros ?
    | apply tidy_foldM; intros ? ?
    | apply tidy_bind; [|intros ?]
    | match goal with
      | |- tidy _ _ (if ?b then _ else _) => destruct b
      | |- tidy _ _ (match ?x with _ => _ end) => destruct x
      end ].


Lemma tidy_writeOutputs (L : list string -> string -> BuildState -> Prop)
    (e : list string) (cwd : string) (config : BSTConfig) :
  tidy L e (writeOutputs cwd config).
Proof.
  unfold writeOutputs, cleanDestination, writeBuilt. repeat tidy_step.
Qed.

Lemma tidy_copyRest (L : list string -> string -> BuildState -> Prop)
    (e : list string) (cwd : string) (config : BSTConfig) :
  tidy L e (copyRest cwd config).
Proof. unfold copyRest, copyThrough. repeat tidy_step. Qed.






(** A run whose bundler fails prints the two error logs, not the
    warning, ahead of the two lines of [errorHandler]; the call is
    recorded and nothing is stored. *)
Example failed_bundle_prints_its_error_logs :
  build "/w" failingBundlerTools (initialState Toy.scriptSite)
  = Stop Exit1
      (mkState Toy.scriptSite [] (Some "src/app.ts")
         ["unexpected token"; "could not resolve src/app.ts";
          "Error while compiling src/app.ts";
          "Failed to transpile: src/app.ts"]
         [TranspileJS "src/app.ts" "src" true]).
Proof. vm_compute. reflexivity. Qed.

(** ** The phases after the document loop, for what ignores the files *)

Section Frame.

Variable cwd : string.
Variable config : BSTConfig.
Variables I E : BuildState -> Prop.
Hypothesis I_files : ignoresFS I.
Hypothesis I_exit : forall s message, I s -> E (exited message s).

Lemma orExit_frame {A : Type} (r : Result A) :
  hoare I (orExit r) (fun _ => I) E.
Proof. apply hoare_orExit; [auto|]. intros msg s _ Hs. now apply I_exit. Qed.

Lemma setFS_frame (f : FS) : hoare I (setFS f) (fun _ => I) E.
Proof. apply hoare_setFS. intros s Hs. now apply I_files. Qed.

Lemma writeBuilt_frame (entry : string * string) :
  hoare I (writeBuilt cwd config entry) (fun _ => I) E.
Proof.
  unfold writeBuilt.
  eapply hoare_bind with (Q1 := fun _ => I); [now apply hoare_get|].
  intros s0. eapply hoare_bind; [apply orExit_frame|].
  intros f. eapply hoare_bind; [apply orExit_frame|].
  intros f'. apply setFS_frame.
Qed.

Lemma copyThrough_frame (file : string) :
  hoare I (copyThrough cwd config file) (fun _ => I) E.
Proof.
  unfold copyThrough.
  destruct (negb (isBuildSource file)); [|now apply hoare_ret].
  eapply hoare_bind with (Q1 := fun _ => I); [now apply hoare_get|].
  intros s0. eapply hoare_bind; [apply orExit_frame|].
  intros f. eapply hoare_bind; [apply orExit_frame|].
  intros f'. apply setFS_frame.
Qed.

Lemma cleanDestination_frame :
  hoare I (cleanDestination cwd config) (fun _ => I) E.
Proof.
  unfold cleanDestination.
  destruct (clean config); [|now apply hoare_ret].
  eapply hoare_bind with (Q1 := fun _ => I); [now apply hoare_get|].
  intros s0. destruct (pathExists cwd (fs s0) (destination config)).
  - eapply hoare_bind; [apply orExit_frame|].
    intros files. apply hoare_forM. intros file _.
    eapply hoare_bind with (Q1 := fun _ => I); [now apply hoare_get|].
    intros s1. eapply hoare_bind; [apply orExit_frame|].
    intros f. apply setFS_frame.
  - eapply hoare_bind; [apply orExit_frame|].
    intros f. apply setFS_frame.
Qed.

Lemma writeOutputs_frame :
  hoare I (writeOutputs cwd config) (fun _ => I) E.
Proof.
  unfold writeOutputs.
  eapply hoare_bind; [apply cleanDestination_frame|].
  intros u. eapply hoare_bind with (Q1 := fun _ => I); [now apply hoare_get|].
  intros s0. apply hoare_forM. intros entry _. apply writeBuilt_frame.
Qed.

Lemma copyRest_frame :
  (forall s, I s -> E s) ->
  hoare I (copyRest cwd config) (fun _ => I) E.
Proof.
  intros I_stop. unfold copyRest.
  eapply hoare_bind with (Q1 := fun _ => I); [now apply hoare_get|].
  intros s0.
  destruct (getFilesRecursively cwd (fs s0) (source config)) as [files|msg].
  - apply hoare_forM. intros file _. apply copyThrough_frame.
  - now apply hoare_uncaught.
Qed.

End Frame.

Lemma compileDocument_current (cwd : string) (T : Tools)
    (config : BSTConfig) (htmlPath : string) (s s' : BuildState) :
  compileDocument cwd T config htmlPath s = Next tt s' ->
  currentCompile s' = Some htmlPath.
Proof.
  unfold compileDocument, bind. intros H.
  destruct (compileAssets cwd T config htmlPath s) as [html s1|h s1];
    [|discriminate].
  destruct (emitDocument_next T config htmlPath html s1) as [content E].
  rewrite E in H. now injection H as <-.
Qed.

Lemma compileAll_current (cwd : string) (T : Tools) (config : BSTConfig)
    (htmlFiles : list string) :
  htmlFiles <> [] ->
  forall s s',
    compileAll cwd T config htmlFiles s = Next tt s' ->
    currentCompile s' = Some (last htmlFiles EmptyString).
Proof.
  unfold compileAll.
  induction htmlFiles as [|x r IH]; intros Hne s s' H; [congruence|].
  simpl in H. unfold bind in H.
  destruct (compileDocument cwd T config x s) as [[] s1|h s1] eqn:Ex;
    [|discriminate].
  destruct r as [|y r'].
  - simpl in H. injection H as <-.
    now apply compileDocument_current in Ex.
  - change (last (x :: y :: r') EmptyString)
      with (last (y :: r') EmptyString).
    apply (IH ltac:(discriminate) s1 s' H).
Qed.

(** X15 - [currentCompile] is not reset after the document loop: when
    cleaning, writing or copying fails, [errorHandler] reports the
    failure as an error while compiling the last document. *)
Theorem later_failures_are_reported_under_the_last_document :
  forall (cwd : string) (T : Tools) (config : BSTConfig)
         (htmlFiles : list string) (s s1 s2 : BuildState),
    htmlFiles <> [] ->
    compileAll cwd T config htmlFiles s = Next tt s1 ->
    (writeOutputs cwd config ;;; copyRest cwd config) s1 = Stop Exit1 s2 ->
    exists message,
      stderr s2
      = stderr s1
        ++ ["Error while compiling " +++ last htmlFiles EmptyString; message].
Proof.
  intros cwd T config htmlFiles s s1 s2 Hne Hall Hstop.
  pose proof (compileAll_current cwd T config htmlFiles Hne s s1 Hall) as Hc.
  set (p := last htmlFiles EmptyString) in *.
  assert (Hcur : hoare (fun s => currentCompile s = Some p)
                   (writeOutputs cwd config ;;; copyRest cwd config)
                   (fun _ s => currentCompile s = Some p)
                   (fun s => currentCompile s = Some p)).
  { eapply hoare_bind.
    - apply writeOutputs_frame; [intros s0 f H; exact H|].
      intros s0 msg H. exact H.
    - intros u. apply copyRest_frame; auto.
      intros s0 f H. exact H. }
  specialize (Hcur s1 Hc).
  assert (Htidy : tidy noLogs (stderr s1)
                    (writeOutputs cwd config ;;; copyRest cwd config)).
  { apply tidy_bind; [apply tidy_writeOutputs|].
    intros u. apply tidy_copyRest. }
  specialize (Htidy s1 eq_refl).
  rewrite Hstop in Hcur, Htidy.
  destruct Htidy as [lines [thrown [H [->|[]]]]].
  exists thrown. rewrite H. unfold contextLine. now rewrite Hcur.
Qed.

Lemma later_failures_witness :
  exists message,
    stderr blockedSiteStopped
    = stderr blockedSiteCompiled
      ++ ["Error while compiling "
            +++ last ["src/index.html"] EmptyString; message].
Proof.
  apply (later_failures_are_reported_under_the_last_document
           "/w" (Toy.tools Toy.defaults) defaultConfig ["src/index.html"]
           (initialState blockedSite) blockedSiteCompiled blockedSiteStopped).
  - discriminate.
  - vm_compute. reflexivity.
  - vm_compute. reflexivity.
Defined.

(** ** Further properties: what a run does to the files *)

Lemma survive_refl (f : FS) : survive f f.
Proof. intros segs c H. now exists c. Qed.

Lemma survive_trans (f1 f2 f3 : FS) :
  survive f1 f2 -> survive f2 f3 -> survive f1 f3.
Proof.
  intros H1 H2 segs c H. destruct (H1 segs c H) as [c' H'].
  exact (H2 segs c' H').
Qed.

Lemma survive_mkdirSegs (q : list string) (f f' : FS) :
  mkdirSegs q f = Some f' -> survive f f'.
Proof.
  intros H segs c Hs. exists c. eapply stat_mkdir; eassumption.
Qed.

Lemma survive_writeSegs (q : list string) (content : string) (f f' : FS) :
  writeSegs q content f = Some f' -> survive f f'.
Proof.
  intros H segs c Hs.
  destruct (list_eq_dec string_dec segs q) as [->|Hne].
  - exists content. eapply stat_write_same; eassumption.
  - exists c. eapply stat_write_other; eassumption.
Qed.

Section Survival.

Variable cwd : string.
Variable config : BSTConfig.
Variable f0 : FS.

Lemma survive_mkdir (f f' : FS) (dir : string) :
  mkdir cwd f dir = Ok f' -> survive f0 f -> survive f0 f'.
Proof.
  unfold mkdir, ioResult.
  destruct (mkdirSegs (Path.resolveSegs cwd dir) f) as [g|] eqn:E;
    [|discriminate].
  intros [= <-] H. eapply survive_trans; [exact H|].
  eapply survive_mkdirSegs; eassumption.
Qed.

Lemma survive_writeFile (f f' : FS) (path content : string) :
  writeFile cwd f path content = Ok f' -> survive f0 f -> survive f0 f'.
Proof.
  unfold writeFile, ioResult.
  destruct (writeSegs (Path.resolveSegs cwd path) content f) as [g|] eqn:E;
    [|discriminate].
  intros [= <-] H. eapply survive_trans; [exact H|].
  eapply survive_writeSegs; eassumption.
Qed.

Lemma writeBuilt_survive (entry : string * string) :
  hoare (fun s => survive f0 (fs s)) (writeBuilt cwd config entry)
        (fun _ s => survive f0 (fs s)) (fun s => survive f0 (fs s)).
Proof.
  intros s Hs. unfold writeBuilt, bind, get, orExit, setFS, ret.
  destruct (mkdir cwd (fs s) _) as [f|e] eqn:Em; simpl; [|exact Hs].
  pose proof (survive_mkdir _ _ _ Em Hs) as H1.
  destruct (writeFile cwd f _ (snd entry)) as [f'|e] eqn:Ew; simpl;
    [|exact Hs].
  exact (survive_writeFile _ _ _ _ Ew H1).
Qed.

Lemma copyThrough_survive (file : string) :
  hoare (fun s => survive f0 (fs s)) (copyThrough cwd config file)
        (fun _ s => survive f0 (fs s)) (fun s => survive f0 (fs s)).
Proof.
  intros s Hs. unfold copyThrough.
  destruct (negb (isBuildSource file)); [|exact Hs].
  unfold bind, get, orExit, setFS, ret.
  destruct (mkdir cwd (fs s) _) as [f|e] eqn:Em; simpl; [|exact Hs].
  pose proof (survive_mkdir _ _ _ Em Hs) as H1.
  destruct (copyFile cwd f file _) as [f'|e] eqn:Ew; simpl; [|exact Hs].
  unfold copyFile in Ew. destruct (readText cwd f file) as [content|e];
    [|discriminate].
  exact (survive_writeFile _ _ _ _ Ew H1).
Qed.

Lemma writeOutputs_survive :
  clean config = false ->
  hoare (fun s => survive f0 (fs s)) (writeOutputs cwd config)
        (fun _ s => survive f0 (fs s)) (fun s => survive f0 (fs s)).
Proof.
  intros Hc. unfold writeOutputs, cleanDestination. rewrite Hc.
  eapply hoare_bind with (Q1 := fun _ s => survive f0 (fs s)).
  { now apply hoare_ret. }
  intros u. eapply hoare_bind with (Q1 := fun _ s => survive f0 (fs s)).
  { now apply hoare_get. }
  intros s0. apply hoare_forM. intros entry _. apply writeBuilt_survive.
Qed.

Lemma copyRest_survive :
  hoare (fun s => survive f0 (fs s)) (copyRest cwd config)
        (fun _ s => survive f0 (fs s)) (fun s => survive f0 (fs s)).
Proof.
  unfold copyRest.
  eapply hoare_bind with (Q1 := fun _ s => survive f0 (fs s)).
  { now apply hoare_get. }
  intros s0.
  destruct (getFilesRecursively cwd (fs s0) (source config)) as [files|e].
  - apply hoare_forM. intros file _. apply copyThrough_survive.
  - now apply hoare_uncaught.
Qed.

End Survival.

(** X16 - With [clean] off a build removes no file: whatever was a file
    before the build is a file when the build ends or stops, in the
    source tree, in the destination tree and anywhere else; only
    contents can change. *)
Theorem build_without_clean_removes_no_file :
  forall (cwd : string) (T : Tools) (f : FS) (config : BSTConfig)
         (p : string),
    getConfig cwd T f = Ok config ->
    clean config = false ->
    fileExists cwd f p = true ->
    fileExists cwd (fs (finalState (build cwd T (initialState f)))) p = true.
Proof.
  intros cwd T f config p Hc Hclean Hp.
  assert (H : survive f (fs (finalState (build cwd T (initialState f))))).
  { unfold build, bind, get. cbn [fs initialState].
    rewrite Hc. simpl.
    destruct (getFilesMatching cwd T f (source config) "**/*.html")
      as [htmlFiles|e]; simpl; [|apply survive_refl].
    pose proof (compileAll_closed cwd T config _ _ htmlFiles
                  (closed_fs config f) (initialState f) eq_refl) as H1.
    destruct (compileAll cwd T config htmlFiles (initialState f))
      as [u s1|h s1]; simpl; [|rewrite H1; apply survive_refl].
    assert (H1' : survive f (fs s1)) by (rewrite H1; apply survive_refl).
    pose proof (writeOutputs_survive cwd config f Hclean s1 H1') as H2.
    destruct (writeOutputs cwd config s1) as [u2 s2|h s2]; [|exact H2].
    pose proof (copyRest_survive cwd config f s2 H2) as H3.
    destruct (copyRest cwd config s2); exact H3. }
  unfold fileExists, stat in *.
  destruct (statSegs (Path.resolveSegs cwd p) f) as [[c|sub]|] eqn:E;
    try discriminate.
  destruct (H _ _ E) as [c' ->]. reflexivity.
Qed.

Lemma build_without_clean_witness :
  fileExists "/w"
    (fs (finalState (build "/w" (Toy.tools Toy.defaults)
                       (initialState Toy.cssSite))))
    "src/style.css" = true.
Proof.
  apply (build_without_clean_removes_no_file
           "/w" (Toy.tools Toy.defaults) Toy.cssSite defaultConfig
           "src/style.css"); vm_compute; reflexivity.
Defined.

Section Delivery.

Variable cwd : string.
Variable config : BSTConfig.

(** X17 - The write loop puts every entry of the output map at its
    destination: when cleaning and writing complete, the destination of
    an entry holds the entry's content, provided no other entry is
    written to the same place. *)
Theorem outputs_are_written_to_their_destinations :
  forall (s s' : BuildState) (key content : string),
    writeOutputs cwd config s = Next tt s' ->
    In (key, content) (builtFiles s) ->
    (forall entry, In entry (builtFiles s) -> entry <> (key, content) ->
       Path.resolveSegs cwd (destinationOf cwd config key)
       <> Path.resolveSegs cwd (destinationOf cwd config (fst entry))) ->
    readText cwd (fs s') (destinationOf cwd config key) = Ok content.
Proof.
  intros s s' key content Hw Hin Hdist.
  unfold writeOutputs, bind in Hw.
  pose proof (cleanDestination_outputs cwd config
                (fun s0 => builtFiles s0 = builtFiles s)
                ltac:(intros a b [Hb _] H; now rewrite Hb) s eq_refl) as Hb.
  destruct (cleanDestination cwd config s) as [u s1|h s1]; [|discriminate].
  unfold get in Hw. rewrite Hb in Hw. clear Hb.
  set (dest := destinationOf cwd config key) in *.
  pose (J := fun (pre : list (string * string)) (s0 : BuildState) =>
               In (key, content) pre -> holds cwd (fs s0) dest content).
  assert (Hloop :
    hoare (J []) (forM (writeBuilt cwd config) (builtFiles s))
          (fun _ => J ([] ++ builtFiles s)) (fun _ => True)).
  { apply hoare_forM_prefix. intros pre entry Hentry s0 Hpre.
    destruct (list_eq_dec string_dec [fst entry; snd entry] [key; content])
      as [E|Hne].
    - injection E as E1 E2.
      pose proof (writeBuilt_writes cwd config entry s0 I) as H.
      destruct (writeBuilt cwd config entry s0) as [u0 s2|]; [|exact I].
      intros _. rewrite E1, E2 in H. exact H.
    - assert (Hne' : entry <> (key, content)).
      { intros ->. now apply Hne. }
      destruct (in_dec (list_eq_dec string_dec)
                  [key; content] (map (fun e => [fst e; snd e]) pre))
        as [Hyes|Hno].
      + assert (Hk : In (key, content) pre).
        { apply in_map_iff in Hyes. destruct Hyes as [[k v] [E Hkv]].
          simpl in E. now injection E as -> ->. }
        pose proof (writeBuilt_preserves cwd config entry dest content
                      (Hdist entry Hentry Hne') s0 (Hpre Hk)) as H.
        destruct (writeBuilt cwd config entry s0) as [u0 s2|]; [|exact I].
        intros _. exact H.
      + destruct (writeBuilt cwd config entry s0) as [u0 s2|]; [|exact I].
        intros Hk. apply in_app_or in Hk.
        destruct Hk as [Hk|[Hk|[]]]; [|now apply Hne' in Hk].
        exfalso. apply Hno. apply in_map_iff. now exists (key, content). }
  apply readText_holds.
  exact (hoare_next _ _ _ _ s1 s' tt Hloop ltac:(intros []) Hw Hin).
Qed.

(** X18 - The last loop copies a file of the source tree as it is when
    its extension is none of html, sass, scss, ts and tsx: when the loop
    completes, the file's destination holds the file's content, provided
    no copy lands on the file itself and no other file is copied to the
    same place. A file with one of these extensions is skipped. *)
Theorem other_files_are_copied_as_they_are :
  forall (s s' : BuildState) (files : list string) (file content : string),
    getFilesRecursively cwd (fs s) (source config) = Ok files ->
    copyRest cwd config s = Next tt s' ->
    In file files ->
    isBuildSource file = false ->
    readText cwd (fs s) file = Ok content ->
    (forall g, In g files ->
       Path.resolveSegs cwd file
       <> Path.resolveSegs cwd (destinationOf cwd config g)) ->
    (forall g, In g files -> g <> file ->
       Path.resolveSegs cwd (destinationOf cwd config file)
       <> Path.resolveSegs cwd (destinationOf cwd config g)) ->
    readText cwd (fs s') (destinationOf cwd config file) = Ok content
    /\ forall skipped s0,
         isBuildSource skipped = true ->
         copyThrough cwd config skipped s0 = Next tt s0.
Proof.
  intros s s' files file content Hl Hc Hin Hb Hr Hsrc Hdist. split.
  - unfold copyRest, bind, get in Hc. rewrite Hl in Hc.
    apply readText_holds. apply readText_holds in Hr.
    exact (hoare_next _ _ _ _ s s' tt
             (copyLoop_copies cwd config files file content Hb Hsrc Hdist)
             Hr Hc Hin).
  - intros skipped s0 H. unfold copyThrough. now rewrite H.
Qed.

End Delivery.

Ltac apart := vm_compute; let H := fresh in intros H; discriminate H.

Lemma outputs_are_written_witness :
  readText "/w" (fs cssSiteWritten)
    (destinationOf "/w" defaultConfig "src/style.css")
  = Ok "cssmin(RAW)".
Proof.
  apply (outputs_are_written_to_their_destinations
           "/w" defaultConfig cssSiteCompiled cssSiteWritten
           "src/style.css" "cssmin(RAW)").
  - vm_compute. reflexivity.
  - vm_compute. now left.
  - intros entry Hin Hne. vm_compute in Hin.
    destruct Hin as [<-|[<-|[]]]; [now contradiction Hne | apart].
Defined.

Lemma other_files_are_copied_witness :
  readText "/w" (fs cssSiteCopied)
    (destinationOf "/w" defaultConfig "src/logo.png")
  = Ok "PNG".
Proof.
  refine (proj1 (other_files_are_copied_as_they_are
                   "/w" defaultConfig cssSiteWritten cssSiteCopied
                   ["src/index.html"; "src/style.css"; "src/logo.png"]
                   "src/logo.png" "PNG" _ _ _ _ _ _ _)).
  - vm_compute. reflexivity.
  - vm_compute. reflexivity.
  - now right; right; left.
  - vm_compute. reflexivity.
  - vm_compute. reflexivity.
  - intros g Hg. destruct Hg as [<-|[<-|[<-|[]]]]; apart.
  - intros g Hg Hne.
    destruct Hg as [<-|[<-|[<-|[]]]]; [apart | apart | now contradiction Hne].
Defined.

(** ** Further properties: output paths *)

Lemma rev_string_app (a b : string) :
  JS.rev_string (a +++ b) = JS.rev_string b +++ JS.rev_string a.
Proof.
  unfold JS.rev_string.
  now rewrite list_ascii_app, rev_app_distr, string_of_list_app.
Qed.

Lemma rev_string_involutive (s : string) : JS.rev_string (JS.rev_string s) = s.
Proof.
  unfold JS.rev_string.
  now rewrite list_ascii_of_string_of_list_ascii, rev_involutive,
              string_of_list_ascii_of_string.
Qed.

Lemma startsWith_app (p r : string) : JS.startsWith p (p +++ r) = true.
Proof.
  induction p as [|c p' IH]; simpl; [reflexivity|].
  now rewrite Ascii.eqb_refl, IH.
Qed.

Lemma startsWith_inv (p s : string) :
  JS.startsWith p s = true -> exists r, s = p +++ r.
Proof.
  revert s. induction p as [|c p' IH]; intros s H.
  - now exists s.
  - destruct s as [|d s']; [discriminate|]. simpl in H.
    apply andb_prop in H. destruct H as [Hc Hs].
    apply Ascii.eqb_eq in Hc. subst d.
    destruct (IH s' Hs) as [r ->]. now exists r.
Qed.

Lemma endsWith_app (pre suffix : string) :
  JS.endsWith suffix (pre +++ suffix) = true.
Proof. unfold JS.endsWith. rewrite rev_string_app. apply startsWith_app. Qed.

Lemma endsWith_inv (suffix s : string) :
  JS.endsWith suffix s = true -> exists pre, s = pre +++ suffix.
Proof.
  unfold JS.endsWith. intros H. apply startsWith_inv in H.
  destruct H as [r E]. exists (JS.rev_string r).
  rewrite <- (rev_string_involutive s), E, rev_string_app.
  now rewrite rev_string_involutive.
Qed.

Lemma dropEnd_app (pre suffix : string) :
  JS.dropEnd (String.length suffix) (pre +++ suffix) = pre.
Proof.
  unfold JS.dropEnd. rewrite length_append.
  replace (String.length pre + String.length suffix - String.length suffix)
    with (String.length pre) by lia.
  apply substring_prefix.
Qed.

Lemma cssBuiltPath_ext (stem ext : string) :
  In ext [".sass"; ".scss"; ".css"] ->
  cssBuiltPath (stem +++ ext) = stem +++ ".css".
Proof.
  intros [<-|[<-|[<-|[]]]].
  - assert (H : JS.dropEnd 5 (stem +++ ".sass") = stem)
      by apply (dropEnd_app stem ".sass").
    unfold cssBuiltPath. now rewrite endsWith_app, H.
  - assert (H : JS.dropEnd 5 (stem +++ ".scss") = stem)
      by apply (dropEnd_app stem ".scss").
    unfold cssBuiltPath.
    now rewrite (endsWith_app stem ".scss"), orb_true_r, H.
  - apply cssBuiltPath_css, endsWith_app.
Qed.

Lemma endsWith_differs (suffix ext stem : string) :
  JS.startsWith (JS.rev_string suffix) (JS.rev_string ext) = false ->
  String.length suffix <= String.length ext ->
  JS.endsWith suffix (stem +++ ext) = false.
Proof.
  unfold JS.endsWith. rewrite rev_string_app.
  assert (Hlen : forall x, String.length (JS.rev_string x) = String.length x).
  { intros x. unfold JS.rev_string.
    rewrite <- (string_of_list_ascii_of_string x) at 2.
    generalize (list_ascii_of_string x). intros l.
    assert (Hl : forall l0, String.length (string_of_list_ascii l0)
                            = List.length l0)
      by (induction l0; simpl; congruence).
    now rewrite !Hl, length_rev. }
  rewrite <- (Hlen suffix), <- (Hlen ext).
  generalize (JS.rev_string suffix) (JS.rev_string ext) (JS.rev_string stem).
  intros p. induction p as [|c p' IH]; intros e r H Hl; [discriminate|].
  destruct e as [|d e']; [simpl in Hl; lia|].
  simpl in *. destruct (Ascii.eqb c d); [|reflexivity]. simpl in *.
  apply IH; [exact H | lia].
Qed.

Lemma jsBuiltPath_ts (stem : string) :
  jsBuiltPath (stem +++ ".ts") = stem +++ ".js".
Proof.
  assert (H : JS.dropEnd 3 (stem +++ ".ts") = stem)
    by apply (dropEnd_app stem ".ts").
  unfold jsBuiltPath. now rewrite endsWith_app, H.
Qed.

Lemma jsBuiltPath_tsx (stem : string) :
  jsBuiltPath (stem +++ ".tsx") = stem +++ ".js".
Proof.
  assert (H : JS.dropEnd 4 (stem +++ ".tsx") = stem)
    by apply (dropEnd_app stem ".tsx").
  unfold jsBuiltPath.
  rewrite (endsWith_differs ".ts" ".tsx" stem eq_refl) by (simpl; lia).
  now rewrite endsWith_app, H.
Qed.

Lemma jsBuiltPath_js (file : string) :
  JS.endsWith ".js" file = true -> jsBuiltPath file = file.
Proof.
  intros H. destruct (endsWith_inv ".js" file H) as [pre ->].
  unfold jsBuiltPath.
  rewrite (endsWith_differs ".ts" ".js" pre eq_refl) by (simpl; lia).
  destruct (JS.endsWith ".tsx" (pre +++ ".js")) eqn:E; [|reflexivity].
  apply endsWith_inv in E. destruct E as [pre' E].
  apply (f_equal JS.rev_string) in E. rewrite !rev_string_app in E.
  discriminate E.
Qed.

(** X19 - An output path is the reference with its final extension
    replaced: [.sass], [.scss] and [.css] give [.css], [.ts] and [.tsx]
    give [.js], so references that differ only in these extensions
    share one output path; an output path is its own output path. *)
Theorem output_paths_replace_the_final_extension :
  forall p stem : string,
    cssBuiltPath (stem +++ ".scss") = stem +++ ".css"
    /\ cssBuiltPath (stem +++ ".sass") = stem +++ ".css"
    /\ cssBuiltPath (stem +++ ".css") = stem +++ ".css"
    /\ jsBuiltPath (stem +++ ".ts") = stem +++ ".js"
    /\ jsBuiltPath (stem +++ ".tsx") = stem +++ ".js"
    /\ cssBuiltPath (cssBuiltPath p) = cssBuiltPath p
    /\ jsBuiltPath (jsBuiltPath p) = jsBuiltPath p.
Proof.
  intros p stem.
  refine (conj _ (conj _ (conj _ (conj _ (conj _ (conj _ _)))))).
  - apply cssBuiltPath_ext. now right; left.
  - apply cssBuiltPath_ext. now left.
  - apply cssBuiltPath_ext. now right; right; left.
  - apply jsBuiltPath_ts.
  - apply jsBuiltPath_tsx.
  - destruct (JS.endsWith ".sass" p || JS.endsWith ".scss" p) eqn:E1.
    + assert (H : cssBuiltPath p = JS.dropEnd 5 p +++ ".css")
        by (unfold cssBuiltPath; now rewrite E1).
      rewrite H. apply cssBuiltPath_css, endsWith_app.
    + destruct (JS.endsWith ".css" p) eqn:E2.
      * now rewrite !(cssBuiltPath_css p E2).
      * assert (H : cssBuiltPath p = p)
          by (unfold cssBuiltPath; now rewrite E1, E2).
        now rewrite !H.
  - destruct (JS.endsWith ".ts" p) eqn:E1.
    + assert (H : jsBuiltPath p = JS.dropEnd 3 p +++ ".js")
        by (unfold jsBuiltPath; now rewrite E1).
      rewrite H. apply jsBuiltPath_js, endsWith_app.
    + destruct (JS.endsWith ".tsx" p) eqn:E2.
      * assert (H : jsBuiltPath p = JS.dropEnd 4 p +++ ".js")
          by (unfold jsBuiltPath; now rewrite E1, E2).
        rewrite H. apply jsBuiltPath_js, endsWith_app.
      * assert (H : jsBuiltPath p = p)
          by (unfold jsBuiltPath; now rewrite E1, E2).
        now rewrite !H.
Qed.

(** ** Further properties: a reference, from the document to the map *)

Lemma noSlash_app (a b : string) :
  noSlash (a +++ b) = noSlash a && noSlash b.
Proof.
  induction a as [|c r IH]; simpl; [reflexivity|].
  now rewrite IH, andb_assoc.
Qed.

Lemma isName_ext (stem ext ext' : string) :
  isName (stem +++ ext) = true ->
  2 < String.length ext' -> noSlash ext' = true ->
  isName (stem +++ ext') = true.
Proof.
  intros H Hl Hs. apply isName_inv in H. destruct H as [_ [_ [_ Hn]]].
  rewrite noSlash_app in Hn. apply andb_prop in Hn. destruct Hn as [Hn _].
  unfold isName. rewrite noSlash_app, Hn, Hs.
  assert (Hlen : 2 < String.length (stem +++ ext'))
    by (rewrite length_append; lia).
  destruct (String.eqb_spec (stem +++ ext') EmptyString) as [E|_];
    [rewrite E in Hlen; simpl in Hlen; lia|].
  destruct (String.eqb_spec (stem +++ ext') ".") as [E|_];
    [rewrite E in Hlen; simpl in Hlen; lia|].
  destruct (String.eqb_spec (stem +++ ext') "..") as [E|_];
    [rewrite E in Hlen; simpl in Hlen; lia|].
  reflexivity.
Qed.

Lemma pathOf_snoc (l : list string) (stem : string) :
  exists pre, forall ext, pathOf (l ++ [stem +++ ext]) = pre +++ ext.
Proof.
  destruct l as [|x r].
  - exists stem. reflexivity.
  - exists (pathOf (x :: r) +++ String Path.slash stem). intros ext.
    rewrite pathOf_app by discriminate.
    rewrite pathOf_single, append_assoc. reflexivity.
Qed.

Lemma compileCSS_result (cwd : string) (T : Tools) (config : BSTConfig)
    (basePath : string) (html html' : Document) (cssPath : string)
    (s s' : BuildState) :
  compileCSS cwd T config basePath html cssPath s = Next html' s' ->
  html' = replaceCSSImports html (importDemapper cwd basePath cssPath)
            (importDemapper cwd basePath (cssBuiltPath cssPath))
  /\ inObj (cssBuiltPath cssPath) (builtFiles s') = true.
Proof.
  intros H.
  destruct (inObj (cssBuiltPath cssPath) (builtFiles s)) eqn:Ei.
  - rewrite (compileCSS_cached cwd T config basePath html cssPath s Ei) in H.
    injection H as <- <-. now split.
  - destruct (transpileCSS cwd T (fs s) cssPath (css_minify config))
      as [content|message] eqn:Et.
    + rewrite (compileCSS_fresh cwd T config basePath html cssPath content s
                 Ei Et) in H.
      injection H as <- <-. split; [reflexivity|]. apply inObj_setProp_same.
    + now rewrite (compileCSS_failed cwd T config basePath html cssPath
                     message s Ei Et) in H.
Qed.

(** X20 - A stylesheet reference from the document to the output map:
    for a document in the directory [dir] and a reference written as
    plain names ending in [.sass], [.scss] or [.css], the style step
    leaves the output under the directory's names followed by the
    reference's with the extension [.css], and rewrites every link that
    carries the reference as written to the same reference with the
    extension [.css]. *)
Theorem style_reference_is_rewritten_to_its_output :
  forall (cwd : string) (T : Tools) (config : BSTConfig)
         (dir init : list string) (stem ext : string)
         (html html' : Document) (s s' : BuildState),
    dir <> [] ->
    Forall (fun n => isName n = true) dir ->
    Forall (fun n => isName n = true) init ->
    isName (stem +++ ext) = true ->
    In ext [".sass"; ".scss"; ".css"] ->
    compileCSS cwd T config (pathOf dir) html
      (importMapper (pathOf dir) (pathOf (init ++ [stem +++ ext]))) s
    = Next html' s' ->
    cssRefs html'
    = map (rewritten (pathOf (init ++ [stem +++ ext]))
                     (pathOf (init ++ [stem +++ ".css"])))
          (cssRefs html)
    /\ inObj (pathOf (dir ++ init ++ [stem +++ ".css"])) (builtFiles s')
       = true.
Proof.
  intros cwd T config dir init stem ext html html' s s'
         Hd Fd Fi Hname Hext H.
  assert (Hname' : isName (stem +++ ".css") = true).
  { apply (isName_ext stem ext ".css" Hname); [simpl; lia | reflexivity]. }
  assert (Fr : forall x, isName x = true ->
                 Forall (fun n => isName n = true) (init ++ [x])).
  { intros x Hx. apply Forall_app. split; [exact Fi | now constructor]. }
  assert (Hr : forall x, init ++ [x] <> []) by (intros x; now destruct init).
  assert (Hmap : importMapper (pathOf dir) (pathOf (init ++ [stem +++ ext]))
                 = pathOf (dir ++ init ++ [stem +++ ext])).
  { unfold importMapper.
    fold (Path.isAbsolute (pathOf (init ++ [stem +++ ext]))).
    rewrite isAbsolute_pathOf by auto.
    apply join_pathOf; auto. }
  assert (Hbuilt : cssBuiltPath (pathOf (dir ++ init ++ [stem +++ ext]))
                   = pathOf (dir ++ init ++ [stem +++ ".css"])).
  { rewrite !app_assoc.
    destruct (pathOf_snoc (dir ++ init) stem) as [pre Hpre].
    rewrite !Hpre. now apply cssBuiltPath_ext. }
  rewrite Hmap in H. apply compileCSS_result in H.
  destruct H as [-> Hin]. rewrite Hbuilt in *.
  split; [|exact Hin].
  rewrite cssRefs_replace. unfold importDemapper.
  now rewrite !relative_below by auto.
Qed.

Lemma style_reference_witness :
  cssRefs (replaceCSSImports (Toy.parse "L:css/main.scss")
             "css/main.scss" "css/main.css")
  = [Some "css/main.css"]
  /\ inObj "src/css/main.css"
       (builtFiles
          (finalState
             (compileCSS "/w" (Toy.tools Toy.defaults) defaultConfig "src"
                (Toy.parse "L:css/main.scss") "src/css/main.scss"
                (initialState nestedSite))))
     = true.
Proof.
  apply (style_reference_is_rewritten_to_its_output
           "/w" (Toy.tools Toy.defaults) defaultConfig
           ["src"] ["css"] "main" ".scss"
           (Toy.parse "L:css/main.scss") _ (initialState nestedSite) _).
  - discriminate.
  - repeat constructor.
  - repeat constructor.
  - reflexivity.
  - now right; left.
  - vm_compute. reflexivity.
Defined.

(** ** Further properties: a script that is already JavaScript *)

Lemma endsWith_js_inv (file : string) :
  JS.endsWith ".js" file = true ->
  exists rest,
    rev (list_ascii_of_string file) = "s"%char :: "j"%char :: "."%char :: rest.
Proof.
  unfold JS.endsWith, JS.rev_string.
  change (string_of_list_ascii (rev (list_ascii_of_string ".js")))
    with "sj.".
  intros H.
  apply startsWith_cons in H. destruct H as [r1 [E1 H]].
  apply startsWith_cons in H. destruct H as [r2 [E2 H]].
  apply startsWith_cons in H. destruct H as [r3 [E3 _]].
  exists r3. now rewrite E1, E2, E3.
Qed.

Lemma spanName_js (rest : list ascii) :
  Path.spanName ("s"%char :: "j"%char :: "."%char :: rest)
  = ("s"%char :: "j"%char :: "."%char :: fst (Path.spanName rest),
     snd (Path.spanName rest)).
Proof. simpl. now destruct (Path.spanName rest). Qed.

(** The extension of a path that ends in [.js] is [.js], or nothing when
    the dot opens the last component. *)
Lemma extname_js (file : string) :
  JS.endsWith ".js" file = true ->
  Path.extname file = ".js" \/ Path.extname file = EmptyString.
Proof.
  intros H. destruct (endsWith_js_inv file H) as [rest E].
  unfold Path.extname. rewrite E.
  change (Path.dropSlashes ("s"%char :: "j"%char :: "."%char :: rest))
    with ("s"%char :: "j"%char :: "."%char :: rest).
  rewrite spanName_js.
  change (Path.spanExt ("s"%char :: "j"%char :: "."%char
                          :: fst (Path.spanName rest)))
    with (Some (["s"%char; "j"%char; "."%char], fst (Path.spanName rest))).
  cbv beta iota.
  destruct (fst (Path.spanName rest)) as [|c n] eqn:En; [now right|].
  left.
  assert (Hdd : (string_of_list_ascii
                   (rev ("s"%char :: "j"%char :: "."%char :: c :: n))
                 =? "..") = false).
  { apply String.eqb_neq. intros Heq.
    apply (f_equal String.length) in Heq.
    simpl in Heq. rewrite !string_of_list_app, !length_append in Heq.
    simpl in Heq. lia. }
  rewrite Hdd. reflexivity.
Qed.

Lemma isBuildSource_js (file : string) :
  JS.endsWith ".js" file = true -> isBuildSource file = false.
Proof.
  intros H. unfold isBuildSource.
  destruct (extname_js file H) as [-> | ->]; reflexivity.
Qed.

Lemma inObj_js_hasOwn (file : string) (o : Obj) :
  JS.endsWith ".js" file = true -> inObj file o = true ->
  hasOwn file o = true.
Proof.
  intros H. unfold inObj.
  assert (Hm : JS.mem file objectPrototypeKeys = false).
  { apply mem_false. intros Hin.
    unfold objectPrototypeKeys in Hin. simpl in Hin.
    repeat (destruct Hin as [<-|Hin]; [discriminate H|]).
    exact Hin. }
  now rewrite Hm, orb_false_r.
Qed.

Section Scripts.

Variable cwd : string.
Variable T : Tools.
Variable config : BSTConfig.

Lemma monotone_scriptsStored (f : FS) (d : string) :
  monotone (scriptsStored cwd T f d).
Proof.
  intros s s' H Hk html imports ref H1 H2 H3.
  eapply keeps_inObj; eauto.
Qed.

Lemma monotone_scriptPaths (paths : list string) :
  monotone (fun s => forall p, In p paths ->
                               inObj (jsBuiltPath p) (builtFiles s) = true).
Proof. intros s s' H Hk p Hp. eapply keeps_inObj; eauto. Qed.

Lemma closed_fact (P : Prop) :
  Closed config (fun _ => P) (fun _ => True).
Proof. split; auto. Qed.

(** After the script loop every path it was given has its output path
    in the output map. *)
Lemma jsLoop_stores (basePath : string) (l : list string) (html : Document) :
  hoare (fun _ => True) (foldM (compileJS cwd T config basePath) l html)
    (fun _ s => forall p, In p l ->
                          inObj (jsBuiltPath p) (builtFiles s) = true)
    (fun _ => True).
Proof.
  pose (J := fun (pre : list string) (s : BuildState) =>
               forall p, In p pre ->
                         inObj (jsBuiltPath p) (builtFiles s) = true).
  eapply hoare_weaken;
    [apply (hoare_foldM_prefix J (fun _ => True)
              (compileJS cwd T config basePath) l) with (pre := []) | | |];
    auto.
  - intros pre x b.
    eapply hoare_weaken;
      [apply (compileJS_closed cwd T config (J pre) (fun _ => True));
       apply (cd_closed (closed_monotone config _ (monotone_scriptPaths pre)))
      | | |];
      auto.
    intros _ s [HJ Hx] p Hp. apply in_app_or in Hp.
    destruct Hp as [Hp|[<-|[]]]; [now apply HJ | exact Hx].
  - intros s _ p [].
Qed.

Lemma compileAssets_scripts (f : FS) (d : string) :
  hoare (fun s => fs s = f) (compileAssets cwd T config d)
    (fun _ s => scriptsStored cwd T f d s) (fun _ => True).
Proof.
  unfold compileAssets.
  eapply hoare_bind with (Q1 := fun _ s => fs s = f).
  { apply hoare_setCurrent. auto. }
  intros u. eapply hoare_bind with (Q1 := fun s0 s => fs s0 = f).
  { apply hoare_get. auto. }
  intros s0.
  eapply hoare_bind
    with (Q1 := fun html _ => getHTML cwd T f d = Ok html).
  { apply hoare_orExit; [|auto]. intros html s Hh Hs. now rewrite <- Hs. }
  intros html.
  eapply hoare_bind
    with (Q1 := fun _ _ => getHTML cwd T f d = Ok html).
  { apply hoare_mapped; auto. }
  intros cssImports.
  eapply hoare_bind
    with (Q1 := fun jsImports _ =>
                  getHTML cwd T f d = Ok html
                  /\ exists imports,
                       getJSImports html = Some imports
                       /\ jsImports
                          = map (importMapper (Path.dirname d)) imports).
  { apply hoare_mapped; [auto|]. intros l s Hl Hs. split; [exact Hs|].
    now exists l. }
  intros jsImports.
  eapply hoare_bind
    with (Q1 := fun _ _ =>
                  getHTML cwd T f d = Ok html
                  /\ exists imports,
                       getJSImports html = Some imports
                       /\ jsImports
                          = map (importMapper (Path.dirname d)) imports).
  { apply cssLoop_closed, closed_fact. }
  intros html' s [Hh [imports [Hi ->]]].
  pose proof (jsLoop_stores (Path.dirname d)
                (map (importMapper (Path.dirname d)) imports) html' s I)
    as H.
  destruct (foldM _ _ html' s) as [html'' s'|]; [|exact I].
  intros html0 imports0 ref H1 H2 H3.
  rewrite Hh in H1. injection H1 as <-.
  rewrite Hi in H2. injection H2 as <-.
  apply H. now apply in_map.
Qed.

Lemma monotone_allScripts (paths : list string) (f : FS) :
  monotone (fun s => forall d, In d paths -> scriptsStored cwd T f d s).
Proof.
  intros s s' H Hk d Hd. apply (monotone_scriptsStored f d s s'); auto.
Qed.

(** When the document loop ends, the script references of every document
    have their output path in the output map; the file system is as it
    was. *)
Lemma compileAll_scripts (f : FS) (htmlFiles : list string) :
  hoare (fun s => fs s = f) (compileAll cwd T config htmlFiles)
    (fun _ s => fs s = f
                /\ forall d, In d htmlFiles -> scriptsStored cwd T f d s)
    (fun _ => True).
Proof.
  pose (J := fun (pre : list string) (s : BuildState) =>
               fs s = f /\ forall d, In d pre -> scriptsStored cwd T f d s).
  unfold compileAll.
  eapply hoare_weaken;
    [apply (hoare_forM_prefix J (fun _ => True)
              (compileDocument cwd T config) htmlFiles) with (pre := [])
    | | |]; auto.
  - intros pre d _.
    pose proof (closedDoc_conj config _ _ _ _ (closed_fs config f)
                  (closed_monotone config _ (monotone_allScripts pre f)))
      as HJ.
    pose proof (closedDoc_conj config _ _ _ _ HJ
                  (closed_monotone config _ (monotone_scriptsStored f d)))
      as HJ'.
    unfold compileDocument.
    eapply hoare_bind
      with (Q1 := fun _ s => J pre s /\ scriptsStored cwd T f d s).
    + eapply hoare_weaken;
        [apply (hoare_conj _ _ _ _ _ _ _
                  (compileAssets_closed cwd T config _ _ d (cd_closed HJ))
                  (compileAssets_scripts f d)) | | |]; auto.
      intros s [Hf Hd]. split; [split|]; assumption.
    + intros html.
      eapply hoare_weaken;
        [apply (emitDocument_closed T config _ _ d html HJ') | | |];
        auto.
      intros u s [[[Hf Hd] Hs] _]. split; [exact Hf|].
      intros d0 Hd0. apply in_app_or in Hd0.
      destruct Hd0 as [Hd0|[<-|[]]]; [now apply Hd | exact Hs].
  - intros s Hs. split; [exact Hs | intros d []].
Qed.

(** X21 - A script a document references that is already a [.js] file
    has its own path as output path, since the extension substitution
    leaves the path alone, and it is also a file the copy filter lets
    through. The script step bundles it and stores the bundle under its
    own path when that path is not in the output map yet; when it is,
    as after a [.ts] of the same stem referenced earlier, the file is
    never bundled and the entry stays. Either way, when the document
    loop ends the map holds an entry under the path; the write loop
    writes that entry to the file's destination and the copy loop, which
    runs after it, copies the source file over it. In a build that
    completes, where no destination is the source file itself and no
    other copied file has the same destination, the destination ends up
    holding the source text, not the entry. *)
Theorem referenced_js_is_overwritten_by_its_source :
  forall (f : FS) (htmlFiles : list string) (s1 s2 s3 : BuildState)
         (files : list string) (d : string) (html : Document)
         (imports : list string) (ref file raw : string),
    getConfig cwd T f = Ok config ->
    getFilesMatching cwd T f (source config) "**/*.html" = Ok htmlFiles ->
    compileAll cwd T config htmlFiles (initialState f) = Next tt s1 ->
    writeOutputs cwd config s1 = Next tt s2 ->
    getFilesRecursively cwd (fs s2) (source config) = Ok files ->
    forM (copyThrough cwd config) files s2 = Next tt s3 ->
    In d htmlFiles ->
    getHTML cwd T f d = Ok html ->
    getJSImports html = Some imports ->
    In ref imports ->
    file = importMapper (Path.dirname d) ref ->
    JS.endsWith ".js" file = true ->
    In file files ->
    readText cwd f file = Ok raw ->
    (clean config = true ->
     forall gs g,
       getFilesRecursively cwd f (destination config) = Ok gs -> In g gs ->
       Path.resolveSegs cwd file <> Path.resolveSegs cwd g) ->
    (forall entry, In entry (builtFiles s1) ->
       Path.resolveSegs cwd file
       <> Path.resolveSegs cwd (destinationOf cwd config (fst entry))) ->
    (forall g, In g files ->
       Path.resolveSegs cwd file
       <> Path.resolveSegs cwd (destinationOf cwd config g)) ->
    (forall g, In g files -> g <> file ->
       Path.resolveSegs cwd (destinationOf cwd config file)
       <> Path.resolveSegs cwd (destinationOf cwd config g)) ->
    build cwd T (initialState f) = Next tt s3
    /\ jsBuiltPath file = file
    /\ isBuildSource file = false
    /\ (forall basePath html0 s content,
          inObj file (builtFiles s) = false ->
          outcome (transpileJS cwd T (fs s) file (source config)
                     (css_minify config))
          = Ok content ->
          compileJS cwd T config basePath html0 file s
          = Next (replaceJSImports html0 (importDemapper cwd basePath file)
                    (importDemapper cwd basePath file))
                 (stored (TranspileJS file (source config)
                            (css_minify config))
                         file content (withCurrent file s)))
    /\ (forall basePath html0 s,
          inObj file (builtFiles s) = true ->
          compileJS cwd T config basePath html0 file s
          = Next (replaceJSImports html0 (importDemapper cwd basePath file)
                    (importDemapper cwd basePath file))
                 (withCurrent file s))
    /\ (exists bundled,
          In (file, bundled) (builtFiles s1)
          /\ forall s s',
               writeBuilt cwd config (file, bundled) s = Next tt s' ->
               readText cwd (fs s') (destinationOf cwd config file)
               = Ok bundled)
    /\ readText cwd (fs s3) (destinationOf cwd config file) = Ok raw.
Proof.
  intros f htmlFiles s1 s2 s3 files d html imports ref file raw
         Hc Hm Hdocs Hwrite Hlist Hcopy Hd Hhtml Himp Href Hfile Hjs
         Hin Hraw Hclean Hentries Hsrc Hdist.
  assert (Hbuilt : jsBuiltPath file = file) by now apply jsBuiltPath_js.
  assert (Hfilter : isBuildSource file = false) by now apply isBuildSource_js.
  pose proof (hoare_next _ _ _ _ (initialState f) s1 tt
                (compileAll_scripts f htmlFiles) eq_refl Hdocs)
    as [Hfs1 Hscripts].
  refine (conj _ (conj Hbuilt (conj Hfilter (conj _ (conj _ (conj _ _)))))).
  - unfold build, bind, get. cbn [fs initialState].
    rewrite Hc. simpl. rewrite Hm. simpl. rewrite Hdocs, Hwrite.
    unfold copyRest, bind, get. now rewrite Hlist.
  - intros basePath html0 s content Hfresh Hout.
    rewrite <- Hbuilt in Hfresh.
    rewrite (compileJS_fresh cwd T config basePath html0 file content s
               Hfresh Hout).
    now rewrite Hbuilt.
  - intros basePath html0 s Hcached.
    rewrite <- Hbuilt in Hcached.
    rewrite (compileJS_cached cwd T config basePath html0 file s Hcached).
    now rewrite Hbuilt.
  - assert (Hown : hasOwn file (builtFiles s1) = true).
    { apply inObj_js_hasOwn; [exact Hjs|]. rewrite <- Hbuilt, Hfile.
      exact (Hscripts d Hd html imports ref Hhtml Himp Href). }
    unfold hasOwn in Hown.
    destruct (getProp file (builtFiles s1)) as [bundled|] eqn:Eg;
      [|discriminate].
    exists bundled. split; [now apply getProp_In|].
    intros s s' Hw. apply readText_holds.
    exact (hoare_next _ _ _ _ s s' tt
             (writeBuilt_writes cwd config (file, bundled)) I Hw).
  - apply readText_holds.
    assert (H2 : holds cwd (fs s2) file raw).
    { apply (hoare_next _ _ _ _ s1 s2 tt
               (writeOutputs_preserves cwd config f (builtFiles s1) file raw
                  Hclean Hentries)
               (conj Hfs1 (conj eq_refl (proj1 (readText_holds _ _ _ _) Hraw)))
               Hwrite). }
    exact (hoare_next _ _ _ _ s2 s3 tt
             (copyLoop_copies cwd config files file raw Hfilter Hsrc Hdist)
             H2 Hcopy Hin).
Qed.

End Scripts.

Ltac unlike := vm_compute; let H := fresh in intros H; discriminate H.

Lemma referenced_js_is_overwritten_witness :
  compileJS "/w" (Toy.tools Toy.defaults) defaultConfig "src"
    (Toy.parse "S:app.js") "src/app.js" (initialState jsSite)
  = Next (replaceJSImports (Toy.parse "S:app.js")
            (importDemapper "/w" "src" "src/app.js")
            (importDemapper "/w" "src" "src/app.js"))
         (stored (TranspileJS "src/app.js" "src" true) "src/app.js"
                 "ugly(bundlemin(src/app.js))"
                 (withCurrent "src/app.js" (initialState jsSite)))
  /\ (exists bundled,
        In ("src/app.js", bundled) (builtFiles jsSiteCompiled)
        /\ forall s s',
             writeBuilt "/w" defaultConfig ("src/app.js", bundled) s
             = Next tt s' ->
             readText "/w" (fs s')
               (destinationOf "/w" defaultConfig "src/app.js")
             = Ok bundled)
  /\ readText "/w" (fs jsSiteCopied)
       (destinationOf "/w" defaultConfig "src/app.js")
     = Ok "code".
Proof.
  refine ((fun K => _)
            (referenced_js_is_overwritten_by_its_source
               "/w" (Toy.tools Toy.defaults) defaultConfig jsSite
               ["src/index.html"] jsSiteCompiled jsSiteWritten jsSiteCopied
               ["src/index.html"; "src/app.js"]
               "src/index.html" (normalizeClasses (Toy.parse "S:app.js"))
               ["app.js"] "app.js" "src/app.js" "code"
               _ _ _ _ _ _ _ _ _ _ _ _ _ _ _ _ _ _)).
  - destruct K as [_ [_ [_ [Hfresh [_ [Hentry Hread]]]]]].
    refine (conj _ (conj Hentry Hread)).
    apply Hfresh; vm_compute; reflexivity.
  - vm_compute. reflexivity.
  - vm_compute. reflexivity.
  - vm_compute. reflexivity.
  - vm_compute. reflexivity.
  - vm_compute. reflexivity.
  - vm_compute. reflexivity.
  - now left.
  - vm_compute. reflexivity.
  - vm_compute. reflexivity.
  - now left.
  - vm_compute. reflexivity.
  - vm_compute. reflexivity.
  - right. now left.
  - vm_compute. reflexivity.
  - intros H. discriminate H.
  - intros entry Hin. vm_compute in Hin.
    destruct Hin as [<-|[<-|[]]]; unlike.
  - intros g Hin. destruct Hin as [<-|[<-|[]]]; unlike.
  - intros g Hin Hne.
    destruct Hin as [<-|[<-|[]]]; [unlike | exfalso; now apply Hne].
Defined.

(** With [x.ts] referenced before [x.js], the one call is for [x.ts],
    the entry under [src/x.js] is its bundle, both references are
    rewritten to [x.js], and [dist/x.js] ends up holding the text of the
    source's [x.js]. *)
Example script_of_the_same_stem_takes_the_output_path :
  calls tsFirstSiteBuilt = [TranspileJS "src/x.ts" "src" true]
  /\ builtFiles tsFirstSiteBuilt
     = [("src/x.js", "ugly(bundlemin(src/x.ts))");
        ("src/index.html", "min(<script src=x.js> <script src=x.js>)")]
  /\ stderr tsFirstSiteBuilt = []
  /\ readText "/w" (fs tsFirstSiteBuilt) "dist/x.js" = Ok "plain".
Proof.
  refine (conj _ (conj _ (conj _ _))); vm_compute; reflexivity.
Qed.

(** ** Further properties: cleaning the destination *)

Lemma lookup_removeEntry_same (name : string) (es : list (string * Entry)) :
  NoDup (map fst es) -> lookupEntry name (removeEntry name es) = None.
Proof.
  induction es as [|[n e] r IH]; simpl; [reflexivity|]. intros Hnd.
  inversion Hnd as [|? ? Hn Hr]; subst.
  destruct (String.eqb_spec n name) as [->|Hne].
  - destruct (lookupEntry name r) as [e'|] eqn:El; [|reflexivity].
    exfalso. apply Hn. apply lookupEntry_In in El.
    apply in_map_iff. now exists (name, e').
  - simpl. destruct (String.eqb_spec n name); [congruence | now apply IH].
Qed.

Lemma valid_lookup (name : string) (e : Entry) (es : list (string * Entry)) :
  validEntry (Dir es) -> lookupEntry name es = Some e -> validEntry e.
Proof.
  intros Hv El. apply lookupEntry_In in El. apply validEntry_Dir in Hv.
  destruct Hv as [_ Hall]. rewrite Forall_forall in Hall.
  now apply (Hall (name, e)).
Qed.

Lemma names_removeEntry (name : string) (es : list (string * Entry)) :
  NoDup (map fst es) -> NoDup (map fst (removeEntry name es)).
Proof.
  induction es as [|[n e] r IH]; simpl; [auto|]. intros Hnd.
  inversion Hnd as [|? ? Hn Hr]; subst.
  destruct (n =? name); [exact Hr|]. simpl. constructor; [|now apply IH].
  intros Hin. apply Hn. apply in_map_iff in Hin.
  destruct Hin as [[n' e'] [E Hin]]. simpl in E. subst n'.
  apply in_map_iff. exists (n, e'). split; [reflexivity|].
  clear -Hin. induction r as [|[m e0] r IH]; simpl in *; [tauto|].
  destruct (m =? name); [now right|].
  destruct Hin as [H|H]; [now left | right; now apply IH].
Qed.

Lemma In_removeEntry (name : string) (x : string * Entry)
    (es : list (string * Entry)) :
  In x (removeEntry name es) -> In x es.
Proof.
  induction es as [|[m e0] r IH]; simpl; [tauto|].
  destruct (m =? name); [now right|].
  intros [H|H]; [now left | right; now apply IH].
Qed.

Lemma names_setEntry (name : string) (e e0 : Entry)
    (es : list (string * Entry)) :
  lookupEntry name es = Some e0 ->
  map fst (setEntry name e es) = map fst es.
Proof.
  induction es as [|[n e'] r IH]; simpl; [discriminate|].
  destruct (n =? name); [reflexivity|].
  intros H. simpl. now rewrite IH.
Qed.

Lemma Forall_setEntry (P : string * Entry -> Prop) (name : string)
    (e : Entry) (es : list (string * Entry)) :
  Forall P es -> P (name, e) -> Forall P (setEntry name e es).
Proof.
  intros H Hp. induction H as [|[n e'] r Hx Hr IH]; simpl.
  - now constructor.
  - destruct (String.eqb_spec n name) as [->|Hne]; now constructor.
Qed.

(** A file that is there can be removed. *)
Lemma unlink_ok (q : list string) :
  forall es c,
    statSegs q es = Some (File c) -> exists es', unlinkSegs q es = Some es'.
Proof.
  induction q as [|n rest IH]; intros es c H; [discriminate|].
  rewrite statSegs_cons in H. simpl.
  destruct (lookupEntry n es) as [[c0|sub]|]; [| |discriminate].
  - destruct rest; [|discriminate]. now eexists.
  - destruct rest as [|r1 rest']; [discriminate|].
    destruct (IH sub c H) as [sub' ->]. now eexists.
Qed.

(** Removing a file keeps the tree well formed. *)
Lemma valid_unlink (q : list string) :
  forall es es',
    validEntry (Dir es) -> unlinkSegs q es = Some es' -> validEntry (Dir es').
Proof.
  induction q as [|n rest IH]; intros es es' Hv H; [discriminate|].
  simpl in H. destruct rest as [|r1 rest'].
  - destruct (lookupEntry n es) as [[c0|sub]|]; try discriminate.
    injection H as <-. apply validEntry_Dir in Hv. destruct Hv as [Hnd Hall].
    apply validEntry_Dir. split; [now apply names_removeEntry|].
    rewrite Forall_forall in *. intros x Hx. apply Hall.
    now apply In_removeEntry in Hx.
  - destruct (lookupEntry n es) as [[c0|sub]|] eqn:El; try discriminate.
    destruct (unlinkSegs (r1 :: rest') sub) as [sub'|] eqn:Eu; [|discriminate].
    injection H as <-.
    pose proof (valid_lookup n _ es Hv El) as Hsub.
    pose proof (IH sub sub' Hsub Eu) as Hsub'.
    apply validEntry_Dir in Hv. destruct Hv as [Hnd Hall].
    apply validEntry_Dir. split.
    + now rewrite (names_setEntry n _ _ es El).
    + apply Forall_setEntry; [exact Hall|]. split; [|exact Hsub'].
      apply lookupEntry_In in El. rewrite Forall_forall in Hall.
      now destruct (Hall _ El).
Qed.

(** A removed file is not there. *)
Lemma stat_unlink_same (q : list string) :
  forall es es',
    validEntry (Dir es) -> unlinkSegs q es = Some es' -> statSegs q es' = None.
Proof.
  induction q as [|n rest IH]; intros es es' Hv H; [discriminate|].
  simpl in H. rewrite statSegs_cons. destruct rest as [|r1 rest'].
  - destruct (lookupEntry n es) as [[c0|sub]|]; try discriminate.
    injection H as <-. apply validEntry_Dir in Hv.
    now rewrite lookup_removeEntry_same.
  - destruct (lookupEntry n es) as [[c0|sub]|] eqn:El; try discriminate.
    destruct (unlinkSegs (r1 :: rest') sub) as [sub'|] eqn:Eu; [|discriminate].
    injection H as <-. rewrite lookup_setEntry_same.
    exact (IH sub sub' (valid_lookup n _ es Hv El) Eu).
Qed.

(** Removing a file creates none. *)
Lemma stat_unlink_inv (q : list string) :
  forall p es es' c,
    validEntry (Dir es) -> unlinkSegs q es = Some es' ->
    statSegs p es' = Some (File c) -> statSegs p es = Some (File c).
Proof.
  induction q as [|n rest IH]; intros p es es' c Hv H Hp; [discriminate|].
  destruct p as [|pn pr]; [discriminate|].
  rewrite statSegs_cons in *. simpl in H. destruct rest as [|r1 rest'].
  - destruct (lookupEntry n es) as [[c0|sub]|] eqn:El; try discriminate.
    injection H as <-.
    destruct (String.eqb_spec pn n) as [->|Hne].
    + apply validEntry_Dir in Hv.
      now rewrite lookup_removeEntry_same in Hp.
    + now rewrite lookup_removeEntry_other in Hp.
  - destruct (lookupEntry n es) as [[c0|sub]|] eqn:El; try discriminate.
    destruct (unlinkSegs (r1 :: rest') sub) as [sub'|] eqn:Eu; [|discriminate].
    injection H as <-.
    destruct (String.eqb_spec pn n) as [->|Hne].
    + rewrite lookup_setEntry_same in Hp. rewrite El.
      exact (IH pr sub sub' c (valid_lookup n _ es Hv El) Eu Hp).
    + now rewrite lookup_setEntry_other in Hp.
Qed.

(** Removing a file leaves every directory in place. *)
Lemma stat_unlink_dir (q : list string) :
  forall p es es' d,
    unlinkSegs q es = Some es' ->
    statSegs p es = Some (Dir d) -> exists d', statSegs p es' = Some (Dir d').
Proof.
  induction q as [|n rest IH]; intros p es es' d H Hp; [discriminate|].
  destruct p as [|pn pr]; [now eexists|].
  rewrite statSegs_cons in *. simpl in H. destruct rest as [|r1 rest'].
  - destruct (lookupEntry n es) as [[c0|sub]|] eqn:El; try discriminate.
    injection H as <-.
    destruct (String.eqb_spec pn n) as [->|Hne].
    + rewrite El in Hp. destruct pr; discriminate.
    + rewrite lookup_removeEntry_other by exact Hne. now exists d.
  - destruct (lookupEntry n es) as [[c0|sub]|] eqn:El; try discriminate.
    destruct (unlinkSegs (r1 :: rest') sub) as [sub'|] eqn:Eu; [|discriminate].
    injection H as <-.
    destruct (String.eqb_spec pn n) as [->|Hne].
    + rewrite lookup_setEntry_same. rewrite El in Hp.
      exact (IH pr sub sub' d Eu Hp).
    + rewrite lookup_setEntry_other by exact Hne. now exists d.
Qed.

(** No path is listed twice. *)
Lemma filesBelow_NoDup (e : Entry) :
  forall names : list string,
    validEntry e -> names <> [] ->
    Forall (fun s => isName s = true) names ->
    NoDup (filesBelow (pathOf names) e).
Proof.
  induction e as [c0|es IH] using Entry_induction; intros names Hv Hn Fn.
  - simpl. repeat constructor. tauto.
  - cbn [filesBelow]. apply validEntry_Dir in Hv. destruct Hv as [Hnd Hall].
    induction es as [|[n sub] r IHr]; simpl; [constructor|].
    inversion IH as [|? ? IHsub IHrest]; subst.
    inversion Hnd as [|? ? Hnin Hndr]; subst.
    inversion Hall as [|? ? [Hname Hsub] Hallr]; subst.
    cbn [fst snd] in *.
    assert (Hn' : names ++ [n] <> []) by now apply app_not_nil.
    assert (Fn' : Forall (fun s => isName s = true) (names ++ [n])).
    { apply Forall_app. split; [exact Fn | now constructor]. }
    rewrite join_name by assumption.
    apply NoDup_app.
    + now apply IHsub.
    + now apply IHr.
    + intros p Hp Hp'.
      apply (filesBelow_spec sub (names ++ [n]) Hsub Hn' Fn') in Hp.
      destruct Hp as [rest [c [Fr [-> _]]]].
      apply in_flat_map in Hp'. destruct Hp' as [[n' sub'] [Hin Hp']].
      cbn [fst snd] in Hp'. rewrite Forall_forall in Hallr.
      destruct (Hallr _ Hin) as [Hname' Hsub']. cbn [fst snd] in *.
      rewrite join_name in Hp' by assumption.
      apply (filesBelow_spec sub' (names ++ [n'])) in Hp';
        [| exact Hsub' | now apply app_not_nil
         | apply Forall_app; split; [exact Fn | now constructor]].
      destruct Hp' as [rest' [c' [Fr' [E _]]]].
      apply pathOf_injective in E.
      * rewrite <- !app_assoc in E. apply app_inv_head in E.
        injection E as E _. apply Hnin. subst n'.
        apply in_map_iff. now exists (n, sub').
      * now apply app_not_nil.
      * now apply app_not_nil, app_not_nil.
      * apply Forall_app. split; assumption.
      * apply Forall_app. split; [|exact Fr'].
        apply Forall_app. split; [exact Fn | now constructor].
Qed.

Section Cleaning.

Variable cwd : string.

(** The loop of [cleanDestination]. *)
Lemma unlinkLoop (post : list string) :
  forall s,
    validEntry (Dir (fs s)) ->
    NoDup (map (Path.resolveSegs cwd) post) ->
    (forall p, In p post ->
       exists c, statSegs (Path.resolveSegs cwd p) (fs s) = Some (File c)) ->
    exists f',
      forM (fun file => s0 <- get ;;
                        f <- orExit (unlink cwd (fs s0) file) ;; setFS f)
           post s
      = Next tt (mkState f' (builtFiles s) (currentCompile s) (stderr s)
                         (calls s))
      /\ validEntry (Dir f')
      /\ (forall segs c,
            statSegs segs f' = Some (File c)
            <-> statSegs segs (fs s) = Some (File c)
                /\ ~ In segs (map (Path.resolveSegs cwd) post))
      /\ (forall segs d,
            statSegs segs (fs s) = Some (Dir d) ->
            exists d', statSegs segs f' = Some (Dir d')).
Proof.
  induction post as [|x post' IH]; intros s Hv Hnd Hfiles.
  - exists (fs s). split; [now destruct s | split; [exact Hv | split]].
    + intros segs c. simpl. tauto.
    + intros segs d H. now exists d.
  - inversion Hnd as [|? ? Hx Hnd']; subst.
    destruct (Hfiles x (or_introl eq_refl)) as [cx Hcx].
    destruct (unlink_ok _ _ _ Hcx) as [f1 Hu].
    assert (Hunlink : unlink cwd (fs s) x = Ok f1)
      by (unfold unlink; now rewrite Hu).
    set (s1 := mkState f1 (builtFiles s) (currentCompile s) (stderr s)
                       (calls s)).
    destruct (IH s1) as [f' [Hrun [Hv' [Hiff Hdir]]]].
    + exact (valid_unlink _ _ _ Hv Hu).
    + exact Hnd'.
    + intros p Hp. destruct (Hfiles p (or_intror Hp)) as [c Hc].
      exists c. simpl. eapply stat_unlink_other; [exact Hu | | exact Hc].
      intros E. apply Hx. rewrite <- E. now apply in_map.
    + exists f'. split; [|split; [exact Hv'|split]].
      * simpl. unfold bind at 1. unfold bind at 1. unfold get.
        rewrite Hunlink. simpl. exact Hrun.
      * intros segs c. rewrite Hiff. simpl. split.
        -- intros [H1 Hn]. split.
           ++ exact (stat_unlink_inv _ _ _ _ _ Hv Hu H1).
           ++ intros [E|Hin]; [|now apply Hn].
              subst segs. now rewrite (stat_unlink_same _ _ _ Hv Hu) in H1.
        -- intros [H1 Hn]. split.
           ++ eapply stat_unlink_other; [exact Hu | | exact H1].
              intros E. apply Hn. now left.
           ++ intros Hin. apply Hn. now right.
      * intros segs d Hd.
        destruct (stat_unlink_dir _ _ _ _ _ Hu Hd) as [d1 Hd1].
        exact (Hdir segs d1 Hd1).
Qed.

(** X22 - With [clean] on and a destination directory in place, cleaning
    removes every file below the destination, in whatever directory,
    and nothing else: afterwards the destination lists no file, every
    file outside it is as it was, and every directory is still there,
    the emptied ones included. Cleaning does not fail. *)
Theorem cleaning_empties_the_destination :
  forall (config : BSTConfig) (s : BuildState) (dst : list string)
         (files : list string),
    clean config = true ->
    destination config = pathOf dst ->
    dst <> [] -> Forall (fun n => isName n = true) dst ->
    validEntry (Dir (fs s)) ->
    getFilesRecursively cwd (fs s) (pathOf dst) = Ok files ->
    exists s',
      cleanDestination cwd config s = Next tt s'
      /\ getFilesRecursively cwd (fs s') (pathOf dst) = Ok []
      /\ (forall p, In p files -> fileExists cwd (fs s') p = false)
      /\ (forall p content,
            readText cwd (fs s) p = Ok content ->
            ~ In (Path.resolveSegs cwd p) (map (Path.resolveSegs cwd) files) ->
            readText cwd (fs s') p = Ok content)
      /\ (forall p, isDir cwd (fs s) p = true -> isDir cwd (fs s') p = true).
Proof.
  intros config s dst files Hclean Hdst Hd Fd Hv Hlist.
  pose proof Hlist as Hlist0.
  unfold getFilesRecursively in Hlist.
  destruct (stat cwd (fs s) (pathOf dst)) as [[c0|es]|] eqn:Es;
    try discriminate.
  injection Hlist as Hfiles.
  assert (Hve : validEntry (Dir es)).
  { unfold stat in Es. exact (statSegs_valid _ _ _ Hv Es). }
  assert (Hspec : forall p,
            In p files
            <-> exists rest c,
                  Forall (fun n => isName n = true) rest
                  /\ p = pathOf (dst ++ rest)
                  /\ statEntry rest (Dir es) = Some (File c)).
  { intros p. rewrite <- Hfiles.
    exact (filesBelow_spec (Dir es) dst Hve Hd Fd p). }
  assert (Hstat : forall rest,
            Forall (fun n => isName n = true) rest ->
            forall f, statSegs (Path.resolveSegs cwd (pathOf (dst ++ rest))) f
                      = match stat cwd f (pathOf dst) with
                        | Some e => statEntry rest e
                        | None => None
                        end).
  { intros rest Fr f. now apply (stat_pathOf cwd f dst rest). }
  assert (Hthere : forall p, In p files ->
            exists c, statSegs (Path.resolveSegs cwd p) (fs s)
                      = Some (File c)).
  { intros p Hp. apply Hspec in Hp. destruct Hp as [rest [c [Fr [-> Hs]]]].
    exists c. now rewrite Hstat, Es. }
  assert (Hnd : NoDup (map (Path.resolveSegs cwd) files)).
  { apply NoDup_map_NoDup_ForallPairs.
    - intros p q Hp Hq E. apply Hspec in Hp, Hq.
      destruct Hp as [rest [c [Fr [-> _]]]].
      destruct Hq as [rest' [c' [Fr' [-> _]]]].
      rewrite !resolveSegs_pathOf in E;
        try (now apply app_not_nil); try (apply Forall_app; now split).
      apply app_inv_head in E. now rewrite E.
    - rewrite <- Hfiles. exact (filesBelow_NoDup (Dir es) dst Hve Hd Fd). }
  destruct (unlinkLoop files s Hv Hnd Hthere) as [f' [Hrun [Hv' [Hiff Hdir]]]].
  exists (mkState f' (builtFiles s) (currentCompile s) (stderr s) (calls s)).
  assert (Hdst' : exists es', stat cwd f' (pathOf dst) = Some (Dir es')).
  { unfold stat in *. exact (Hdir _ _ Es). }
  destruct Hdst' as [es' Es'].
  refine (conj _ (conj _ (conj _ (conj _ _)))).
  - unfold cleanDestination. rewrite Hclean, Hdst.
    unfold bind at 1. unfold get.
    assert (He : pathExists cwd (fs s) (pathOf dst) = true)
      by (unfold pathExists; now rewrite Es).
    rewrite He. unfold bind at 1. rewrite Hlist0. simpl. exact Hrun.
  - cbn [fs]. unfold getFilesRecursively. rewrite Es'. f_equal.
    destruct (filesBelow (pathOf dst) (Dir es')) as [|q l] eqn:El;
      [reflexivity|].
    exfalso.
    assert (Hq : In q (filesBelow (pathOf dst) (Dir es')))
      by (rewrite El; now left).
    assert (Hve' : validEntry (Dir es')).
    { unfold stat in Es'. exact (statSegs_valid _ _ _ Hv' Es'). }
    apply (filesBelow_spec (Dir es') dst Hve' Hd Fd) in Hq.
    destruct Hq as [rest [c [Fr [-> Hs]]]].
    assert (H1 : statSegs (Path.resolveSegs cwd (pathOf (dst ++ rest))) f'
                 = Some (File c)) by now rewrite Hstat, Es'.
    apply Hiff in H1. destruct H1 as [H1 Hn]. apply Hn.
    apply in_map. apply Hspec. exists rest, c.
    repeat split; [exact Fr|]. now rewrite Hstat, Es in H1.
  - intros p Hp. cbn [fs]. unfold fileExists, stat.
    destruct (statSegs (Path.resolveSegs cwd p) f') as [[c|sub]|] eqn:E;
      try reflexivity.
    apply Hiff in E. destruct E as [_ Hn]. exfalso. apply Hn.
    now apply in_map.
  - intros p content Hr Hn. cbn [fs].
    apply readText_holds. apply readText_holds in Hr.
    unfold holds, stat in *. apply Hiff. now split.
  - intros p Hp. cbn [fs]. unfold isDir, stat in *.
    destruct (statSegs (Path.resolveSegs cwd p) (fs s)) as [[c|d]|] eqn:E;
      try discriminate.
    destruct (Hdir _ _ E) as [d' ->]. reflexivity.
Qed.

End Cleaning.

Lemma staleSite_valid : validEntry (Dir staleSite).
Proof.
  simpl. repeat split; repeat constructor; simpl; intuition discriminate.
Qed.

Lemma cleaning_empties_the_destination_witness :
  exists s',
    cleanDestination "/w" cleanConfig (initialState staleSite) = Next tt s'
    /\ getFilesRecursively "/w" (fs s') (pathOf ["dist"]) = Ok []
    /\ (forall p, In p ["dist/old.html"; "dist/css/old.css"] ->
                  fileExists "/w" (fs s') p = false)
    /\ (forall p content,
          readText "/w" (fs (initialState staleSite)) p = Ok content ->
          ~ In (Path.resolveSegs "/w" p)
               (map (Path.resolveSegs "/w")
                    ["dist/old.html"; "dist/css/old.css"]) ->
          readText "/w" (fs s') p = Ok content)
    /\ (forall p, isDir "/w" (fs (initialState staleSite)) p = true ->
                  isDir "/w" (fs s') p = true).
Proof.
  apply (cleaning_empties_the_destination
           "/w" cleanConfig (initialState staleSite) ["dist"]
           ["dist/old.html"; "dist/css/old.css"]).
  - reflexivity.
  - reflexivity.
  - discriminate.
  - repeat constructor.
  - exact staleSite_valid.
  - vm_compute. reflexivity.
Defined.

(** ** Further properties: a reference to a file that is not there *)

Lemma transpileCSS_missing (cwd : string) (T : Tools) (f : FS)
    (pathname : string) (minify : bool) :
  fileExists cwd f pathname = false ->
  transpileCSS cwd T f pathname minify = Throw (pathname +++ " not found").
Proof. intros H. unfold transpileCSS. simpl. now rewrite H. Qed.

Lemma transpileJS_missing (cwd : string) (T : Tools) (f : FS)
    (pathname root : string) (minify : bool) :
  fileExists cwd f pathname = false ->
  transpileJS cwd T f pathname root minify
  = mkLogged [] (Throw (pathname +++ " not found")).
Proof. intros H. unfold transpileJS. now rewrite H. Qed.

(** X23 - A reference to a stylesheet or script that is not a file stops
    the build with status 1 and the two lines naming the path, nothing
    being stored, but only when its output path is not in the output
    map yet: when it is, the file is never looked for, the step goes on
    and the reference is rewritten like any other. *)
Theorem missing_asset_stops_the_build_unless_cached :
  forall (cwd : string) (T : Tools) (config : BSTConfig)
         (basePath : string) (html : Document) (path : string)
         (s : BuildState),
    fileExists cwd (fs s) path = false ->
    (inObj (cssBuiltPath path) (builtFiles s) = false ->
     exists s',
       compileCSS cwd T config basePath html path s = Stop Exit1 s'
       /\ stderr s'
          = stderr s ++ ["Error while compiling " +++ path;
                         path +++ " not found"]
       /\ builtFiles s' = builtFiles s /\ fs s' = fs s)
    /\ (inObj (jsBuiltPath path) (builtFiles s) = false ->
        exists s',
          compileJS cwd T config basePath html path s = Stop Exit1 s'
          /\ stderr s'
             = stderr s ++ ["Error while compiling " +++ path;
                            path +++ " not found"]
          /\ builtFiles s' = builtFiles s /\ fs s' = fs s)
    /\ (inObj (cssBuiltPath path) (builtFiles s) = true ->
        compileCSS cwd T config basePath html path s
        = Next (replaceCSSImports html (importDemapper cwd basePath path)
                  (importDemapper cwd basePath (cssBuiltPath path)))
               (withCurrent path s))
    /\ (inObj (jsBuiltPath path) (builtFiles s) = true ->
        compileJS cwd T config basePath html path s
        = Next (replaceJSImports html (importDemapper cwd basePath path)
                  (importDemapper cwd basePath (jsBuiltPath path)))
               (withCurrent path s)).
Proof.
  intros cwd T config basePath html path s Hmissing.
  refine (conj _ (conj _ (conj _ _))).
  - intros Hin. eexists. split.
    + apply compileCSS_failed; [exact Hin|].
      now apply transpileCSS_missing.
    + now repeat split.
  - intros Hin. eexists. split.
    + apply compileJS_failed; [exact Hin|].
      now rewrite (transpileJS_missing _ _ _ _ _ _ Hmissing).
    + rewrite (transpileJS_missing _ _ _ _ _ _ Hmissing).
      unfold failed, printed. simpl. now rewrite app_nil_r.
  - apply compileCSS_cached.
  - apply compileJS_cached.
Qed.

Lemma missing_asset_witness :
  exists s',
    compileCSS "/w" (Toy.tools Toy.defaults) defaultConfig "src"
      (Toy.parse "L:missing.scss") "src/missing.scss"
      (initialState Toy.brokenSite)
    = Stop Exit1 s'
    /\ stderr s'
       = stderr (initialState Toy.brokenSite)
         ++ ["Error while compiling " +++ "src/missing.scss";
             "src/missing.scss" +++ " not found"]
    /\ builtFiles s' = builtFiles (initialState Toy.brokenSite)
    /\ fs s' = fs (initialState Toy.brokenSite).
Proof.
  apply (proj1 (missing_asset_stops_the_build_unless_cached
                  "/w" (Toy.tools Toy.defaults) defaultConfig "src"
                  (Toy.parse "L:missing.scss") "src/missing.scss"
                  (initialState Toy.brokenSite) eq_refl)).
  reflexivity.
Defined.

(** ** Further properties: a reference that starts at the root *)

Lemma isName_not_dotdot (s : string) : isName s = true -> (s =? "..") = false.
Proof.
  intros H. apply isName_inv in H. destruct H as [_ [_ [H _]]].
  now apply String.eqb_neq.
Qed.

(** Climbing from below names: each [..] drops one name. *)
Lemma climb_pops (allow : bool) (n : nat) :
  forall stack : list string,
    Forall (fun s => isName s = true) stack ->
    n <= List.length stack ->
    fold_left (Path.normStep allow) (repeat ".." n) stack = skipn n stack.
Proof.
  induction n as [|n IH]; intros stack Fs Hn; [reflexivity|].
  destruct stack as [|top rest]; [simpl in Hn; lia|].
  inversion Fs as [|? ? Htop Frest]; subst.
  simpl repeat. cbn [fold_left skipn].
  assert (E : Path.normStep allow (top :: rest) ".." = rest).
  { unfold Path.normStep. simpl. now rewrite (isName_not_dotdot top Htop). }
  rewrite E. apply IH; [exact Frest | simpl in Hn; lia].
Qed.

(** Climbing above the start is kept when the path may climb... *)
Lemma climb_kept (m j : nat) :
  fold_left (Path.normStep true) (repeat ".." m) (repeat ".." j)
  = repeat ".." (m + j).
Proof.
  revert j. induction m as [|m IH]; intros j; [reflexivity|].
  simpl repeat. cbn [fold_left].
  assert (E : Path.normStep true (repeat ".." j) ".." = repeat ".." (S j)).
  { unfold Path.normStep. simpl. now destruct j. }
  rewrite E, IH. now replace (m + S j) with (S (m + j)) by lia.
Qed.

(** ... and dropped at the root. *)
Lemma climb_dropped (m : nat) :
  fold_left (Path.normStep false) (repeat ".." m) [] = [].
Proof. induction m as [|m IH]; [reflexivity | exact IH]. Qed.

Lemma rev_repeat {A : Type} (x : A) (n : nat) : rev (repeat x n) = repeat x n.
Proof.
  induction n as [|n IH]; [reflexivity|].
  simpl. rewrite IH. clear IH.
  induction n as [|n IH]; [reflexivity|]. simpl. now rewrite IH.
Qed.

Lemma normSegs_climb_relative (names rest : list string) (n : nat) :
  Forall (fun s => isName s = true) names ->
  Forall (fun s => isName s = true) rest ->
  List.length names <= n ->
  Path.normSegs true (names ++ repeat ".." n ++ rest)
  = repeat ".." (n - List.length names) ++ rest.
Proof.
  intros Fn Fr Hn. unfold Path.normSegs.
  rewrite fold_left_app, (fold_normStep_names true names []) by exact Fn.
  rewrite app_nil_r, fold_left_app.
  replace n with (List.length names + (n - List.length names)) at 1 by lia.
  rewrite repeat_app, fold_left_app.
  rewrite (climb_pops true (List.length names) (rev names));
    [| now apply Forall_rev | now rewrite length_rev].
  rewrite <- (length_rev names), skipn_all.
  rewrite (climb_kept _ 0), Nat.add_0_r, length_rev.
  rewrite fold_normStep_names by exact Fr.
  now rewrite rev_app_distr, rev_involutive, rev_repeat.
Qed.

Lemma normSegs_climb_absolute (names rest : list string) (n : nat) :
  Forall (fun s => isName s = true) names ->
  Forall (fun s => isName s = true) rest ->
  List.length names <= n ->
  Path.normSegs false (EmptyString :: names ++ repeat ".." n ++ rest) = rest.
Proof.
  intros Fn Fr Hn. unfold Path.normSegs. cbn [fold_left].
  change (Path.normStep false [] EmptyString) with (@nil string).
  rewrite fold_left_app, (fold_normStep_names false names []) by exact Fn.
  rewrite app_nil_r, fold_left_app.
  replace n with (List.length names + (n - List.length names)) at 1 by lia.
  rewrite repeat_app, fold_left_app.
  rewrite (climb_pops false (List.length names) (rev names));
    [| now apply Forall_rev | now rewrite length_rev].
  rewrite <- (length_rev names), skipn_all, climb_dropped.
  rewrite fold_normStep_names by exact Fr.
  now rewrite app_nil_r, rev_involutive.
Qed.

Lemma normSegs_root (names : list string) :
  Forall (fun s => isName s = true) names ->
  Path.normSegs false (EmptyString :: names) = names.
Proof.
  intros Fn.
  apply (normSegs_climb_absolute [] names 0);
    [constructor | exact Fn | simpl; lia].
Qed.

Lemma noSep_dotdot : noSep Path.slash "..".
Proof. repeat split. Qed.

Lemma segments_noSep (a rest : list string) (n : nat) :
  Forall (fun s => isName s = true) a ->
  Forall (fun s => isName s = true) rest ->
  Forall (noSep Path.slash) (a ++ repeat ".." n ++ rest).
Proof.
  intros Fa Fr. apply Forall_app. split; [now apply names_noSep|].
  apply Forall_app. split; [|now apply names_noSep].
  apply Forall_forall. intros x Hx. apply repeat_spec in Hx. subst x.
  exact noSep_dotdot.
Qed.

Lemma split_root (c : list string) :
  c <> [] -> Forall (fun s => isName s = true) c ->
  JS.split Path.slash ("/" +++ pathOf c) = EmptyString :: c.
Proof.
  intros Hc Fc. change ("/" +++ pathOf c) with (String Path.slash (pathOf c)).
  cbn [JS.split]. rewrite Ascii.eqb_refl. now rewrite split_pathOf.
Qed.

Lemma resolveSegs_root (cwd : string) (r : list string) :
  r <> [] -> Forall (fun s => isName s = true) r ->
  Path.resolveSegs cwd ("/" +++ pathOf r) = r.
Proof.
  intros Hr Fr. unfold Path.resolveSegs.
  change ("/" +++ pathOf r =? EmptyString) with false.
  change (Path.isAbsolute ("/" +++ pathOf r)) with true.
  cbv beta iota. rewrite split_root by assumption.
  now apply normSegs_root.
Qed.

Section RootReference.

Variable cwd : string.
Variable config : BSTConfig.
Variables c src dst r : list string.

Hypothesis cwd_names : cwd = "/" +++ pathOf c.
Hypothesis source_names : source config = pathOf src.
Hypothesis destination_names : destination config = pathOf dst.
Hypothesis c_some : c <> [].
Hypothesis src_some : src <> [].
Hypothesis dst_some : dst <> [].
Hypothesis r_some : r <> [].
Hypothesis c_valid : Forall (fun s => isName s = true) c.
Hypothesis src_valid : Forall (fun s => isName s = true) src.
Hypothesis dst_valid : Forall (fun s => isName s = true) dst.
Hypothesis r_valid : Forall (fun s => isName s = true) r.
Hypothesis not_deeper : List.length dst <= List.length src.
Hypothesis elsewhere : Path.common (c ++ src) r = 0.

Lemma relative_to_root :
  Path.relative cwd (pathOf src) ("/" +++ pathOf r)
  = pathOf (repeat ".." (List.length c + List.length src) ++ r).
Proof.
  unfold Path.relative.
  destruct (pathOf_nonempty src src_some src_valid) as [c0 [t0 [E0 Hc0]]].
  assert (Hne : (pathOf src =? "/" +++ pathOf r) = false).
  { apply String.eqb_neq. rewrite E0. intros E. injection E as E _.
    now apply Hc0. }
  rewrite Hne, resolveSegs_root by assumption.
  rewrite resolveSegs_pathOf by assumption.
  rewrite cwd_names, split_root by assumption.
  rewrite normSegs_root by assumption. rewrite elsewhere, Nat.sub_0_r, length_app.
  reflexivity.
Qed.

Lemma destination_of_root :
  destinationOf cwd config ("/" +++ pathOf r)
  = pathOf (repeat ".."
              (List.length c + List.length src - List.length dst) ++ r).
Proof.
  unfold destinationOf. rewrite source_names, destination_names.
  rewrite relative_to_root.
  set (n := List.length c + List.length src).
  assert (Hn : 1 <= n).
  { unfold n. destruct c; [congruence | simpl; lia]. }
  assert (Hups : repeat ".." n ++ r <> []).
  { destruct n; [lia | discriminate]. }
  destruct (pathOf_nonempty dst dst_some dst_valid) as [c0 [t0 [E0 Hc0]]].
  destruct (pathOf_nonempty r r_some r_valid) as [c1 [t1 [E1 Hc1]]].
  assert (Ejoin :
    pathOf dst +++ String Path.slash (pathOf (repeat ".." n ++ r))
    = pathOf (dst ++ repeat ".." n ++ r)).
  { symmetry. now apply pathOf_app. }
  assert (Etail : exists a, pathOf (dst ++ repeat ".." n ++ r)
                            = a +++ String c1 t1).
  { rewrite app_assoc, pathOf_app;
      [| now apply app_not_nil | exact r_some].
    rewrite E1.
    exists (pathOf (dst ++ repeat ".." n) +++ "/").
    now rewrite append_assoc. }
  unfold Path.join. cbn [filter].
  assert (N1 : (pathOf dst =? EmptyString) = false) by (rewrite E0; reflexivity).
  assert (N2 : (pathOf (repeat ".." n ++ r) =? EmptyString) = false).
  { destruct n as [|n']; [lia|]. simpl repeat.
    destruct (repeat ".." n' ++ r) as [|y l] eqn:El.
    - destruct n'; [simpl in El; congruence | discriminate El].
    - change ((".." :: repeat ".." n') ++ r) with (".." :: (repeat ".." n' ++ r)).
      rewrite El. reflexivity. }
  rewrite N1, N2. cbn [negb JS.join].
  change (pathOf dst +++ "/" +++ pathOf (repeat ".." n ++ r))
    with (pathOf dst +++ String Path.slash (pathOf (repeat ".." n ++ r))).
  rewrite Ejoin.
  unfold Path.normalize.
  assert (N3 : (pathOf (dst ++ repeat ".." n ++ r) =? EmptyString) = false).
  { rewrite <- Ejoin, E0. reflexivity. }
  assert (N4 : Path.isAbsolute (pathOf (dst ++ repeat ".." n ++ r)) = false).
  { rewrite <- Ejoin, E0.
    change (Path.isAbsolute (String c0 t0 +++ _))
      with (Ascii.eqb Path.slash c0 && true).
    destruct (Ascii.eqb_spec Path.slash c0) as [<-|]; [|reflexivity].
    exfalso. now apply Hc0. }
  assert (N5 : JS.endsWith "/" (pathOf (dst ++ repeat ".." n ++ r)) = false).
  { destruct Etail as [a ->]. rewrite endsWith_slash_suffix, <- E1.
    now apply endsWith_slash_pathOf. }
  rewrite N3, N4, N5. cbn [negb].
  unfold Path.normalizeString.
  rewrite (split_join Path.slash);
    [| now apply app_not_nil | now apply segments_noSep].
  rewrite normSegs_climb_relative by (assumption || (unfold n; lia)).
  fold (pathOf (repeat ".." (n - List.length dst) ++ r)).
  assert (N6 : (pathOf (repeat ".." (n - List.length dst) ++ r)
                =? EmptyString) = false).
  { destruct (n - List.length dst) as [|m].
    - simpl. rewrite E1. reflexivity.
    - simpl repeat.
      destruct (repeat ".." m ++ r) as [|y l] eqn:El.
      + destruct m; [simpl in El; congruence | discriminate El].
      + change ((".." :: repeat ".." m) ++ r)
          with (".." :: (repeat ".." m ++ r)).
        rewrite El. reflexivity. }
  now rewrite N6.
Qed.

Lemma destination_resolves_to_root :
  Path.resolveSegs cwd (destinationOf cwd config ("/" +++ pathOf r)) = r.
Proof.
  rewrite destination_of_root.
  set (m := List.length c + List.length src - List.length dst).
  assert (Hc1 : 1 <= List.length c)
    by (destruct c; [congruence | simpl; lia]).
  assert (Hm : List.length c <= m) by (unfold m; lia).
  destruct m as [|m']; [lia|].
  unfold Path.resolveSegs.
  assert (Hp : exists t, pathOf (repeat ".." (S m') ++ r) = String "." t).
  { simpl repeat.
    destruct (repeat ".." m' ++ r) as [|y l] eqn:El.
    - destruct m'; [simpl in El; congruence | discriminate El].
    - change ((".." :: repeat ".." m') ++ r)
        with (".." :: (repeat ".." m' ++ r)).
      rewrite El. now eexists. }
  destruct Hp as [t Hp].
  assert (N1 : (pathOf (repeat ".." (S m') ++ r) =? EmptyString) = false)
    by (rewrite Hp; reflexivity).
  assert (N2 : Path.isAbsolute (pathOf (repeat ".." (S m') ++ r)) = false)
    by (rewrite Hp; reflexivity).
  rewrite N1, N2.
  change (cwd +++ "/" +++ pathOf (repeat ".." (S m') ++ r))
    with (cwd +++ String Path.slash (pathOf (repeat ".." (S m') ++ r))).
  rewrite split_app, cwd_names, split_root by assumption.
  rewrite (split_join Path.slash);
    [| discriminate
     | apply (segments_noSep [] r (S m')); [constructor | exact r_valid]].
  apply normSegs_climb_absolute; assumption.
Qed.

(** X24 - A reference that starts with a slash is taken as a path from
    the root of the file system, not of the site, and its output leaves
    the destination tree: when the destination is no deeper than the
    source and the reference shares no leading directory with the
    source directory, the place the output is written to is the
    reference's own path from the root. *)
Theorem root_reference_is_written_outside_the_destination :
  (forall base,
      importMapper base ("/" +++ pathOf r) = "/" +++ pathOf r)
  /\ Path.resolveSegs cwd (destinationOf cwd config ("/" +++ pathOf r))
     = Path.resolveSegs cwd ("/" +++ pathOf r)
  /\ (forall content s s',
        writeBuilt cwd config ("/" +++ pathOf r, content) s = Next tt s' ->
        readText cwd (fs s') ("/" +++ pathOf r) = Ok content).
Proof.
  refine (conj _ (conj _ _)).
  - intros base. reflexivity.
  - rewrite destination_resolves_to_root.
    symmetry. now apply resolveSegs_root.
  - intros content s s' Hw.
    pose proof (hoare_next _ _ _ _ s s' tt
                  (writeBuilt_writes cwd config ("/" +++ pathOf r, content))
                  I Hw) as H.
    apply readText_holds. unfold holds, stat in *. cbn [fst snd] in H.
    rewrite destination_resolves_to_root in H.
    now rewrite resolveSegs_root.
Qed.

End RootReference.

Lemma root_reference_witness :
  Path.resolveSegs "/w"
    (destinationOf "/w" defaultConfig ("/" +++ pathOf ["css"; "x.css"]))
  = Path.resolveSegs "/w" ("/" +++ pathOf ["css"; "x.css"]).
Proof.
  refine (proj1 (proj2
    (root_reference_is_written_outside_the_destination
       "/w" defaultConfig ["w"] ["src"] ["dist"] ["css"; "x.css"]
       _ _ _ _ _ _ _ _ _ _ _ _ _))); try reflexivity; try discriminate;
    try (repeat constructor).
Defined.

(** ** Further properties: the documents the build loops over *)

Lemma listed_file_is_read (cwd : string) (f : FS) (dir : list string)
    (files : list string) (p : string) :
  validEntry (Dir f) ->
  dir <> [] -> Forall (fun s => isName s = true) dir ->
  getFilesRecursively cwd f (pathOf dir) = Ok files ->
  In p files -> exists content, readText cwd f p = Ok content.
Proof.
  intros Hv Hd Fd Hg Hp. unfold getFilesRecursively in Hg.
  destruct (stat cwd f (pathOf dir)) as [[c0|es]|] eqn:Es; try discriminate.
  injection Hg as Hfiles.
  assert (Hve : validEntry (Dir es)).
  { unfold stat in Es. exact (statSegs_valid _ _ _ Hv Es). }
  rewrite <- Hfiles in Hp.
  apply (filesBelow_spec (Dir es) dir Hve Hd Fd p) in Hp.
  destruct Hp as [rest [c [Fr [-> Hs]]]]. exists c.
  apply readText_holds. unfold holds.
  now rewrite stat_pathOf, Es by assumption.
Qed.

(** X25 - Every document the build loops over can be loaded: a path
    [getFilesMatching] returns for the source directory is a file that
    is there, so [getHTML] does not fail on it and returns the parsed
    text with its class attributes normalized. The matcher returns some
    of the paths it is given. *)
Theorem documents_found_can_be_loaded :
  forall (cwd : string) (T : Tools) (f : FS) (dir : list string)
         (glob : string) (files htmlFiles : list string) (htmlPath : string),
    validEntry (Dir f) ->
    dir <> [] -> Forall (fun s => isName s = true) dir ->
    getFilesRecursively cwd f (pathOf dir) = Ok files ->
    incl (micromatch T files glob) files ->
    getFilesMatching cwd T f (pathOf dir) glob = Ok htmlFiles ->
    In htmlPath htmlFiles ->
    exists text,
      readText cwd f htmlPath = Ok text
      /\ getHTML cwd T f htmlPath
         = Ok (normalizeClasses (parseDocument T text)).
Proof.
  intros cwd T f dir glob files htmlFiles htmlPath Hv Hd Fd Hg Hincl Hm Hin.
  assert (Hsame : forall file, In file files ->
            Path.join [pathOf dir; Path.relative cwd (pathOf dir) file]
            = file).
  { intros file Hfile. pose proof Hg as Hg'.
    unfold getFilesRecursively in Hg'.
    destruct (stat cwd f (pathOf dir)) as [[c0|es]|] eqn:Es;
      try discriminate.
    injection Hg' as Hfiles.
    assert (Hve : validEntry (Dir es)).
    { unfold stat in Es. exact (statSegs_valid _ _ _ Hv Es). }
    rewrite <- Hfiles in Hfile.
    apply (filesBelow_spec (Dir es) dir Hve Hd Fd file) in Hfile.
    destruct Hfile as [rest [c [Fr [-> Hs]]]].
    assert (Hr : rest <> []) by (intros ->; discriminate).
    rewrite relative_below by assumption.
    now apply join_pathOf. }
  unfold getFilesMatching in Hm. rewrite Hg in Hm. injection Hm as <-.
  apply in_map_iff in Hin. destruct Hin as [file [E Hfile]].
  apply Hincl in Hfile. rewrite (Hsame file Hfile) in E. subst file.
  destruct (listed_file_is_read cwd f dir files htmlPath Hv Hd Fd Hg Hfile)
    as [text Ht].
  exists text. split; [exact Ht|].
  unfold getHTML.
  assert (He : fileExists cwd f htmlPath = true).
  { unfold fileExists. unfold readText in Ht.
    now destruct (stat cwd f htmlPath) as [[c|sub]|]. }
  now rewrite He, Ht.
Qed.

Lemma documents_found_witness :
  exists text,
    readText "/w" nestedSite "src/index.html" = Ok text
    /\ getHTML "/w" (Toy.tools Toy.defaults) nestedSite "src/index.html"
       = Ok (normalizeClasses (parseDocument (Toy.tools Toy.defaults) text)).
Proof.
  apply (documents_found_can_be_loaded
           "/w" (Toy.tools Toy.defaults) nestedSite ["src"] "**/*.html"
           ["src/index.html"; "src/css/main.scss"; "src/img/logo.png"]
           ["src/index.html"] "src/index.html").
  - exact nestedSite_valid.
  - discriminate.
  - repeat constructor.
  - vm_compute. reflexivity.
  - intros x Hx. vm_compute in Hx. destruct Hx as [<-|[]]. now left.
  - vm_compute. reflexivity.
  - now left.
Defined.

(** ** Further properties: which files the last loop copies *)

Lemma noSep_list (sep : ascii) (s : string) :
  noSep sep s <-> Forall (fun c => Ascii.eqb c sep = false)
                         (list_ascii_of_string s).
Proof.
  induction s as [|c r IH]; simpl.
  - split; [constructor | trivial].
  - rewrite IH. split.
    + intros [H1 H2]. now constructor.
    + intros H. inversion H; subst. now split.
Qed.

Lemma spanName_app (l rest : list ascii) :
  Forall (fun c => Ascii.eqb c Path.slash = false) l ->
  Path.spanName (l ++ rest)
  = (l ++ fst (Path.spanName rest), snd (Path.spanName rest)).
Proof.
  intros H. induction H as [|c l Hc Hl IH]; simpl.
  - now destruct (Path.spanName rest).
  - now rewrite Hc, IH.
Qed.

Lemma spanExt_app (l rest : list ascii) :
  Forall (fun c => Ascii.eqb c Path.dot = false) l ->
  Path.spanExt (l ++ Path.dot :: rest) = Some (l ++ [Path.dot], rest).
Proof.
  intros H. induction H as [|c l Hc Hl IH]; simpl.
  - reflexivity.
  - now rewrite Hc, IH.
Qed.

Lemma rev_list_ascii (s : string) :
  rev (list_ascii_of_string s) = list_ascii_of_string (JS.rev_string s).
Proof.
  unfold JS.rev_string. now rewrite list_ascii_of_string_of_list_ascii.
Qed.

Lemma string_length_list (l : list ascii) :
  String.length (string_of_list_ascii l) = List.length l.
Proof. induction l; simpl; congruence. Qed.

(** The extension of a path whose last component is a non-empty stem,
    a dot and an extension without a dot. *)
Lemma extname_stem_ext (dir stem ext : string) :
  dir = EmptyString \/ JS.endsWith "/" dir = true ->
  stem <> EmptyString -> ext <> EmptyString ->
  noSep Path.slash stem -> noSep Path.slash ext -> noSep Path.dot ext ->
  Path.extname (dir +++ stem +++ "." +++ ext) = "." +++ ext.
Proof.
  intros Hdir Hstem Hext Ss Se De. unfold Path.extname.
  rewrite !list_ascii_app, !rev_app_distr, <- !app_assoc.
  change (rev (list_ascii_of_string ".")) with [Path.dot].
  cbn [app].
  apply noSep_list in Ss, Se, De.
  apply Forall_rev in Ss, Se, De.
  set (E := rev (list_ascii_of_string ext)) in *.
  set (S0 := rev (list_ascii_of_string stem)) in *.
  set (D := rev (list_ascii_of_string dir)) in *.
  assert (HE : E <> []).
  { unfold E. intros H. apply (f_equal (@List.length ascii)) in H.
    rewrite length_rev in H. destruct ext; [congruence | discriminate]. }
  assert (HS : S0 <> []).
  { unfold S0. intros H. apply (f_equal (@List.length ascii)) in H.
    rewrite length_rev in H. destruct stem; [congruence | discriminate]. }
  assert (Hdrop : Path.dropSlashes (E ++ Path.dot :: S0 ++ D)
                  = E ++ Path.dot :: S0 ++ D).
  { destruct E as [|e0 E']; [congruence|].
    inversion Se as [|? ? He0 _]; subst. simpl. now rewrite He0. }
  rewrite Hdrop.
  assert (HD : fst (Path.spanName D) = []).
  { destruct Hdir as [Hd|Hd].
    - unfold D. now rewrite Hd.
    - unfold JS.endsWith in Hd. apply startsWith_inv in Hd.
      destruct Hd as [t Hd]. unfold D. rewrite rev_list_ascii, Hd.
      reflexivity. }
  assert (Hname : Path.spanName (E ++ Path.dot :: S0 ++ D)
                  = (E ++ Path.dot :: S0, snd (Path.spanName D))).
  { replace (E ++ Path.dot :: S0 ++ D) with ((E ++ Path.dot :: S0) ++ D)
      by (now rewrite <- app_assoc).
    rewrite spanName_app, HD, app_nil_r; [reflexivity|].
    apply Forall_app. split; [exact Se|]. now constructor. }
  rewrite Hname, spanExt_app by exact De.
  destruct S0 as [|s0 S']; [congruence|].
  assert (Hdd : (string_of_list_ascii (rev (E ++ Path.dot :: s0 :: S'))
                 =? "..") = false).
  { apply String.eqb_neq. intros Heq.
    apply (f_equal String.length) in Heq.
    rewrite string_length_list, length_rev, length_app in Heq.
    destruct E; [congruence | simpl in Heq; lia]. }
  rewrite Hdd, rev_app_distr. simpl rev. cbn [app].
  unfold E. rewrite rev_involutive. cbn [string_of_list_ascii].
  now rewrite string_of_list_ascii_of_string.
Qed.

Lemma endsWith_dot_ext (suffix ext : string) :
  noSep Path.dot ext -> noSep Path.dot suffix ->
  JS.endsWith ("." +++ suffix) ("." +++ ext) = (ext =? suffix).
Proof.
  intros De Ds. destruct (String.eqb_spec ext suffix) as [->|Hne].
  - apply (endsWith_app EmptyString).
  - destruct (JS.endsWith ("." +++ suffix) ("." +++ ext)) eqn:E;
      [|reflexivity].
    exfalso. apply endsWith_inv in E. destruct E as [pre E].
    destruct pre as [|p0 pre'].
    + simpl in E. injection E as E. now apply Hne.
    + simpl in E. injection E as _ E.
      assert (Hdot : ~ noSep Path.dot (pre' +++ String Path.dot suffix)).
      { clear. induction pre' as [|x r IH]; simpl.
        - intros [H _]. discriminate H.
        - intros [_ H]. now apply IH. }
      apply Hdot. rewrite E in De. exact De.
Qed.

(** X26 - Which files the last loop copies: a file whose name is a
    non-empty stem, a dot and an extension without a dot is left out
    exactly when the extension is html, sass, scss, ts or tsx, whatever
    its directory; every other such file (css, js, images, ...) is
    copied. *)
Theorem copy_filter_goes_by_the_last_extension :
  forall dir stem ext : string,
    dir = EmptyString \/ JS.endsWith "/" dir = true ->
    stem <> EmptyString -> ext <> EmptyString ->
    noSep Path.slash stem -> noSep Path.slash ext -> noSep Path.dot ext ->
    isBuildSource (dir +++ stem +++ "." +++ ext)
    = JS.mem ext ["html"; "sass"; "scss"; "ts"; "tsx"].
Proof.
  intros dir stem ext Hdir Hstem Hext Ss Se De.
  unfold isBuildSource.
  rewrite (extname_stem_ext dir stem ext) by assumption.
  rewrite (endsWith_dot_ext "html"), (endsWith_dot_ext "sass"),
          (endsWith_dot_ext "scss"), (endsWith_dot_ext "ts"),
          (endsWith_dot_ext "tsx");
    try exact De; try (repeat split).
  unfold JS.mem. cbn [existsb]. now rewrite orb_false_r, !orb_assoc.
Qed.

Lemma copy_filter_witness :
  isBuildSource ("src/" +++ "index.d" +++ "." +++ "ts")
  = JS.mem "ts" ["html"; "sass"; "scss"; "ts"; "tsx"].
Proof.
  apply (copy_filter_goes_by_the_last_extension "src/" "index.d" "ts");
    try discriminate; try (repeat split).
  now right.
Defined.

(** ** Path arithmetic on arbitrary segments *)

Lemma noSep_noSlash (s : string) : noSep Path.slash s -> noSlash s = true.
Proof.
  induction s as [|c r IH]; simpl; [reflexivity|].
  intros [E H]. rewrite E. simpl. auto.
Qed.

(** A segment between two slashes is empty, [.], [..] or a name. *)
Lemma segment_cases (s : string) :
  noSep Path.slash s ->
  s = EmptyString \/ s = "." \/ s = ".." \/ isName s = true.
Proof.
  intros H. unfold isName. rewrite (noSep_noSlash s H).
  destruct (String.eqb_spec s EmptyString) as [E|_]; [now left|].
  destruct (String.eqb_spec s ".") as [E|_]; [now right; left|].
  destruct (String.eqb_spec s "..") as [E|_]; [now right; right; left|].
  now right; right; right.
Qed.

Lemma skipn_S_nil {A : Type} (k : nat) (l : list A) :
  skipn k l = [] -> skipn (S k) l = [].
Proof.
  revert l. induction k as [|k IH]; intros l H.
  - simpl in H. now subst l.
  - destruct l as [|x r]; [reflexivity|]. simpl in H. now apply IH.
Qed.

Lemma skipn_S_cons {A : Type} (k : nat) (l : list A) (x : A) (r : list A) :
  skipn k l = x :: r -> skipn (S k) l = r.
Proof.
  revert l. induction k as [|k IH]; intros l H.
  - simpl in H. now subst l.
  - destruct l as [|y t]; [discriminate|]. simpl in H. now apply IH.
Qed.

Lemma Forall_skipn {A : Type} (P : A -> Prop) (k : nat) (l : list A) :
  Forall P l -> Forall P (skipn k l).
Proof.
  revert l. induction k as [|k IH]; intros l H; [exact H|].
  destruct l as [|x r]; [constructor|]. inversion H; subst. now apply IH.
Qed.

(** At the root or below names, one more [..] drops one more name. *)
Lemma climb_below (k : nat) (stack : list string) :
  Forall (fun s => isName s = true) stack ->
  Path.normStep false (skipn k stack) ".." = skipn (S k) stack.
Proof.
  intros F. pose proof (Forall_skipn _ k stack F) as Fk.
  destruct (skipn k stack) as [|top rest] eqn:E.
  - now rewrite (skipn_S_nil k stack E).
  - rewrite (skipn_S_cons k stack top rest E).
    inversion Fk as [|? ? Htop _]; subst.
    unfold Path.normStep. simpl. now rewrite (isName_not_dotdot top Htop).
Qed.

Lemma climb_above (k : nat) :
  Path.normStep true (repeat ".." k) ".." = repeat ".." (S k).
Proof. unfold Path.normStep. simpl. now destruct k. Qed.

(** What [normalizeString] has kept after some segments: names, most
    recent first, above [k] times [..] when the path may climb, and
    above a stack that has lost [k] names when it may not. *)
Lemma fold_normStep_segments (l : list string) :
  Forall (noSep Path.slash) l ->
  exists (k : nat) (kept : list string),
    Forall (fun s => isName s = true) kept
    /\ fold_left (Path.normStep true) l [] = kept ++ repeat ".." k
    /\ forall stack,
         Forall (fun s => isName s = true) stack ->
         fold_left (Path.normStep false) l stack = kept ++ skipn k stack.
Proof.
  induction l as [|x l IH] using rev_ind; intros F.
  - exists 0, []. repeat split; auto.
  - apply Forall_app in F. destruct F as [Fl Fx].
    inversion Fx as [|? ? Hx _]; subst.
    destruct (IH Fl) as [k [kept [Fk [Ht Hf]]]].
    destruct (segment_cases x Hx) as [->|[->|[->|Hn]]].
    + exists k, kept. split; [exact Fk|]. split.
      * now rewrite fold_left_app, Ht.
      * intros stack Fs. now rewrite fold_left_app, (Hf stack Fs).
    + exists k, kept. split; [exact Fk|]. split.
      * now rewrite fold_left_app, Ht.
      * intros stack Fs. now rewrite fold_left_app, (Hf stack Fs).
    + destruct kept as [|top rest].
      * exists (S k), []. split; [constructor|]. split.
        -- rewrite fold_left_app, Ht. simpl app. cbn [fold_left].
           apply climb_above.
        -- intros stack Fs. rewrite fold_left_app, (Hf stack Fs).
           simpl app. cbn [fold_left]. now apply climb_below.
      * inversion Fk as [|? ? Htop Frest]; subst.
        exists k, rest. split; [exact Frest|]. split.
        -- rewrite fold_left_app, Ht. cbn [fold_left].
           unfold Path.normStep. simpl.
           now rewrite (isName_not_dotdot top Htop).
        -- intros stack Fs. rewrite fold_left_app, (Hf stack Fs).
           cbn [fold_left]. unfold Path.normStep. simpl.
           now rewrite (isName_not_dotdot top Htop).
    + exists k, (x :: kept). split; [now constructor|]. split.
      * rewrite fold_left_app, Ht. cbn [fold_left].
        now rewrite normStep_name.
      * intros stack Fs. rewrite fold_left_app, (Hf stack Fs).
        cbn [fold_left]. now rewrite normStep_name.
Qed.

Lemma fold_normStep_false_names (l stack : list string) :
  Forall (noSep Path.slash) l ->
  Forall (fun s => isName s = true) stack ->
  Forall (fun s => isName s = true) (fold_left (Path.normStep false) l stack).
Proof.
  intros Fl Fs. destruct (fold_normStep_segments l Fl) as [k [kept [Fk [_ H]]]].
  rewrite (H stack Fs). apply Forall_app. split; [exact Fk|].
  now apply Forall_skipn.
Qed.

(** Any number of [..] from below names. *)
Lemma climb_pops_any (n : nat) :
  forall stack : list string,
    Forall (fun s => isName s = true) stack ->
    fold_left (Path.normStep false) (repeat ".." n) stack = skipn n stack.
Proof.
  induction n as [|n IH]; intros stack Fs; [reflexivity|].
  simpl repeat. cbn [fold_left].
  pose proof (climb_below 0 stack Fs) as E.
  change (skipn 0 stack) with stack in E. rewrite E.
  rewrite IH by now apply (Forall_skipn _ 1).
  destruct stack as [|top rest]; [now rewrite skipn_nil|reflexivity].
Qed.

(** Normalizing a relative path first does not change where it leads
    from below names. *)
Lemma fold_normStep_normSegs (l stack : list string) :
  Forall (noSep Path.slash) l ->
  Forall (fun s => isName s = true) stack ->
  fold_left (Path.normStep false) (Path.normSegs true l) stack
  = fold_left (Path.normStep false) l stack.
Proof.
  intros Fl Fs.
  destruct (fold_normStep_segments l Fl) as [k [kept [Fk [Ht Hf]]]].
  unfold Path.normSegs. rewrite Ht, (Hf stack Fs).
  rewrite rev_app_distr, rev_repeat, fold_left_app.
  rewrite (climb_pops_any k stack Fs).
  rewrite fold_normStep_names by now apply Forall_rev.
  now rewrite rev_involutive.
Qed.

(** ** [path.normalize] on arbitrary paths *)

Lemma isName_solid (s : string) : isName s = true -> solid s.
Proof.
  intros H. apply isName_inv in H. destruct H as [H1 [_ [_ H2]]].
  split; [exact H1 | now apply noSlash_noSep].
Qed.

Lemma solid_dotdot : solid "..".
Proof. split; [discriminate | exact noSep_dotdot]. Qed.

Lemma Forall_repeat {A : Type} (P : A -> Prop) (x : A) (n : nat) :
  P x -> Forall P (repeat x n).
Proof. intros H. induction n; simpl; auto. Qed.

(** What [normalizeString] returns is made of names, after some [..]
    when the path may climb. *)
Lemma normSegs_shape (allow : bool) (l : list string) :
  Forall (noSep Path.slash) l ->
  exists (k : nat) (names : list string),
    Forall (fun s => isName s = true) names
    /\ Path.normSegs allow l = repeat ".." k ++ names
    /\ (allow = false -> k = 0).
Proof.
  intros F. destruct (fold_normStep_segments l F) as [k [kept [Fk [Ht Hf]]]].
  destruct allow.
  - exists k, (rev kept). split; [now apply Forall_rev|]. split.
    + unfold Path.normSegs. now rewrite Ht, rev_app_distr, rev_repeat.
    + discriminate.
  - exists 0, (rev kept). split; [now apply Forall_rev|]. split; [|reflexivity].
    unfold Path.normSegs. rewrite (Hf [] (Forall_nil _)).
    now rewrite skipn_nil, app_nil_r.
Qed.

Lemma normSegs_solid (allow : bool) (l : list string) :
  Forall (noSep Path.slash) l -> Forall solid (Path.normSegs allow l).
Proof.
  intros F. destruct (normSegs_shape allow l F) as [k [names [Fn [E _]]]].
  rewrite E. apply Forall_app. split.
  - apply Forall_repeat. exact solid_dotdot.
  - eapply Forall_impl; [|exact Fn]. exact isName_solid.
Qed.

Lemma normSegs_false_names (l : list string) :
  Forall (noSep Path.slash) l ->
  Forall (fun s => isName s = true) (Path.normSegs false l).
Proof.
  intros F. destruct (normSegs_shape false l F) as [k [names [Fn [E Hk]]]].
  rewrite E, (Hk eq_refl). exact Fn.
Qed.

Lemma solid_noSep (l : list string) :
  Forall solid l -> Forall (noSep Path.slash) l.
Proof. intros H. eapply Forall_impl; [|exact H]. now intros s [_ Hs]. Qed.

Lemma join_solid_head (l : list string) :
  l <> [] -> Forall solid l ->
  exists c r, JS.join "/" l = String c r /\ c <> Path.slash.
Proof.
  intros Hl H. destruct l as [|x l']; [congruence|].
  inversion H as [|? ? [Hne Hs] _]; subst.
  destruct x as [|c x']; [congruence|].
  destruct Hs as [Hc _]. apply Ascii.eqb_neq in Hc.
  destruct l'; simpl; eexists _, _; (split; [reflexivity | exact Hc]).
Qed.

Lemma join_solid_nonempty (l : list string) :
  l <> [] -> Forall solid l -> (JS.join "/" l =? EmptyString) = false.
Proof.
  intros Hl H. destruct (join_solid_head l Hl H) as [c [r [E _]]].
  now rewrite E.
Qed.

Lemma endsWith_slash_join (l : list string) :
  l <> [] -> Forall solid l -> JS.endsWith "/" (JS.join "/" l) = false.
Proof.
  intros Hl H. induction l as [|x r IH]; [congruence|].
  inversion H as [|? ? [Hne Hs] Hr]; subst.
  destruct r as [|y r'].
  - simpl. apply endsWith_slash_name; [exact Hne | now apply noSep_noSlash].
  - change (JS.join "/" (x :: y :: r'))
      with (x +++ String Path.slash (JS.join "/" (y :: r'))).
    destruct (join_solid_head (y :: r')) as [c [t [E _]]];
      [discriminate | assumption |].
    rewrite E.
    change (x +++ String Path.slash (String c t))
      with (x +++ String Path.slash EmptyString +++ String c t).
    rewrite <- append_assoc, endsWith_slash_suffix, <- E.
    apply IH; [discriminate | assumption].
Qed.

Lemma append_nil_r (s : string) : s +++ EmptyString = s.
Proof. induction s; simpl; congruence. Qed.

(** The two shapes of a normalized path: nothing is left of it, or the
    segments that are left are joined, behind the root's slash if the
    path is absolute and before a slash if it ended with one. *)
Lemma normalize_cases (p : string) :
  p <> EmptyString ->
  (Path.normSegs (negb (Path.isAbsolute p)) (JS.split Path.slash p) = []
   /\ Path.normalize p
      = if Path.isAbsolute p then "/"
        else if JS.endsWith "/" p then "./" else ".")
  \/ (Path.normSegs (negb (Path.isAbsolute p)) (JS.split Path.slash p) <> []
      /\ Path.normalize p
         = (if Path.isAbsolute p then "/" else EmptyString)
           +++ JS.join "/"
                 (Path.normSegs (negb (Path.isAbsolute p))
                    (JS.split Path.slash p))
           +++ (if JS.endsWith "/" p then "/" else EmptyString)).
Proof.
  intros Hp. apply String.eqb_neq in Hp.
  unfold Path.normalize, Path.normalizeString. rewrite Hp.
  pose proof (normSegs_solid (negb (Path.isAbsolute p))
                (JS.split Path.slash p) (split_noSep _ _)) as Fs.
  destruct (Path.normSegs (negb (Path.isAbsolute p)) (JS.split Path.slash p))
    as [|x r] eqn:E.
  - left. split; reflexivity.
  - right. split; [discriminate|].
    rewrite (join_solid_nonempty (x :: r)) by (discriminate || assumption).
    destruct (Path.isAbsolute p), (JS.endsWith "/" p);
      cbn [String.append]; rewrite ?append_nil_r; reflexivity.
Qed.

Lemma isAbsolute_normalize (p : string) :
  p <> EmptyString ->
  Path.isAbsolute (Path.normalize p) = Path.isAbsolute p.
Proof.
  intros Hp.
  pose proof (normSegs_solid (negb (Path.isAbsolute p))
                (JS.split Path.slash p) (split_noSep _ _)) as Fs.
  destruct (normalize_cases p Hp) as [[_ ->]|[Hn ->]].
  - now destruct (Path.isAbsolute p), (JS.endsWith "/" p).
  - destruct (Path.isAbsolute p); [reflexivity|].
    cbn [String.append].
    destruct (join_solid_head _ Hn Fs) as [c [r [E Hc]]].
    rewrite E. cbn [String.append].
    change (Path.isAbsolute (String c (r +++ _)))
      with (Ascii.eqb Path.slash c && true).
    destruct (Ascii.eqb_spec Path.slash c) as [<-|]; [|reflexivity].
    exfalso. now apply Hc.
Qed.

Lemma normalize_nonempty (p : string) : Path.normalize p <> EmptyString.
Proof.
  destruct (String.eqb_spec p EmptyString) as [->|Hp]; [discriminate|].
  pose proof (normSegs_solid (negb (Path.isAbsolute p))
                (JS.split Path.slash p) (split_noSep _ _)) as Fs.
  destruct (normalize_cases p Hp) as [[_ ->]|[Hn ->]].
  - now destruct (Path.isAbsolute p), (JS.endsWith "/" p).
  - destruct (Path.isAbsolute p); [discriminate|].
    destruct (join_solid_head _ Hn Fs) as [c [r [E Hc]]].
    rewrite E. discriminate.
Qed.

(** The segments of a normalized path: those [normalizeString] kept,
    behind the empty segment of the root, and before segments that are
    empty or [.]. *)
Lemma split_normalize (p : string) :
  p <> EmptyString ->
  exists tail,
    Forall (fun s => s = EmptyString \/ s = ".") tail
    /\ JS.split Path.slash (Path.normalize p)
       = (if Path.isAbsolute p then [EmptyString] else [])
         ++ Path.normSegs (negb (Path.isAbsolute p)) (JS.split Path.slash p)
         ++ tail.
Proof.
  intros Hp.
  pose proof (normSegs_solid (negb (Path.isAbsolute p))
                (JS.split Path.slash p) (split_noSep _ _)) as Fs.
  destruct (normalize_cases p Hp) as [[-> ->]|[Hn ->]].
  - destruct (Path.isAbsolute p); [|destruct (JS.endsWith "/" p)].
    + exists [EmptyString]. split; [|reflexivity].
      constructor; [now left | constructor].
    + exists ["."; EmptyString]. split; [|reflexivity].
      constructor; [now right | constructor; [now left | constructor]].
    + exists ["."]. split; [|reflexivity].
      constructor; [now right | constructor].
  - set (segs := Path.normSegs (negb (Path.isAbsolute p))
                   (JS.split Path.slash p)) in *.
    assert (Hs : JS.split Path.slash (JS.join "/" segs) = segs)
      by (apply (split_join Path.slash); [exact Hn | now apply solid_noSep]).
    assert (Ht : exists tail,
               Forall (fun s => s = EmptyString \/ s = ".") tail
               /\ JS.split Path.slash
                    (JS.join "/" segs
                     +++ (if JS.endsWith "/" p then "/" else EmptyString))
                  = segs ++ tail).
    { destruct (JS.endsWith "/" p).
      - exists [EmptyString].
        split; [constructor; [now left | constructor]|].
        change (JS.join "/" segs +++ "/")
          with (JS.join "/" segs +++ String Path.slash EmptyString).
        rewrite split_app.
        exact (f_equal (fun l => l ++ [EmptyString]) Hs).
      - exists []. split; [constructor|].
        now rewrite append_nil_r, app_nil_r. }
    destruct Ht as [tail [Ft Et]]. exists tail. split; [exact Ft|].
    destruct (Path.isAbsolute p).
    + change ("/" +++ ?x) with (String Path.slash x).
      cbn [JS.split]. rewrite Ascii.eqb_refl. now rewrite Et.
    + exact Et.
Qed.

Lemma fold_normStep_tail (allow : bool) (tail stack : list string) :
  Forall (fun s => s = EmptyString \/ s = ".") tail ->
  fold_left (Path.normStep allow) tail stack = stack.
Proof.
  intros F. revert stack. induction F as [|x r [->| ->] _ IH]; intros stack;
    [reflexivity | exact (IH stack) | exact (IH stack)].
Qed.

(** Resolving a path and resolving its normal form lead to the same
    place. *)
Lemma resolveSegs_normalize (cwd p : string) :
  p <> EmptyString ->
  Path.resolveSegs cwd (Path.normalize p) = Path.resolveSegs cwd p.
Proof.
  intros Hp. unfold Path.resolveSegs.
  pose proof (normalize_nonempty p) as Hn.
  apply String.eqb_neq in Hn. rewrite Hn.
  apply String.eqb_neq in Hp as Hp'. rewrite Hp'.
  rewrite (isAbsolute_normalize p Hp).
  destruct (split_normalize p Hp) as [tail [Ft Es]].
  destruct (Path.isAbsolute p) eqn:Ea.
  - rewrite Es. unfold Path.normSegs at 1.
    cbn [negb app fold_left].
    change (Path.normStep false [] EmptyString) with (@nil string).
    rewrite fold_left_app, fold_normStep_tail by exact Ft.
    pose proof (normSegs_false_names (JS.split Path.slash p)
                  (split_noSep _ _)) as Fn.
    rewrite fold_normStep_names by exact Fn.
    now rewrite app_nil_r, rev_involutive.
  - change (cwd +++ "/" +++ Path.normalize p)
      with (cwd +++ String Path.slash (Path.normalize p)).
    change (cwd +++ "/" +++ p) with (cwd +++ String Path.slash p).
    rewrite !split_app, Es. cbn [negb app].
    unfold Path.normSegs at 1 3.
    rewrite !fold_left_app, fold_normStep_tail by exact Ft.
    rewrite fold_normStep_normSegs; [reflexivity | apply split_noSep |].
    apply fold_normStep_false_names; [apply split_noSep | constructor].
Qed.

(** ** [path.join], [path.resolve] and [path.relative] on arbitrary paths *)

Lemma resolveSegs_names (cwd p : string) :
  Forall (fun s => isName s = true) (Path.resolveSegs cwd p).
Proof. unfold Path.resolveSegs. apply normSegs_false_names, split_noSep. Qed.

Lemma isAbsolute_append (a b : string) :
  a <> EmptyString -> Path.isAbsolute (a +++ b) = Path.isAbsolute a.
Proof. intros Ha. destruct a as [|c r]; [congruence | reflexivity]. Qed.

Lemma append_nonempty (a b : string) :
  a <> EmptyString -> a +++ b <> EmptyString.
Proof. intros Ha. destruct a as [|c r]; [congruence | discriminate]. Qed.

(** Resolving [base/r] goes on from where [base] resolves to. *)
Lemma resolveSegs_slash (cwd base r : string) :
  base <> EmptyString ->
  Path.resolveSegs cwd (base +++ "/" +++ r)
  = rev (fold_left (Path.normStep false) (JS.split Path.slash r)
           (rev (Path.resolveSegs cwd base))).
Proof.
  intros Hb. unfold Path.resolveSegs.
  pose proof (append_nonempty base ("/" +++ r) Hb) as Hn.
  apply String.eqb_neq in Hn. rewrite Hn.
  apply String.eqb_neq in Hb as Hb'. rewrite Hb'.
  rewrite (isAbsolute_append base ("/" +++ r) Hb).
  unfold Path.normSegs. rewrite rev_involutive.
  change (base +++ "/" +++ r) with (base +++ String Path.slash r).
  destruct (Path.isAbsolute base).
  - now rewrite split_app, fold_left_app.
  - change (cwd +++ "/" +++ base +++ String Path.slash r)
      with (cwd +++ String Path.slash (base +++ String Path.slash r)).
    change (cwd +++ "/" +++ base) with (cwd +++ String Path.slash base).
    now rewrite !split_app, !fold_left_app.
Qed.

Lemma join_pair (base r : string) :
  base <> EmptyString ->
  Path.join [base; r]
  = if r =? EmptyString then Path.normalize base
    else Path.normalize (base +++ "/" +++ r).
Proof.
  intros Hb. apply String.eqb_neq in Hb. unfold Path.join. cbn [filter].
  rewrite Hb. cbn [negb]. now destruct (r =? EmptyString).
Qed.

Lemma common_le_l (a b : list string) : Path.common a b <= List.length a.
Proof.
  revert b. induction a as [|x a IH]; intros b; simpl; [lia|].
  destruct b as [|y b]; [lia|]. destruct (x =? y); [|lia].
  specialize (IH b). lia.
Qed.

Lemma common_le_r (a b : list string) : Path.common a b <= List.length b.
Proof.
  revert b. induction a as [|x a IH]; intros b; simpl; [lia|].
  destruct b as [|y b]; [simpl; lia|]. destruct (x =? y); [|lia].
  specialize (IH b). simpl. lia.
Qed.

Lemma common_firstn (a b : list string) :
  firstn (Path.common a b) a = firstn (Path.common a b) b.
Proof.
  revert b. induction a as [|x a IH]; intros b; simpl; [now destruct b|].
  destruct b as [|y b]; [reflexivity|].
  destruct (String.eqb_spec x y) as [->|_]; [|reflexivity].
  simpl. now rewrite IH.
Qed.

(** [path.relative] computes a path back: joined to the path it starts
    from, what it returns leads to the path it was asked for. *)
Lemma relative_leads_back (cwd base target : string) :
  base <> EmptyString ->
  Path.resolveSegs cwd (Path.join [base; Path.relative cwd base target])
  = Path.resolveSegs cwd target.
Proof.
  intros Hb. unfold Path.relative.
  destruct (String.eqb_spec base target) as [<-|_].
  { rewrite join_pair by exact Hb. simpl.
    now apply resolveSegs_normalize. }
  pose proof (resolveSegs_names cwd base) as Ff.
  pose proof (resolveSegs_names cwd target) as Ft.
  set (f := Path.resolveSegs cwd base) in *.
  set (t := Path.resolveSegs cwd target) in *.
  pose proof (common_le_l f t) as Hkf.
  pose proof (common_le_r f t) as Hkt.
  pose proof (common_firstn f t) as Hk.
  set (k := Path.common f t) in *.
  assert (Fl : Forall solid (repeat ".." (List.length f - k) ++ skipn k t)).
  { apply Forall_app. split.
    - apply Forall_repeat. exact solid_dotdot.
    - eapply Forall_impl; [|apply Forall_skipn; exact Ft].
      exact isName_solid. }
  cbv zeta.
  destruct (repeat ".." (List.length f - k) ++ skipn k t) as [|x l] eqn:El.
  - apply app_eq_nil in El. destruct El as [E1 E2].
    assert (Hn : List.length f - k = 0).
    { apply (f_equal (@List.length string)) in E1.
      now rewrite repeat_length in E1. }
    apply (f_equal (@List.length string)) in E2.
    rewrite length_skipn in E2. simpl in E2.
    rewrite join_pair by exact Hb. simpl.
    rewrite resolveSegs_normalize by exact Hb. fold f.
    rewrite <- (firstn_all f), <- (firstn_all t).
    replace (List.length f) with k by lia.
    replace (List.length t) with k by lia. exact Hk.
  - rewrite join_pair by exact Hb.
    rewrite (join_solid_nonempty (x :: l)) by (discriminate || exact Fl).
    rewrite resolveSegs_normalize by now apply append_nonempty.
    rewrite resolveSegs_slash by exact Hb. fold f.
    assert (Hs : JS.split Path.slash (JS.join "/" (x :: l)) = x :: l)
      by (apply (split_join Path.slash);
          [discriminate | now apply solid_noSep]).
    rewrite Hs, <- El, fold_left_app.
    rewrite climb_pops_any by now apply Forall_rev.
    rewrite fold_normStep_names by now apply Forall_skipn.
    rewrite rev_app_distr, rev_involutive, skipn_rev, rev_involutive.
    replace (List.length f - (List.length f - k)) with k by lia.
    rewrite Hk. apply firstn_skipn.
Qed.

Lemma normSegs_idempotent (allow : bool) (l : list string) :
  Forall (noSep Path.slash) l ->
  Path.normSegs allow (Path.normSegs allow l) = Path.normSegs allow l.
Proof.
  intros F. destruct (normSegs_shape allow l F) as [k [names [Fn [E Hk]]]].
  rewrite E. unfold Path.normSegs. rewrite fold_left_app.
  assert (Hc : fold_left (Path.normStep allow) (repeat ".." k) []
               = repeat ".." k).
  { destruct allow.
    - pose proof (climb_kept k 0) as Hk0. simpl repeat in Hk0.
      now rewrite Hk0, Nat.add_0_r.
    - now rewrite (Hk eq_refl). }
  rewrite Hc, fold_normStep_names by exact Fn.
  now rewrite rev_app_distr, rev_involutive, rev_repeat.
Qed.

(** A normalized path is its own normal form. *)
Lemma normalize_idempotent (p : string) :
  Path.normalize (Path.normalize p) = Path.normalize p.
Proof.
  destruct (String.eqb_spec p EmptyString) as [->|Hp]; [reflexivity|].
  pose proof (normSegs_solid (negb (Path.isAbsolute p))
                (JS.split Path.slash p) (split_noSep _ _)) as Fs.
  pose proof (isAbsolute_normalize p Hp) as Ha.
  destruct (split_normalize p Hp) as [tail [Ft Es]].
  destruct (normalize_cases p Hp) as [[_ E]|[Hn E]].
  { rewrite E.
    now destruct (Path.isAbsolute p), (JS.endsWith "/" p). }
  assert (Hsegs : Path.normSegs (negb (Path.isAbsolute p))
                    (JS.split Path.slash (Path.normalize p))
                  = Path.normSegs (negb (Path.isAbsolute p))
                      (JS.split Path.slash p)).
  { rewrite Es.
    rewrite <- (normSegs_idempotent (negb (Path.isAbsolute p))
                  (JS.split Path.slash p)) at 2 by apply split_noSep.
    unfold Path.normSegs at 1 3. f_equal.
    rewrite !fold_left_app, fold_normStep_tail by exact Ft.
    now destruct (Path.isAbsolute p). }
  assert (Hend : JS.endsWith "/" (Path.normalize p) = JS.endsWith "/" p).
  { rewrite E.
    destruct (join_solid_head _ Hn Fs) as [c [r [Ej _]]].
    destruct (JS.endsWith "/" p).
    - rewrite <- !append_assoc. apply endsWith_app.
    - rewrite append_nil_r, Ej. apply eq_trans with
        (JS.endsWith "/" (String c r)).
      + apply endsWith_slash_suffix.
      + rewrite <- Ej. now apply endsWith_slash_join. }
  destruct (normalize_cases (Path.normalize p) (normalize_nonempty p))
    as [[E' _]|[_ E']].
  - rewrite Ha, Hsegs in E'. congruence.
  - rewrite E', Ha, Hsegs, Hend. now rewrite E.
Qed.

Lemma mem_dotdot_repeat (k : nat) (l : list string) :
  JS.mem ".." (repeat ".." k ++ l) = false -> k = 0.
Proof.
  destruct k as [|k]; [reflexivity|]. intros H.
  assert (Hin : In ".." (repeat ".." (S k) ++ l)) by now left.
  apply mem_In in Hin. congruence.
Qed.

(** Mapping and then demapping a reference that stays below the owning
    directory gives the reference in normal form. *)
Lemma round_trip_normal_form (cwd base ref : string) :
  base <> EmptyString -> ref <> EmptyString ->
  Path.isAbsolute ref = false -> climbs ref = false ->
  importDemapper cwd base (importMapper base ref)
  = Path.normalizeString ref true.
Proof.
  intros Hb Hr Ha Hc.
  assert (Hm : importMapper base ref = Path.normalize (base +++ "/" +++ ref)).
  { unfold importMapper. fold (Path.isAbsolute ref). rewrite Ha.
    rewrite join_pair by exact Hb.
    apply String.eqb_neq in Hr. now rewrite Hr. }
  pose proof (resolveSegs_names cwd base) as Ff.
  assert (Ht : Path.resolveSegs cwd (importMapper base ref)
               = Path.resolveSegs cwd base
                 ++ Path.normSegs true (JS.split Path.slash ref)).
  { rewrite Hm, resolveSegs_normalize by now apply append_nonempty.
    rewrite resolveSegs_slash by exact Hb.
    destruct (fold_normStep_segments (JS.split Path.slash ref)
                (split_noSep _ _)) as [k [kept [Fk [Et Ef]]]].
    unfold climbs, Path.normSegs in Hc.
    rewrite Et, rev_app_distr, rev_repeat in Hc.
    apply mem_dotdot_repeat in Hc. subst k.
    unfold Path.normSegs. rewrite Et, Ef by now apply Forall_rev.
    cbn [repeat skipn]. rewrite app_nil_r.
    now rewrite rev_app_distr, rev_involutive. }
  unfold importDemapper, Path.relative, Path.normalizeString.
  destruct (String.eqb_spec base (importMapper base ref)) as [E|_].
  - rewrite <- E in Ht.
    rewrite <- (app_nil_r (Path.resolveSegs cwd base)) in Ht at 1.
    apply app_inv_head in Ht. now rewrite <- Ht.
  - cbv zeta. rewrite Ht, common_app, Nat.sub_diag.
    now rewrite skipn_app, skipn_all, Nat.sub_diag.
Qed.

(** C9 - Mapping a reference that is not absolute joins it to the
    owning document's directory and normalizes the result: the mapped
    path is the normal form of [base/ref], it is its own normal form,
    and it leads where [base/ref] leads. Demapping computes a relative
    path back: joined to the directory, what it returns for a path leads
    to that path. Mapping and then demapping a reference that stays
    below the directory gives the reference in normal form, so a
    reference made of names comes back as it was written; and the
    reference [b.scss] of a document in [a], rewritten from [a/b.scss]
    to [a/b.css], is demapped to exactly [b.css]. *)
Theorem mapping_normalizes_and_demapping_leads_back :
  forall (cwd base ref : string),
    base <> EmptyString -> ref <> EmptyString ->
    Path.isAbsolute ref = false ->
    importMapper base ref = Path.normalize (base +++ "/" +++ ref)
    /\ Path.normalize (importMapper base ref) = importMapper base ref
    /\ Path.resolveSegs cwd (importMapper base ref)
       = Path.resolveSegs cwd (base +++ "/" +++ ref)
    /\ (forall target,
          Path.resolveSegs cwd
            (Path.join [base; importDemapper cwd base target])
          = Path.resolveSegs cwd target)
    /\ (climbs ref = false ->
        importDemapper cwd base (importMapper base ref)
        = Path.normalizeString ref true)
    /\ (forall names,
          names <> [] -> Forall (fun s => isName s = true) names ->
          ref = pathOf names ->
          importDemapper cwd base (importMapper base ref) = ref)
    /\ importMapper "a" "b.scss" = "a/b.scss"
    /\ cssBuiltPath (importMapper "a" "b.scss") = "a/b.css"
    /\ importDemapper cwd "a" (cssBuiltPath (importMapper "a" "b.scss"))
       = "b.css".
Proof.
  intros cwd base ref Hb Hr Ha.
  assert (Hm : importMapper base ref = Path.normalize (base +++ "/" +++ ref)).
  { unfold importMapper. fold (Path.isAbsolute ref). rewrite Ha.
    rewrite join_pair by exact Hb.
    apply String.eqb_neq in Hr. now rewrite Hr. }
  refine (conj Hm (conj _ (conj _ (conj _ (conj _ (conj _ (conj _
            (conj _ _)))))))).
  - rewrite Hm. apply normalize_idempotent.
  - rewrite Hm. apply resolveSegs_normalize. now apply append_nonempty.
  - intros target. unfold importDemapper. now apply relative_leads_back.
  - now apply round_trip_normal_form.
  - intros names Hn Fn ->.
    rewrite round_trip_normal_form; try assumption.
    + unfold Path.normalizeString.
      now rewrite split_pathOf, normSegs_names.
    + unfold climbs. rewrite split_pathOf, normSegs_names by assumption.
      apply mem_false. intros Hin.
      apply (proj1 (Forall_forall _ _) Fn) in Hin. discriminate Hin.
  - reflexivity.
  - reflexivity.
  - change (cssBuiltPath (importMapper "a" "b.scss"))
      with (importMapper "a" "b.css").
    now rewrite round_trip_normal_form.
Qed.

Lemma mapping_normalizes_witness :
  importMapper "a" "./x/../b.scss" = "a/b.scss"
  /\ Path.normalize "a/b.scss" = "a/b.scss"
  /\ importDemapper "/home/site" "a" (importMapper "a" "./x/../b.scss")
     = "b.scss"
  /\ importDemapper "/home/site" "a" (importMapper "a" "b.scss") = "b.scss".
Proof.
  destruct (mapping_normalizes_and_demapping_leads_back
              "/home/site" "a" "./x/../b.scss")
    as [H1 [H2 [_ [_ [H5 _]]]]];
    [discriminate | discriminate | reflexivity |].
  destruct (mapping_normalizes_and_demapping_leads_back
              "/home/site" "a" "b.scss")
    as [_ [_ [_ [_ [_ [H6 _]]]]]];
    [discriminate | discriminate | reflexivity |].
  refine (conj H1 (conj H2 (conj (H5 eq_refl) _))).
  apply (H6 ["b.scss"]); [discriminate | repeat constructor | reflexivity].
Defined.

(** Where the round trip is not the identity: a trailing slash is lost,
    [.] comes back empty, and a reference that climbs out of the
    directory and returns comes back as the short way. *)
Example round_trip_returns_a_normal_form :
  importDemapper "/w" "src" (importMapper "src" "css/") = "css"
  /\ importDemapper "/w" "src" (importMapper "src" ".") = EmptyString
  /\ importMapper "src" "../src/x.scss" = "src/x.scss"
  /\ importDemapper "/w" "src" (importMapper "src" "../src/x.scss")
     = "x.scss"
  /\ importDemapper "/w" "src" (importMapper "src" "../lib/x.scss")
     = "../lib/x.scss".
Proof. refine (conj _ (conj _ (conj _ (conj _ _)))); reflexivity. Qed.
